(** * Stream dialect canonicalization patterns (StreamOpFolders.cpp)

    A shallow embedding of the part of the MLIR data model that the
    canonicalization patterns of the Stream dialect read and mutate:
    operations with identity, operand groups, result types, tied operands
    and an affinity, kept in program order; SSA values as handles to an
    operation result or a block argument.  The patterns are transcribed
    from [iree/compiler/Dialect/Stream/IR/StreamOpFolders.cpp]. *)

From stdpp Require Import base decidable option numbers list.
From Stdlib Require Import ZArith Lia.

Local Open Scope nat_scope.

(** ** Data model *)

Definition OpId := nat.
Definition BlockId := nat.

(** [IREE::Stream::Lifetime]. *)
Inductive Lifetime := Unknown | External | Staging | Transient | Constant.

(** The types the patterns distinguish. *)
Inductive Ty :=
| ResourceType (lifetime : Lifetime)
| TimepointType
| IndexType
| OtherType.

(** [mlir::Value]: a nullable handle to a result of an operation or to an
    argument of a block. *)
Inductive Value :=
| NullValue
| OpResult (owner : OpId) (resultNumber : nat)
| BlockArgument (owner : BlockId) (argNumber : nat).

(** Operation names (the ops the patterns cast to, and a generic rest). *)
Inductive OpName :=
| stream_resource_subview
| stream_tensor_clone
| stream_async_splat
| stream_async_clone
| stream_async_slice
| stream_async_update
| stream_async_copy
| stream_async_dispatch
| stream_async_execute
| stream_cmd_execute
| stream_timepoint_immediate
| stream_timepoint_await
| std_branch
| other_op.

(** [IREE::Stream::AffinityAttr]; [None] is the null attribute. *)
Definition AffinityAttr := option nat.

#[global] Instance Lifetime_eq_dec : EqDecision Lifetime.
Proof. solve_decision. Defined.
#[global] Instance Ty_eq_dec : EqDecision Ty.
Proof. solve_decision. Defined.
#[global] Instance Value_eq_dec : EqDecision Value.
Proof. solve_decision. Defined.
#[global] Instance OpName_eq_dec : EqDecision OpName.
Proof. solve_decision. Defined.

(** [mlir::Operation].  [op_id] stands for the address of the operation;
    [op_operands] are the ODS operand groups in declaration order, the flat
    operand list being their concatenation; [op_tied_operands] gives, per
    result, the flat operand index the result is tied to
    ([Util::TiedOpInterface]; empty for ops without the interface). *)
Record Operation := mkOp {
  op_id : OpId;
  op_name : OpName;
  op_block : BlockId;
  op_operands : list (list Value);
  op_result_types : list Ty;
  op_tied_operands : list (option nat);
  op_affinity : AffinityAttr;
}.

#[global] Instance Operation_eq_dec : EqDecision Operation.
Proof. solve_decision. Defined.

(** The operations of a function body in program order; the operations of
    one block appear in block order. *)
Abbreviation IR := (list Operation).

Inductive LogicalResult := success | failure.

#[global] Instance LogicalResult_eq_dec : EqDecision LogicalResult.
Proof. solve_decision. Defined.

(** ** Operation and value accessors *)

(** [Operation::getOperands]. *)
Definition getOperands (op : Operation) : list Value :=
  concat (op_operands op).

(** [Operation::getOperand(n)]; null when out of range. *)
Definition getOperand (op : Operation) (n : nat) : Value :=
  default NullValue (getOperands op !! n).

(** The n-th ODS operand group of a variadic op. *)
Definition getODSOperands (op : Operation) (n : nat) : list Value :=
  default [] (op_operands op !! n).

(** [Value::getDefiningOp]: the owner of an op result, null otherwise. *)
Definition getDefiningOp (v : Value) : option OpId :=
  match v with
  | OpResult owner _ => Some owner
  | _ => None
  end.

Fixpoint lookupOp (ir : IR) (id : OpId) : option Operation :=
  match ir with
  | [] => None
  | o :: rest => if decide (op_id o = id) then Some o else lookupOp rest id
  end.

(** [isa_and_nonnull<T>(v.getDefiningOp())]. *)
Definition definedBy (ir : IR) (name : OpName) (v : Value) : bool :=
  match getDefiningOp v with
  | Some id =>
      match lookupOp ir id with
      | Some o => bool_decide (op_name o = name)
      | None => false
      end
  | None => false
  end.

(** Position of an operation in program order. *)
Fixpoint opIndex (ir : IR) (id : OpId) : option nat :=
  match ir with
  | [] => None
  | o :: rest =>
      if decide (op_id o = id) then Some 0 else S <$> opIndex rest id
  end.

(** [a->isBeforeInBlock(b)] for two operations of one block. *)
Definition isBeforeInBlock (ir : IR) (a b : OpId) : bool :=
  match opIndex ir a, opIndex ir b with
  | Some i, Some j => bool_decide (i < j)
  | _, _ => false
  end.

(** The uses of [v] inside one operand list, as flat operand numbers. *)
Fixpoint usesIn (v : Value) (owner : OpId) (k : nat) (l : list Value)
  : list (OpId * nat) :=
  match l with
  | [] => []
  | x :: l' =>
      (if decide (x = v) then [(owner, k)] else []) ++ usesIn v owner (S k) l'
  end.

(** Every operand slot (owner, operand number) holding [v], in program
    order. *)
Definition usesInProgramOrder (ir : IR) (v : Value) : list (OpId * nat) :=
  o ← ir; usesIn v (op_id o) 0 (getOperands o).

(** [Value::getUses]: the use list of [v].  MLIR links a new use in at the
    head of the list, so the list runs from the newest use to the oldest.
    The IR is taken as the parser builds it, operation by operation and
    operand by operand: the use list is then the slots holding [v] from
    the last of the program to the first. *)
Definition getUses (ir : IR) (v : Value) : list (OpId * nat) :=
  reverse (usesInProgramOrder ir v).

(** ** Mutation primitives *)

(** Assign flat operand [k] inside the operand groups. *)
Fixpoint setOperandIn (groups : list (list Value)) (k : nat) (v : Value)
  : list (list Value) :=
  match groups with
  | [] => []
  | g :: gs =>
      if decide (k < length g) then <[k := v]> g :: gs
      else g :: setOperandIn gs (k - length g) v
  end.

Definition withOperands (op : Operation) (groups : list (list Value))
  : Operation :=
  mkOp (op_id op) (op_name op) (op_block op) groups
       (op_result_types op) (op_tied_operands op) (op_affinity op).

Definition withBlock (op : Operation) (b : BlockId) : Operation :=
  mkOp (op_id op) (op_name op) b (op_operands op)
       (op_result_types op) (op_tied_operands op) (op_affinity op).

(** Apply [f] to the operation with identity [id]. *)
Definition updateOp (ir : IR) (id : OpId) (f : Operation -> Operation) : IR :=
  (fun o => if decide (op_id o = id) then f o else o) <$> ir.

(** [Operation::setOperand(k, v)]. *)
Definition setOperand (ir : IR) (id : OpId) (k : nat) (v : Value) : IR :=
  updateOp ir id (fun o => withOperands o (setOperandIn (op_operands o) k v)).

(** Assign a whole ODS operand group ([MutableOperandRange::assign]). *)
Definition assignODSOperands (ir : IR) (id : OpId) (n : nat)
    (vs : list Value) : IR :=
  updateOp ir id (fun o => withOperands o (<[n := vs]> (op_operands o))).

(** Insert [new] immediately before the operation [target]. *)
Fixpoint insertBefore (ir : IR) (target : OpId) (new : Operation) : IR :=
  match ir with
  | [] => []
  | o :: rest =>
      if decide (op_id o = target) then new :: o :: rest
      else o :: insertBefore rest target new
  end.

(** [Operation::erase]. *)
Definition eraseOp (ir : IR) (id : OpId) : IR :=
  filter (fun o => op_id o ≠ id) ir.

(** Identity of the next operation the builder allocates. *)
Definition freshId (ir : IR) : OpId := S (max_list (op_id <$> ir)).

(** [Value::replaceAllUsesWith]. *)
Definition replaceValue (old new v : Value) : Value :=
  if decide (v = old) then new else v.

Definition mapOperands (f : Value -> Value) (ir : IR) : IR :=
  (fun o => withOperands o (fmap (M:=list) f <$> op_operands o)) <$> ir.

Definition replaceAllUsesWith (ir : IR) (old new : Value) : IR :=
  mapOperands (replaceValue old new) ir.

(** ** Helpers shared by the patterns *)

(** The operation defining [v], when it is in the IR. *)
Definition definingOp (ir : IR) (v : Value) : option Operation :=
  getDefiningOp v ≫= lookupOp ir.

(** [dyn_cast_or_null<T>(v.getDefiningOp())]. *)
Definition dynCastDefiningOp (ir : IR) (name : OpName) (v : Value)
  : option Operation :=
  match definingOp ir v with
  | Some o => if decide (op_name o = name) then Some o else None
  | None => None
  end.

(** [Operation::getResults]. *)
Definition getResults (op : Operation) : list Value :=
  imap (fun i _ => OpResult (op_id op) i) (op_result_types op).

(** Replace result [i], [i+1], ... of [id] by [vals], in order. *)
Fixpoint replaceResultsFrom (ir : IR) (id : OpId) (i : nat)
    (vals : list Value) : IR :=
  match vals with
  | [] => ir
  | v :: vs => replaceResultsFrom (replaceAllUsesWith ir (OpResult id i) v)
                 id (S i) vs
  end.

(** [PatternRewriter::replaceOp(op, values)]. *)
Definition replaceOp (ir : IR) (id : OpId) (vals : list Value) : IR :=
  eraseOp (replaceResultsFrom ir id 0 vals) id.

(** [PatternRewriter::replaceOpWithNewOp<T>(op, ...)]: the new operation is
    created at the insertion point (the root op) and takes over the uses. *)
Definition replaceOpWithNewOp (ir : IR) (old new : Operation) : IR :=
  replaceOp (insertBefore ir (op_id old) new) (op_id old) (getResults new).

(** Modelled from the spec: [Util::TiedOpInterface] (declared outside
    StreamOpFolders.cpp), "a tie from a specific result index to a specific
    operand index"; an operand is tied when some result is tied to it. *)
Definition isOperandTied (op : Operation) (k : nat) : bool :=
  bool_decide (Some k ∈ op_tied_operands op).

(** Modelled from the spec: [TiedOpInterface::getTiedResultOperand], the
    operand a result is tied to (null when the result is untied). *)
Definition getTiedResultOperand (op : Operation) (result : Value) : Value :=
  match result with
  | OpResult _ i =>
      match op_tied_operands op !! i with
      | Some (Some k) => getOperand op k
      | _ => NullValue
      end
  | _ => NullValue
  end.

(** Modelled from the spec: [TiedOpInterface::hasAnyTiedUses], whether some
    consumer marks its use of the value as a tied input. *)
Definition hasAnyTiedUses (ir : IR) (v : Value) : bool :=
  existsb (fun use : OpId * nat =>
             match lookupOp ir use.1 with
             | Some owner => isOperandTied owner use.2
             | None => false
             end) (getUses ir v).

(** Modelled from the spec: [AffinityAttr::areCompatible], "two affinities
    are compatible iff both are absent or equal". *)
Definition areCompatible (a b : AffinityAttr) : bool := bool_decide (a = b).

(** ** Utilities shared across patterns: findInsertionPointBefore, sinkOp *)

(** The operations of block [b], in block order. *)
Definition blockOps (ir : IR) (b : BlockId) : IR :=
  filter (fun o => op_block o = b) ir.

(** The part of an operation list starting at [id]. *)
Fixpoint opsFrom (l : IR) (id : OpId) : option IR :=
  match l with
  | [] => None
  | o :: rest => if decide (op_id o = id) then Some l else opsFrom rest id
  end.

(** The part of an operation list in front of [id]. *)
Fixpoint opsUntil (l : IR) (id : OpId) : option IR :=
  match l with
  | [] => None
  | o :: rest =>
      if decide (op_id o = id) then Some []
      else cons o <$> opsUntil rest id
  end.

(** The iterator range [Block::iterator(earliestOp), Block::iterator(targetOp))
    of the loop in findInsertionPointBefore; [None] when walking forward from
    [earliestOp] never reaches [targetOp] (the C++ loop then leaves the
    block, which is undefined). *)
Definition opsBetween (ir : IR) (earliestOp targetOp : Operation)
  : option IR :=
  opsFrom (blockOps ir (op_block earliestOp)) (op_id earliestOp)
    ≫= fun l => opsUntil l (op_id targetOp).

(** The set [producerOps] built from the operands of the target. *)
Definition producerOps (targetOp : Operation) : list OpId :=
  omap getDefiningOp (getOperands targetOp).

(** [findInsertionPointBefore]: the returned iterator is named by the
    operation it points at. *)
Definition findInsertionPointBefore (ir : IR) (earliestOp targetOp : Operation)
  : option OpId :=
  if decide (op_block earliestOp = op_block targetOp) then
    range ← opsBetween ir earliestOp targetOp;
    let allUsed :=
      forallb (fun o => bool_decide (op_id o ∈ producerOps targetOp)) range in
    if allUsed then Some (op_id earliestOp) else Some (op_id targetOp)
  else Some (op_id targetOp).

(** [Operation::moveBefore]. *)
Definition moveBefore (ir : IR) (op targetOp : Operation) : IR :=
  insertBefore (eraseOp ir (op_id op)) (op_id targetOp)
    (withBlock op (op_block targetOp)).

(** [sinkOp]. *)
Definition sinkOp (ir : IR) (op targetOp : Operation)
  : option (LogicalResult * IR) :=
  ip ← findInsertionPointBefore ir op targetOp;
  if decide (ip = op_id op) then Some (failure, ir)
  else Some (success, moveBefore ir op targetOp).

(** ** MaterializeCOW *)

Record TiedUse := mkTiedUse {
  user : OpId;
  operandIndex : nat;
  value : Value;
}.

(** The loop over [result.getUses()] that fills [tiedUses] and counts
    [untiedUses]. *)
Definition classifyUse (ir : IR) (result : Value)
    (acc : list TiedUse * nat) (use : OpId * nat) : list TiedUse * nat :=
  match lookupOp ir use.1 with
  | Some owner =>
      if decide (op_name owner = stream_timepoint_await) then acc
      else if isOperandTied owner use.2
           then (acc.1 ++ [mkTiedUse use.1 use.2 result], acc.2)
           else (acc.1, S acc.2)
  | None => acc
  end.

Definition classifyUses (ir : IR) (result : Value) : list TiedUse * nat :=
  foldl (classifyUse ir result) ([], 0) (getUses ir result).

(** The early [continue]s of the loop over the results. *)
Definition skipsResult (forceClone : bool) (uses : list TiedUse * nat)
  : bool :=
  match uses.1 with
  | [] => true
  | [_] => bool_decide (uses.2 = 0) && negb forceClone
  | _ => false
  end.

Section MaterializeCOW.

(** Modelled from the spec: [SizeAwareTypeInterface::queryValueSize] (Util
    dialect, not part of StreamOpFolders.cpp), "resource-typed values carry
    or can be queried for an associated size value"; the size is taken to be
    found in scope, so that the query adds no operation. *)
Variable queryValueSize : Value -> Value.

(** The body of the loop over [tiedUses]: create the clone in front of the
    user and make the user consume it. *)
Definition cloneTiedUse (sourceAffinity : AffinityAttr) (ir : IR)
    (tiedUse : TiedUse) : IR :=
  match lookupOp ir (user tiedUse) with
  | Some userOp =>
      let targetSize := queryValueSize (value tiedUse) in
      let targetAffinity := op_affinity userOp in
      let cloneOp :=
        mkOp (freshId ir) stream_async_clone (op_block userOp)
             [[value tiedUse]; [targetSize]; [targetSize]]
             [ResourceType Unknown] []
             (if targetAffinity is Some _ then targetAffinity
              else sourceAffinity) in
      setOperand (insertBefore ir (user tiedUse) cloneOp)
        (user tiedUse) (operandIndex tiedUse) (OpResult (op_id cloneOp) 0)
  | None => ir
  end.

(** The body of the loop over [op->getResults()], for result [i] of type
    [ty]; the state is ([didChange], IR). *)
Definition materializeResult (op : Operation) (st : bool * IR)
    (res : nat * Ty) : bool * IR :=
  match res.2 with
  | ResourceType lifetime =>
      let result := OpResult (op_id op) res.1 in
      let forceClone := bool_decide (lifetime = Constant) in
      let uses := classifyUses st.2 result in
      if skipsResult forceClone uses then st
      else (true, foldl (cloneTiedUse (op_affinity op)) st.2 uses.1)
  | _ => st
  end.

(** [MaterializeCOW<Op>::matchAndRewrite]. *)
Definition MaterializeCOW (ir : IR) (op : Operation) : LogicalResult * IR :=
  let st := foldl (materializeResult op) (false, ir)
              (imap pair (op_result_types op)) in
  (if st.1 then success else failure, st.2).

End MaterializeCOW.

(** ** stream.resource.subview and stream.async.slice folds *)

Module ResourceSubviewOp.
Definition source (op : Operation) := getOperand op 0.
Definition source_size (op : Operation) := getOperand op 1.
Definition source_offset (op : Operation) := getOperand op 2.
Definition result_size (op : Operation) := getOperand op 3.

(** [ResourceSubviewOp::fold]. *)
Definition fold (op : Operation) : option Value :=
  if decide (source_size op = result_size op) then Some (source op)
  else None.
End ResourceSubviewOp.

Module AsyncSliceOp.
Definition source (op : Operation) := getOperand op 0.
Definition source_size (op : Operation) := getOperand op 1.
Definition source_offset (op : Operation) := getOperand op 2.
Definition source_end (op : Operation) := getOperand op 3.
Definition result_size (op : Operation) := getOperand op 4.

(** [AsyncSliceOp::fold]. *)
Definition fold (op : Operation) : option Value :=
  if decide (source_size op = result_size op) then Some (source op)
  else None.
End AsyncSliceOp.

(** ** stream.tensor.clone and stream.async.clone *)

Module TensorCloneOp.
Definition source (op : Operation) := getOperand op 0.
Definition result (op : Operation) := OpResult (op_id op) 0.
End TensorCloneOp.

Module AsyncCloneOp.
Definition source (op : Operation) := getOperand op 0.
Definition result (op : Operation) := OpResult (op_id op) 0.
End AsyncCloneOp.

(** [ElideUnneededTensorClones::matchAndRewrite]. *)
Definition ElideUnneededTensorClones (ir : IR) (cloneOp : Operation)
  : LogicalResult * IR :=
  if negb (hasAnyTiedUses ir (TensorCloneOp.result cloneOp)) then
    (success, replaceOp ir (op_id cloneOp) [TensorCloneOp.source cloneOp])
  else (failure, ir).

(** [ElideUnneededAsyncClones::matchAndRewrite]. *)
Definition ElideUnneededAsyncClones (ir : IR) (cloneOp : Operation)
  : LogicalResult * IR :=
  if negb (hasAnyTiedUses ir (AsyncCloneOp.result cloneOp))
     && negb (hasAnyTiedUses ir (AsyncCloneOp.source cloneOp)) then
    (success, replaceOp ir (op_id cloneOp) [AsyncCloneOp.source cloneOp])
  else (failure, ir).

(** ** stream.async.update and stream.async.copy *)

Module AsyncUpdateOp.
Definition target (op : Operation) := getOperand op 0.
Definition target_size (op : Operation) := getOperand op 1.
Definition target_offset (op : Operation) := getOperand op 2.
Definition target_end (op : Operation) := getOperand op 3.
Definition update (op : Operation) := getOperand op 4.
Definition update_size (op : Operation) := getOperand op 5.

(** The builder called by [rewriter.replaceOpWithNewOp<AsyncUpdateOp>]. *)
Definition build (id : OpId) (block : BlockId) (resultTypes : list Ty)
    (target target_size target_offset target_end update update_size : Value)
    (tied_operands : list (option nat)) (affinity : AffinityAttr)
  : Operation :=
  mkOp id stream_async_update block
       [[target]; [target_size]; [target_offset]; [target_end];
        [update]; [update_size]]
       resultTypes tied_operands affinity.
End AsyncUpdateOp.

Module AsyncCopyOp.
Definition target (op : Operation) := getOperand op 0.
Definition target_size (op : Operation) := getOperand op 1.
Definition target_offset (op : Operation) := getOperand op 2.
Definition target_end (op : Operation) := getOperand op 3.
Definition source (op : Operation) := getOperand op 4.
Definition source_size (op : Operation) := getOperand op 5.
Definition source_offset (op : Operation) := getOperand op 6.
Definition source_end (op : Operation) := getOperand op 7.
Definition length (op : Operation) := getOperand op 8.

(** The builder called by [rewriter.replaceOpWithNewOp<AsyncCopyOp>]. *)
Definition build (id : OpId) (block : BlockId) (resultTypes : list Ty)
    (target target_size target_offset target_end
     source source_size source_offset source_end length : Value)
    (tied_operands : list (option nat)) (affinity : AffinityAttr)
  : Operation :=
  mkOp id stream_async_copy block
       [[target]; [target_size]; [target_offset]; [target_end];
        [source]; [source_size]; [source_offset]; [source_end]; [length]]
       resultTypes tied_operands affinity.
End AsyncCopyOp.

(** The copy op that [CombineSliceUpdateFromToCopy] builds. *)
Definition sliceUpdateCopy (ir : IR) (updateOp sliceOp : Operation)
  : Operation :=
  AsyncCopyOp.build (freshId ir) (op_block updateOp)
    (op_result_types updateOp)
    (AsyncUpdateOp.target updateOp) (AsyncUpdateOp.target_size updateOp)
    (AsyncUpdateOp.target_offset updateOp) (AsyncUpdateOp.target_end updateOp)
    (AsyncSliceOp.source sliceOp) (AsyncSliceOp.source_size sliceOp)
    (AsyncSliceOp.source_offset sliceOp) (AsyncSliceOp.source_end sliceOp)
    (AsyncSliceOp.result_size sliceOp)
    (op_tied_operands updateOp) (op_affinity updateOp).

(** [CombineSliceUpdateFromToCopy::matchAndRewrite]. *)
Definition CombineSliceUpdateFromToCopy (ir : IR) (updateOp : Operation)
  : LogicalResult * IR :=
  match dynCastDefiningOp ir stream_async_slice
          (AsyncUpdateOp.update updateOp) with
  | None => (failure, ir)
  | Some sliceOp =>
      if decide (op_block sliceOp ≠ op_block updateOp) then (failure, ir)
      else
        match definingOp ir (AsyncUpdateOp.target updateOp) with
        | None => (failure, ir)
        | Some targetDefOp =>
            if bool_decide (op_block targetDefOp ≠ op_block sliceOp)
               || isBeforeInBlock ir (op_id sliceOp) (op_id targetDefOp)
            then (failure, ir)
            else (success,
                  replaceOpWithNewOp ir updateOp
                    (sliceUpdateCopy ir updateOp sliceOp))
        end
  end.

(** The update op that [AsyncCopyFullSourceToUpdate] builds. *)
Definition copyAsUpdate (ir : IR) (copyOp : Operation) : Operation :=
  AsyncUpdateOp.build (freshId ir) (op_block copyOp)
    (op_result_types copyOp)
    (AsyncCopyOp.target copyOp) (AsyncCopyOp.target_size copyOp)
    (AsyncCopyOp.target_offset copyOp) (AsyncCopyOp.target_end copyOp)
    (AsyncCopyOp.source copyOp) (AsyncCopyOp.source_size copyOp)
    (op_tied_operands copyOp) (op_affinity copyOp).

(** [AsyncCopyFullSourceToUpdate::matchAndRewrite]. *)
Definition AsyncCopyFullSourceToUpdate (ir : IR) (copyOp : Operation)
  : LogicalResult * IR :=
  if decide (AsyncCopyOp.source_end copyOp = AsyncCopyOp.source_size copyOp)
  then (success, replaceOpWithNewOp ir copyOp (copyAsUpdate ir copyOp))
  else (failure, ir).

(** ** stream.async.execute and stream.cmd.execute *)

(** Operand groups of the two execute ops, in ODS order. *)
Module AsyncExecuteOp.
Definition operandsGroup := 0.
Definition operand_sizesGroup := 1.
Definition result_sizesGroup := 2.
Definition await_timepointsGroup := 3.
Definition operands (op : Operation) := getODSOperands op operandsGroup.
Definition await_timepoints (op : Operation) :=
  getODSOperands op await_timepointsGroup.
End AsyncExecuteOp.

Module CmdExecuteOp.
Definition operandsGroup := 0.
Definition operand_sizesGroup := 1.
Definition await_timepointsGroup := 2.
Definition operands (op : Operation) := getODSOperands op operandsGroup.
Definition await_timepoints (op : Operation) :=
  getODSOperands op await_timepointsGroup.
End CmdExecuteOp.

(** [MutableOperandRange::erase(idx)] on one operand group. *)
Definition eraseODSOperand (group idx : nat) (op : Operation) : Operation :=
  withOperands op
    (<[group := delete idx (getODSOperands op group)]> (op_operands op)).

(** [MutableOperandRange::slice(idx, 1).assign(v)] on one operand group. *)
Definition assignODSOperand (group idx : nat) (v : Value) (op : Operation)
  : Operation :=
  withOperands op
    (<[group := <[idx := v]> (getODSOperands op group)]> (op_operands op)).

(** The indices pushed to [elidedTimepoints], counting from [k]. *)
Fixpoint elidedTimepoints (ir : IR) (k : nat) (timepoints : list Value)
  : list nat :=
  match timepoints with
  | [] => []
  | v :: rest =>
      (if definedBy ir stream_timepoint_immediate v then [k] else [])
        ++ elidedTimepoints ir (S k) rest
  end.

(** [ElideImmediateAsyncExecuteWaits] and [ElideImmediateCmdExecuteWaits],
    for the await group [g] of the op. *)
Definition ElideImmediateExecuteWaits (g : nat) (ir : IR) (op : Operation)
  : LogicalResult * IR :=
  let elided := elidedTimepoints ir 0 (getODSOperands op g) in
  if decide (elided = []) then (failure, ir)
  else (success,
        updateOp ir (op_id op) (fun o =>
          foldl (fun o idx => eraseODSOperand g idx o) o (reverse elided))).

Definition ElideImmediateAsyncExecuteWaits :=
  ElideImmediateExecuteWaits AsyncExecuteOp.await_timepointsGroup.
Definition ElideImmediateCmdExecuteWaits :=
  ElideImmediateExecuteWaits CmdExecuteOp.await_timepointsGroup.

(** [SetVector<Value>::insert(begin, end)]. *)
Definition setVectorInsert (sv : list Value) (vs : list Value) : list Value :=
  foldl (fun acc v => if decide (v ∈ acc) then acc else acc ++ [v]) sv vs.

(** [ElideDuplicateAsyncExecuteWaits] and [ElideDuplicateCmdExecuteWaits]. *)
Definition ElideDuplicateExecuteWaits (g : nat) (ir : IR) (op : Operation)
  : LogicalResult * IR :=
  let uniqueTimepoints := setVectorInsert [] (getODSOperands op g) in
  if decide (length uniqueTimepoints = length (getODSOperands op g))
  then (failure, ir)
  else (success, assignODSOperands ir (op_id op) g uniqueTimepoints).

Definition ElideDuplicateAsyncExecuteWaits :=
  ElideDuplicateExecuteWaits AsyncExecuteOp.await_timepointsGroup.
Definition ElideDuplicateCmdExecuteWaits :=
  ElideDuplicateExecuteWaits CmdExecuteOp.await_timepointsGroup.

(** The pairs pushed to [replacements], counting from operand [k]. *)
Fixpoint awaitReplacements (ir : IR) (k : nat) (operands : list Value)
  : list (nat * Value) :=
  match operands with
  | [] => []
  | v :: rest =>
      match dynCastDefiningOp ir stream_timepoint_await v with
      | Some awaitOp => [(k, getTiedResultOperand awaitOp v)]
      | None => []
      end ++ awaitReplacements ir (S k) rest
  end.

(** [ChainAsyncExecuteWaits] and [ChainCmdExecuteWaits] (the two bodies are
    the same text; [op.operands()] is group 0 of both ops). *)
Definition ChainExecuteWaits (ir : IR) (op : Operation)
  : LogicalResult * IR :=
  let replacements := awaitReplacements ir 0 (getODSOperands op 0) in
  if decide (replacements = []) then (failure, ir)
  else (success,
        updateOp ir (op_id op) (fun o =>
          foldl (fun o (r : nat * Value) => assignODSOperand 0 r.1 r.2 o)
                o replacements)).

Definition ChainAsyncExecuteWaits := ChainExecuteWaits.
Definition ChainCmdExecuteWaits := ChainExecuteWaits.

(** ** stream.timepoint.await *)

Module TimepointAwaitOp.
Definition operands (op : Operation) := getODSOperands op 0.
Definition operand_sizes (op : Operation) := getODSOperands op 1.
Definition timepoint (op : Operation) := default NullValue (head (getODSOperands op 2)).

(** The builder [TimepointAwaitOp(loc, operands, operand_sizes, timepoint)]:
    one result per operand, result [i] tied to operand [i]. *)
Definition build (id : OpId) (block : BlockId) (resultTypes : list Ty)
    (operands operand_sizes : list Value) (timepoint : Value)
    (affinity : AffinityAttr) : Operation :=
  mkOp id stream_timepoint_await block
       [operands; operand_sizes; [timepoint]]
       resultTypes (Some <$> seq 0 (List.length operands)) affinity.
End TimepointAwaitOp.

(** The test of the loop over [op.timepoint().getUses()]. *)
Definition coversAwait (ir : IR) (op owner : Operation) : bool :=
  if decide (op_id owner = op_id op) then false
  else if bool_decide (op_block owner ≠ op_block op)
          || isBeforeInBlock ir (op_id owner) (op_id op) then false
  else if negb (bool_decide (op_name owner = stream_timepoint_await))
          || negb (areCompatible (op_affinity op) (op_affinity owner))
       then false
  else true.

Definition coveredOps (ir : IR) (op : Operation) : list Operation :=
  omap (fun use : OpId * nat =>
          match lookupOp ir use.1 with
          | Some owner => if coversAwait ir op owner then Some owner else None
          | None => None
          end) (getUses ir (TimepointAwaitOp.timepoint op)).

(** The loop replacing the results of the covered ops: [st] is
    ([resultIdx], IR). *)
Definition replaceCovered (new : OpId) (st : nat * IR) (coveredOp : Operation)
  : nat * IR :=
  let n := List.length (op_result_types coveredOp) in
  (st.1 + n,
   eraseOp (replaceResultsFrom st.2 (op_id coveredOp) 0
              ((fun j => OpResult new (st.1 + j)) <$> seq 0 n))
           (op_id coveredOp)).

(** [GroupAwaitsByTimepoint::matchAndRewrite].  The merged op is created
    at the rewriter's insertion point, in front of the root op; its result
    types are those of the merged awaits, in order (the builder takes them
    from the operands, whose types the awaits pass through). *)
Definition GroupAwaitsByTimepoint (ir : IR) (op : Operation)
  : LogicalResult * IR :=
  let covered := coveredOps ir op in
  if decide (covered = []) then (failure, ir)
  else
    let newOperands :=
      TimepointAwaitOp.operands op ++ (covered ≫= TimepointAwaitOp.operands) in
    let newOperandSizes :=
      TimepointAwaitOp.operand_sizes op
        ++ (covered ≫= TimepointAwaitOp.operand_sizes) in
    let newOp :=
      TimepointAwaitOp.build (freshId ir) (op_block op)
        (op_result_types op ++ (covered ≫= op_result_types))
        newOperands newOperandSizes (TimepointAwaitOp.timepoint op)
        (op_affinity op) in
    let ir1 := insertBefore ir (op_id op) newOp in
    let n := List.length (op_result_types op) in
    let ir2 := replaceResultsFrom ir1 (op_id op) 0
                 ((fun j => OpResult (op_id newOp) j) <$> seq 0 n) in
    let st := foldl (replaceCovered (op_id newOp)) (n, ir2) covered in
    (success, eraseOp st.2 (op_id op)).

(** ** The conditions as the specification words them *)

(** "Remove the clone if the result has no tied uses and the source has no
    tied uses." *)
Definition neitherSideTied (ir : IR) (cloneOp : Operation) : Prop :=
  hasAnyTiedUses ir (TensorCloneOp.result cloneOp) = false
  ∧ hasAnyTiedUses ir (TensorCloneOp.source cloneOp) = false.

(** "Both the slice and the target defining op are in the same block as the
    update and the slice is produced after the target's defining op." *)
Definition sliceProducedAfterTarget (ir : IR) (updateOp sliceOp : Operation)
  : Prop :=
  op_block sliceOp = op_block updateOp
  ∧ ∃ targetDefOp,
      definingOp ir (AsyncUpdateOp.target updateOp) = Some targetDefOp
      ∧ op_block targetDefOp = op_block updateOp
      ∧ isBeforeInBlock ir (op_id targetDefOp) (op_id sliceOp) = true.

(** What the guard of the pattern admits: the slice is not in front of the
    target's defining op, that is, behind it or that very operation. *)
Definition sliceNotBeforeTarget (ir : IR) (updateOp sliceOp : Operation)
  : Prop :=
  op_block sliceOp = op_block updateOp
  ∧ ∃ targetDefOp,
      definingOp ir (AsyncUpdateOp.target updateOp) = Some targetDefOp
      ∧ op_block targetDefOp = op_block updateOp
      ∧ (isBeforeInBlock ir (op_id targetDefOp) (op_id sliceOp) = true
         ∨ op_id targetDefOp = op_id sliceOp).

(** "The source range equals the entire source": the copied bytes
    [source_offset, source_end) are all of [0, source_size), under the
    run-time contents [valueOf] of the index-typed SSA values. *)
Definition coversEntireSource (valueOf : Value -> Z) (copyOp : Operation)
  : Prop :=
  valueOf (AsyncCopyOp.source_offset copyOp) = 0%Z
  ∧ valueOf (AsyncCopyOp.source_end copyOp)
    = valueOf (AsyncCopyOp.source_size copyOp).

(** ** Example inputs *)

(** A copy of the tail [4, 16) of a 16-byte source into [0, 12) of the
    target: values 0..3 of block 0 are target, source, and the index values
    [%c0], [%c4], [%c12], [%c16]. *)
Definition tailCopyOp : Operation :=
  AsyncCopyOp.build 7 0 [ResourceType Transient]
    (BlockArgument 0 0) (BlockArgument 0 5) (BlockArgument 0 2)
    (BlockArgument 0 4)
    (BlockArgument 0 1) (BlockArgument 0 5) (BlockArgument 0 3)
    (BlockArgument 0 5) (BlockArgument 0 4)
    [Some 0] None.

Definition tailCopyIR : IR :=
  [tailCopyOp;
   mkOp 8 other_op 0 [[OpResult 7 0]] [] [] None].

Definition tailCopyValues (v : Value) : Z :=
  match v with
  | BlockArgument 0 2 => 0
  | BlockArgument 0 3 => 4
  | BlockArgument 0 4 => 12
  | BlockArgument 0 5 => 16
  | _ => 0
  end.

(** A clone whose source [%1] is also written in place by op 3, while the
    clone's own result is only read (by op 4). *)
Definition readerCloneOp : Operation :=
  mkOp 2 stream_tensor_clone 0 [[OpResult 1 0]]
       [ResourceType Transient] [] None.

Definition readerCloneIR : IR :=
  [mkOp 1 other_op 0 [] [ResourceType Transient] [] None;
   readerCloneOp;
   mkOp 3 other_op 0 [[OpResult 1 0]] [ResourceType Transient] [Some 0] None;
   mkOp 4 other_op 0 [[OpResult 2 0]] [] [] None].

(** An update that writes a slice into itself: the slice op 2 defines both
    the target and the update operand of op 3. *)
Definition selfSliceOp : Operation :=
  mkOp 2 stream_async_slice 0
       [[OpResult 1 0]; [BlockArgument 0 0]; [BlockArgument 0 1];
        [BlockArgument 0 2]; [BlockArgument 0 3]]
       [ResourceType Transient] [] None.

Definition selfUpdateOp : Operation :=
  AsyncUpdateOp.build 3 0 [ResourceType Transient]
    (OpResult 2 0) (BlockArgument 0 3) (BlockArgument 0 4)
    (BlockArgument 0 5) (OpResult 2 0) (BlockArgument 0 6)
    [Some 0] None.

Definition selfUpdateIR : IR :=
  [mkOp 1 other_op 0 [] [ResourceType Transient] [] None;
   selfSliceOp;
   selfUpdateOp;
   mkOp 4 other_op 0 [[OpResult 3 0]] [] [] None].


(** ** The await list of an execute op *)

(** Run a pattern on the op with identity [id]; a pattern that fails leaves
    the IR as it is. *)
Definition applyPattern (pattern : IR -> Operation -> LogicalResult * IR)
    (ir : IR) (id : OpId) : IR :=
  match lookupOp ir id with
  | Some op => (pattern ir op).2
  | None => ir
  end.

(** The two await-list canonicalizations of async.execute, in the order
    they are registered. *)
Definition canonicalizeAwaits (ir : IR) (id : OpId) : IR :=
  applyPattern ElideDuplicateAsyncExecuteWaits
    (applyPattern ElideImmediateAsyncExecuteWaits ir id) id.

(** Position of the first occurrence of [v] in [l]. *)
Fixpoint firstIndex (v : Value) (l : list Value) : nat :=
  match l with
  | [] => 0
  | x :: rest => if decide (x = v) then 0 else S (firstIndex v rest)
  end.

(** Elements of [l] not yet [seen], each at its first occurrence. *)
Fixpoint unseen (seen l : list Value) : list Value :=
  match l with
  | [] => []
  | x :: rest =>
      if decide (x ∈ seen) then unseen seen rest
      else x :: unseen (x :: seen) rest
  end.

(** An async.execute op 3 that awaits the immediate timepoint [%1], the
    timepoint [%2] twice, and [%1] again, then the timepoint argument. *)
Definition awaitsOp : Operation :=
  mkOp 3 stream_async_execute 0
       [[]; []; [];
        [OpResult 1 0; OpResult 2 0; OpResult 2 0; OpResult 1 0;
         BlockArgument 0 0; OpResult 2 0]]
       [TimepointType] [] None.

Definition awaitsIR : IR :=
  [mkOp 1 stream_timepoint_immediate 0 [] [TimepointType] [] None;
   mkOp 2 other_op 0 [] [TimepointType] [] None;
   awaitsOp].


(** An async.execute (op 4) and a cmd.execute (op 5) that capture the
    result of the await op 3, which waits for the timepoint [%1] before it
    releases the resource [%2]; neither execute op awaits anything yet. *)
Definition chainAwaitOp : Operation :=
  TimepointAwaitOp.build 3 0 [ResourceType Transient]
    [OpResult 2 0] [BlockArgument 0 0] (OpResult 1 0) None.

Definition chainAsyncExecuteOp : Operation :=
  mkOp 4 stream_async_execute 0
       [[OpResult 3 0]; [BlockArgument 0 0]; []; []]
       [TimepointType] [] None.

Definition chainCmdExecuteOp : Operation :=
  mkOp 5 stream_cmd_execute 0
       [[OpResult 3 0]; [BlockArgument 0 0]; []]
       [TimepointType] [] None.

Definition chainIR : IR :=
  [mkOp 1 other_op 0 [] [TimepointType] [] None;
   mkOp 2 other_op 0 [] [ResourceType Transient] [] None;
   chainAwaitOp;
   chainAsyncExecuteOp;
   chainCmdExecuteOp].

(** "Every op strictly between [op] and [target] is a producer of some
    operand of [target]": the condition under which the specification has
    the sink helper leave [op] in place. *)
Definition strictlyBetweenAllProduce (ir : IR) (op targetOp : Operation)
  : bool :=
  bool_decide (op_block op = op_block targetOp)
  && match opsBetween ir op targetOp with
     | Some range =>
         forallb (fun o => bool_decide (op_id o ∈ producerOps targetOp))
                 (tail range)
     | None => false
     end.

(** A splat (op 1) whose users (ops 3 and 4) sit in the blocks 1 and 2; the
    nearest common dominator of the users is block 0, where the splat
    already stands right in front of the terminator (op 2). *)
Definition sunkSplatOp : Operation :=
  mkOp 1 stream_async_splat 0 [[BlockArgument 0 0]; [BlockArgument 0 1]]
       [ResourceType Transient] [] None.

Definition sunkTerminatorOp : Operation :=
  mkOp 2 std_branch 0 [[BlockArgument 0 2]] [] [] None.

Definition sunkSplatIR : IR :=
  [sunkSplatOp;
   sunkTerminatorOp;
   mkOp 3 other_op 1 [[OpResult 1 0]] [] [] None;
   mkOp 4 other_op 2 [[OpResult 1 0]] [] [] None].

(** The same with one op (op 5) between the splat and the terminator, which
    produces the terminator's operand. *)
Definition hoppingTerminatorOp : Operation :=
  mkOp 2 std_branch 0 [[OpResult 5 0]] [] [] None.

Definition hoppingSplatIR : IR :=
  [sunkSplatOp;
   mkOp 5 other_op 0 [] [OtherType] [] None;
   hoppingTerminatorOp;
   mkOp 3 other_op 1 [[OpResult 1 0]] [] [] None;
   mkOp 4 other_op 2 [[OpResult 1 0]] [] [] None].


(** ** Uses as MaterializeCOW sees them, and as the specification words
    them *)

(** The value an operand slot holds. *)
Definition operandAt (ir : IR) (use : OpId * nat) : option Value :=
  lookupOp ir use.1 ≫= fun o => getOperands o !! use.2.

(** The consumer is a timepoint.await. *)
Definition ownedByAwait (ir : IR) (use : OpId * nat) : bool :=
  match lookupOp ir use.1 with
  | Some owner => bool_decide (op_name owner = stream_timepoint_await)
  | None => false
  end.

(** "The consumer marks this operand as a tied input." *)
Definition tiedUse (ir : IR) (use : OpId * nat) : bool :=
  match lookupOp ir use.1 with
  | Some owner => isOperandTied owner use.2
  | None => false
  end.

(** The classification of the specification: every use is tied or untied. *)
Definition specTiedUses (ir : IR) (v : Value) : list (OpId * nat) :=
  filter (fun use => tiedUse ir use = true) (getUses ir v).
Definition specUntiedUses (ir : IR) (v : Value) : list (OpId * nat) :=
  filter (fun use => tiedUse ir use = false) (getUses ir v).

(** The classification with the uses owned by timepoint.await left out. *)
Definition cowTiedUses (ir : IR) (v : Value) : list (OpId * nat) :=
  filter (fun use => ownedByAwait ir use = false ∧ tiedUse ir use = true)
         (getUses ir v).
Definition cowUntiedUses (ir : IR) (v : Value) : list (OpId * nat) :=
  filter (fun use => ownedByAwait ir use = false ∧ tiedUse ir use = false)
         (getUses ir v).

(** "Zero tied uses, or exactly one tied use and zero untied uses and not
    forceClone": the result is left alone. *)
Definition keepsResult (lifetime : Lifetime) (tied untied : list (OpId * nat))
  : bool :=
  bool_decide (tied = [])
  || (bool_decide (length tied = 1) && bool_decide (untied = [])
      && negb (bool_decide (lifetime = Constant))).

(** Insert an identity in front of another one. *)
Fixpoint insertIdBefore (l : list OpId) (target new : OpId) : list OpId :=
  match l with
  | [] => []
  | x :: rest =>
      if decide (x = target) then new :: x :: rest
      else x :: insertIdBefore rest target new
  end.


(** The operand slot of a tied use. *)
Definition slot (t : TiedUse) : OpId * nat := (user t, operandIndex t).

(** [targetAffinity ? targetAffinity : sourceAffinity]. *)
Definition cloneAffinity (targetAffinity sourceAffinity : AffinityAttr)
  : AffinityAttr :=
  if targetAffinity is Some _ then targetAffinity else sourceAffinity.

(** The async.clone that MaterializeCOW creates for a tied use of [v]. *)
Definition cowClone (queryValueSize : Value -> Value) (id : OpId)
    (block : BlockId) (v : Value) (affinity : AffinityAttr) : Operation :=
  mkOp id stream_async_clone block
       [[v]; [queryValueSize v]; [queryValueSize v]]
       [ResourceType Unknown] [] affinity.


(** The entry pushed to [tiedUses] for a use of [result]. *)
Definition tiedUseOf (result : Value) (use : OpId * nat) : TiedUse :=
  mkTiedUse use.1 use.2 result.


(** The state of the loop over the results of [op], started on [ir0], in
    front of the rounds [rs]: identities are unique, the ops of [ir0] are
    still there with their fields (operands apart), and the results still
    to be treated have the uses they had in [ir0]. *)
Definition cowInvariant (op : Operation) (ir0 cur : IR)
    (rs : list (nat * Ty)) : Prop :=
  NoDup (op_id <$> cur)
  ∧ (∀ id o, lookupOp ir0 id = Some o →
       ∃ g, lookupOp cur id = Some (withOperands o g))
  ∧ (∀ j lifetime, (j, ResourceType lifetime) ∈ rs →
       getUses cur (OpResult (op_id op) j)
       = getUses ir0 (OpResult (op_id op) j)).

(** What MaterializeCOW, run on [ir] with result [out], does for result [i]
    of [op], of type resource with the given lifetime. *)
Definition cowOutcome (queryValueSize : Value -> Value) (ir : IR)
    (op : Operation) (i : nat) (lifetime : Lifetime) (didChange : bool)
    (out : IR) : Prop :=
  let result := OpResult (op_id op) i in
  if keepsResult lifetime (cowTiedUses ir result) (cowUntiedUses ir result)
  then ∀ use, use ∈ getUses ir result → operandAt out use = Some result
  else
    didChange = true
    ∧ (∀ use, use ∈ cowTiedUses ir result →
         ∃ userOp n,
           lookupOp ir use.1 = Some userOp
           ∧ lookupOp ir n = None
           ∧ operandAt out use = Some (OpResult n 0)
           ∧ lookupOp out n
             = Some (cowClone queryValueSize n (op_block userOp) result
                       (cloneAffinity (op_affinity userOp) (op_affinity op)))
           ∧ ∃ l1 mid l2,
               op_id <$> out = l1 ++ n :: mid ++ use.1 :: l2
               ∧ ∀ x, x ∈ mid → x ∉ op_id <$> ir)
    ∧ (∀ use, use ∈ getUses ir result → use ∉ cowTiedUses ir result →
         operandAt out use = Some result).


(** The outcome as the specification states it: every use is tied or
    untied, a result that is kept leaves the IR unchanged, and otherwise
    every tied use consumes a new async.clone of the value that stands
    immediately before the consumer and has the consumer's affinity, or else
    the producer's, while every untied use consumes the original value. *)
Definition cowOutcomeAsSpecified (ir : IR) (op : Operation) (i : nat)
    (lifetime : Lifetime) (out : IR) : Prop :=
  let result := OpResult (op_id op) i in
  if keepsResult lifetime (specTiedUses ir result) (specUntiedUses ir result)
  then out = ir
  else
    (∀ use, use ∈ specTiedUses ir result →
       ∃ userOp cloneOp,
         lookupOp ir use.1 = Some userOp
         ∧ lookupOp ir (op_id cloneOp) = None
         ∧ lookupOp out (op_id cloneOp) = Some cloneOp
         ∧ op_name cloneOp = stream_async_clone
         ∧ AsyncCloneOp.source cloneOp = result
         ∧ op_affinity cloneOp
           = cloneAffinity (op_affinity userOp) (op_affinity op)
         ∧ operandAt out use = Some (AsyncCloneOp.result cloneOp)
         ∧ ∃ l1 l2, op_id <$> out = l1 ++ op_id cloneOp :: use.1 :: l2)
    ∧ (∀ use, use ∈ specUntiedUses ir result →
         operandAt out use = Some result).

(** Every resource of the examples has the size [%size]. *)
Definition cowSizes (v : Value) : Value := BlockArgument 0 0.

(** A transient resource [%1] with one tied consumer (op 3) and a
    timepoint.await (op 2) that passes it through. *)
Definition cowProducerOp : Operation :=
  mkOp 1 stream_async_dispatch 0 [] [ResourceType Transient] [] None.

Definition cowAwaitOp : Operation :=
  TimepointAwaitOp.build 2 0 [ResourceType Transient]
    [OpResult 1 0] [BlockArgument 0 0] (BlockArgument 0 1) None.

Definition cowAwaitIR : IR :=
  [cowProducerOp;
   cowAwaitOp;
   mkOp 3 stream_async_dispatch 0 [[OpResult 1 0]]
        [ResourceType Transient] [Some 0] None].

(** A constant resource [%1], produced on device 1, with a timepoint.await
    (op 2), two tied consumers (op 3 without affinity, op 4 on device 7)
    and an untied reader (op 5). *)
Definition cowConstantOp : Operation :=
  mkOp 1 stream_async_dispatch 0 [] [ResourceType Constant] [] (Some 1).

Definition cowConstantIR : IR :=
  [cowConstantOp;
   cowAwaitOp;
   mkOp 3 stream_async_dispatch 0 [[OpResult 1 0]]
        [ResourceType Transient] [Some 0] None;
   mkOp 4 stream_async_dispatch 0 [[OpResult 1 0]]
        [ResourceType Transient] [Some 0] (Some 7);
   mkOp 5 other_op 0 [[OpResult 1 0]] [] [] None].


(** ** Merging awaits: the results of the merged op *)

(** The results of the awaits [merged], each paired with the result of the
    op [new] that stands for it: the results of the first await come first,
    then those of the second, and so on, counting from [offset]. *)
Fixpoint resultMap (new : OpId) (offset : nat) (merged : list Operation)
  : list (Value * Value) :=
  match merged with
  | [] => []
  | m :: rest =>
      ((fun j => (OpResult (op_id m) j, OpResult new (offset + j)))
         <$> seq 0 (List.length (op_result_types m)))
      ++ resultMap new (offset + List.length (op_result_types m)) rest
  end.

(** Re-route a value along such a pairing, all pairs at once. *)
Fixpoint reroute (pairs : list (Value * Value)) (v : Value) : Value :=
  match pairs with
  | [] => v
  | (old, new) :: rest => if decide (v = old) then new else reroute rest v
  end.

(** The same pairs applied one after the other, as a sequence of
    [replaceAllUsesWith]. *)
Definition applySubs (pairs : list (Value * Value)) (v : Value) : Value :=
  foldl (fun v (p : Value * Value) => replaceValue p.1 p.2 v) v pairs.

(** Erase several operations. *)
Definition eraseOps (ir : IR) (ids : list OpId) : IR :=
  filter (fun o => op_id o ∉ ids) ir.

(** Scenario 5 of the specification: two awaits (ops 4 and 6) on the
    timepoint [%1], each followed by a consumer of its result. *)
Definition groupRootOp : Operation :=
  TimepointAwaitOp.build 4 0 [ResourceType External]
    [OpResult 2 0] [BlockArgument 0 0] (OpResult 1 0) None.

Definition groupOtherOp : Operation :=
  TimepointAwaitOp.build 6 0 [ResourceType External]
    [OpResult 3 0] [BlockArgument 0 1] (OpResult 1 0) None.

Definition groupIR : IR :=
  [mkOp 1 other_op 0 [] [TimepointType] [] None;
   mkOp 2 other_op 0 [] [ResourceType External] [] None;
   mkOp 3 other_op 0 [] [ResourceType External] [] None;
   groupRootOp;
   mkOp 5 other_op 0 [[OpResult 4 0]] [] [] None;
   groupOtherOp;
   mkOp 7 other_op 0 [[OpResult 6 0]] [] [] None].


(** ** Further patterns and folds of StreamOpFolders.cpp *)

(** The owner of every operand slot holding [v], in program order. *)
Definition usersInProgramOrder (ir : IR) (v : Value) : list Operation :=
  o ← ir; (fun _ => o) <$> usesIn v (op_id o) 0 (getOperands o).

(** [Value::getUsers]: the owner of every use, in the order of the use
    list, so that an operation that holds the value in two operand slots is
    listed twice. *)
Definition getUsers (ir : IR) (v : Value) : list Operation :=
  reverse (usersInProgramOrder ir v).

(** [Operation::use_empty]: no result of the op has a use. *)
Definition use_empty (ir : IR) (op : Operation) : bool :=
  forallb (fun r => bool_decide (getUses ir r = [])) (getResults op).

(** [ElideUnusedOp<Op>::matchAndRewrite]. *)
Definition ElideUnusedOp (ir : IR) (op : Operation) : LogicalResult * IR :=
  if negb (use_empty ir op) then (failure, ir)
  else (success, eraseOp ir (op_id op)).

(** [TensorCloneOp::fold]: [users] is non-empty and ends right behind its
    first entry. *)
Definition TensorCloneOp_fold (ir : IR) (op : Operation) : option Value :=
  let users := getUsers ir (TensorCloneOp.result op) in
  if negb (bool_decide (users = [])) && bool_decide (tail users = [])
  then Some (TensorCloneOp.source op)
  else None.

(** A clone (op 2) whose one consumer (op 3) writes it in place. *)
Definition tiedCloneOp : Operation :=
  mkOp 2 stream_tensor_clone 0 [[OpResult 1 0]]
       [ResourceType Transient] [] None.

Definition tiedCloneIR : IR :=
  [mkOp 1 other_op 0 [] [ResourceType Transient] [] None;
   tiedCloneOp;
   mkOp 3 other_op 0 [[OpResult 2 0]] [ResourceType Transient] [Some 0] None].


(** ** The await-list patterns as one update of the op *)

(** What [ElideImmediateExecuteWaits] and [ElideDuplicateExecuteWaits] do to
    the op they run on, each as one assignment to the await group. *)
Definition keepWaits (ir : IR) (g : nat) (o : Operation) : Operation :=
  withOperands o
    (<[g := filter (fun v => definedBy ir stream_timepoint_immediate v = false)
              (getODSOperands o g)]> (op_operands o)).

Definition uniqueWaits (g : nat) (o : Operation) : Operation :=
  withOperands o (<[g := unseen [] (getODSOperands o g)]> (op_operands o)).


(** ** stream.timepoint.join *)

Module TimepointImmediateOp.
(** The builder called by [rewriter.replaceOpWithNewOp<TimepointImmediateOp>]. *)
Definition build (id : OpId) (block : BlockId) (resultTypes : list Ty)
  : Operation :=
  mkOp id stream_timepoint_immediate block [] resultTypes [] None.
End TimepointImmediateOp.

Module TimepointJoinOp.
Definition timepoints (op : Operation) := getODSOperands op 0.
End TimepointJoinOp.

(** [ElideImmediateTimepointJoinOperands::matchAndRewrite]; the new op takes
    the type of the join's one result. *)
Definition ElideImmediateTimepointJoinOperands (ir : IR) (op : Operation)
  : LogicalResult * IR :=
  let newTimepoints :=
    foldl (fun acc timepoint =>
             if negb (definedBy ir stream_timepoint_immediate timepoint)
             then acc ++ [timepoint] else acc)
          [] (TimepointJoinOp.timepoints op) in
  if decide (length newTimepoints = length (TimepointJoinOp.timepoints op))
  then (failure, ir)
  else if decide (newTimepoints = []) then
    (success,
     replaceOpWithNewOp ir op
       (TimepointImmediateOp.build (freshId ir) (op_block op)
          (take 1 (op_result_types op))))
  else (success, assignODSOperands ir (op_id op) 0 newTimepoints).

(** [FoldDuplicateTimepointJoinOperands::matchAndRewrite]. *)
Definition FoldDuplicateTimepointJoinOperands (ir : IR) (op : Operation)
  : LogicalResult * IR :=
  let newTimepoints := setVectorInsert [] (TimepointJoinOp.timepoints op) in
  if decide (length newTimepoints = length (TimepointJoinOp.timepoints op))
  then (failure, ir)
  else (success, assignODSOperands ir (op_id op) 0 newTimepoints).

(** A join (op 3) of the immediate timepoint [%1] and, twice, of the
    timepoint [%2], and a join (op 5) of immediate timepoints only; op 6
    waits for both. *)
Definition joinOp : Operation :=
  mkOp 3 other_op 0 [[OpResult 1 0; OpResult 2 0; OpResult 2 0]]
       [TimepointType] [] None.

Definition immediateJoinOp : Operation :=
  mkOp 5 other_op 0 [[OpResult 1 0; OpResult 1 0]] [TimepointType] [] None.

Definition joinIR : IR :=
  [mkOp 1 stream_timepoint_immediate 0 [] [TimepointType] [] None;
   mkOp 2 other_op 0 [] [TimepointType] [] None;
   joinOp;
   immediateJoinOp;
   mkOp 6 other_op 0 [[OpResult 3 0; OpResult 5 0]] [] [] None].

(** ** stream.resource.pack *)

(** [OpFoldResult]: an attribute (here always an index-typed integer) or an
    existing SSA value. *)
Inductive OpFoldResult :=
| FoldAttr (value : Z)
| FoldValue (v : Value).

Module ResourcePackOp.
(** Operands: the optional base [offset], then [dynamic_slice_sizes];
    results: [total_length], then one [packed_offsets] entry per slice. *)
Definition offset (op : Operation) : Value :=
  default NullValue (head (getODSOperands op 0)).
Definition dynamic_slice_sizes (op : Operation) := getODSOperands op 1.
Definition packed_offsets (op : Operation) := tail (getResults op).

(** [ResourcePackOp::fold]; [None] is [failure()], otherwise the values
    pushed to [results]. *)
Definition fold (op : Operation) : option (list OpFoldResult) :=
  if decide (packed_offsets op = []) then Some [FoldAttr 0]
  else if decide (length (packed_offsets op) = 1) then
    Some [FoldValue (default NullValue (dynamic_slice_sizes op !! 0));
          if decide (offset op = NullValue) then FoldAttr 0
          else FoldValue (offset op)]
  else None.
End ResourcePackOp.

(** ** Chained awaits: the operand an execute op captures afterwards *)

(** The value [ChainExecuteWaits] puts in the place of a captured operand:
    for a result of an await, the resource the await passes through. *)
Definition chainedOperand (ir : IR) (v : Value) : Value :=
  match dynCastDefiningOp ir stream_timepoint_await v with
  | Some awaitOp => getTiedResultOperand awaitOp v
  | None => v
  end.


(** ** stream.timepoint.await: ElideImmediateAwaits and
    FoldDuplicateAwaitResources *)

(** [ElideImmediateAwaits::matchAndRewrite]. *)
Definition ElideImmediateAwaits (ir : IR) (op : Operation)
  : LogicalResult * IR :=
  if definedBy ir stream_timepoint_immediate (TimepointAwaitOp.timepoint op)
  then (success, replaceOp ir (op_id op) (TimepointAwaitOp.operands op))
  else (failure, ir).

(** [DenseMap<Value, unsigned>] as the list of its entries, oldest first. *)
Fixpoint denseMapFind (m : list (Value * nat)) (key : Value) : option nat :=
  match m with
  | [] => None
  | (k, i) :: rest => if decide (k = key) then Some i else denseMapFind rest key
  end.

(** The locals of FoldDuplicateAwaitResources that its first loop fills.
    The builder of the new await takes the result types from the operands;
    an await passes every operand through with its type, so the type of an
    operand is read off the result that goes with it. *)
Record DedupState := mkDedupState {
  baseMap : list (Value * nat);
  replacements : list (Value * nat);
  newOperands : list Value;
  newOperandSizes : list Value;
  newResultTypes : list Ty;
}.

(** The body of the loop over [zip(operands, operand_sizes, results)]; an
    item is (operand, (operandSize, (result, type of the result))). *)
Definition dedupStep (st : DedupState) (it : Value * (Value * (Value * Ty)))
  : DedupState :=
  let operand := it.1 in
  let operandSize := it.2.1 in
  let result := it.2.2.1 in
  match denseMapFind (baseMap st) operand with
  | None =>
      (* Inserted as a new unique operand. *)
      mkDedupState
        (baseMap st ++ [(operand, length (newOperands st))])
        (replacements st ++ [(result, length (newOperands st))])
        (newOperands st ++ [operand])
        (newOperandSizes st ++ [operandSize])
        (newResultTypes st ++ [it.2.2.2])
  | Some resultIdx =>
      mkDedupState (baseMap st)
        (replacements st ++ [(result, resultIdx)])
        (newOperands st) (newOperandSizes st) (newResultTypes st)
  end.

(** [FoldDuplicateAwaitResources::matchAndRewrite]; the new await is
    created at the insertion point, in front of the op. *)
Definition FoldDuplicateAwaitResources (ir : IR) (op : Operation)
  : LogicalResult * IR :=
  let st :=
    foldl dedupStep (mkDedupState [] [] [] [] [])
      (zip (TimepointAwaitOp.operands op)
         (zip (TimepointAwaitOp.operand_sizes op)
            (zip (getResults op) (op_result_types op)))) in
  if decide (length (newOperands st) = length (TimepointAwaitOp.operands op))
  then (failure, ir)
  else
    let newOp :=
      TimepointAwaitOp.build (freshId ir) (op_block op) (newResultTypes st)
        (newOperands st) (newOperandSizes st) (TimepointAwaitOp.timepoint op)
        (op_affinity op) in
    let ir1 := insertBefore ir (op_id op) newOp in
    let ir2 :=
      foldl (fun ir (replacement : Value * nat) =>
               replaceAllUsesWith ir replacement.1
                 (OpResult (op_id newOp) replacement.2))
            ir1 (replacements st) in
    (success, eraseOp ir2 (op_id op)).

(** The items of the loop that bring a new operand, given the operands
    already [seen]. *)
Fixpoint dedupItems {B} (seen : list Value) (items : list (Value * B))
  : list (Value * B) :=
  match items with
  | [] => []
  | it :: rest =>
      if decide (it.1 ∈ seen) then dedupItems seen rest
      else it :: dedupItems (it.1 :: seen) rest
  end.

(** [baseMap] maps every operand collected so far to its position. *)
Definition wfBaseMap (st : DedupState) : Prop :=
  ∀ v, denseMapFind (baseMap st) v
       = if decide (v ∈ newOperands st)
         then Some (firstIndex v (newOperands st)) else None.

(** An await (op 3) on the immediate timepoint [%1] that passes the
    resource [%2] through to op 4. *)
Definition immediateAwaitOp : Operation :=
  TimepointAwaitOp.build 3 0 [ResourceType Transient]
    [OpResult 2 0] [BlockArgument 0 0] (OpResult 1 0) None.

Definition immediateAwaitIR : IR :=
  [mkOp 1 stream_timepoint_immediate 0 [] [TimepointType] [] None;
   mkOp 2 other_op 0 [] [ResourceType Transient] [] None;
   immediateAwaitOp;
   mkOp 4 other_op 0 [[OpResult 3 0]] [] [] None].

(** Scenario: an await (op 3) that passes [%1] through twice and [%2]
    once; op 4 reads the three results. *)
Definition duplicateAwaitOp : Operation :=
  TimepointAwaitOp.build 3 0
    [ResourceType Transient; ResourceType Transient; ResourceType External]
    [OpResult 1 0; OpResult 1 0; OpResult 2 0]
    [BlockArgument 0 0; BlockArgument 0 0; BlockArgument 0 1]
    (BlockArgument 0 2) None.

Definition duplicateAwaitIR : IR :=
  [mkOp 1 other_op 0 [] [ResourceType Transient] [] None;
   mkOp 2 other_op 0 [] [ResourceType External] [] None;
   duplicateAwaitOp;
   mkOp 4 other_op 0 [[OpResult 3 0; OpResult 3 1; OpResult 3 2]] [] [] None].


(** ** stream.async.splat: SinkSplatsToConsumers *)

Module AsyncSplatOp.
Definition value (op : Operation) := getOperand op 0.
Definition result_size (op : Operation) := getOperand op 1.
Definition result (op : Operation) := OpResult (op_id op) 0.

(** The builder called by [rewriter.replaceOpWithNewOp<AsyncSplatOp>]. *)
Definition build (id : OpId) (block : BlockId) (resultTypes : list Ty)
    (value result_size : Value) (affinity : AffinityAttr) : Operation :=
  mkOp id stream_async_splat block [[value]; [result_size]]
       resultTypes [] affinity.
End AsyncSplatOp.

(** [Operation::getUsers]: the users of every result of the op. *)
Definition getOpUsers (ir : IR) (op : Operation) : list Operation :=
  r ← getResults op; getUsers ir r.

(** [Value::isUsedOutsideOfBlock]. *)
Definition isUsedOutsideOfBlock (ir : IR) (v : Value) (b : BlockId) : bool :=
  existsb (fun user => bool_decide (op_block user ≠ b)) (getUsers ir v).

(** [Block::getTerminator]: the last operation of the block. *)
Definition getTerminator (ir : IR) (b : BlockId) : option Operation :=
  last (blockOps ir b).

(** The loop [if (!targetOp || user->isBeforeInBlock(targetOp)) targetOp = user]. *)
Definition earlierUser (ir : IR) (targetOp : option Operation)
    (user : Operation) : option Operation :=
  match targetOp with
  | None => Some user
  | Some t =>
      if isBeforeInBlock ir (op_id user) (op_id t) then Some user else Some t
  end.

(** The loop that looks for the first user within the dominator block. *)
Definition earlierUserInBlock (ir : IR) (commonDominator : BlockId)
    (firstUserInDominator user : Operation) : Operation :=
  if decide (op_block user = commonDominator) then
    if isBeforeInBlock ir (op_id user) (op_id firstUserInDominator)
    then user else firstUserInDominator
  else firstUserInDominator.

Section Dominance.

(** [DominanceInfo::findNearestCommonDominator] of MLIR, on the blocks of
    the enclosing region; it is left abstract. *)
Variable findNearestCommonDominator : BlockId -> BlockId -> BlockId.

(** [SinkSplatsToConsumers::matchAndRewrite]; like [sinkOp] it has no value
    where the C++ walks off the end of a block. *)
Definition SinkSplatsToConsumers (ir : IR) (splatOp : Operation)
  : option (LogicalResult * IR) :=
  let users := getOpUsers ir splatOp in
  match users with
  | [] => Some (failure, ir)
  | [user] => sinkOp ir splatOp user
  | front :: _ =>
      if negb (isUsedOutsideOfBlock ir (AsyncSplatOp.result splatOp)
                 (op_block splatOp))
      then
        targetOp ← foldl (earlierUser ir) None users;
        sinkOp ir splatOp targetOp
      else
        let commonDominator :=
          foldl (fun b user =>
                   findNearestCommonDominator b (op_block user))
                (op_block front) users in
        terminator ← getTerminator ir commonDominator;
        let firstUserInDominator :=
          foldl (earlierUserInBlock ir commonDominator) terminator users in
        sinkOp ir splatOp firstUserInDominator
  end.

End Dominance.


(** ** Propagation through stream.async.clone, slice and fill *)

(** [AsyncCloneOp::source_size]. *)
Definition AsyncCloneOp_source_size (op : Operation) := getOperand op 1.

(** The builder called by [rewriter.replaceOpWithNewOp<AsyncSliceOp>]. *)
Definition AsyncSliceOp_build (id : OpId) (block : BlockId)
    (resultTypes : list Ty)
    (source source_size source_offset source_end result_size : Value)
    (affinity : AffinityAttr) : Operation :=
  mkOp id stream_async_slice block
       [[source]; [source_size]; [source_offset]; [source_end]; [result_size]]
       resultTypes [] affinity.

(** [PropagateClonedSlices::matchAndRewrite]. *)
Definition PropagateClonedSlices (ir : IR) (cloneOp : Operation)
  : LogicalResult * IR :=
  match dynCastDefiningOp ir stream_async_slice
          (AsyncCloneOp.source cloneOp) with
  | None => (failure, ir)
  | Some sliceOp =>
      (success,
       replaceOpWithNewOp ir cloneOp
         (AsyncSliceOp_build (freshId ir) (op_block cloneOp)
            (take 1 (op_result_types cloneOp))
            (AsyncSliceOp.source sliceOp) (AsyncSliceOp.source_size sliceOp)
            (AsyncSliceOp.source_offset sliceOp)
            (AsyncSliceOp.source_end sliceOp)
            (AsyncSliceOp.result_size sliceOp) (op_affinity cloneOp)))
  end.

(** [PropagateSliceClones::matchAndRewrite]. *)
Definition PropagateSliceClones (ir : IR) (sliceOp : Operation)
  : LogicalResult * IR :=
  match dynCastDefiningOp ir stream_async_clone
          (AsyncSliceOp.source sliceOp) with
  | Some cloneOp =>
      (success,
       replaceOpWithNewOp ir sliceOp
         (AsyncSliceOp_build (freshId ir) (op_block sliceOp)
            (take 1 (op_result_types sliceOp))
            (AsyncCloneOp.source cloneOp) (AsyncCloneOp_source_size cloneOp)
            (AsyncSliceOp.source_offset sliceOp)
            (AsyncSliceOp.source_end sliceOp)
            (AsyncSliceOp.result_size sliceOp) (op_affinity sliceOp)))
  | None => (failure, ir)
  end.

(** [PropagateSplatsThroughSlices::matchAndRewrite]. *)
Definition PropagateSplatsThroughSlices (ir : IR) (sliceOp : Operation)
  : LogicalResult * IR :=
  match dynCastDefiningOp ir stream_async_splat
          (AsyncSliceOp.source sliceOp) with
  | None => (failure, ir)
  | Some splatOp =>
      (success,
       replaceOpWithNewOp ir sliceOp
         (AsyncSplatOp.build (freshId ir) (op_block sliceOp)
            (take 1 (op_result_types sliceOp))
            (AsyncSplatOp.value splatOp) (AsyncSliceOp.result_size sliceOp)
            (op_affinity sliceOp)))
  end.

Module AsyncFillOp.
Definition target (op : Operation) := getOperand op 0.
Definition target_size (op : Operation) := getOperand op 1.
Definition target_offset (op : Operation) := getOperand op 2.
Definition target_end (op : Operation) := getOperand op 3.
Definition target_length (op : Operation) := getOperand op 4.
Definition value (op : Operation) := getOperand op 5.
End AsyncFillOp.

(** [FlattenFullFillToSplat::matchAndRewrite]. *)
Definition FlattenFullFillToSplat (ir : IR) (fillOp : Operation)
  : LogicalResult * IR :=
  if decide (AsyncFillOp.target_length fillOp = AsyncFillOp.target_size fillOp)
  then
    (success,
     replaceOpWithNewOp ir fillOp
       (AsyncSplatOp.build (freshId ir) (op_block fillOp)
          (take 1 (op_result_types fillOp))
          (AsyncFillOp.value fillOp) (AsyncFillOp.target_size fillOp)
          (op_affinity fillOp)))
  else (failure, ir).

(** A clone, a slice of the clone, and a consumer of the slice. *)
Definition slicedCloneOp : Operation :=
  mkOp 1 stream_async_clone 0
       [[BlockArgument 0 0]; [BlockArgument 0 1]; [BlockArgument 0 1]]
       [ResourceType Transient] [] None.

Definition sliceOfCloneOp : Operation :=
  mkOp 2 stream_async_slice 0
       [[OpResult 1 0]; [BlockArgument 0 1]; [BlockArgument 0 2];
        [BlockArgument 0 3]; [BlockArgument 0 4]]
       [ResourceType Transient] [] None.

Definition sliceOfCloneIR : IR :=
  [slicedCloneOp; sliceOfCloneOp;
   mkOp 3 other_op 0 [[OpResult 2 0]] [] [] None].

(** A slice, a clone of the slice, and a consumer of the clone. *)
Definition clonedSliceOp : Operation :=
  mkOp 1 stream_async_slice 0
       [[BlockArgument 0 0]; [BlockArgument 0 1]; [BlockArgument 0 2];
        [BlockArgument 0 3]; [BlockArgument 0 4]]
       [ResourceType Transient] [] None.

Definition cloneOfSliceOp : Operation :=
  mkOp 2 stream_async_clone 0
       [[OpResult 1 0]; [BlockArgument 0 4]; [BlockArgument 0 4]]
       [ResourceType Transient] [] (Some 1).

Definition cloneOfSliceIR : IR :=
  [clonedSliceOp; cloneOfSliceOp;
   mkOp 3 other_op 0 [[OpResult 2 0]] [] [] None].

(** A splat, a slice of the splat, and a consumer of the slice. *)
Definition slicedSplatOp : Operation :=
  mkOp 1 stream_async_splat 0 [[BlockArgument 0 0]; [BlockArgument 0 1]]
       [ResourceType Transient] [] None.

Definition sliceOfSplatOp : Operation :=
  mkOp 2 stream_async_slice 0
       [[OpResult 1 0]; [BlockArgument 0 1]; [BlockArgument 0 2];
        [BlockArgument 0 3]; [BlockArgument 0 4]]
       [ResourceType Transient] [] None.

Definition sliceOfSplatIR : IR :=
  [slicedSplatOp; sliceOfSplatOp;
   mkOp 3 other_op 0 [[OpResult 2 0]] [] [] None].

(** A producer, a fill of its whole result, and a consumer of the fill. *)
Definition filledProducerOp : Operation :=
  mkOp 1 other_op 0 [] [ResourceType Transient] [] None.

Definition fullFillOp : Operation :=
  mkOp 2 other_op 0
       [[OpResult 1 0]; [BlockArgument 0 1]; [BlockArgument 0 2];
        [BlockArgument 0 1]; [BlockArgument 0 1]; [BlockArgument 0 5]]
       [ResourceType Transient] [Some 0] None.

Definition fullFillIR : IR :=
  [filledProducerOp; fullFillOp;
   mkOp 3 other_op 0 [[OpResult 2 0]] [] [] None].


(** ** stream.timepoint.await: SinkAwaitToFirstConsumer *)

Section SinkAwait.

(** [DominanceInfo::findNearestCommonDominator] of MLIR; it is left
    abstract. *)
Variable findNearestCommonDominator : BlockId -> BlockId -> BlockId.

(** The body of the loops over the uses of the results; the state is
    ([allUsers], [commonDominator]). *)
Definition gatherUser (st : list Operation * option BlockId)
    (owner : Operation) : list Operation * option BlockId :=
  if decide (op_id owner ∈ op_id <$> st.1) then st
  else (st.1 ++ [owner],
        Some match st.2 with
             | Some commonDominator =>
                 findNearestCommonDominator commonDominator (op_block owner)
             | None => op_block owner
             end).

(** [SinkAwaitToFirstConsumer::matchAndRewrite]; it has no value where the
    C++ asks an empty block for its terminator or walks off the end of a
    block. *)
Definition SinkAwaitToFirstConsumer (ir : IR) (op : Operation)
  : option (LogicalResult * IR) :=
  let st := foldl gatherUser ([], None) (getOpUsers ir op) in
  match st.2 with
  | None => Some (failure, ir)
  | Some commonDominator =>
      terminator ← getTerminator ir commonDominator;
      let firstUserInDominator :=
        foldl (earlierUserInBlock ir commonDominator) terminator st.1 in
      ip ← findInsertionPointBefore ir op firstUserInDominator;
      if decide (ip = op_id op) then Some (failure, ir)
      else ipOp ← lookupOp ir ip; Some (success, moveBefore ir op ipOp)
  end.

End SinkAwait.

(** A producer (op 1), an await of its result (op 2), an unrelated op (op
    3), the consumer of the awaited resource (op 4) and the terminator of
    the block (op 5). *)
Definition sinkingAwaitOp : Operation :=
  mkOp 2 stream_timepoint_await 0
       [[OpResult 1 0]; [BlockArgument 0 1]; [BlockArgument 0 0]]
       [ResourceType External] [Some 0] None.

Definition sinkingAwaitIR : IR :=
  [mkOp 1 other_op 0 [] [ResourceType External] [] None;
   sinkingAwaitOp;
   mkOp 3 other_op 0 [] [OtherType] [] None;
   mkOp 4 other_op 0 [[OpResult 2 0]] [] [] None;
   mkOp 5 std_branch 0 [] [] [] None].


(** A target (op 1), a slice that runs from an offset to the end of its
    source (op 2), an update of the target from the slice (op 3) and a
    consumer of the update (op 4). *)
Definition tailSliceOp : Operation :=
  mkOp 2 stream_async_slice 0
       [[BlockArgument 0 0]; [BlockArgument 0 1]; [BlockArgument 0 2];
        [BlockArgument 0 1]; [BlockArgument 0 3]]
       [ResourceType Transient] [] None.

Definition tailUpdateOp : Operation :=
  AsyncUpdateOp.build 3 0 [ResourceType Transient]
    (OpResult 1 0) (BlockArgument 0 4) (BlockArgument 0 5)
    (BlockArgument 0 6) (OpResult 2 0) (BlockArgument 0 3) [Some 0] None.

Definition tailUpdateIR : IR :=
  [mkOp 1 other_op 0 [] [ResourceType Transient] [] None;
   tailSliceOp;
   tailUpdateOp;
   mkOp 4 other_op 0 [[OpResult 3 0]] [] [] None].


(** ** stream.async.clone: PropagateClonableOps *)

(** [OpBuilder::clone]: a copy of the operation under a new identity,
    inserted into [block]. *)
Definition cloneOperation (id : OpId) (block : BlockId) (o : Operation)
  : Operation :=
  mkOp id (op_name o) block (op_operands o) (op_result_types o)
       (op_tied_operands o) (op_affinity o).

(** The body of the loop over the uses of the clone's result: clone the
    source op in front of the owner of the use and make the use read the
    copy. *)
Definition cloneForUse (sourceOp : OpId) (ir : IR) (use : OpId * nat) : IR :=
  match lookupOp ir use.1, lookupOp ir sourceOp with
  | Some owner, Some source =>
      let clonedOp := cloneOperation (freshId ir) (op_block owner) source in
      setOperand (insertBefore ir use.1 clonedOp) use.1 use.2
        (OpResult (op_id clonedOp) 0)
  | _, _ => ir
  end.

Section PropagateClonableOps.

(** [StreamableOpInterface::preferCloneToConsumers] (declared outside
    StreamOpFolders.cpp); false on an op without the interface. *)
Variable preferCloneToConsumers : Operation -> bool.

(** [PropagateClonableOps::matchAndRewrite]. *)
Definition PropagateClonableOps (ir : IR) (cloneOp : Operation)
  : LogicalResult * IR :=
  if use_empty ir cloneOp then (failure, ir)
  else
    match definingOp ir (AsyncCloneOp.source cloneOp) with
    | Some sourceOp =>
        if negb (preferCloneToConsumers sourceOp) then (failure, ir)
        else
          let ir1 :=
            foldl (cloneForUse (op_id sourceOp)) ir
                  (getUses ir (AsyncCloneOp.result cloneOp)) in
          (success,
           if use_empty ir1 cloneOp then eraseOp ir1 (op_id cloneOp)
           else ir1)
    | None => (failure, ir)
    end.

End PropagateClonableOps.

(** A splat (op 1), a clone of it (op 2), a consumer that reads the clone
    twice (op 3) and a consumer that reads it once (op 4). *)
Definition clonableSplatOp : Operation :=
  mkOp 1 stream_async_splat 0 [[BlockArgument 0 0]; [BlockArgument 0 1]]
       [ResourceType Transient] [] None.

Definition clonableCloneOp : Operation :=
  mkOp 2 stream_async_clone 0
       [[OpResult 1 0]; [BlockArgument 0 1]; [BlockArgument 0 1]]
       [ResourceType Transient] [] None.

Definition clonableIR : IR :=
  [clonableSplatOp;
   clonableCloneOp;
   mkOp 3 other_op 0 [[OpResult 2 0; OpResult 2 0]] [] [] None;
   mkOp 4 other_op 1 [[OpResult 2 0]] [] [] None].

(** Splats are the ops that prefer to be cloned. *)
Definition prefersClone (o : Operation) : bool :=
  bool_decide (op_name o = stream_async_splat).


(** Two awaits (ops 4 and 6) on the timepoint [%1]; the resource that the
    second one passes through is produced by op 3, between the two. *)
Definition lateOperandIR : IR :=
  [mkOp 1 other_op 0 [] [TimepointType] [] None;
   mkOp 2 other_op 0 [] [ResourceType External] [] None;
   groupRootOp;
   mkOp 3 other_op 0 [] [ResourceType External] [] None;
   groupOtherOp;
   mkOp 7 other_op 0 [[OpResult 6 0]] [] [] None].


(** ** Merging awaits: which awaits are merged *)

(** The awaits of the IR are well typed towards the timepoint [tp]: an
    await has its three operand groups, the last one holding its
    timepoint, and [tp], a timepoint, is none of its resources or sizes. *)
Definition awaitsWellTyped (ir : IR) (tp : Value) : Prop :=
  ∀ o, o ∈ ir → op_name o = stream_timepoint_await →
    ∃ operands sizes timepoint,
      op_operands o = [operands; sizes; [timepoint]]
      ∧ (tp ∉ operands) ∧ (tp ∉ sizes).

(** "Await ops in the same block sharing the same timepoint and compatible
    affinity": the await [c] is merged into the await [op] the pattern runs
    on.  The pattern looks behind [op] only. *)
Definition mergesInto (ir : IR) (op c : Operation) : Prop :=
  op_name c = stream_timepoint_await
  ∧ TimepointAwaitOp.timepoint c = TimepointAwaitOp.timepoint op
  ∧ op_block c = op_block op
  ∧ areCompatible (op_affinity op) (op_affinity c) = true
  ∧ isBeforeInBlock ir (op_id op) (op_id c) = true.

#[global] Instance mergesInto_dec ir op c : Decision (mergesInto ir op c).
Proof. unfold mergesInto. apply _. Defined.

(** The awaits merged into [op], in the order in which the merged await
    takes their operands: from the last one of the block to the first. *)
Definition mergedAwaits (ir : IR) (op : Operation) : list Operation :=
  reverse (filter (mergesInto ir op) ir).

(** Three awaits (ops 5, 6 and 7) on the timepoint [%1] and a consumer of
    their results. *)
Definition groupFirstOp : Operation :=
  TimepointAwaitOp.build 5 0 [ResourceType External]
    [OpResult 2 0] [BlockArgument 0 0] (OpResult 1 0) None.

Definition groupSecondOp : Operation :=
  TimepointAwaitOp.build 6 0 [ResourceType External]
    [OpResult 3 0] [BlockArgument 0 1] (OpResult 1 0) None.

Definition groupThirdOp : Operation :=
  TimepointAwaitOp.build 7 0 [ResourceType Transient]
    [OpResult 4 0] [BlockArgument 0 2] (OpResult 1 0) None.

Definition groupThreeIR : IR :=
  [mkOp 1 other_op 0 [] [TimepointType] [] None;
   mkOp 2 other_op 0 [] [ResourceType External] [] None;
   mkOp 3 other_op 0 [] [ResourceType External] [] None;
   mkOp 4 other_op 0 [] [ResourceType Transient] [] None;
   groupFirstOp;
   groupSecondOp;
   groupThirdOp;
   mkOp 8 other_op 0 [[OpResult 5 0; OpResult 6 0; OpResult 7 0]] [] [] None].


(** * Properties *)

(** Settle a decidable closed proposition by evaluation. *)
Ltac by_compute :=
  match goal with
  | |- ?P => apply (bool_decide_unpack P); vm_compute; exact I
  end.

(** ** Lookup and update *)

Lemma lookupOp_Some ir id o :
  lookupOp ir id = Some o → o ∈ ir ∧ op_id o = id.
Proof.
  induction ir as [|x rest IH]; simpl; [done|].
  case_decide as Hx.
  - intros [= ->]. split; [left | done].
  - intros H. destruct (IH H). split; [by right | done].
Qed.

Lemma lookupOp_None ir id :
  lookupOp ir id = None ↔ id ∉ op_id <$> ir.
Proof.
  induction ir as [|x rest IH]; simpl.
  - split; [intros _; apply not_elem_of_nil | done].
  - case_decide as Hx.
    + split; [done | intros Hn; exfalso; apply Hn; subst; left].
    + rewrite IH, not_elem_of_cons. naive_solver.
Qed.

Lemma lookupOp_elem_of ir o :
  NoDup (op_id <$> ir) → o ∈ ir → lookupOp ir (op_id o) = Some o.
Proof.
  induction ir as [|x rest IH]; simpl; intros Hnd Hin.
  - by apply elem_of_nil in Hin.
  - apply NoDup_cons in Hnd as [Hx Hnd].
    apply elem_of_cons in Hin as [->|Hin].
    + by rewrite decide_True.
    + case_decide as Hid; [|by apply IH].
      exfalso. apply Hx. rewrite Hid. by apply list_elem_of_fmap_2.
Qed.

Lemma lookupOp_updateOp ir id f id' :
  (∀ o, op_id (f o) = op_id o) →
  lookupOp (updateOp ir id f) id'
  = (fun o => if decide (op_id o = id) then f o else o) <$> lookupOp ir id'.
Proof.
  intros Hf. unfold updateOp.
  induction ir as [|x rest IH]; simpl; [done|].
  assert (op_id (if decide (op_id x = id) then f x else x) = op_id x) as ->
    by (case_decide; [apply Hf | done]).
  case_decide; [done | apply IH].
Qed.

Lemma lookupOp_eraseOp_eq ir id : lookupOp (eraseOp ir id) id = None.
Proof.
  apply lookupOp_None. unfold eraseOp. intros Hin.
  apply list_elem_of_fmap in Hin as (o & Ho & Hin).
  apply list_elem_of_filter in Hin as [Hne _]. done.
Qed.

Lemma opIndex_lookupOp ir id o :
  lookupOp ir id = Some o → ∃ i, opIndex ir id = Some i.
Proof.
  induction ir as [|x rest IH]; simpl; [done|].
  case_decide as Hd; [by eexists|].
  intros Hl. destruct (IH Hl) as [i ->]. by eexists.
Qed.

Lemma opIndex_inj ir a b i :
  opIndex ir a = Some i → opIndex ir b = Some i → a = b.
Proof.
  revert i. induction ir as [|x rest IH]; simpl; intros i; [done|].
  repeat case_decide; try congruence.
  - destruct (opIndex rest b); simpl; congruence.
  - destruct (opIndex rest a); simpl; congruence.
  - destruct (opIndex rest a) eqn:Ha, (opIndex rest b) eqn:Hb;
      simpl; try congruence.
    intros [= <-] [= ->]. by eapply IH.
Qed.

Lemma concat_fmap_fmap (f : Value → Value) (groups : list (list Value)) :
  concat (fmap (M:=list) f <$> groups) = f <$> concat groups.
Proof.
  induction groups as [|g gs IH]; csimpl; [done|].
  by rewrite fmap_app, IH.
Qed.

Lemma elem_of_mapOperands f ir o :
  o ∈ mapOperands f ir ↔
  ∃ o0, o0 ∈ ir ∧ o = withOperands o0 (fmap (M:=list) f <$> op_operands o0).
Proof.
  unfold mapOperands. rewrite list_elem_of_fmap. naive_solver.
Qed.

Lemma elem_of_eraseOp ir id o :
  o ∈ eraseOp ir id ↔ op_id o ≠ id ∧ o ∈ ir.
Proof. unfold eraseOp. by rewrite list_elem_of_filter. Qed.

(** Replacing an op by one value: the op disappears and every operand that
    referred to its result refers to the value. *)
Lemma replaceOp_single ir id v :
  replaceOp ir id [v]
  = eraseOp (mapOperands (replaceValue (OpResult id 0) v) ir) id.
Proof. reflexivity. Qed.

Lemma replaceOp_single_spec ir id v o :
  o ∈ ir → op_id o ≠ id →
  ∃ o', o' ∈ replaceOp ir id [v] ∧ op_id o' = op_id o
        ∧ op_name o' = op_name o
        ∧ getOperands o' = replaceValue (OpResult id 0) v <$> getOperands o.
Proof.
  intros Hin Hne. rewrite replaceOp_single.
  eexists. split.
  - apply elem_of_eraseOp. split; [|apply elem_of_mapOperands; eauto]. done.
  - repeat split. unfold getOperands. simpl. apply concat_fmap_fmap.
Qed.

(** ** Folds of stream.resource.subview and stream.async.slice *)

(** C9: the folds of resource.subview and async.slice return the source
    whenever the source-size operand and the result-size operand are the
    same SSA value; the offset operand (and, for the slice, the end operand)
    is arbitrary and never inspected. *)
Theorem folds_ignore_offset :
  ∀ id block source size offset end_ resultTypes tied affinity,
    ResourceSubviewOp.fold
      (mkOp id stream_resource_subview block
            [[source]; [size]; [offset]; [size]] resultTypes tied affinity)
    = Some source
    ∧ AsyncSliceOp.fold
        (mkOp id stream_async_slice block
              [[source]; [size]; [offset]; [end_]; [size]]
              resultTypes tied affinity)
      = Some source.
Proof.
  intros. split.
  - unfold ResourceSubviewOp.fold, ResourceSubviewOp.source_size,
      ResourceSubviewOp.result_size, ResourceSubviewOp.source, getOperand.
    simpl. by rewrite decide_True.
  - unfold AsyncSliceOp.fold, AsyncSliceOp.source_size,
      AsyncSliceOp.result_size, AsyncSliceOp.source, getOperand.
    simpl. by rewrite decide_True.
Qed.

(** The folds fire on the equality of the two size operands alone. *)
Lemma ResourceSubviewOp_fold_iff op :
  ResourceSubviewOp.fold op = Some (ResourceSubviewOp.source op)
  ↔ ResourceSubviewOp.source_size op = ResourceSubviewOp.result_size op.
Proof. unfold ResourceSubviewOp.fold. case_decide; naive_solver. Qed.

Lemma AsyncSliceOp_fold_iff op :
  AsyncSliceOp.fold op = Some (AsyncSliceOp.source op)
  ↔ AsyncSliceOp.source_size op = AsyncSliceOp.result_size op.
Proof. unfold AsyncSliceOp.fold. case_decide; naive_solver. Qed.

(** ** stream.async.copy: AsyncCopyFullSourceToUpdate *)

(** The pattern rewrites exactly when the [source_end] and [source_size]
    operands are the same SSA value; [source_offset] is not read. *)
Lemma AsyncCopyFullSourceToUpdate_spec ir copyOp :
  (AsyncCopyOp.source_end copyOp = AsyncCopyOp.source_size copyOp
   ∧ AsyncCopyFullSourceToUpdate ir copyOp
     = (success, replaceOpWithNewOp ir copyOp (copyAsUpdate ir copyOp)))
  ∨ (AsyncCopyOp.source_end copyOp ≠ AsyncCopyOp.source_size copyOp
     ∧ AsyncCopyFullSourceToUpdate ir copyOp = (failure, ir)).
Proof.
  unfold AsyncCopyFullSourceToUpdate. case_decide; [left | right]; done.
Qed.

(** C5: on the tail copy the source range [4, 16) is not the entire source,
    yet the pattern succeeds and replaces the copy by an update that takes
    the whole 16-byte source as the update value. *)
Theorem AsyncCopyFullSourceToUpdate_tail_copy :
  ¬ coversEntireSource tailCopyValues tailCopyOp
  ∧ AsyncCopyFullSourceToUpdate tailCopyIR tailCopyOp
    = (success,
       [AsyncUpdateOp.build 9 0 [ResourceType Transient]
          (BlockArgument 0 0) (BlockArgument 0 5) (BlockArgument 0 2)
          (BlockArgument 0 4) (BlockArgument 0 1) (BlockArgument 0 5)
          [Some 0] None;
        mkOp 8 other_op 0 [[OpResult 9 0]] [] [] None]).
Proof.
  split.
  - intros [Hoff _]. vm_compute in Hoff. discriminate.
  - vm_compute. reflexivity.
Qed.

(** ** stream.tensor.clone: ElideUnneededTensorClones *)

(** C3 as stated fails: the source of the clone has a tied use, so the
    stated condition does not hold, and the clone is elided all the same. *)
Lemma ElideUnneededTensorClones_ignores_source :
  ¬ neitherSideTied readerCloneIR readerCloneOp
  ∧ ElideUnneededTensorClones readerCloneIR readerCloneOp
    = (success,
       [mkOp 1 other_op 0 [] [ResourceType Transient] [] None;
        mkOp 3 other_op 0 [[OpResult 1 0]] [ResourceType Transient]
             [Some 0] None;
        mkOp 4 other_op 0 [[OpResult 1 0]] [] [] None]).
Proof.
  split.
  - intros [_ Hsrc]. vm_compute in Hsrc. discriminate.
  - vm_compute. reflexivity.
Qed.

(** C3, amended: the tensor.clone elision looks at the clone's result only.
    When the result has no tied use the clone is erased and every operand
    that consumed it consumes the clone's source; when the result has a tied
    use the IR is left as it is. *)
Theorem ElideUnneededTensorClones_spec ir cloneOp :
  (hasAnyTiedUses ir (TensorCloneOp.result cloneOp) = false →
   (ElideUnneededTensorClones ir cloneOp).1 = success
   ∧ lookupOp (ElideUnneededTensorClones ir cloneOp).2 (op_id cloneOp) = None
   ∧ ∀ o, o ∈ ir → op_id o ≠ op_id cloneOp →
       ∃ o', o' ∈ (ElideUnneededTensorClones ir cloneOp).2
             ∧ op_id o' = op_id o ∧ op_name o' = op_name o
             ∧ getOperands o'
               = replaceValue (TensorCloneOp.result cloneOp)
                   (TensorCloneOp.source cloneOp) <$> getOperands o)
  ∧ (hasAnyTiedUses ir (TensorCloneOp.result cloneOp) = true →
     ElideUnneededTensorClones ir cloneOp = (failure, ir)).
Proof.
  unfold ElideUnneededTensorClones. split; intros ->; [|done].
  simpl. split; [done|]. split; [apply lookupOp_eraseOp_eq|].
  intros o Hin Hne. by apply replaceOp_single_spec.
Qed.

Lemma ElideUnneededTensorClones_spec_witness :
  (ElideUnneededTensorClones readerCloneIR readerCloneOp).1 = success
  ∧ lookupOp (ElideUnneededTensorClones readerCloneIR readerCloneOp).2 2
    = None.
Proof.
  pose proof (proj1 (ElideUnneededTensorClones_spec readerCloneIR
                       readerCloneOp)) as H.
  destruct H as (H1 & H2 & _); [vm_compute; reflexivity|].
  split; [exact H1 | exact H2].
Defined.

(** The async.clone elision does test both sides. *)
Lemma ElideUnneededAsyncClones_spec ir cloneOp :
  (ElideUnneededAsyncClones ir cloneOp).1 = success
  ↔ hasAnyTiedUses ir (AsyncCloneOp.result cloneOp) = false
    ∧ hasAnyTiedUses ir (AsyncCloneOp.source cloneOp) = false.
Proof.
  unfold ElideUnneededAsyncClones.
  destruct (hasAnyTiedUses ir (AsyncCloneOp.result cloneOp)),
    (hasAnyTiedUses ir (AsyncCloneOp.source cloneOp)); simpl; naive_solver.
Qed.

(** ** stream.async.update: CombineSliceUpdateFromToCopy *)

Lemma isBeforeInBlock_false ir a b i j :
  opIndex ir a = Some i → opIndex ir b = Some j →
  isBeforeInBlock ir a b = false
  ↔ isBeforeInBlock ir b a = true ∨ b = a.
Proof.
  intros Ha Hb. unfold isBeforeInBlock. rewrite Ha, Hb.
  rewrite bool_decide_eq_false, bool_decide_eq_true. split.
  - intros Hij. destruct (decide (i = j)) as [->|Hne].
    + right. by eapply opIndex_inj.
    + left. lia.
  - intros [Hlt| ->]; [lia|]. assert (i = j) by congruence. lia.
Qed.

Lemma definingOp_Some ir v o :
  definingOp ir v = Some o → o ∈ ir ∧ ∃ i, opIndex ir (op_id o) = Some i.
Proof.
  unfold definingOp. destruct (getDefiningOp v) as [id|]; simpl; [|done].
  intros Hl. destruct (lookupOp_Some _ _ _ Hl) as [Hin <-].
  split; [done|]. by eapply opIndex_lookupOp.
Qed.

Lemma dynCastDefiningOp_Some ir name v o :
  dynCastDefiningOp ir name v = Some o →
  definingOp ir v = Some o ∧ op_name o = name.
Proof.
  unfold dynCastDefiningOp. destruct (definingOp ir v) as [o'|]; [|done].
  case_decide; [|done]. by intros [= ->].
Qed.

(** C4, where the code departs from it: the update op 3 writes the slice
    [%2] into itself, so the slice op is the target's defining op and is
    not produced after it.  The pattern is documented to "only trigger
    [...] if the slice is produced after the update target", but its guard
    is [sliceOp->isBeforeInBlock(targetDefOp)], which is false of an op
    and itself: the update is rewritten to a copy. *)
Lemma CombineSliceUpdateFromToCopy_same_op :
  dynCastDefiningOp selfUpdateIR stream_async_slice
    (AsyncUpdateOp.update selfUpdateOp) = Some selfSliceOp
  ∧ ¬ sliceProducedAfterTarget selfUpdateIR selfUpdateOp selfSliceOp
  ∧ CombineSliceUpdateFromToCopy selfUpdateIR selfUpdateOp
    = (success,
       [mkOp 1 other_op 0 [] [ResourceType Transient] [] None;
        selfSliceOp;
        AsyncCopyOp.build 5 0 [ResourceType Transient]
          (OpResult 2 0) (BlockArgument 0 3) (BlockArgument 0 4)
          (BlockArgument 0 5)
          (OpResult 1 0) (BlockArgument 0 0) (BlockArgument 0 1)
          (BlockArgument 0 2) (BlockArgument 0 3)
          [Some 0] None;
        mkOp 4 other_op 0 [[OpResult 5 0]] [] [] None]).
Proof.
  split; [vm_compute; reflexivity|]. split.
  - intros (_ & targetDefOp & Hdef & _ & Hbefore).
    vm_compute in Hdef. injection Hdef as <-.
    vm_compute in Hbefore. discriminate.
  - vm_compute. reflexivity.
Qed.

(** What the guard lets through: an update whose update operand is
    produced by a slice is rewritten to a copy from the slice's source over
    the slice's range exactly when the slice is in the update's block, the
    target has a defining op in that block, and the slice is not in front
    of that op; otherwise the IR is left as it is. *)
Theorem CombineSliceUpdateFromToCopy_spec ir updateOp sliceOp :
  dynCastDefiningOp ir stream_async_slice (AsyncUpdateOp.update updateOp)
    = Some sliceOp →
  (sliceNotBeforeTarget ir updateOp sliceOp
   ∧ CombineSliceUpdateFromToCopy ir updateOp
     = (success,
        replaceOpWithNewOp ir updateOp
          (AsyncCopyOp.build (freshId ir) (op_block updateOp)
             (op_result_types updateOp)
             (AsyncUpdateOp.target updateOp)
             (AsyncUpdateOp.target_size updateOp)
             (AsyncUpdateOp.target_offset updateOp)
             (AsyncUpdateOp.target_end updateOp)
             (AsyncSliceOp.source sliceOp)
             (AsyncSliceOp.source_size sliceOp)
             (AsyncSliceOp.source_offset sliceOp)
             (AsyncSliceOp.source_end sliceOp)
             (AsyncSliceOp.result_size sliceOp)
             (op_tied_operands updateOp) (op_affinity updateOp))))
  ∨ (¬ sliceNotBeforeTarget ir updateOp sliceOp
     ∧ CombineSliceUpdateFromToCopy ir updateOp = (failure, ir)).
Proof.
  intros Hslice. unfold CombineSliceUpdateFromToCopy. rewrite Hslice.
  apply dynCastDefiningOp_Some in Hslice as [Hsdef _].
  apply definingOp_Some in Hsdef as [_ [i Hi]].
  case_decide as Hblock.
  { right. split; [|done]. by intros [? _]. }

  destruct (definingOp ir (AsyncUpdateOp.target updateOp))
    as [targetDefOp|] eqn:Htarget.
  2: { right. split; [|done]. intros (_ & tdef & Hd & _). congruence. }
  destruct (definingOp_Some _ _ _ Htarget) as [_ [j Hj]].
  destruct (bool_decide (op_block targetDefOp ≠ op_block sliceOp))
    eqn:Htblock; simpl.
  { right. split; [|done]. intros (_ & tdef & Hd & Hb & _).
    apply bool_decide_eq_true in Htblock. congruence. }
  apply bool_decide_eq_false, dec_stable in Htblock.
  destruct (isBeforeInBlock ir (op_id sliceOp) (op_id targetDefOp))
    eqn:Hbefore.
  - right. split; [|done]. intros (_ & tdef & Hd & _ & Hnb).
    assert (tdef = targetDefOp) as -> by congruence.
    apply (isBeforeInBlock_false _ _ _ _ _ Hi Hj) in Hnb. congruence.
  - left. split; [|done]. split; [done|].
    exists targetDefOp. split; [done|]. split; [congruence|].
    by apply (isBeforeInBlock_false _ _ _ _ _ Hi Hj).
Qed.

Lemma CombineSliceUpdateFromToCopy_spec_witness :
  (CombineSliceUpdateFromToCopy selfUpdateIR selfUpdateOp).1 = success.
Proof.
  destruct (CombineSliceUpdateFromToCopy_spec selfUpdateIR selfUpdateOp
              selfSliceOp) as [[_ ->]|[Hn _]]; [vm_compute; reflexivity|done|].
  exfalso. apply Hn. split; [reflexivity|].
  exists selfSliceOp. split; [vm_compute; reflexivity|].
  split; [reflexivity|]. right. reflexivity.
Defined.

(** Where the slice op is not the op that defines the target, the guard is
    the documented one: the rewrite fires exactly when the slice is
    produced after the target's defining op, both in the update's block. *)
Lemma CombineSliceUpdateFromToCopy_other_op ir updateOp sliceOp :
  dynCastDefiningOp ir stream_async_slice (AsyncUpdateOp.update updateOp)
    = Some sliceOp →
  (∀ targetDefOp,
     definingOp ir (AsyncUpdateOp.target updateOp) = Some targetDefOp →
     op_id targetDefOp ≠ op_id sliceOp) →
  (sliceProducedAfterTarget ir updateOp sliceOp
   ∧ (CombineSliceUpdateFromToCopy ir updateOp).1 = success)
  ∨ (¬ sliceProducedAfterTarget ir updateOp sliceOp
     ∧ CombineSliceUpdateFromToCopy ir updateOp = (failure, ir)).
Proof.
  intros Hslice Hother.
  destruct (CombineSliceUpdateFromToCopy_spec ir updateOp sliceOp Hslice)
    as [[Hguard Hrun]|[Hguard Hrun]].
  - left. split; [|by rewrite Hrun].
    destruct Hguard as (Hb & t & Hdef & Htb & [Hafter|Hsame]).
    + split; [done|]. by exists t.
    + by destruct (Hother t Hdef).
  - right. split; [|done].
    intros (Hb & t & Hdef & Htb & Hafter). apply Hguard.
    split; [done|]. exists t. split; [done|]. split; [done|]. by left.
Qed.

(** Without a slice behind the update operand the pattern does nothing. *)
Lemma CombineSliceUpdateFromToCopy_no_slice ir updateOp :
  dynCastDefiningOp ir stream_async_slice (AsyncUpdateOp.update updateOp)
    = None →
  CombineSliceUpdateFromToCopy ir updateOp = (failure, ir).
Proof. unfold CombineSliceUpdateFromToCopy. by intros ->. Qed.

(** ** stream.async.execute: the await list *)

Lemma definedBy_updateOp ir id f name v :
  (∀ o, op_id (f o) = op_id o) → (∀ o, op_name (f o) = op_name o) →
  definedBy (updateOp ir id f) name v = definedBy ir name v.
Proof.
  intros Hid Hname. unfold definedBy.
  destruct (getDefiningOp v) as [d|]; [|done].
  rewrite lookupOp_updateOp by done.
  destruct (lookupOp ir d) as [o|]; [|done]. simpl.
  case_decide; [by rewrite Hname | done].
Qed.

Lemma getODSOperands_eraseODSOperand g idx o :
  g < length (op_operands o) →
  getODSOperands (eraseODSOperand g idx o) g
  = delete idx (getODSOperands o g).
Proof.
  intros Hg. unfold getODSOperands at 1. unfold eraseODSOperand. simpl.
  by rewrite list_lookup_insert_eq.
Qed.

Lemma eraseODSOperands_frame g idxs o :
  let o' := foldl (fun o idx => eraseODSOperand g idx o) o idxs in
  op_id o' = op_id o ∧ op_name o' = op_name o
  ∧ length (op_operands o') = length (op_operands o).
Proof.
  revert o. induction idxs as [|idx idxs IH]; intros o; simpl; [done|].
  destruct (IH (eraseODSOperand g idx o)) as (-> & -> & ->).
  simpl. by rewrite length_insert.
Qed.

Lemma eraseODSOperands_spec g idxs o :
  g < length (op_operands o) →
  getODSOperands (foldl (fun o idx => eraseODSOperand g idx o) o idxs) g
  = foldl (fun l idx => delete idx l) (getODSOperands o g) idxs.
Proof.
  revert o. induction idxs as [|idx idxs IH]; intros o Hg; simpl; [done|].
  rewrite IH by (simpl; by rewrite length_insert).
  by rewrite getODSOperands_eraseODSOperand.
Qed.

(** Erasing the collected indices from the back removes exactly the
    timepoints defined by timepoint.immediate. *)
Lemma erase_elidedTimepoints ir pre l :
  foldl (fun l idx => delete idx l) (pre ++ l)
        (reverse (elidedTimepoints ir (length pre) l))
  = pre ++ filter (fun v => definedBy ir stream_timepoint_immediate v = false)
             l.
Proof.
  revert pre. induction l as [|v rest IH]; intros pre; simpl; [done|].
  rewrite reverse_app, foldl_app.
  replace (pre ++ v :: rest) with ((pre ++ [v]) ++ rest)
    by (by rewrite <- app_assoc).
  replace (S (length pre)) with (length (pre ++ [v]))
    by (rewrite length_app; simpl; lia).
  rewrite IH, <- app_assoc. simpl.
  rewrite filter_cons.
  destruct (definedBy ir stream_timepoint_immediate v) eqn:Himm; simpl.
  - by rewrite delete_middle.
  - done.
Qed.

Lemma unseen_ext s1 s2 l :
  (∀ x, x ∈ s1 ↔ x ∈ s2) → unseen s1 l = unseen s2 l.
Proof.
  revert s1 s2. induction l as [|w ws IH]; intros s1 s2 Hs; simpl; [done|].
  destruct (decide (w ∈ s1)) as [H1|H1], (decide (w ∈ s2)) as [H2|H2];
    try (exfalso; naive_solver).
  - by apply IH.
  - f_equal. apply IH. intros x. rewrite !elem_of_cons. naive_solver.
Qed.

Lemma setVectorInsert_unseen sv vs :
  setVectorInsert sv vs = sv ++ unseen sv vs.
Proof.
  unfold setVectorInsert. revert sv.
  induction vs as [|v vs IH]; intros sv; simpl.
  - by rewrite app_nil_r.
  - case_decide as Hin.
    + apply IH.
    + rewrite IH, <- app_assoc. simpl. f_equal. f_equal.
      apply unseen_ext. intros x.
      rewrite elem_of_app, !elem_of_cons, elem_of_nil. naive_solver.
Qed.

Lemma elem_of_unseen seen l v :
  v ∈ unseen seen l ↔ v ∈ l ∧ v ∉ seen.
Proof.
  revert seen. induction l as [|x rest IH]; intros seen; simpl.
  - rewrite elem_of_nil. naive_solver.
  - case_decide as Hin.
    + rewrite IH, elem_of_cons. naive_solver.
    + rewrite !elem_of_cons, IH, not_elem_of_cons.
      destruct (decide (v = x)); naive_solver.
Qed.

Lemma NoDup_unseen seen l : NoDup (unseen seen l).
Proof.
  revert seen. induction l as [|x rest IH]; intros seen; simpl.
  - constructor.
  - case_decide; [apply IH|]. apply NoDup_cons. split; [|apply IH].
    rewrite elem_of_unseen, not_elem_of_cons. naive_solver.
Qed.

Lemma unseen_length seen l :
  length (unseen seen l) ≤ length l
  ∧ (length (unseen seen l) = length l → unseen seen l = l).
Proof.
  revert seen. induction l as [|x rest IH]; intros seen; simpl; [done|].
  case_decide.
  - destruct (IH seen). split; [lia | intros; lia].
  - destruct (IH (x :: seen)) as [Hle Heq]. simpl.
    split; [lia | intros; f_equal; apply Heq; lia].
Qed.

Lemma unseen_order seen l i j x y :
  unseen seen l !! i = Some x → unseen seen l !! j = Some y → i < j →
  firstIndex x l < firstIndex y l.
Proof.
  revert seen i j. induction l as [|a rest IH]; intros seen i j; simpl;
    [done|].
  case_decide as Hin.
  - intros Hx Hy Hij.
    assert (x ∈ unseen seen rest) as Hxin by (by eapply list_elem_of_lookup_2).
    assert (y ∈ unseen seen rest) as Hyin by (by eapply list_elem_of_lookup_2).
    apply elem_of_unseen in Hxin as [_ Hxs], Hyin as [_ Hys].
    rewrite !decide_False by congruence.
    apply -> Nat.succ_lt_mono. by eapply IH.
  - destruct i as [|i], j as [|j]; simpl; try lia.
    + intros [= ->] Hy _.
      assert (y ∈ unseen (x :: seen) rest) as Hyin
        by (by eapply list_elem_of_lookup_2).
      apply elem_of_unseen in Hyin as [_ Hys].
      apply not_elem_of_cons in Hys as [Hne _].
      rewrite decide_True by done. rewrite decide_False by congruence. lia.
    + intros Hx Hy Hij.
      assert (x ∈ unseen (a :: seen) rest) as Hxin
        by (by eapply list_elem_of_lookup_2).
      assert (y ∈ unseen (a :: seen) rest) as Hyin
        by (by eapply list_elem_of_lookup_2).
      apply elem_of_unseen in Hxin as [_ Hxs], Hyin as [_ Hys].
      apply not_elem_of_cons in Hxs as [Hxa _], Hys as [Hya _].
      rewrite !decide_False by congruence.
      apply -> Nat.succ_lt_mono. eapply IH; [done..|lia].
Qed.

Lemma firstIndex_filter (P : Value → Prop) `{!∀ v, Decision (P v)} l x y :
  P x → P y →
  firstIndex x (filter P l) < firstIndex y (filter P l) →
  firstIndex x l < firstIndex y l.
Proof.
  intros Hx Hy. induction l as [|a rest IH]; simpl; [done|].
  rewrite filter_cons. destruct (decide (P a)) as [Ha|Ha]; simpl.
  - destruct (decide (a = x)), (decide (a = y)); simpl; intros; lia.
  - rewrite !decide_False by congruence. lia.
Qed.

Lemma ElideImmediateExecuteWaits_spec g ir op :
  lookupOp ir (op_id op) = Some op → g < length (op_operands op) →
  ∃ op', lookupOp (applyPattern (ElideImmediateExecuteWaits g) ir (op_id op))
           (op_id op) = Some op'
         ∧ op_id op' = op_id op
         ∧ length (op_operands op') = length (op_operands op)
         ∧ getODSOperands op' g
           = filter (fun v => definedBy ir stream_timepoint_immediate v
                              = false) (getODSOperands op g).
Proof.
  intros Hop Hg. unfold applyPattern, ElideImmediateExecuteWaits.
  rewrite Hop. pose proof (erase_elidedTimepoints ir [] (getODSOperands op g))
    as Herase. simpl in Herase.
  case_decide as Hel; simpl.
  - exists op. rewrite Hel in Herase. simpl in Herase.
    by rewrite <- Herase.
  - rewrite lookupOp_updateOp, Hop; simpl.
    2: { intros o. by apply eraseODSOperands_frame. }
    rewrite decide_True by done. eexists. split; [done|].
    destruct (eraseODSOperands_frame g
                (reverse (elidedTimepoints ir 0 (getODSOperands op g)))
                op) as (? & _ & ?).
    by rewrite eraseODSOperands_spec, Herase.
Qed.

Lemma ElideDuplicateExecuteWaits_spec g ir op :
  lookupOp ir (op_id op) = Some op → g < length (op_operands op) →
  ∃ op', lookupOp (applyPattern (ElideDuplicateExecuteWaits g) ir (op_id op))
           (op_id op) = Some op'
         ∧ getODSOperands op' g = unseen [] (getODSOperands op g).
Proof.
  intros Hop Hg. unfold applyPattern, ElideDuplicateExecuteWaits.
  rewrite Hop, setVectorInsert_unseen. simpl.
  case_decide as Hlen; simpl.
  - exists op. split; [done|]. symmetry. by apply unseen_length.
  - unfold assignODSOperands. rewrite lookupOp_updateOp, Hop by done. simpl.
    rewrite decide_True by done. eexists. split; [done|].
    unfold getODSOperands at 1. simpl. by rewrite list_lookup_insert_eq.
Qed.

Lemma definedBy_applyPattern_ElideImmediate g ir id name v :
  definedBy (applyPattern (ElideImmediateExecuteWaits g) ir id) name v
  = definedBy ir name v.
Proof.
  unfold applyPattern, ElideImmediateExecuteWaits.
  destruct (lookupOp ir id) as [op|]; [|done].
  case_decide; [done|]. simpl.
  apply definedBy_updateOp; intros o; by apply eraseODSOperands_frame.
Qed.

Lemma definedBy_applyPattern_ElideDuplicate g ir id name v :
  definedBy (applyPattern (ElideDuplicateExecuteWaits g) ir id) name v
  = definedBy ir name v.
Proof.
  unfold applyPattern, ElideDuplicateExecuteWaits.
  destruct (lookupOp ir id) as [op|]; [|done].
  case_decide; [done|]. simpl. by apply definedBy_updateOp.
Qed.

(** C6: after the two await-list canonicalizations of an async.execute op,
    its await list holds exactly the entries of the old list that are not
    defined by timepoint.immediate, none of them twice, and in the order of
    their first occurrences in the old list. *)
Theorem canonicalizeAwaits_spec ir op :
  lookupOp ir (op_id op) = Some op →
  AsyncExecuteOp.await_timepointsGroup < length (op_operands op) →
  ∃ op',
    lookupOp (canonicalizeAwaits ir (op_id op)) (op_id op) = Some op'
    ∧ (∀ v, v ∈ AsyncExecuteOp.await_timepoints op'
            ↔ v ∈ AsyncExecuteOp.await_timepoints op
              ∧ definedBy ir stream_timepoint_immediate v = false)
    ∧ (∀ v, v ∈ AsyncExecuteOp.await_timepoints op' →
            definedBy (canonicalizeAwaits ir (op_id op))
              stream_timepoint_immediate v = false)
    ∧ NoDup (AsyncExecuteOp.await_timepoints op')
    ∧ (∀ i j x y,
         AsyncExecuteOp.await_timepoints op' !! i = Some x →
         AsyncExecuteOp.await_timepoints op' !! j = Some y →
         i < j →
         firstIndex x (AsyncExecuteOp.await_timepoints op)
         < firstIndex y (AsyncExecuteOp.await_timepoints op)).
Proof.
  intros Hop Hg. unfold canonicalizeAwaits, AsyncExecuteOp.await_timepoints.
  unfold ElideImmediateAsyncExecuteWaits, ElideDuplicateAsyncExecuteWaits.
  set (g := AsyncExecuteOp.await_timepointsGroup) in *.
  destruct (ElideImmediateExecuteWaits_spec g ir op Hop Hg)
    as (op1 & Hop1 & Hid1 & Hlen1 & Hl1).
  set (ir1 := applyPattern (ElideImmediateExecuteWaits g) ir (op_id op)) in *.
  rewrite <- Hid1 in Hop1 |- *.
  destruct (ElideDuplicateExecuteWaits_spec g ir1 op1 Hop1)
    as (op2 & Hop2 & Hl2); [lia|].
  exists op2. split; [done|]. rewrite Hl2, Hl1.
  set (P := fun v => definedBy ir stream_timepoint_immediate v = false).
  assert (∀ v, v ∈ unseen [] (filter P (getODSOperands op g))
               ↔ v ∈ getODSOperands op g ∧ P v) as Hmem.
  { intros v. rewrite elem_of_unseen, list_elem_of_filter, elem_of_nil.
    naive_solver. }
  split; [done|]. split.
  { intros v Hv. rewrite definedBy_applyPattern_ElideDuplicate.
    unfold ir1. rewrite definedBy_applyPattern_ElideImmediate.
    by apply Hmem. }
  split; [apply NoDup_unseen|].
  intros i j x y Hx Hy Hij.
  apply (firstIndex_filter P).
  - eapply Hmem, list_elem_of_lookup_2, Hx.
  - eapply Hmem, list_elem_of_lookup_2, Hy.
  - by eapply unseen_order.
Qed.

Lemma canonicalizeAwaits_spec_witness :
  ∃ op', lookupOp (canonicalizeAwaits awaitsIR 3) 3 = Some op'
         ∧ NoDup (AsyncExecuteOp.await_timepoints op').
Proof.
  destruct (canonicalizeAwaits_spec awaitsIR awaitsOp)
    as (op' & Hop' & _ & _ & Hnd & _);
    [reflexivity | vm_compute; lia |].
  exists op'. split; assumption.
Defined.

Example canonicalizeAwaits_example :
  AsyncExecuteOp.await_timepoints
    <$> lookupOp (canonicalizeAwaits awaitsIR 3) 3
  = Some [OpResult 2 0; BlockArgument 0 0].
Proof. vm_compute. reflexivity. Qed.

(** ** ChainAsyncExecuteWaits and ChainCmdExecuteWaits *)

Lemma assignODSOperands0_frame (rs : list (nat * Value)) o :
  let o' := foldl (fun o (r : nat * Value) => assignODSOperand 0 r.1 r.2 o)
                  o rs in
  op_id o' = op_id o
  ∧ ∀ g, g ≠ 0 → getODSOperands o' g = getODSOperands o g.
Proof.
  revert o. induction rs as [|r rs IH]; intros o; simpl; [done|].
  destruct (IH (assignODSOperand 0 r.1 r.2 o)) as [-> Hg].
  split; [done|]. intros g Hne. rewrite Hg by done.
  unfold getODSOperands, assignODSOperand. simpl.
  by rewrite list_lookup_insert_ne.
Qed.

(** The pattern writes to the captured operands only: whatever op it runs
    on, every other operand group, the await list among them, is the same
    afterwards. *)
Lemma ChainExecuteWaits_other_groups ir op g :
  lookupOp ir (op_id op) = Some op → g ≠ 0 →
  ∃ op', lookupOp (ChainExecuteWaits ir op).2 (op_id op) = Some op'
         ∧ getODSOperands op' g = getODSOperands op g.
Proof.
  intros Hop Hg. unfold ChainExecuteWaits. case_decide; simpl.
  - by exists op.
  - rewrite lookupOp_updateOp, Hop.
    2: { intros o. by apply assignODSOperands0_frame. }
    simpl. rewrite decide_True by done. eexists. split; [done|].
    by apply assignODSOperands0_frame.
Qed.

(** C2: both chain-awaits patterns make the region capture the awaited
    resource [%2] directly, and report success, but the timepoint [%1] the
    await was waiting for is not added to the await list, which stays
    empty. *)
Theorem ChainExecuteWaits_drops_timepoint :
  ChainAsyncExecuteWaits chainIR chainAsyncExecuteOp
  = (success,
     [mkOp 1 other_op 0 [] [TimepointType] [] None;
      mkOp 2 other_op 0 [] [ResourceType Transient] [] None;
      chainAwaitOp;
      mkOp 4 stream_async_execute 0
           [[OpResult 2 0]; [BlockArgument 0 0]; []; []]
           [TimepointType] [] None;
      chainCmdExecuteOp])
  ∧ ChainCmdExecuteWaits chainIR chainCmdExecuteOp
    = (success,
       [mkOp 1 other_op 0 [] [TimepointType] [] None;
        mkOp 2 other_op 0 [] [ResourceType Transient] [] None;
        chainAwaitOp;
        chainAsyncExecuteOp;
        mkOp 5 stream_cmd_execute 0
             [[OpResult 2 0]; [BlockArgument 0 0]; []]
             [TimepointType] [] None]).
Proof. split; vm_compute; reflexivity. Qed.

(** ** findInsertionPointBefore and sinkOp *)

(** The loop of findInsertionPointBefore starts at the op itself: within
    one block the sink is skipped exactly when the op and every op up to the
    target are producers of the target's operands. *)
Lemma sinkOp_same_block ir op targetOp range :
  op_block op = op_block targetOp →
  opsBetween ir op targetOp = Some range →
  op_id op ≠ op_id targetOp →
  sinkOp ir op targetOp
  = Some (if forallb (fun o => bool_decide (op_id o ∈ producerOps targetOp))
                     range
          then (failure, ir)
          else (success, moveBefore ir op targetOp)).
Proof.
  intros Hblock Hrange Hne. unfold sinkOp, findInsertionPointBefore.
  rewrite decide_True by done. rewrite Hrange. simpl.
  destruct (forallb _ range); simpl.
  - by rewrite decide_True.
  - by rewrite decide_False.
Qed.

(** Across blocks the op is always moved. *)
Lemma sinkOp_other_block ir op targetOp :
  op_block op ≠ op_block targetOp → op_id op ≠ op_id targetOp →
  sinkOp ir op targetOp = Some (success, moveBefore ir op targetOp).
Proof.
  intros Hblock Hne. unfold sinkOp, findInsertionPointBefore.
  rewrite decide_False by done. simpl. by rewrite decide_False.
Qed.

Lemma opsFrom_head l id range :
  opsFrom l id = Some range → ∃ o rest, range = o :: rest ∧ op_id o = id.
Proof.
  induction l as [|x l IH]; simpl; [done|].
  case_decide; [|done]. intros [= <-]. eauto.
Qed.

(** When the target consumes a result of the op, as the consumers that the
    splat and await patterns sink to do, the helper behaves as specified:
    the op stays, and the sink fails, exactly when every op strictly between
    the two produces an operand of the target. *)
Lemma sinkOp_to_consumer ir op targetOp range :
  op_block op = op_block targetOp →
  opsBetween ir op targetOp = Some range →
  op_id op ≠ op_id targetOp →
  op_id op ∈ producerOps targetOp →
  sinkOp ir op targetOp
  = Some (if strictlyBetweenAllProduce ir op targetOp
          then (failure, ir)
          else (success, moveBefore ir op targetOp)).
Proof.
  intros Hblock Hrange Hne Hprod.
  rewrite (sinkOp_same_block _ _ _ range) by done.
  unfold strictlyBetweenAllProduce. rewrite bool_decide_eq_true_2 by done.
  rewrite Hrange. simpl.
  unfold opsBetween in Hrange.
  destruct (opsFrom (blockOps ir (op_block op)) (op_id op)) as [l|] eqn:Hfrom;
    [|done].
  simpl in Hrange.
  destruct (opsFrom_head _ _ _ Hfrom) as (o & rest & -> & Hid).
  simpl in Hrange. rewrite decide_False in Hrange by congruence.
  destruct (opsUntil rest (op_id targetOp)) as [r|]; [|done].
  simpl in Hrange. injection Hrange as <-. simpl.
  rewrite Hid. by rewrite bool_decide_eq_true_2.
Qed.

(** C8: where the target does not consume the op the helper departs from
    the stated rule.  With the splat directly in front of the block's
    terminator no op lies strictly between them, yet sinkOp reports success
    and leaves the IR as it was; with one producer of the terminator's
    operand between them the splat is moved behind that producer. *)
Theorem sinkOp_not_consumer :
  strictlyBetweenAllProduce sunkSplatIR sunkSplatOp sunkTerminatorOp = true
  ∧ sinkOp sunkSplatIR sunkSplatOp sunkTerminatorOp
    = Some (success, sunkSplatIR)
  ∧ strictlyBetweenAllProduce hoppingSplatIR sunkSplatOp hoppingTerminatorOp
    = true
  ∧ sinkOp hoppingSplatIR sunkSplatOp hoppingTerminatorOp
    = Some (success,
            [mkOp 5 other_op 0 [] [OtherType] [] None;
             sunkSplatOp;
             hoppingTerminatorOp;
             mkOp 3 other_op 1 [[OpResult 1 0]] [] [] None;
             mkOp 4 other_op 2 [[OpResult 1 0]] [] [] None]).
Proof. repeat split; vm_compute; reflexivity. Qed.

(** ** Identities, lookups and uses under the mutation primitives *)

Lemma freshId_fresh ir o : o ∈ ir → op_id o < freshId ir.
Proof.
  intros Hin. unfold freshId.
  assert (op_id o ≤ max_list (op_id <$> ir)); [|lia].
  apply max_list_elem_of_le. by apply list_elem_of_fmap_2.
Qed.

Lemma freshId_not_elem_of ir : freshId ir ∉ op_id <$> ir.
Proof.
  intros Hin. apply list_elem_of_fmap in Hin as (o & Hid & Hin).
  apply freshId_fresh in Hin. lia.
Qed.

Lemma lookupOp_is_Some ir id : is_Some (lookupOp ir id) ↔ id ∈ op_id <$> ir.
Proof.
  destruct (lookupOp ir id) eqn:Hl.
  - split; [|by eauto]. intros _. apply lookupOp_Some in Hl as [Hin <-].
    by apply list_elem_of_fmap_2.
  - split; [by intros []|]. intros Hin. by apply lookupOp_None in Hl.
Qed.

Lemma lookupOp_freshId ir : lookupOp ir (freshId ir) = None.
Proof. apply lookupOp_None, freshId_not_elem_of. Qed.

Lemma fmap_op_id_updateOp ir id f :
  (∀ o, op_id (f o) = op_id o) →
  op_id <$> updateOp ir id f = op_id <$> ir.
Proof.
  intros Hf. unfold updateOp. rewrite <- list_fmap_compose.
  apply list_fmap_ext. intros _ o _. simpl. case_decide; [apply Hf|done].
Qed.

Lemma fmap_op_id_insertBefore ir target new :
  op_id <$> insertBefore ir target new
  = insertIdBefore (op_id <$> ir) target (op_id new).
Proof.
  induction ir as [|x rest IH]; csimpl; [done|].
  case_decide; csimpl; [done|]. by rewrite IH.
Qed.

Lemma elem_of_insertIdBefore l target new x :
  target ∈ l → x ∈ insertIdBefore l target new ↔ x = new ∨ x ∈ l.
Proof.
  induction l as [|y rest IH]; simpl; intros Hin.
  - by apply elem_of_nil in Hin.
  - case_decide as Hy.
    + rewrite !elem_of_cons. naive_solver.
    + apply elem_of_cons in Hin as [->|Hin]; [done|].
      rewrite !elem_of_cons, IH by done. naive_solver.
Qed.

Lemma NoDup_insertIdBefore l target new :
  NoDup l → target ∈ l → new ∉ l → NoDup (insertIdBefore l target new).
Proof.
  induction l as [|y rest IH]; simpl; intros Hnd Hin Hnew; [done|].
  apply NoDup_cons in Hnd as [Hy Hnd].
  apply not_elem_of_cons in Hnew as [Hne Hnew].
  case_decide as Hyt.
  - apply NoDup_cons. split; [|by apply NoDup_cons].
    rewrite elem_of_cons. naive_solver.
  - apply elem_of_cons in Hin as [->|Hin]; [done|].
    apply NoDup_cons. split; [|by apply IH].
    rewrite elem_of_insertIdBefore by done. naive_solver.
Qed.

Lemma lookupOp_insertBefore ir target new id :
  target ∈ op_id <$> ir → op_id new ∉ op_id <$> ir →
  lookupOp (insertBefore ir target new) id
  = if decide (id = op_id new) then Some new else lookupOp ir id.
Proof.
  induction ir as [|x rest IH]; csimpl; intros Hin Hnew.
  - by apply elem_of_nil in Hin.
  - apply not_elem_of_cons in Hnew as [Hne Hnew].
    destruct (decide (op_id x = target)) as [Hxt|Hxt]; simpl.
    + destruct (decide (op_id new = id)), (decide (id = op_id new)),
        (decide (op_id x = id)); congruence.
    + apply elem_of_cons in Hin as [->|Hin]; [done|].
      rewrite IH by done.
      destruct (decide (id = op_id new)), (decide (op_id x = id)); congruence.
Qed.

Lemma getOperands_setOperandIn groups k v :
  concat (setOperandIn groups k v) = <[k := v]> (concat groups).
Proof.
  revert k. induction groups as [|g gs IH]; intros k; simpl; [done|].
  case_decide as Hk; simpl.
  - by rewrite insert_app_l.
  - rewrite IH. replace k with (length g + (k - length g)) at 2 by lia.
    by rewrite insert_app_r.
Qed.

Lemma lookupOp_setOperand ir u k v id :
  lookupOp (setOperand ir u k v) id
  = (fun o => if decide (op_id o = u)
              then withOperands o (setOperandIn (op_operands o) k v) else o)
      <$> lookupOp ir id.
Proof. unfold setOperand. by rewrite lookupOp_updateOp. Qed.

(** *** Uses *)

Lemma elem_of_usesIn v owner j l use :
  use ∈ usesIn v owner j l
  ↔ ∃ k, use = (owner, j + k) ∧ l !! k = Some v.
Proof.
  revert j. induction l as [|x l IH]; intros j; simpl.
  - rewrite elem_of_nil. naive_solver.
  - rewrite elem_of_app, IH. split.
    + intros [Hx|(k & -> & Hk)].
      * case_decide as Hxv; [|by apply elem_of_nil in Hx].
        apply list_elem_of_singleton in Hx as ->. exists 0.
        rewrite Nat.add_0_r. by subst.
      * exists (S k). split; [f_equal; lia | done].
    + intros ([|k] & -> & Hk); simpl in Hk.
      * left. injection Hk as ->. rewrite decide_True by done.
        rewrite Nat.add_0_r. apply list_elem_of_singleton. done.
      * right. exists k. split; [f_equal; lia | done].
Qed.

Lemma NoDup_usesIn v owner j l : NoDup (usesIn v owner j l).
Proof.
  revert j. induction l as [|x l IH]; intros j; simpl; [constructor|].
  apply NoDup_app. split; [|split; [|apply IH]].
  - case_decide; [apply NoDup_singleton | constructor].
  - intros use Hx. case_decide; [|by apply elem_of_nil in Hx].
    apply list_elem_of_singleton in Hx as ->.
    rewrite elem_of_usesIn. intros (k & [= Hk] & _). lia.
Qed.

Lemma elem_of_usesInProgramOrder ir v use :
  use ∈ usesInProgramOrder ir v
  ↔ ∃ o, o ∈ ir ∧ use.1 = op_id o ∧ getOperands o !! use.2 = Some v.
Proof.
  unfold usesInProgramOrder. rewrite list_elem_of_bind. split.
  - intros (o & Huse & Hin). apply elem_of_usesIn in Huse as (k & -> & Hk).
    by exists o.
  - intros (o & Hin & Hid & Hk). exists o. split; [|done].
    apply elem_of_usesIn. exists use.2. split; [|done].
    destruct use; simpl in *. by subst.
Qed.

Lemma elem_of_getUses ir v use :
  use ∈ getUses ir v
  ↔ ∃ o, o ∈ ir ∧ use.1 = op_id o ∧ getOperands o !! use.2 = Some v.
Proof.
  unfold getUses. rewrite elem_of_reverse.
  apply elem_of_usesInProgramOrder.
Qed.

Lemma NoDup_usesInProgramOrder ir v :
  NoDup (op_id <$> ir) → NoDup (usesInProgramOrder ir v).
Proof.
  unfold usesInProgramOrder. induction ir as [|o ir IH]; csimpl; intros Hnd;
    [constructor|].
  apply NoDup_cons in Hnd as [Ho Hnd].
  apply NoDup_app. split; [apply NoDup_usesIn|]. split; [|by apply IH].
  intros use Hin1 Hin2. apply elem_of_usesIn in Hin1 as (k & -> & _).
  apply (elem_of_usesInProgramOrder ir v) in Hin2 as (o' & Hin' & Hid & _).
  simpl in Hid. apply Ho. rewrite Hid. by apply list_elem_of_fmap_2.
Qed.

Lemma NoDup_getUses ir v : NoDup (op_id <$> ir) → NoDup (getUses ir v).
Proof.
  intros Hnd. unfold getUses. rewrite reverse_Permutation.
  by apply NoDup_usesInProgramOrder.
Qed.

Lemma getUses_operandAt ir v use :
  NoDup (op_id <$> ir) →
  use ∈ getUses ir v ↔ operandAt ir use = Some v.
Proof.
  intros Hnd. rewrite elem_of_getUses. unfold operandAt. split.
  - intros (o & Hin & -> & Hk). by rewrite lookupOp_elem_of.
  - destruct (lookupOp ir use.1) as [o|] eqn:Hl; simpl; [|done].
    intros Hk. apply lookupOp_Some in Hl as [Hin Hid]. by exists o.
Qed.

(** ** MaterializeCOW: one clone *)

Section MaterializeCOW_step.

Variable queryValueSize : Value → Value.
Variable sourceAffinity : AffinityAttr.

Local Abbreviation step := (cloneTiedUse queryValueSize sourceAffinity).

Lemma cloneTiedUse_None ir t :
  lookupOp ir (user t) = None → step ir t = ir.
Proof. unfold cloneTiedUse. by intros ->. Qed.

Lemma cloneTiedUse_lookupOp ir t userOp id :
  lookupOp ir (user t) = Some userOp →
  lookupOp (step ir t) id
  = if decide (id = freshId ir) then
      Some (cowClone queryValueSize (freshId ir) (op_block userOp) (value t)
              (cloneAffinity (op_affinity userOp) sourceAffinity))
    else if decide (id = user t) then
      Some (withOperands userOp
              (setOperandIn (op_operands userOp) (operandIndex t)
                 (OpResult (freshId ir) 0)))
    else lookupOp ir id.
Proof.
  intros Huser. unfold cloneTiedUse. rewrite Huser. simpl.
  assert (user t ∈ op_id <$> ir) as Hin
    by (apply lookupOp_is_Some; eauto).
  pose proof (freshId_not_elem_of ir) as Hfresh.
  rewrite lookupOp_setOperand, lookupOp_insertBefore by done. simpl.
  destruct (decide (id = freshId ir)) as [->|Hid]; simpl.
  - rewrite decide_False; [done|]. intros Heq. by rewrite <- Heq in Hin.
  - destruct (decide (id = user t)) as [->|Hu].
    + rewrite Huser. simpl. apply lookupOp_Some in Huser as [_ ->].
      by rewrite decide_True.
    + destruct (lookupOp ir id) as [o|] eqn:Hl; simpl; [|done].
      apply lookupOp_Some in Hl as [_ ->]. by rewrite decide_False.
Qed.

Lemma cloneTiedUse_ids ir t :
  is_Some (lookupOp ir (user t)) →
  op_id <$> step ir t = insertIdBefore (op_id <$> ir) (user t) (freshId ir).
Proof.
  intros [userOp Huser]. unfold cloneTiedUse. rewrite Huser. simpl.
  unfold setOperand. rewrite fmap_op_id_updateOp by done.
  by rewrite fmap_op_id_insertBefore.
Qed.

Lemma cloneTiedUse_NoDup ir t :
  NoDup (op_id <$> ir) → NoDup (op_id <$> step ir t).
Proof.
  intros Hnd. destruct (lookupOp ir (user t)) as [userOp|] eqn:Huser.
  - rewrite cloneTiedUse_ids by eauto.
    apply NoDup_insertIdBefore; [done| |apply freshId_not_elem_of].
    apply lookupOp_is_Some; eauto.
  - by rewrite cloneTiedUse_None.
Qed.

(** An op that was there stays, with the same fields; its operand list
    changes in the slot of the tied use only. *)
Lemma cloneTiedUse_old ir t id o :
  lookupOp ir id = Some o →
  ∃ groups, lookupOp (step ir t) id = Some (withOperands o groups)
    ∧ length (concat groups) = length (getOperands o)
    ∧ (id ≠ user t → groups = op_operands o)
    ∧ ∀ k, (id, k) ≠ slot t → concat groups !! k = getOperands o !! k.
Proof.
  intros Hl.
  assert (id ≠ freshId ir) as Hfresh.
  { intros ->. by rewrite lookupOp_freshId in Hl. }
  destruct (lookupOp ir (user t)) as [userOp|] eqn:Huser.
  - rewrite (cloneTiedUse_lookupOp _ _ userOp) by done.
    rewrite decide_False by done.
    destruct (decide (id = user t)) as [->|Hu].
    + assert (userOp = o) as -> by congruence.
      eexists. split; [done|]. rewrite getOperands_setOperandIn.
      split; [by rewrite length_insert|]. split; [done|].
      intros k Hk. apply list_lookup_insert_ne. intros <-. by apply Hk.
    + exists (op_operands o). destruct o; simpl. by rewrite Hl.
  - rewrite cloneTiedUse_None by done.
    exists (op_operands o). destruct o; simpl. by rewrite Hl.
Qed.

Lemma cloneTiedUse_lookupOp_None ir t id :
  lookupOp (step ir t) id = None → lookupOp ir id = None.
Proof.
  destruct (lookupOp ir id) as [o|] eqn:Hl; [|done].
  destruct (cloneTiedUse_old ir t id o Hl) as (g & -> & _). done.
Qed.

Lemma usesIn_insert v owner j l k new :
  new ≠ v → l !! k ≠ Some v →
  usesIn v owner j (<[k := new]> l) = usesIn v owner j l.
Proof.
  intros Hnew. revert j k.
  induction l as [|x l IH]; intros j k Hk; [done|].
  destruct k as [|k]; simpl in *.
  - rewrite decide_False by done. rewrite decide_False; [done|]. congruence.
  - by rewrite IH.
Qed.

Lemma getUses_insertBefore ir target new v :
  v ∉ getOperands new →
  getUses (insertBefore ir target new) v = getUses ir v.
Proof.
  intros Hv. unfold getUses. f_equal. unfold usesInProgramOrder.
  induction ir as [|o ir IH]; csimpl; [done|].
  case_decide; csimpl; [|by rewrite IH].
  assert (usesIn v (op_id new) 0 (getOperands new) = []) as ->; [|done].
  apply elem_of_nil_inv. intros use Huse.
  apply elem_of_usesIn in Huse as (k & _ & Hk).
  apply list_elem_of_lookup_2 in Hk. by apply Hv.
Qed.

Lemma getUses_setOperand ir u k new v :
  new ≠ v →
  (∀ o, o ∈ ir → op_id o = u → getOperands o !! k ≠ Some v) →
  getUses (setOperand ir u k new) v = getUses ir v.
Proof.
  intros Hnew. unfold getUses. intros Hslot. f_equal. revert Hslot.
  unfold usesInProgramOrder, setOperand, updateOp.
  induction ir as [|o ir IH]; csimpl; intros Hslot; [done|].
  rewrite IH by (intros; apply Hslot; [by right | done]).
  f_equal. case_decide as Ho; [|done]. simpl.
  unfold getOperands at 1. simpl. rewrite getOperands_setOperandIn.
  apply usesIn_insert; [done|]. apply Hslot; [left | done].
Qed.

(** The uses of a value that is neither the cloned one, nor its size, nor
    a new result, are the same after the step. *)
Lemma cloneTiedUse_getUses ir t v :
  NoDup (op_id <$> ir) →
  value t ≠ v → queryValueSize (value t) ≠ v →
  v ≠ OpResult (freshId ir) 0 →
  operandAt ir (slot t) ≠ Some v →
  getUses (step ir t) v = getUses ir v.
Proof.
  intros Hnd Hval Hsize Hnew Hslot. unfold cloneTiedUse.
  destruct (lookupOp ir (user t)) as [userOp|] eqn:Huser; [|done]. simpl.
  rewrite getUses_setOperand; [|done|].
  - apply getUses_insertBefore. unfold getOperands. simpl.
    rewrite !elem_of_cons, elem_of_nil. naive_solver.
  - intros o Hin Hid. 
    assert (lookupOp (insertBefore ir (user t)
      (mkOp (freshId ir) stream_async_clone (op_block userOp)
         [[value t]; [queryValueSize (value t)]; [queryValueSize (value t)]]
         [ResourceType Unknown] []
         (if op_affinity userOp is Some _ then op_affinity userOp
          else sourceAffinity))) (op_id o) = Some o) as Hl.
    { apply lookupOp_elem_of; [|done].
      rewrite fmap_op_id_insertBefore. simpl.
      apply NoDup_insertIdBefore; [done| |apply freshId_not_elem_of].
      apply lookupOp_is_Some; eauto. }
    rewrite lookupOp_insertBefore in Hl; simpl.
    2: { apply lookupOp_is_Some; eauto. }
    2: { apply freshId_not_elem_of. }
    simpl in Hl. rewrite Hid in Hl.
    rewrite decide_False in Hl.
    2: { intros Hf. pose proof (freshId_not_elem_of ir) as Hfr.
         apply Hfr. rewrite <- Hf. apply lookupOp_is_Some; eauto. }
    intros Hk. apply Hslot. unfold operandAt, slot. simpl.
    by rewrite Hl.
Qed.

End MaterializeCOW_step.

(** ** MaterializeCOW: the loop over the tied uses *)

Lemma insertIdBefore_app_l l1 l2 target new :
  target ∈ l1 →
  insertIdBefore (l1 ++ l2) target new = insertIdBefore l1 target new ++ l2.
Proof.
  induction l1 as [|x l1 IH]; simpl; intros Hin.
  - by apply elem_of_nil in Hin.
  - case_decide; [done|]. apply elem_of_cons in Hin as [->|Hin]; [done|].
    by rewrite IH.
Qed.

Lemma insertIdBefore_app_r l1 l2 target new :
  target ∉ l1 →
  insertIdBefore (l1 ++ l2) target new = l1 ++ insertIdBefore l2 target new.
Proof.
  induction l1 as [|x l1 IH]; simpl; intros Hin; [done|].
  apply not_elem_of_cons in Hin as [Hne Hin].
  rewrite decide_False by done. by rewrite IH.
Qed.

Lemma insertIdBefore_length l target new :
  target ∈ l → ∃ l1 l2, insertIdBefore l target new = l1 ++ new :: target :: l2.
Proof.
  induction l as [|x l IH]; simpl; intros Hin.
  - by apply elem_of_nil in Hin.
  - case_decide as Hx.
    + subst. by exists [], l.
    + apply elem_of_cons in Hin as [->|Hin]; [done|].
      destruct (IH Hin) as (l1 & l2 & ->). by exists (x :: l1), l2.
Qed.

(** An insertion in front of an op that is neither the clone nor one of the
    ops between the clone and its consumer leaves the clone in front of the
    consumer, with at most the inserted op added between them. *)
Lemma insertIdBefore_between l1 n mid u l2 target new :
  target ∈ l1 ++ n :: mid ++ u :: l2 → target ≠ n → target ∉ mid →
  ∃ l1' mid' l2',
    insertIdBefore (l1 ++ n :: mid ++ u :: l2) target new
    = l1' ++ n :: mid' ++ u :: l2'
    ∧ ∀ x, x ∈ mid' → x ∈ mid ∨ x = new.
Proof.
  intros Hin Hn Hmid.
  destruct (decide (target ∈ l1)) as [H1|H1].
  { rewrite insertIdBefore_app_l by done.
    exists (insertIdBefore l1 target new), mid, l2. naive_solver. }
  rewrite insertIdBefore_app_r by done. simpl.
  rewrite decide_False by done.
  rewrite insertIdBefore_app_r by done. simpl.
  case_decide as Hu.
  - exists l1, (mid ++ [new]), l2. split.
    + by rewrite <- app_assoc.
    + intros x. rewrite elem_of_app, list_elem_of_singleton. naive_solver.
  - exists l1, mid, (insertIdBefore l2 target new). naive_solver.
Qed.

Section MaterializeCOW_loop.

Variable queryValueSize : Value → Value.
Variable sourceAffinity : AffinityAttr.

Local Abbreviation step := (cloneTiedUse queryValueSize sourceAffinity).
Local Abbreviation loop := (foldl (cloneTiedUse queryValueSize sourceAffinity)).

Lemma withOperands_withOperands o g1 g2 :
  withOperands (withOperands o g1) g2 = withOperands o g2.
Proof. done. Qed.

Lemma withOperands_id o : withOperands o (op_operands o) = o.
Proof. by destruct o. Qed.

Lemma loop_NoDup T ir :
  NoDup (op_id <$> ir) → NoDup (op_id <$> loop ir T).
Proof.
  revert ir. induction T as [|t T IH]; intros ir Hnd; simpl; [done|].
  by apply IH, cloneTiedUse_NoDup.
Qed.

(** Ops that were there stay, with the same fields; operands change in the
    slots of the tied uses only. *)
Lemma loop_old T ir id o :
  lookupOp ir id = Some o →
  ∃ groups, lookupOp (loop ir T) id = Some (withOperands o groups)
    ∧ length (concat groups) = length (getOperands o)
    ∧ (id ∉ user <$> T → groups = op_operands o)
    ∧ ∀ k, (id, k) ∉ slot <$> T → concat groups !! k = getOperands o !! k.
Proof.
  revert ir o. induction T as [|t T IH]; intros ir o Hl; simpl.
  - exists (op_operands o). by rewrite withOperands_id.
  - destruct (cloneTiedUse_old queryValueSize sourceAffinity ir t id o Hl)
      as (g1 & Hl1 & Hlen1 & Hg1 & Hk1).
    destruct (IH _ _ Hl1) as (g2 & Hl2 & Hlen2 & Hg2 & Hk2).
    exists g2. rewrite withOperands_withOperands in Hl2.
    split; [done|]. split; [by rewrite Hlen2|]. split.
    + intros Hid. csimpl in Hid. apply not_elem_of_cons in Hid as [Hne Hid].
      rewrite Hg2 by done. simpl. by apply Hg1.
    + intros k Hk. csimpl in Hk. apply not_elem_of_cons in Hk as [Hne Hk].
      rewrite Hk2 by done. unfold getOperands at 1. simpl. by apply Hk1.
Qed.

Lemma loop_ids_subseteq T ir id :
  id ∈ op_id <$> ir → id ∈ op_id <$> loop ir T.
Proof.
  intros Hin. apply lookupOp_is_Some in Hin as [o Hl].
  destruct (loop_old T ir id o Hl) as (g & Hl' & _).
  apply lookupOp_is_Some. eauto.
Qed.

Lemma loop_lookupOp_None T ir id :
  lookupOp (loop ir T) id = None → lookupOp ir id = None.
Proof.
  destruct (lookupOp ir id) as [o|] eqn:Hl; [|done].
  destruct (loop_old T ir id o Hl) as (g & -> & _). done.
Qed.

(** The position of a clone in front of its consumer survives the loop. *)
Lemma loop_between T ir l1 n mid u l2 :
  op_id <$> ir = l1 ++ n :: mid ++ u :: l2 →
  (∀ t, t ∈ T → user t ∈ op_id <$> ir ∧ user t ≠ n ∧ user t ∉ mid) →
  ∃ l1' mid' l2',
    op_id <$> loop ir T = l1' ++ n :: mid' ++ u :: l2'
    ∧ ∀ x, x ∈ mid' → x ∈ mid ∨ x ∉ op_id <$> ir.
Proof.
  revert ir l1 mid l2. induction T as [|t T IH]; intros ir l1 mid l2 Hids HT;
    simpl.
  - exists l1, mid, l2. naive_solver.
  - destruct (HT t) as (Hin & Hn & Hmid); [left|].
    assert (is_Some (lookupOp ir (user t))) as Hsome
      by (by apply lookupOp_is_Some).
    pose proof (cloneTiedUse_ids queryValueSize sourceAffinity ir t Hsome)
      as Hids1.
    rewrite Hids in Hids1.
    destruct (insertIdBefore_between l1 n mid u l2 (user t) (freshId ir))
      as (l1' & mid' & l2' & Heq & Hmid'); [by rewrite <- Hids|done..|].
    rewrite Heq in Hids1.
    destruct (IH _ _ _ _ Hids1) as (l1'' & mid'' & l2'' & Hfin & Hmid'').
    + intros t' Ht'. destruct (HT t') as (Hin' & Hn' & Hmid'0); [by right|].
      split; [|split; [done|]].
      * apply (loop_ids_subseteq [t] ir). done.
      * intros Hx. apply Hmid' in Hx as [Hx|Hx]; [done|].
        apply (freshId_not_elem_of ir). by rewrite <- Hx.
    + exists l1'', mid'', l2''. split; [done|].
      intros x Hx. apply Hmid'' in Hx as [Hx|Hx].
      * apply Hmid' in Hx as [Hx| ->]; [by left|].
        right. apply freshId_not_elem_of.
      * right. intros Hxin. apply Hx.
        apply (loop_ids_subseteq [t] ir). done.
Qed.

(** Every tied use of the list ends up consuming a clone of its own, which
    did not exist before and stands in front of the consumer. *)
Lemma loop_rewritten T ir :
  NoDup (slot <$> T) →
  (∀ t, t ∈ T → ∃ o, lookupOp ir (user t) = Some o
                     ∧ operandIndex t < length (getOperands o)) →
  ∀ t, t ∈ T →
    ∃ userOp n,
      lookupOp ir (user t) = Some userOp
      ∧ lookupOp ir n = None
      ∧ operandAt (loop ir T) (slot t) = Some (OpResult n 0)
      ∧ lookupOp (loop ir T) n
        = Some (cowClone queryValueSize n (op_block userOp) (value t)
                  (cloneAffinity (op_affinity userOp) sourceAffinity))
      ∧ ∃ l1 mid l2,
          op_id <$> loop ir T = l1 ++ n :: mid ++ user t :: l2
          ∧ ∀ x, x ∈ mid → x ∉ op_id <$> ir.
Proof.
  revert ir. induction T as [|t0 T IH]; intros ir Hnd HT t Ht.
  { by apply elem_of_nil in Ht. }
  csimpl in Hnd. apply NoDup_cons in Hnd as [Ht0 Hnd].
  assert (∀ t', t' ∈ T →
            ∃ o, lookupOp (step ir t0) (user t') = Some o
                 ∧ operandIndex t' < length (getOperands o)) as HT1.
  { intros t' Ht'. destruct (HT t') as (o & Ho & Hlen); [by right|].
    destruct (cloneTiedUse_old queryValueSize sourceAffinity ir t0 _ o Ho)
      as (g & Hg & Hglen & _).
    eexists. split; [done|]. unfold getOperands at 1. simpl. lia. }
  apply elem_of_cons in Ht as [->|Ht]; simpl.
  - destruct (HT t0) as (userOp & Huser & Hlen); [left|].
    exists userOp, (freshId ir). split; [done|].
    split; [apply lookupOp_freshId|].
    pose proof (cloneTiedUse_lookupOp queryValueSize sourceAffinity ir t0
                  userOp) as Hstep.
    assert (user t0 ≠ freshId ir) as Hne.
    { intros Heq. rewrite Heq, lookupOp_freshId in Huser. done. }
    split; [|split].
    + pose proof (Hstep (user t0) Huser) as Hl.
      rewrite decide_False, decide_True in Hl by done.
      destruct (loop_old T _ _ _ Hl) as (g & Hlg & _ & _ & Hk).
      unfold operandAt. simpl. rewrite Hlg. simpl.
      change (concat g !! operandIndex t0 = Some (OpResult (freshId ir) 0)).
      rewrite (Hk (operandIndex t0)) by done.
      unfold getOperands. simpl. rewrite getOperands_setOperandIn.
      by apply list_lookup_insert_eq.
    + pose proof (Hstep (freshId ir) Huser) as Hl.
      rewrite decide_True in Hl by done.
      destruct (loop_old T _ _ _ Hl) as (g & Hlg & _ & Hg & _).
      rewrite Hlg, Hg; [done|].
      intros Hin. apply list_elem_of_fmap in Hin as (t' & Heq & Ht').
      destruct (HT t') as (o & Ho & _); [by right|].
      rewrite <- Heq, lookupOp_freshId in Ho. done.
    + assert (user t0 ∈ op_id <$> ir) as Hin
        by (apply lookupOp_is_Some; eauto).
      pose proof (cloneTiedUse_ids queryValueSize sourceAffinity ir t0
                    (ltac:(eauto))) as Hids.
      destruct (insertIdBefore_length (op_id <$> ir) (user t0) (freshId ir)
                  Hin) as (l1 & l2 & Hsplit).
      rewrite Hsplit in Hids.
      destruct (loop_between T (step ir t0) l1 (freshId ir) [] (user t0) l2
                  Hids) as (l1' & mid' & l2' & Hfin & Hmid').
      * intros t' Ht'. destruct (HT1 t' Ht') as (o & Ho & _).
        split; [apply lookupOp_is_Some; eauto|].
        split; [|apply not_elem_of_nil].
        destruct (HT t') as (o' & Ho' & _); [by right|].
        intros Heq. rewrite Heq, lookupOp_freshId in Ho'. done.
      * exists l1', mid', l2'. split; [done|].
        intros x Hx. apply Hmid' in Hx as [Hx|Hx].
        { by apply elem_of_nil in Hx. }
        intros Hxin. apply Hx.
        apply (loop_ids_subseteq [t0] ir). done.
  - destruct (IH (step ir t0) Hnd HT1 t Ht)
      as (userOp1 & n & Huser1 & Hn1 & Hat & Hclone & l1 & mid & l2
          & Hids & Hmid).
    destruct (HT t) as (userOp & Huser & _); [by right|].
    destruct (cloneTiedUse_old queryValueSize sourceAffinity ir t0 _ _ Huser)
      as (g & Hg & _).
    assert (userOp1 = withOperands userOp g) as -> by congruence.
    exists userOp, n. split; [done|].
    split; [by eapply cloneTiedUse_lookupOp_None|].
    split; [done|]. split; [done|].
    exists l1, mid, l2. split; [done|].
    intros x Hx Hxin. apply (Hmid x Hx).
    apply (loop_ids_subseteq [t0] ir). done.
Qed.

(** The uses of a value that no tied use of the list touches are the same
    after the loop. *)
Lemma loop_getUses T ir v :
  NoDup (op_id <$> ir) →
  (∀ t, t ∈ T → value t ≠ v ∧ queryValueSize (value t) ≠ v
                ∧ operandAt ir (slot t) ≠ Some v) →
  (∀ n k, v = OpResult n k → n ∈ op_id <$> ir) →
  getUses (loop ir T) v = getUses ir v.
Proof.
  revert ir. induction T as [|t T IH]; intros ir Hnd HT Hv; simpl; [done|].
  destruct (HT t) as (Hval & Hsize & Hslot); [left|].
  assert (getUses (step ir t) v = getUses ir v) as Hstep.
  { apply cloneTiedUse_getUses; try done.
    intros ->. apply (freshId_not_elem_of ir). by eapply Hv. }
  rewrite IH, Hstep; [done|by apply cloneTiedUse_NoDup| |].
  - intros t' Ht'. destruct (HT t') as (Hval' & Hsize' & Hslot'); [by right|].
    split; [done|]. split; [done|].
    intros Hat. apply Hslot'.
    apply getUses_operandAt; [done|]. rewrite <- Hstep.
    apply getUses_operandAt; [by apply cloneTiedUse_NoDup | done].
  - intros n k Hnk. apply (loop_ids_subseteq [t] ir). by eapply Hv.
Qed.

End MaterializeCOW_loop.

(** ** MaterializeCOW: the classification of the uses *)

Lemma classifyUse_foldl ir result l acc :
  (∀ use, use ∈ l → is_Some (lookupOp ir use.1)) →
  foldl (classifyUse ir result) acc l
  = (acc.1 ++ (tiedUseOf result
                <$> filter (fun use => ownedByAwait ir use = false
                                       ∧ tiedUse ir use = true) l),
     acc.2 + length (filter (fun use => ownedByAwait ir use = false
                                        ∧ tiedUse ir use = false) l)).
Proof.
  revert acc. induction l as [|use l IH]; intros acc Hl; simpl.
  - rewrite app_nil_r, Nat.add_0_r. by destruct acc.
  - rewrite IH by (intros; apply Hl; by right).
    destruct (Hl use) as [owner Howner]; [left|].
    assert (ownedByAwait ir use
            = bool_decide (op_name owner = stream_timepoint_await)) as Ha
      by (unfold ownedByAwait; by rewrite Howner).
    assert (tiedUse ir use = isOperandTied owner use.2) as Ht
      by (unfold tiedUse; by rewrite Howner).
    rewrite !filter_cons. unfold classifyUse. rewrite Howner.
    destruct (decide (op_name owner = stream_timepoint_await)) as [Hn|Hn].
    + rewrite bool_decide_eq_true_2 in Ha by done.
      rewrite !decide_False by (intros [? ?]; congruence). done.
    + rewrite bool_decide_eq_false_2 in Ha by done.
      destruct (isOperandTied owner use.2); simpl.
      * rewrite decide_True by done.
        rewrite decide_False by (intros [? ?]; congruence).
        csimpl. by rewrite <- app_assoc.
      * rewrite decide_False by (intros [? ?]; congruence).
        rewrite decide_True by done. simpl. f_equal. lia.
Qed.

Lemma getUses_lookupOp ir v use :
  use ∈ getUses ir v → is_Some (lookupOp ir use.1).
Proof.
  intros Hin. apply elem_of_getUses in Hin as (o & Hin & -> & _).
  apply lookupOp_is_Some. by apply list_elem_of_fmap_2.
Qed.

(** The two outputs of the classification loop. *)
Lemma classifyUses_spec ir result :
  classifyUses ir result
  = (tiedUseOf result <$> cowTiedUses ir result,
     length (cowUntiedUses ir result)).
Proof.
  unfold classifyUses. rewrite classifyUse_foldl; [done|].
  intros use. apply getUses_lookupOp.
Qed.

Lemma skipsResult_keepsResult ir result lifetime :
  skipsResult (bool_decide (lifetime = Constant)) (classifyUses ir result)
  = keepsResult lifetime (cowTiedUses ir result) (cowUntiedUses ir result).
Proof.
  rewrite classifyUses_spec. unfold skipsResult, keepsResult. simpl.
  destruct (cowTiedUses ir result) as [|t1 [|t2 T]]; csimpl; [done| |done].
  by destruct (cowUntiedUses ir result).
Qed.

Lemma elem_of_cowTiedUses ir v use :
  use ∈ cowTiedUses ir v
  ↔ use ∈ getUses ir v
    ∧ ∃ owner, lookupOp ir use.1 = Some owner
               ∧ op_name owner ≠ stream_timepoint_await
               ∧ isOperandTied owner use.2 = true.
Proof.
  unfold cowTiedUses. rewrite list_elem_of_filter.
  unfold ownedByAwait, tiedUse. split.
  - intros [[Ha Ht] Hin]. split; [done|].
    destruct (lookupOp ir use.1) as [owner|]; [|done].
    exists owner. apply bool_decide_eq_false in Ha. done.
  - intros [Hin (owner & -> & Hn & Ht)].
    by rewrite bool_decide_eq_false_2.
Qed.

(** ** MaterializeCOW: one result, and the loop over the results *)

Section MaterializeCOW_results.

Variable queryValueSize : Value → Value.

Local Abbreviation loop aff := (foldl (cloneTiedUse queryValueSize aff)).

Lemma materializeResult_unfold op b ir j ty :
  materializeResult queryValueSize op (b, ir) (j, ty)
  = match ty with
    | ResourceType lifetime =>
        let result := OpResult (op_id op) j in
        if keepsResult lifetime (cowTiedUses ir result)
             (cowUntiedUses ir result)
        then (b, ir)
        else (true, loop (op_affinity op) ir
                      (tiedUseOf result <$> cowTiedUses ir result))
    | _ => (b, ir)
    end.
Proof.
  unfold materializeResult. simpl. destruct ty; try done.
  rewrite skipsResult_keepsResult. by rewrite classifyUses_spec.
Qed.

Lemma slot_tiedUseOf result (uses : list (OpId * nat)) :
  slot <$> (tiedUseOf result <$> uses) = uses.
Proof.
  rewrite <- list_fmap_compose. rewrite <- (list_fmap_id uses) at 2.
  apply list_fmap_ext. by intros _ [] _.
Qed.

Lemma user_tiedUseOf result (uses : list (OpId * nat)) :
  user <$> (tiedUseOf result <$> uses) = fst <$> uses.
Proof. rewrite <- list_fmap_compose. by apply list_fmap_ext. Qed.

(** A timepoint.await is never the user of a collected tied use, so every
    step of the pattern leaves it as it is. *)
Lemma materializeResult_await op st res id awaitOp :
  lookupOp st.2 id = Some awaitOp →
  op_name awaitOp = stream_timepoint_await →
  lookupOp (materializeResult queryValueSize op st res).2 id = Some awaitOp.
Proof.
  destruct st as [b ir], res as [j ty]. simpl. intros Hl Hname.
  rewrite materializeResult_unfold.
  destruct ty; try done. simpl. case_match; [done|]. simpl.
  destruct (loop_old queryValueSize (op_affinity op)
              (tiedUseOf (OpResult (op_id op) j)
                 <$> cowTiedUses ir (OpResult (op_id op) j)) ir id awaitOp Hl)
    as (g & Hg & _ & Hsame & _).
  rewrite Hg, Hsame; [by rewrite withOperands_id|].
  rewrite user_tiedUseOf. intros Hin.
  apply list_elem_of_fmap in Hin as (use & -> & Huse).
  apply elem_of_cowTiedUses in Huse as (_ & owner & Howner & Hn & _).
  congruence.
Qed.

Lemma materializeResults_await op rs st id awaitOp :
  lookupOp st.2 id = Some awaitOp →
  op_name awaitOp = stream_timepoint_await →
  lookupOp (foldl (materializeResult queryValueSize op) st rs).2 id
  = Some awaitOp.
Proof.
  revert st. induction rs as [|res rs IH]; intros st Hl Hname; simpl;
    [done|].
  apply IH; [|done]. by apply materializeResult_await.
Qed.

(** C10: a use owned by a timepoint.await is skipped by MaterializeCOW.  It
    is never pushed to [tiedUses]; the outcome of the classification, the
    tied list and the untied count, is the one of the uses with the
    await-owned ones taken out; and the pattern leaves the await op as it
    is, so that it keeps consuming the original value and not a clone. *)
Theorem MaterializeCOW_skips_awaits ir op awaitOp :
  lookupOp ir (op_id awaitOp) = Some awaitOp →
  op_name awaitOp = stream_timepoint_await →
  (∀ result k, tiedUseOf result (op_id awaitOp, k)
               ∉ (classifyUses ir result).1)
  ∧ (∀ result,
       classifyUses ir result
       = foldl (classifyUse ir result) ([], 0)
           (filter (fun use => ownedByAwait ir use = false)
                   (getUses ir result)))
  ∧ lookupOp (MaterializeCOW queryValueSize ir op).2 (op_id awaitOp)
    = Some awaitOp.
Proof.
  intros Hl Hname. split; [|split].
  - intros result k. rewrite classifyUses_spec. simpl. intros Hin.
    apply list_elem_of_fmap in Hin as ([u k'] & [= <- <-] & Huse).
    apply elem_of_cowTiedUses in Huse as (_ & owner & Howner & Hn & _).
    simpl in Howner. congruence.
  - intros result. rewrite classifyUses_spec, classifyUse_foldl.
    2: { intros use Huse. apply list_elem_of_filter in Huse as [_ Huse].
         by eapply getUses_lookupOp. }
    simpl. unfold cowTiedUses, cowUntiedUses.
    rewrite !list_filter_filter. f_equal; [f_equal|f_equal];
      apply list_filter_iff; naive_solver.
  - unfold MaterializeCOW. simpl. by apply materializeResults_await.
Qed.

End MaterializeCOW_results.

Lemma filter_ext_elem_of {A} (P Q : A → Prop) `{!∀ x, Decision (P x)}
    `{!∀ x, Decision (Q x)} (l : list A) :
  (∀ x, x ∈ l → P x ↔ Q x) → filter P l = filter Q l.
Proof.
  induction l as [|x l IH]; intros Hl; [done|].
  rewrite !filter_cons, IH by (intros; apply Hl; by right).
  apply decide_ext. apply Hl. left.
Qed.

Lemma fst_imap_pair {A} (l : list A) j :
  fst <$> imap (fun i x => (j + i, x)) l = seq j (length l).
Proof.
  revert j. induction l as [|x l IH]; intros j; csimpl; [done|].
  rewrite Nat.add_0_r. f_equal. rewrite <- IH.
  f_equal. apply imap_ext. intros i y _. simpl. f_equal. lia.
Qed.

Lemma elem_of_imap_pair {A} (l : list A) i x :
  (i, x) ∈ imap pair l ↔ l !! i = Some x.
Proof.
  rewrite list_elem_of_lookup. split.
  - intros [k Hk]. rewrite list_lookup_imap in Hk.
    destruct (l !! k) eqn:Hlk; simpl in Hk; [|done]. by injection Hk as <- <-.
  - intros Hi. exists i. rewrite list_lookup_imap, Hi. done.
Qed.

Section MaterializeCOW_frame.

Variable queryValueSize : Value → Value.
Variable op : Operation.

Local Abbreviation loop := (foldl (cloneTiedUse queryValueSize (op_affinity op))).
Local Abbreviation stage := (materializeResult queryValueSize op).
Local Abbreviation resultOf j := (OpResult (op_id op) j).

Lemma cowTiedUses_slots cur j use :
  NoDup (op_id <$> cur) →
  use ∈ cowTiedUses cur (resultOf j) →
  ∃ o, lookupOp cur use.1 = Some o
       ∧ getOperands o !! use.2 = Some (resultOf j).
Proof.
  intros Hnd Huse. apply elem_of_cowTiedUses in Huse as [Huse _].
  apply getUses_operandAt in Huse; [|done]. unfold operandAt in Huse.
  destruct (lookupOp cur use.1) as [o|]; [|done]. by exists o.
Qed.

(** What one round of the loop over the results does to the IR. *)
Lemma materializeResult_frame cur b j ty :
  NoDup (op_id <$> cur) →
  let cur1 := (stage (b, cur) (j, ty)).2 in
  NoDup (op_id <$> cur1)
  ∧ (∀ id o, lookupOp cur id = Some o →
       ∃ g, lookupOp cur1 id = Some (withOperands o g)
            ∧ (∀ k, getOperands o !! k ≠ Some (resultOf j) →
                    concat g !! k = getOperands o !! k)
            ∧ ((∀ k, getOperands o !! k ≠ Some (resultOf j)) →
               g = op_operands o))
  ∧ (∀ v, v ≠ resultOf j → queryValueSize (resultOf j) ≠ v →
          (∀ n k, v = OpResult n k → n ∈ op_id <$> cur) →
          getUses cur1 v = getUses cur v)
  ∧ (∀ l1 n mid u l2,
       op_id <$> cur = l1 ++ n :: mid ++ u :: l2 →
       (∀ use, use ∈ getUses cur (resultOf j) →
               use.1 ≠ n ∧ use.1 ∉ mid) →
       ∃ l1' mid' l2',
         op_id <$> cur1 = l1' ++ n :: mid' ++ u :: l2'
         ∧ ∀ x, x ∈ mid' → x ∈ mid ∨ x ∉ op_id <$> cur).
Proof.
  intros Hnd. rewrite materializeResult_unfold.
  assert (NoDup (op_id <$> cur)
          ∧ (∀ id o, lookupOp cur id = Some o →
               ∃ g, lookupOp cur id = Some (withOperands o g)
                    ∧ (∀ k, getOperands o !! k ≠ Some (resultOf j) →
                            concat g !! k = getOperands o !! k)
                    ∧ ((∀ k, getOperands o !! k ≠ Some (resultOf j)) →
                       g = op_operands o))
          ∧ (∀ v, v ≠ resultOf j → queryValueSize (resultOf j) ≠ v →
                  (∀ n k, v = OpResult n k → n ∈ op_id <$> cur) →
                  getUses cur v = getUses cur v)
          ∧ (∀ l1 n mid u l2,
               op_id <$> cur = l1 ++ n :: mid ++ u :: l2 →
               (∀ use, use ∈ getUses cur (resultOf j) →
                       use.1 ≠ n ∧ use.1 ∉ mid) →
               ∃ l1' mid' l2',
                 op_id <$> cur = l1' ++ n :: mid' ++ u :: l2'
                 ∧ ∀ x, x ∈ mid' → x ∈ mid ∨ x ∉ op_id <$> cur)) as Hsame.
  { split; [done|]. split; [|split; [done|]].
    - intros id o Hl. exists (op_operands o).
      by rewrite withOperands_id.
    - intros l1 n mid u l2 Hids _. exists l1, mid, l2. naive_solver. }
  destruct ty; try exact Hsame. simpl.
  case_match; [exact Hsame|]. clear Hsame. simpl.
  set (T := tiedUseOf (resultOf j) <$> cowTiedUses cur (resultOf j)).
  assert (∀ t, t ∈ T → value t = resultOf j ∧ slot t ∈ getUses cur (resultOf j)
                       ∧ ∃ o, lookupOp cur (user t) = Some o
                              ∧ getOperands o !! operandIndex t
                                = Some (resultOf j)) as HT.
  { intros t Ht. apply list_elem_of_fmap in Ht as (use & -> & Huse).
    split; [done|]. split.
    - apply elem_of_cowTiedUses in Huse as [Huse _]. by destruct use.
    - by apply cowTiedUses_slots. }
  split; [by apply loop_NoDup|]. split; [|split].
  - intros id o Hl.
    destruct (loop_old queryValueSize (op_affinity op) T cur id o Hl)
      as (g & Hg & _ & Hsame & Hk).
    exists g. split; [done|]. split.
    + intros k Hne. apply Hk. intros Hin.
      apply list_elem_of_fmap in Hin as (t & Hslot & Ht).
      destruct (HT t Ht) as (_ & _ & o' & Ho' & Hat).
      injection Hslot as Hu Hi. rewrite <- Hu in Ho'. rewrite <- Hi in Hat.
      congruence.
    + intros Hne. apply Hsame. intros Hin.
      apply list_elem_of_fmap in Hin as (t & Hu & Ht).
      destruct (HT t Ht) as (_ & _ & o' & Ho' & Hat).
      rewrite <- Hu in Ho'. apply (Hne (operandIndex t)). congruence.
  - intros v Hv Hsize Hdef. apply loop_getUses; [done| |done].
    intros t Ht. destruct (HT t Ht) as (Hval & Hin & _).
    rewrite Hval. split; [done|]. split; [done|].
    apply getUses_operandAt in Hin; [|done]. congruence.
  - intros l1 n mid u l2 Hids Huses.
    apply (loop_between queryValueSize (op_affinity op) T cur l1 n mid u l2
             Hids).
    intros t Ht. destruct (HT t Ht) as (_ & Hin & o & Ho & _).
    split; [apply lookupOp_is_Some; eauto|]. by apply (Huses (slot t)).
Qed.

End MaterializeCOW_frame.

Section MaterializeCOW_rounds.

Variable queryValueSize : Value → Value.
Variable op : Operation.
Variable ir0 : IR.

Hypothesis Hop : is_Some (lookupOp ir0 (op_id op)).
Hypothesis Hsize : ∀ v j lifetime,
  op_result_types op !! j = Some (ResourceType lifetime) →
  queryValueSize v ≠ OpResult (op_id op) j.

Local Abbreviation loop := (foldl (cloneTiedUse queryValueSize (op_affinity op))).
Local Abbreviation stage := (materializeResult queryValueSize op).
Local Abbreviation rounds := (foldl (materializeResult queryValueSize op)).
Local Abbreviation resultOf j := (OpResult (op_id op) j).

Lemma rounds_flag rs cur : (rounds (true, cur) rs).1 = true.
Proof.
  revert cur. induction rs as [|[j ty] rs IH]; intros cur; simpl; [done|].
  rewrite materializeResult_unfold. destruct ty; try apply IH.
  simpl. case_match; apply IH.
Qed.

Lemma cowInvariant_ids cur rs id :
  cowInvariant op ir0 cur rs → id ∈ op_id <$> ir0 → id ∈ op_id <$> cur.
Proof.
  intros (_ & Hold & _) Hin. apply lookupOp_is_Some in Hin as [o Ho].
  destruct (Hold _ _ Ho) as [g Hg]. apply lookupOp_is_Some. eauto.
Qed.

Lemma cowInvariant_weaken cur r rs :
  cowInvariant op ir0 cur (r :: rs) → cowInvariant op ir0 cur rs.
Proof.
  intros (Hnd & Hold & Huses). split; [done|]. split; [done|].
  intros j lt Hin. apply (Huses j lt). by right.
Qed.

(** The classification of a result still to be treated is the one it had
    at the start. *)
Lemma cowInvariant_uses cur rs j lifetime :
  cowInvariant op ir0 cur rs → (j, ResourceType lifetime) ∈ rs →
  cowTiedUses cur (resultOf j) = cowTiedUses ir0 (resultOf j)
  ∧ cowUntiedUses cur (resultOf j) = cowUntiedUses ir0 (resultOf j).
Proof.
  intros (_ & Hold & Huses) Hin. unfold cowTiedUses, cowUntiedUses.
  rewrite (Huses _ _ Hin).
  assert (∀ use, use ∈ getUses ir0 (resultOf j) →
            ownedByAwait cur use = ownedByAwait ir0 use
            ∧ tiedUse cur use = tiedUse ir0 use) as Hsame.
  { intros use Huse. apply getUses_lookupOp in Huse as [o Ho].
    destruct (Hold _ _ Ho) as [g Hg].
    unfold ownedByAwait, tiedUse. by rewrite Ho, Hg. }
  split; apply filter_ext_elem_of; intros use Huse;
    destruct (Hsame use Huse) as [-> ->]; done.
Qed.

Lemma cowInvariant_step cur b j ty rs :
  cowInvariant op ir0 cur ((j, ty) :: rs) →
  NoDup (fst <$> (j, ty) :: rs) →
  (∀ j' ty', (j', ty') ∈ rs → op_result_types op !! j' = Some ty') →
  cowInvariant op ir0 (stage (b, cur) (j, ty)).2 rs.
Proof.
  intros Hinv Hnd Htys.
  pose proof Hinv as (Hnd0 & Hold & Huses).
  destruct (materializeResult_frame queryValueSize op cur b j ty Hnd0)
    as (Hnd1 & Hold1 & Huses1 & _).
  split; [done|]. split.
  - intros id o Ho. destruct (Hold _ _ Ho) as [g Hg].
    destruct (Hold1 _ _ Hg) as (g1 & Hg1 & _). by exists g1.
  - intros j' lt Hin. rewrite <- (Huses j' lt) by (by right).
    apply Huses1.
    + intros [= Heq]. csimpl in Hnd. apply NoDup_cons in Hnd as [Hj _].
      apply Hj. rewrite <- Heq.
      by apply (list_elem_of_fmap_2 fst) in Hin.
    + eapply Hsize. by apply Htys in Hin.
    + intros n k [= <- _]. eapply cowInvariant_ids; [done|].
      by apply lookupOp_is_Some.
Qed.

(** What the remaining rounds leave alone: operands that are not a
    resource result still to be treated, ops without such an operand, and
    the place of a clone in front of its consumer. *)
Lemma rounds_frame rs cur b :
  cowInvariant op ir0 cur rs →
  NoDup (fst <$> rs) →
  (∀ j ty, (j, ty) ∈ rs → op_result_types op !! j = Some ty) →
  let fin := (rounds (b, cur) rs).2 in
  (∀ id o, lookupOp cur id = Some o →
     ∃ g, lookupOp fin id = Some (withOperands o g)
          ∧ (∀ k, (∀ j lt, (j, ResourceType lt) ∈ rs →
                           getOperands o !! k ≠ Some (resultOf j)) →
                  concat g !! k = getOperands o !! k)
          ∧ ((∀ k j lt, (j, ResourceType lt) ∈ rs →
                        getOperands o !! k ≠ Some (resultOf j)) →
             g = op_operands o))
  ∧ (∀ l1 n mid u l2,
       op_id <$> cur = l1 ++ n :: mid ++ u :: l2 →
       n ∉ op_id <$> ir0 → (∀ x, x ∈ mid → x ∉ op_id <$> ir0) →
       ∃ l1' mid' l2',
         op_id <$> fin = l1' ++ n :: mid' ++ u :: l2'
         ∧ ∀ x, x ∈ mid' → x ∉ op_id <$> ir0).
Proof.
  revert cur b. induction rs as [|[j ty] rs IH]; intros cur b Hinv Hnd Htys;
    simpl.
  { split.
    - intros id o Ho. exists (op_operands o).
      by rewrite withOperands_id.
    - intros l1 n mid u l2 Hids _ Hmid. by exists l1, mid, l2. }
  assert (∀ j' ty', (j', ty') ∈ rs → op_result_types op !! j' = Some ty')
    as Htys' by (intros; apply Htys; by right).
  assert (NoDup (fst <$> rs)) as Hnd'
    by (csimpl in Hnd; by apply NoDup_cons in Hnd as [_ ?]).
  pose proof (cowInvariant_step cur b j ty rs Hinv Hnd Htys') as Hinv1.
  destruct (stage (b, cur) (j, ty)) as [b1 cur1] eqn:Hstage.
  simpl in Hinv1.
  destruct (IH cur1 b1 Hinv1 Hnd' Htys') as [IHold IHpos].
  assert ((∀ lt, ty ≠ ResourceType lt) → cur1 = cur) as Hother.
  { intros Hty. rewrite materializeResult_unfold in Hstage.
    destruct ty; try (by injection Hstage as _ <-). by destruct (Hty lifetime). }
  pose proof Hinv as (Hnd0 & Hold0 & Huses0).
  pose proof (materializeResult_frame queryValueSize op cur b j ty Hnd0)
    as Hframe. rewrite Hstage in Hframe. simpl in Hframe.
  destruct Hframe as (_ & Hold1 & _ & Hpos1).
  split.
  - intros id o Ho.
    assert ((∃ lt, ty = ResourceType lt) ∨ (∀ lt, ty ≠ ResourceType lt))
      as [[lt ->]|Hty] by (destruct ty; eauto).
    + destruct (Hold1 _ _ Ho) as (g1 & Hg1 & Hk1 & Hsame1).
      destruct (IHold _ _ Hg1) as (g & Hg & Hk & Hsame).
      exists g. split; [done|]. split.
      * intros k Hne. rewrite Hk.
        { unfold getOperands at 1. simpl. apply Hk1.
          apply (Hne j lt). left. }
        intros j' lt' Hin. unfold getOperands at 1. simpl.
        rewrite Hk1 by (apply (Hne j lt); left).
        apply (Hne j' lt'). by right.
      * intros Hne. rewrite Hsame.
        { simpl. apply Hsame1. intros k. apply (Hne k j lt). left. }
        intros k j' lt' Hin. unfold getOperands at 1. simpl.
        rewrite Hsame1 by (intros k'; apply (Hne k' j lt); left).
        apply (Hne k j' lt'). by right.
    + rewrite (Hother Hty) in *.
      destruct (IHold _ _ Ho) as (g & Hg & Hk & Hsame).
      exists g. split; [done|]. split.
      * intros k Hne. apply Hk. intros j' lt' Hin. apply (Hne j' lt').
        by right.
      * intros Hne. apply Hsame. intros k j' lt' Hin. apply (Hne k j' lt').
        by right.
  - intros l1 n mid u l2 Hids Hn Hmid.
    assert ((∃ lt, ty = ResourceType lt) ∨ (∀ lt, ty ≠ ResourceType lt))
      as [[lt ->]|Hty] by (destruct ty; eauto).
    + destruct (Hpos1 l1 n mid u l2 Hids) as (l1' & mid' & l2' & Hids1 & Hmid').
      { intros use Huse. rewrite (Huses0 j lt) in Huse by left.
        apply getUses_lookupOp, lookupOp_is_Some in Huse.
        split; [congruence|]. intros Hin. by apply (Hmid _ Hin). }
      apply (IHpos _ _ _ _ _ Hids1 Hn).
      intros x Hx. apply Hmid' in Hx as [Hx|Hx]; [by apply Hmid|].
      intros Hin. apply Hx. by eapply cowInvariant_ids.
    + rewrite (Hother Hty) in *. by eapply IHpos.
Qed.

End MaterializeCOW_rounds.

Section MaterializeCOW_outcome.

Variable queryValueSize : Value → Value.
Variable op : Operation.
Variable ir0 : IR.

Hypothesis Hop : is_Some (lookupOp ir0 (op_id op)).
Hypothesis Hsize : ∀ v j lifetime,
  op_result_types op !! j = Some (ResourceType lifetime) →
  queryValueSize v ≠ OpResult (op_id op) j.

Local Abbreviation loop := (foldl (cloneTiedUse queryValueSize (op_affinity op))).
Local Abbreviation stage := (materializeResult queryValueSize op).
Local Abbreviation rounds := (foldl (materializeResult queryValueSize op)).
Local Abbreviation resultOf j := (OpResult (op_id op) j).

(** An operand that is not a result still to be treated keeps its value
    through the remaining rounds. *)
Lemma rounds_operandAt rs cur b use v :
  cowInvariant op ir0 cur rs →
  NoDup (fst <$> rs) →
  (∀ j ty, (j, ty) ∈ rs → op_result_types op !! j = Some ty) →
  operandAt cur use = Some v →
  (∀ j lt, (j, ResourceType lt) ∈ rs → v ≠ resultOf j) →
  operandAt (rounds (b, cur) rs).2 use = Some v.
Proof.
  intros Hinv Hnd Htys Hat Hv. unfold operandAt in *.
  destruct (lookupOp cur use.1) as [o|] eqn:Ho; simpl in Hat; [|done].
  destruct (rounds_frame queryValueSize op ir0 Hop Hsize rs cur b Hinv Hnd Htys)
    as [Hold _].
  destruct (Hold _ _ Ho) as (g & -> & Hk & _). simpl.
  change (concat g !! use.2 = Some v). rewrite Hk; [done|].
  intros j lt Hin. rewrite Hat. intros [= ->]. by eapply Hv.
Qed.

Lemma rounds_main rs cur b i lifetime :
  cowInvariant op ir0 cur rs →
  NoDup (fst <$> rs) →
  (∀ j ty, (j, ty) ∈ rs → op_result_types op !! j = Some ty) →
  (i, ResourceType lifetime) ∈ rs →
  cowOutcome queryValueSize ir0 op i lifetime
    (rounds (b, cur) rs).1 (rounds (b, cur) rs).2.
Proof.
  revert cur b. induction rs as [|[j ty] rs IH]; intros cur b Hinv Hnd Htys Hi.
  { by apply elem_of_nil in Hi. }
  assert (∀ j' ty', (j', ty') ∈ rs → op_result_types op !! j' = Some ty')
    as Htys' by (intros; apply Htys; by right).
  assert (NoDup (fst <$> rs) ∧ j ∉ fst <$> rs) as [Hnd' Hj]
    by (csimpl in Hnd; by apply NoDup_cons in Hnd as [? ?]).
  pose proof (cowInvariant_step queryValueSize op ir0 Hop Hsize cur b j ty rs
                Hinv Hnd Htys') as Hinv1.
  apply elem_of_cons in Hi as [[= <- <-]|Hi]; simpl.
  2: { destruct (stage (b, cur) (j, ty)) as [b1 cur1]. by apply IH. }
  (* the round of result [i] itself *)
  assert (∀ j' lt, (j', ResourceType lt) ∈ rs → resultOf i ≠ resultOf j')
    as Hother.
  { intros j' lt Hin [= ->]. apply Hj.
    by apply (list_elem_of_fmap_2 fst) in Hin. }
  pose proof Hinv as (Hnd0 & Hold0 & Huses0).
  destruct (cowInvariant_uses op ir0 cur _ i lifetime Hinv) as [Htied Huntied];
    [left|].
  assert (getUses cur (resultOf i) = getUses ir0 (resultOf i)) as Huses
    by (apply (Huses0 i lifetime); left).
  rewrite materializeResult_unfold in Hinv1 |- *. simpl in Hinv1 |- *.
  rewrite Htied, Huntied in Hinv1 |- *. unfold cowOutcome.
  destruct (keepsResult lifetime (cowTiedUses ir0 (resultOf i))
              (cowUntiedUses ir0 (resultOf i))) eqn:Hkeep; simpl in *.
  - intros use Huse. apply rounds_operandAt; try done.
    apply getUses_operandAt; [done|]. by rewrite Huses.
  - set (T := tiedUseOf (resultOf i) <$> cowTiedUses ir0 (resultOf i)) in *.
    assert (NoDup (slot <$> T)) as HTnd.
    { unfold T. rewrite slot_tiedUseOf, <- Htied.
      apply NoDup_filter. by apply NoDup_getUses. }
    assert (∀ t, t ∈ T →
              ∃ o, lookupOp cur (user t) = Some o
                   ∧ operandIndex t < length (getOperands o)) as HTok.
    { intros t Ht. apply list_elem_of_fmap in Ht as (use & -> & Huse).
      rewrite <- Htied in Huse.
      destruct (cowTiedUses_slots op cur i use Hnd0 Huse) as (o & Ho & Hk).
      exists o. split; [done|]. by eapply lookup_lt_Some. }
    split; [apply rounds_flag|]. split.
    + intros use Huse.
      destruct (loop_rewritten queryValueSize (op_affinity op) T cur HTnd HTok
                  (tiedUseOf (resultOf i) use))
        as (userOp & n & Huser & Hn & Hat & Hclone & l1 & mid & l2
            & Hids & Hmid).
      { by apply list_elem_of_fmap_2. }
      simpl in Huser, Hat, Hclone, Hids.
      assert (is_Some (lookupOp ir0 use.1)) as [userOp0 Huser0].
      { apply (getUses_lookupOp ir0 (resultOf i)).
        rewrite <- Huses, <- Htied in *.
        by apply elem_of_cowTiedUses in Huse as [? _]. }
      destruct (Hold0 _ _ Huser0) as [g Hg].
      assert (userOp = withOperands userOp0 g) as -> by congruence.
      assert (lookupOp ir0 n = None) as Hn0.
      { destruct (lookupOp ir0 n) as [o|] eqn:Ho; [|done].
        destruct (Hold0 _ _ Ho) as [g' Hg']. congruence. }
      assert (n ≠ op_id op) as Hnop.
      { intros ->. destruct Hop as [o Ho]. congruence. }
      exists userOp0, n. split; [done|]. split; [done|]. split; [|split].
      * apply rounds_operandAt; try done.
        intros j' lt _ Heq. injection Heq as Heq _. done.
      * destruct (rounds_frame queryValueSize op ir0 Hop Hsize rs _ true Hinv1
                    Hnd' Htys') as [Hold _].
        destruct (Hold _ _ Hclone) as (g' & -> & _ & Hsame).
        rewrite Hsame; [done|].
        intros k j' lt Hin. unfold getOperands, cowClone. simpl.
        destruct k as [|[|[|k]]]; simpl; try done.
        -- intros Heq. apply (Hother j' lt Hin). congruence.
        -- intros Heq. apply (Hsize (resultOf i) j' lt);
             [by apply Htys' | congruence].
        -- intros Heq. apply (Hsize (resultOf i) j' lt);
             [by apply Htys' | congruence].
      * destruct (rounds_frame queryValueSize op ir0 Hop Hsize rs _ true Hinv1
                    Hnd' Htys') as [_ Hpos].
        apply (Hpos _ _ _ _ _ Hids).
        -- by apply lookupOp_None.
        -- intros x Hx Hin. apply (Hmid x Hx).
           by eapply cowInvariant_ids.
    + intros use Huse Hntied.
      apply rounds_operandAt; try done.
      assert (operandAt cur use = Some (resultOf i)) as Hat
        by (apply getUses_operandAt; [done | by rewrite Huses]).
      unfold operandAt in *.
      destruct (lookupOp cur use.1) as [o|] eqn:Ho; simpl in Hat; [|done].
      destruct (loop_old queryValueSize (op_affinity op) T cur _ o Ho)
        as (g & -> & _ & _ & Hk).
      simpl. change (concat g !! use.2 = Some (resultOf i)).
      rewrite Hk; [done|]. unfold T. rewrite slot_tiedUseOf.
      by destruct use.
Qed.

End MaterializeCOW_outcome.

(** ** MaterializeCOW: the pattern *)

Lemma rounds_unchanged queryValueSize op ir rs b :
  (∀ j lt, (j, ResourceType lt) ∈ rs →
     keepsResult lt (cowTiedUses ir (OpResult (op_id op) j))
       (cowUntiedUses ir (OpResult (op_id op) j)) = true) →
  foldl (materializeResult queryValueSize op) (b, ir) rs = (b, ir).
Proof.
  induction rs as [|[j ty] rs IH]; intros Hkeep; simpl; [done|].
  rewrite materializeResult_unfold.
  assert (foldl (materializeResult queryValueSize op) (b, ir) rs = (b, ir))
    as Hrest by (apply IH; intros; eapply Hkeep; by right).
  destruct ty; try done. simpl. by rewrite (Hkeep j lifetime) by left.
Qed.

(** C1 as stated fails: the tied consumer op 3 and the timepoint.await op 2
    both use [%1], so the stated rule asks for clones, but the await does
    not count and the pattern leaves the IR as it is. *)
Lemma MaterializeCOW_await_not_counted :
  ¬ cowOutcomeAsSpecified cowAwaitIR cowProducerOp 0 Transient
      (MaterializeCOW cowSizes cowAwaitIR cowProducerOp).2.
Proof.
  unfold cowOutcomeAsSpecified.
  replace (MaterializeCOW cowSizes cowAwaitIR cowProducerOp).2
    with cowAwaitIR by (vm_compute; reflexivity).
  replace (specTiedUses cowAwaitIR (OpResult (op_id cowProducerOp) 0))
    with [(3, 0); (2, 0)] by (vm_compute; reflexivity).
  replace (specUntiedUses cowAwaitIR (OpResult (op_id cowProducerOp) 0))
    with (@nil (OpId * nat)) by (vm_compute; reflexivity).
  simpl. intros [Htied _].
  destruct (Htied (3, 0)) as (userOp & cloneOp & _ & Hnew & _ & _ & _ & _
                              & Hat & _).
  { left. }
  change (Some (OpResult 1 0) = Some (OpResult (op_id cloneOp) 0)) in Hat.
  injection Hat as Hid. rewrite <- Hid in Hnew. discriminate.
Qed.

(** C1, amended: MaterializeCOW classifies the uses of a resource-typed
    result with the uses owned by timepoint.await left out.  When every
    resource result has no tied use, or one tied use, no untied use and a
    lifetime other than Constant, the pattern fails and the IR is
    unchanged, and in any case such a result keeps all its uses.  Otherwise
    the pattern succeeds; every tied use consumes result 0 of an
    async.clone of the value that was not in the IR before, sized by
    queryValueSize, with the consumer's affinity if it has one and else the
    producer's, standing in the consumer's block in front of the consumer
    with none but newly created ops between them; every other use, untied
    or owned by an await, consumes the original value. *)
Theorem MaterializeCOW_spec queryValueSize ir op i lifetime :
  NoDup (op_id <$> ir) →
  lookupOp ir (op_id op) = Some op →
  (∀ v j lt, op_result_types op !! j = Some (ResourceType lt) →
             queryValueSize v ≠ OpResult (op_id op) j) →
  op_result_types op !! i = Some (ResourceType lifetime) →
  let result := OpResult (op_id op) i in
  let out := (MaterializeCOW queryValueSize ir op).2 in
  ((∀ j lt, op_result_types op !! j = Some (ResourceType lt) →
      keepsResult lt (cowTiedUses ir (OpResult (op_id op) j))
        (cowUntiedUses ir (OpResult (op_id op) j)) = true) →
   MaterializeCOW queryValueSize ir op = (failure, ir))
  ∧ if keepsResult lifetime (cowTiedUses ir result) (cowUntiedUses ir result)
    then ∀ use, use ∈ getUses ir result → operandAt out use = Some result
    else
      (MaterializeCOW queryValueSize ir op).1 = success
      ∧ (∀ use, use ∈ cowTiedUses ir result →
           ∃ userOp n,
             lookupOp ir use.1 = Some userOp
             ∧ lookupOp ir n = None
             ∧ operandAt out use = Some (OpResult n 0)
             ∧ lookupOp out n
               = Some (mkOp n stream_async_clone (op_block userOp)
                         [[result]; [queryValueSize result];
                          [queryValueSize result]]
                         [ResourceType Unknown] []
                         (if op_affinity userOp is Some _
                          then op_affinity userOp else op_affinity op))
             ∧ ∃ l1 mid l2,
                 op_id <$> out = l1 ++ n :: mid ++ use.1 :: l2
                 ∧ ∀ x, x ∈ mid → x ∉ op_id <$> ir)
      ∧ (∀ use, use ∈ getUses ir result → use ∉ cowTiedUses ir result →
           operandAt out use = Some result).
Proof.
  intros Hnd Hop Hsize Hi. simpl. split.
  - intros Hkeep. unfold MaterializeCOW.
    rewrite rounds_unchanged; [done|].
    intros j lt Hin. apply Hkeep. by apply elem_of_imap_pair.
  - pose proof (rounds_main queryValueSize op ir (ltac:(eauto)) Hsize
                  (imap pair (op_result_types op)) ir false i lifetime)
      as Hmain.
    unfold cowOutcome in Hmain. unfold MaterializeCOW. simpl.
    destruct (keepsResult lifetime _ _).
    + apply Hmain.
      * split; [done|]. split; [|done]. intros id o Ho.
        exists (op_operands o). by rewrite withOperands_id.
      * rewrite (fst_imap_pair _ 0). apply NoDup_seq.
      * intros j ty. by apply elem_of_imap_pair.
      * by apply elem_of_imap_pair.
    + destruct Hmain as (Hflag & Htied & Hrest).
      * split; [done|]. split; [|done]. intros id o Ho.
        exists (op_operands o). by rewrite withOperands_id.
      * rewrite (fst_imap_pair _ 0). apply NoDup_seq.
      * intros j ty. by apply elem_of_imap_pair.
      * by apply elem_of_imap_pair.
      * split; [by rewrite Hflag|]. split; [exact Htied | exact Hrest].
Qed.

(** Scenario 7 of the specification, with an await and a reader added. *)
Example MaterializeCOW_constant :
  MaterializeCOW cowSizes cowConstantIR cowConstantOp
  = (success,
     [cowConstantOp;
      cowAwaitOp;
      mkOp 7 stream_async_clone 0
           [[OpResult 1 0]; [BlockArgument 0 0]; [BlockArgument 0 0]]
           [ResourceType Unknown] [] (Some 1);
      mkOp 3 stream_async_dispatch 0 [[OpResult 7 0]]
           [ResourceType Transient] [Some 0] None;
      mkOp 6 stream_async_clone 0
           [[OpResult 1 0]; [BlockArgument 0 0]; [BlockArgument 0 0]]
           [ResourceType Unknown] [] (Some 7);
      mkOp 4 stream_async_dispatch 0 [[OpResult 6 0]]
           [ResourceType Transient] [Some 0] (Some 7);
      mkOp 5 other_op 0 [[OpResult 1 0]] [] [] None]).
Proof. vm_compute. reflexivity. Qed.

Lemma MaterializeCOW_spec_witness :
  (MaterializeCOW cowSizes cowConstantIR cowConstantOp).1 = success
  ∧ operandAt (MaterializeCOW cowSizes cowConstantIR cowConstantOp).2 (5, 0)
    = Some (OpResult 1 0).
Proof.
  destruct (MaterializeCOW_spec cowSizes cowConstantIR cowConstantOp 0
              Constant) as [_ H].
  - by_compute.
  - reflexivity.
  - intros v j lt _. discriminate.
  - reflexivity.
  - replace (keepsResult Constant
               (cowTiedUses cowConstantIR (OpResult (op_id cowConstantOp) 0))
               (cowUntiedUses cowConstantIR
                  (OpResult (op_id cowConstantOp) 0)))
      with false in H by (vm_compute; reflexivity).
    destruct H as (Hs & _ & Hrest). split; [exact Hs|].
    apply Hrest.
    + by_compute.
    + by_compute.
Defined.

Lemma MaterializeCOW_skips_awaits_witness :
  lookupOp (MaterializeCOW cowSizes cowConstantIR cowConstantOp).2 2
  = Some cowAwaitOp.
Proof.
  apply (MaterializeCOW_skips_awaits cowSizes cowConstantIR cowConstantOp
           cowAwaitOp); reflexivity.
Defined.

(** ** stream.timepoint.await: GroupAwaitsByTimepoint *)

Example GroupAwaitsByTimepoint_example :
  GroupAwaitsByTimepoint groupIR groupRootOp
  = (success,
     [mkOp 1 other_op 0 [] [TimepointType] [] None;
      mkOp 2 other_op 0 [] [ResourceType External] [] None;
      mkOp 3 other_op 0 [] [ResourceType External] [] None;
      TimepointAwaitOp.build 8 0
        [ResourceType External; ResourceType External]
        [OpResult 2 0; OpResult 3 0] [BlockArgument 0 0; BlockArgument 0 1]
        (OpResult 1 0) None;
      mkOp 5 other_op 0 [[OpResult 8 0]] [] [] None;
      mkOp 7 other_op 0 [[OpResult 8 1]] [] [] None]).
Proof. vm_compute. reflexivity. Qed.

Lemma mapOperands_compose f g ir :
  mapOperands f (mapOperands g ir) = mapOperands (f ∘ g) ir.
Proof.
  unfold mapOperands. rewrite <- list_fmap_compose.
  apply list_fmap_ext. intros _ o _. simpl. unfold withOperands. simpl.
  f_equal. rewrite <- list_fmap_compose. apply list_fmap_ext.
  intros _ grp _. simpl. by rewrite <- list_fmap_compose.
Qed.

Lemma mapOperands_ext f g ir :
  (∀ v, f v = g v) → mapOperands f ir = mapOperands g ir.
Proof.
  intros Hfg. unfold mapOperands. apply list_fmap_ext. intros _ o _.
  f_equal. apply list_fmap_ext. intros _ grp _. by apply list_fmap_ext.
Qed.

Lemma mapOperands_id ir : mapOperands id ir = ir.
Proof.
  assert (∀ gs : list (list Value), fmap (M:=list) id <$> gs = gs) as Hid.
  { induction gs as [|grp gs IH]; csimpl; [done|].
    by rewrite list_fmap_id, IH. }
  unfold mapOperands. induction ir as [|o ir IH]; csimpl; [done|].
  by rewrite IH, Hid, withOperands_id.
Qed.

Lemma applySubs_app p1 p2 v :
  applySubs (p1 ++ p2) v = applySubs p2 (applySubs p1 v).
Proof. unfold applySubs. by rewrite foldl_app. Qed.

(** A run of [replaceAllUsesWith] is one substitution. *)
Lemma replaceResultsFrom_mapOperands ir id i vals :
  replaceResultsFrom ir id i vals
  = mapOperands
      (applySubs (imap (fun k v => (OpResult id (i + k), v)) vals)) ir.
Proof.
  revert ir i. induction vals as [|v vals IH]; intros ir i; simpl.
  - by rewrite mapOperands_id.
  - rewrite IH. unfold replaceAllUsesWith. rewrite mapOperands_compose.
    apply mapOperands_ext. intros x. unfold applySubs. simpl.
    rewrite Nat.add_0_r. f_equal.
    apply imap_ext. intros k y _. simpl. f_equal. f_equal. lia.
Qed.

Lemma imap_fmap_seq (f : nat → Value) id i n :
  imap (fun k v => (OpResult id (i + k), v)) (f <$> seq 0 n)
  = (fun j => (OpResult id (i + j), f j)) <$> seq 0 n.
Proof.
  apply list_eq. intros k. rewrite list_lookup_imap, !list_lookup_fmap.
  destruct (seq 0 n !! k) as [j|] eqn:Hk; simpl; [|done].
  apply lookup_seq in Hk as [-> _]. done.
Qed.

Lemma eraseOps_mapOperands f ir ids :
  eraseOps (mapOperands f ir) ids = mapOperands f (eraseOps ir ids).
Proof.
  unfold eraseOps, mapOperands.
  induction ir as [|o ir IH]; csimpl; [done|].
  rewrite !filter_cons. simpl. rewrite IH.
  destruct (decide (op_id o ∉ ids)); done.
Qed.

Lemma eraseOp_eraseOps ir ids id :
  eraseOp (eraseOps ir ids) id = eraseOps ir (ids ++ [id]).
Proof.
  unfold eraseOp, eraseOps. rewrite list_filter_filter.
  apply list_filter_iff. intros o.
  rewrite not_elem_of_app, list_elem_of_singleton. naive_solver.
Qed.

Lemma lookupOp_eraseOps ir ids id :
  lookupOp (eraseOps ir ids) id
  = if decide (id ∈ ids) then None else lookupOp ir id.
Proof.
  unfold eraseOps. induction ir as [|o ir IH]; simpl.
  - by case_decide.
  - rewrite filter_cons. destruct (decide (op_id o ∉ ids)) as [Ho|Ho]; simpl.
    + destruct (decide (op_id o = id)) as [<-|Hne]; [|done].
      by rewrite decide_False.
    + rewrite IH. destruct (decide (op_id o = id)) as [<-|Hne]; [|done].
      apply dec_stable in Ho. by rewrite !decide_True.
Qed.

Lemma lookupOp_mapOperands f ir id :
  lookupOp (mapOperands f ir) id
  = (fun o => withOperands o (fmap (M:=list) f <$> op_operands o))
      <$> lookupOp ir id.
Proof.
  unfold mapOperands. induction ir as [|o ir IH]; csimpl; [done|].
  case_decide; [done | apply IH].
Qed.

Lemma applySubs_not_elem_of pairs v :
  v ∉ pairs.*1 → applySubs pairs v = v.
Proof.
  unfold applySubs. induction pairs as [|[old new] rest IH]; csimpl; [done|].
  intros Hv. apply not_elem_of_cons in Hv as [Hne Hv].
  unfold replaceValue at 2. rewrite decide_False by done. by apply IH.
Qed.

(** Applied one after the other or all at once, the pairs give the same
    value, since no replacement is itself replaced. *)
Lemma applySubs_reroute pairs v :
  (∀ p, p ∈ pairs → p.2 ∉ pairs.*1) →
  applySubs pairs v = reroute pairs v.
Proof.
  induction pairs as [|[old new] rest IH]; intros Hnew; [done|].
  change (applySubs ((old, new) :: rest) v)
    with (applySubs rest (replaceValue old new v)).
  simpl. unfold replaceValue. case_decide as Hv.
  - apply applySubs_not_elem_of.
    specialize (Hnew (old, new) ltac:(left)). csimpl in Hnew.
    by apply not_elem_of_cons in Hnew as [_ ?].
  - apply IH. intros p Hp. specialize (Hnew p ltac:(by right)).
    csimpl in Hnew. by apply not_elem_of_cons in Hnew as [_ ?].
Qed.

Lemma reroute_not_elem_of pairs v : v ∉ pairs.*1 → reroute pairs v = v.
Proof.
  induction pairs as [|[old new] rest IH]; csimpl; [done|].
  intros Hv. apply not_elem_of_cons in Hv as [Hne Hv].
  rewrite decide_False by done. by apply IH.
Qed.

Lemma reroute_elem_of pairs old new :
  NoDup pairs.*1 → (old, new) ∈ pairs → reroute pairs old = new.
Proof.
  induction pairs as [|[o n] rest IH]; csimpl; intros Hnd Hin.
  - by apply elem_of_nil in Hin.
  - apply NoDup_cons in Hnd as [Ho Hnd].
    apply elem_of_cons in Hin as [[= -> ->]|Hin].
    + by rewrite decide_True.
    + rewrite decide_False; [by apply IH|]. intros ->. apply Ho.
      by apply (list_elem_of_fmap_2 fst) in Hin.
Qed.

Lemma elem_of_resultMap new k merged p :
  p ∈ resultMap new k merged →
  ∃ m j j', m ∈ merged ∧ j < length (op_result_types m)
            ∧ p = (OpResult (op_id m) j, OpResult new j').
Proof.
  revert k. induction merged as [|m rest IH]; intros k; simpl.
  - intros Hp. by apply elem_of_nil in Hp.
  - rewrite elem_of_app. intros [Hp|Hp].
    + apply list_elem_of_fmap in Hp as (j & -> & Hj).
      apply elem_of_seq in Hj. exists m, j, (k + j).
      split; [left|]. split; [lia | done].
    + destruct (IH _ Hp) as (m' & j & j' & Hm & Hj & ->).
      exists m', j, j'. split; [by right | done].
Qed.

Lemma NoDup_resultMap new k merged :
  NoDup (op_id <$> merged) → NoDup (resultMap new k merged).*1.
Proof.
  revert k. induction merged as [|m rest IH]; intros k; csimpl; intros Hnd.
  - constructor.
  - apply NoDup_cons in Hnd as [Hm Hnd].
    rewrite fmap_app. apply NoDup_app. split; [|split; [|by apply IH]].
    + rewrite <- list_fmap_compose. apply NoDup_fmap_2_strong;
        [|apply NoDup_seq].
      intros x y _ _ [= ->]. done.
    + intros v Hv Hv'. rewrite <- list_fmap_compose in Hv.
      apply list_elem_of_fmap in Hv as (j & -> & _).
      apply list_elem_of_fmap in Hv' as (p & Hp & Hin).
      apply elem_of_resultMap in Hin as (m' & j1 & j2 & Hm' & _ & ->).
      simpl in Hp. injection Hp as Hid _. apply Hm. rewrite Hid.
      by apply list_elem_of_fmap_2.
Qed.

Lemma eraseOps_nil ir : eraseOps ir [] = ir.
Proof.
  unfold eraseOps. induction ir as [|o ir IH]; [done|].
  rewrite filter_cons, decide_True by apply not_elem_of_nil. by rewrite IH.
Qed.

(** The loop over the covered ops, in closed form. *)
Lemma replaceCovered_foldl new cs k f X E :
  (foldl (replaceCovered new) (k, eraseOps (mapOperands f X) E) cs).2
  = eraseOps (mapOperands (applySubs (resultMap new k cs) ∘ f) X)
      (E ++ (op_id <$> cs)).
Proof.
  revert k f E. induction cs as [|c cs IH]; intros k f E; simpl.
  - by rewrite app_nil_r.
  - unfold replaceCovered at 2. simpl.
    rewrite replaceResultsFrom_mapOperands, imap_fmap_seq.
    rewrite <- eraseOps_mapOperands, mapOperands_compose, eraseOp_eraseOps.
    rewrite IH. rewrite <- app_assoc. simpl. f_equal.
    apply mapOperands_ext. intros v. simpl. by rewrite applySubs_app.
Qed.

(** The whole rewrite in closed form: the merged op is put in front of the
    root, every operand is re-routed, and the merged awaits are erased. *)
Lemma GroupAwaitsByTimepoint_closed ir op :
  coveredOps ir op ≠ [] →
  let covered := coveredOps ir op in
  let newOp :=
    TimepointAwaitOp.build (freshId ir) (op_block op)
      (op_result_types op ++ (covered ≫= op_result_types))
      (TimepointAwaitOp.operands op ++ (covered ≫= TimepointAwaitOp.operands))
      (TimepointAwaitOp.operand_sizes op
         ++ (covered ≫= TimepointAwaitOp.operand_sizes))
      (TimepointAwaitOp.timepoint op) (op_affinity op) in
  GroupAwaitsByTimepoint ir op
  = (success,
     eraseOps
       (mapOperands (applySubs (resultMap (freshId ir) 0 (op :: covered)))
          (insertBefore ir (op_id op) newOp))
       ((op_id <$> covered) ++ [op_id op])).
Proof.
  intros Hne. simpl. unfold GroupAwaitsByTimepoint.
  rewrite decide_False by done. f_equal.
  rewrite replaceResultsFrom_mapOperands, imap_fmap_seq.
  rewrite <- (eraseOps_nil (mapOperands _ _)).
  rewrite replaceCovered_foldl, eraseOp_eraseOps. simpl. f_equal.
  apply mapOperands_ext. intros v. simpl. by rewrite applySubs_app.
Qed.

Lemma elem_of_coveredOps ir op c :
  c ∈ coveredOps ir op
  ↔ ∃ use, use ∈ getUses ir (TimepointAwaitOp.timepoint op)
           ∧ lookupOp ir use.1 = Some c ∧ coversAwait ir op c = true.
Proof.
  unfold coveredOps. rewrite list_elem_of_omap. split.
  - intros (use & Huse & Hc). exists use. split; [done|].
    destruct (lookupOp ir use.1) as [owner|]; [|done].
    destruct (coversAwait ir op owner) eqn:Hcov; [|done].
    by injection Hc as ->.
  - intros (use & Huse & Hl & Hcov). exists use. split; [done|].
    by rewrite Hl, Hcov.
Qed.

Lemma coveredOps_ids ir op c :
  c ∈ coveredOps ir op → c ∈ ir ∧ op_id c ≠ op_id op.
Proof.
  intros Hc. apply elem_of_coveredOps in Hc as (use & _ & Hl & Hcov).
  apply lookupOp_Some in Hl as [Hin _]. split; [done|].
  unfold coversAwait in Hcov. by case_decide.
Qed.

(** A value that no merged await defines is left as it is, so operand lists
    without such values are carried over unchanged. *)
Lemma reroute_other new k merged v :
  (∀ m, m ∈ merged → getDefiningOp v ≠ Some (op_id m)) →
  reroute (resultMap new k merged) v = v.
Proof.
  intros Hv. apply reroute_not_elem_of. intros Hin.
  apply list_elem_of_fmap in Hin as (p & -> & Hp).
  apply elem_of_resultMap in Hp as (m & j & j' & Hm & _ & ->).
  by apply (Hv m Hm).
Qed.

(** ** ElideUnusedOp *)

Lemma getUses_nil ir v :
  getUses ir v = [] ↔ ∀ o, o ∈ ir → v ∉ getOperands o.
Proof.
  split.
  - intros Hnil o Hin Hv. apply list_elem_of_lookup_1 in Hv as [k Hk].
    assert ((op_id o, k) ∈ getUses ir v) as Huse
      by (apply elem_of_getUses; by exists o).
    rewrite Hnil in Huse. by apply elem_of_nil in Huse.
  - intros Hno. apply elem_of_nil_inv. intros use Huse.
    apply elem_of_getUses in Huse as (o & Hin & _ & Hk).
    apply (Hno o Hin). by eapply list_elem_of_lookup_2.
Qed.

Lemma use_empty_true ir op :
  use_empty ir op = true
  ↔ ∀ o v, o ∈ ir → v ∈ getOperands o → v ∉ getResults op.
Proof.
  unfold use_empty. rewrite <- Is_true_true, forallb_True, Forall_forall. split.
  - intros Hall o v Hin Hv Hres. specialize (Hall v Hres).
    apply bool_decide_unpack in Hall. by apply (proj1 (getUses_nil ir v) Hall o Hin).
  - intros Hno r Hr. apply bool_decide_pack, getUses_nil.
    intros o Hin Hv. by apply (Hno o r).
Qed.

(** X1: the pattern erases the op exactly when no operand slot of the IR
    holds one of its results.  The other operations then stay as they are
    and in their order, and none of them refers to the erased op, so the
    erasure leaves no dangling use; when some slot does hold a result the
    IR is left as it is. *)
Theorem ElideUnusedOp_spec ir op :
  ((ElideUnusedOp ir op).1 = success
   ↔ ∀ o v, o ∈ ir → v ∈ getOperands o → v ∉ getResults op)
  ∧ ((ElideUnusedOp ir op).1 = success →
     (ElideUnusedOp ir op).2 = filter (fun o => op_id o ≠ op_id op) ir
     ∧ lookupOp (ElideUnusedOp ir op).2 (op_id op) = None
     ∧ ∀ o v, o ∈ (ElideUnusedOp ir op).2 → v ∈ getOperands o →
              v ∉ getResults op)
  ∧ ((ElideUnusedOp ir op).1 = failure → (ElideUnusedOp ir op).2 = ir).
Proof.
  unfold ElideUnusedOp. destruct (use_empty ir op) eqn:Hempty; simpl.
  - pose proof (proj1 (use_empty_true ir op) Hempty) as Hno.
    split; [done|]. split; [|done]. intros _. split; [done|].
    split; [apply lookupOp_eraseOp_eq|].
    intros o v Hin. apply elem_of_eraseOp in Hin as [_ Hin]. by apply Hno.
  - split; [|done]. split; [done|]. intros Hno.
    apply use_empty_true in Hno. congruence.
Qed.

(** ** TensorCloneOp::fold *)

Lemma length_getUsers ir v : length (getUsers ir v) = length (getUses ir v).
Proof.
  unfold getUsers, getUses. rewrite !length_reverse.
  unfold usersInProgramOrder, usesInProgramOrder.
  induction ir as [|o ir IH]; csimpl; [done|].
  by rewrite !length_app, length_fmap, IH.
Qed.

Lemma hasAnyTiedUses_single ir v use owner :
  getUses ir v = [use] → lookupOp ir use.1 = Some owner →
  hasAnyTiedUses ir v = isOperandTied owner use.2.
Proof.
  intros Huses Howner. unfold hasAnyTiedUses. rewrite Huses. simpl.
  rewrite Howner. by rewrite orb_false_r.
Qed.

(** X2: the fold of tensor.clone returns the source exactly when one
    operand slot of the IR holds the clone's result (a consumer that holds
    it twice counts twice).  Ties are not looked at: a clone whose only use
    is a tied one is folded away, although the elision pattern of the same
    op refuses to touch it. *)
Theorem TensorCloneOp_fold_spec ir cloneOp :
  (TensorCloneOp_fold ir cloneOp = Some (TensorCloneOp.source cloneOp)
   ↔ length (getUses ir (TensorCloneOp.result cloneOp)) = 1)
  ∧ (length (getUses ir (TensorCloneOp.result cloneOp)) ≠ 1 →
     TensorCloneOp_fold ir cloneOp = None)
  ∧ ∀ use owner,
      getUses ir (TensorCloneOp.result cloneOp) = [use] →
      lookupOp ir use.1 = Some owner →
      isOperandTied owner use.2 = true →
      TensorCloneOp_fold ir cloneOp = Some (TensorCloneOp.source cloneOp)
      ∧ ElideUnneededTensorClones ir cloneOp = (failure, ir).
Proof.
  assert (∀ n, length (getUses ir (TensorCloneOp.result cloneOp)) = n →
            TensorCloneOp_fold ir cloneOp
            = if decide (n = 1) then Some (TensorCloneOp.source cloneOp)
              else None) as Hfold.
  { intros n Hn. rewrite <- length_getUsers in Hn.
    unfold TensorCloneOp_fold.
    destruct (getUsers ir (TensorCloneOp.result cloneOp)) as [|u [|u' us]];
      simpl in *; subst; done. }
  split; [|split].
  - rewrite (Hfold _ eq_refl). case_decide; naive_solver.
  - intros Hne. rewrite (Hfold _ eq_refl). by rewrite decide_False.
  - intros use owner Huses Howner Htied. split.
    + rewrite (Hfold 1); [done|]. by rewrite Huses.
    + unfold ElideUnneededTensorClones.
      by rewrite (hasAnyTiedUses_single _ _ use owner), Htied.
Qed.

Lemma TensorCloneOp_fold_spec_witness :
  TensorCloneOp_fold tiedCloneIR tiedCloneOp = Some (OpResult 1 0)
  ∧ ElideUnneededTensorClones tiedCloneIR tiedCloneOp = (failure, tiedCloneIR).
Proof.
  apply (proj2 (proj2 (TensorCloneOp_fold_spec tiedCloneIR tiedCloneOp))
           (3, 0) (mkOp 3 other_op 0 [[OpResult 2 0]]
                        [ResourceType Transient] [Some 0] None));
    reflexivity.
Defined.

(** ** The await list of an execute op: fixed points and order of the
    patterns *)

Lemma applyPattern_lookupOp pattern ir op :
  lookupOp ir (op_id op) = Some op →
  applyPattern pattern ir (op_id op) = (pattern ir op).2.
Proof. intros Hop. unfold applyPattern. by rewrite Hop. Qed.

Lemma elidedTimepoints_nil ir k l :
  elidedTimepoints ir k l = []
  ↔ ∀ v, v ∈ l → definedBy ir stream_timepoint_immediate v = false.
Proof.
  revert k. induction l as [|x l IH]; intros k; simpl.
  - split; [|done]. intros _ v Hv. by apply elem_of_nil in Hv.
  - destruct (definedBy ir stream_timepoint_immediate x) eqn:Hx; simpl.
    + split; [done|]. intros Hall.
      specialize (Hall x ltac:(left)). congruence.
    + rewrite IH. split.
      * intros Hall v Hv. apply elem_of_cons in Hv as [->|Hv]; [done|].
        by apply Hall.
      * intros Hall v Hv. apply Hall. by right.
Qed.

Lemma unseen_NoDup_id seen l :
  NoDup l → (∀ x, x ∈ l → x ∉ seen) → unseen seen l = l.
Proof.
  revert seen. induction l as [|x l IH]; intros seen Hnd Hseen; simpl;
    [done|].
  apply NoDup_cons in Hnd as [Hx Hnd].
  rewrite decide_False by (apply Hseen; left).
  f_equal. apply IH; [done|]. intros y Hy.
  rewrite not_elem_of_cons. split.
  - intros ->. done.
  - apply Hseen. by right.
Qed.

(** X3: the pattern that drops immediate timepoints from the await list of
    an async.execute or cmd.execute reaches a fixed point in one step: run
    again on the op it has just treated, it finds nothing to elide, reports
    failure and leaves the IR as it is. *)
Theorem ElideImmediateExecuteWaits_idempotent g ir op :
  lookupOp ir (op_id op) = Some op → g < length (op_operands op) →
  ∃ op',
    lookupOp (ElideImmediateExecuteWaits g ir op).2 (op_id op) = Some op'
    ∧ ElideImmediateExecuteWaits g (ElideImmediateExecuteWaits g ir op).2 op'
      = (failure, (ElideImmediateExecuteWaits g ir op).2).
Proof.
  intros Hop Hg.
  destruct (ElideImmediateExecuteWaits_spec g ir op Hop Hg)
    as (op' & Hop' & _ & _ & Hl).
  pose proof (definedBy_applyPattern_ElideImmediate g ir (op_id op)) as Hdef.
  rewrite applyPattern_lookupOp in Hop', Hdef by done.
  exists op'. split; [done|].
  unfold ElideImmediateExecuteWaits at 1. rewrite decide_True; [done|].
  apply elidedTimepoints_nil. intros v Hv. rewrite Hdef.
  rewrite Hl in Hv. by apply list_elem_of_filter in Hv as [? _].
Qed.

Lemma ElideImmediateExecuteWaits_idempotent_witness :
  ∃ op',
    lookupOp (ElideImmediateAsyncExecuteWaits awaitsIR awaitsOp).2 3 = Some op'
    ∧ ElideImmediateAsyncExecuteWaits
        (ElideImmediateAsyncExecuteWaits awaitsIR awaitsOp).2 op'
      = (failure, (ElideImmediateAsyncExecuteWaits awaitsIR awaitsOp).2).
Proof.
  apply (ElideImmediateExecuteWaits_idempotent
           AsyncExecuteOp.await_timepointsGroup awaitsIR awaitsOp).
  - reflexivity.
  - vm_compute. lia.
Defined.

(** X4: the pattern that removes duplicate timepoints from the await list
    likewise reaches a fixed point in one step: the list it leaves has no
    duplicates, so a second run reports failure and changes nothing. *)
Theorem ElideDuplicateExecuteWaits_idempotent g ir op :
  lookupOp ir (op_id op) = Some op → g < length (op_operands op) →
  ∃ op',
    lookupOp (ElideDuplicateExecuteWaits g ir op).2 (op_id op) = Some op'
    ∧ NoDup (getODSOperands op' g)
    ∧ ElideDuplicateExecuteWaits g (ElideDuplicateExecuteWaits g ir op).2 op'
      = (failure, (ElideDuplicateExecuteWaits g ir op).2).
Proof.
  intros Hop Hg.
  destruct (ElideDuplicateExecuteWaits_spec g ir op Hop Hg)
    as (op' & Hop' & Hl).
  rewrite applyPattern_lookupOp in Hop' by done.
  exists op'. split; [done|]. split; [rewrite Hl; apply NoDup_unseen|].
  unfold ElideDuplicateExecuteWaits at 1.
  rewrite setVectorInsert_unseen. simpl. rewrite decide_True; [done|].
  rewrite Hl. rewrite (unseen_NoDup_id [] (unseen [] _)); [done| |].
  - apply NoDup_unseen.
  - intros x _. apply not_elem_of_nil.
Qed.

Lemma ElideDuplicateExecuteWaits_idempotent_witness :
  (ElideDuplicateAsyncExecuteWaits awaitsIR awaitsOp).1 = success
  ∧ ∃ op',
      lookupOp (ElideDuplicateAsyncExecuteWaits awaitsIR awaitsOp).2 3
      = Some op'
      ∧ getODSOperands op' AsyncExecuteOp.await_timepointsGroup
        = [OpResult 1 0; OpResult 2 0; BlockArgument 0 0]
      ∧ NoDup (getODSOperands op' AsyncExecuteOp.await_timepointsGroup)
      ∧ ElideDuplicateAsyncExecuteWaits
          (ElideDuplicateAsyncExecuteWaits awaitsIR awaitsOp).2 op'
        = (failure, (ElideDuplicateAsyncExecuteWaits awaitsIR awaitsOp).2).
Proof.
  split; [reflexivity|].
  destruct (ElideDuplicateExecuteWaits_idempotent
              AsyncExecuteOp.await_timepointsGroup awaitsIR awaitsOp)
    as (op' & Hlook & Hnd & Hfix).
  - reflexivity.
  - vm_compute. lia.
  - exists op'. split; [exact Hlook|]. split; [|split; [exact Hnd|exact Hfix]].
    vm_compute in Hlook. injection Hlook as <-. reflexivity.
Defined.

(** *** The two elisions commute *)

Lemma updateOp_ext ir id f g :
  (∀ o, o ∈ ir → op_id o = id → f o = g o) →
  updateOp ir id f = updateOp ir id g.
Proof.
  intros Hfg. unfold updateOp. apply list_fmap_ext. intros i o Ho. simpl.
  case_decide; [|done]. apply Hfg; [|done]. by eapply list_elem_of_lookup_2.
Qed.

Lemma updateOp_id ir id f :
  (∀ o, o ∈ ir → op_id o = id → f o = o) → updateOp ir id f = ir.
Proof.
  intros Hf. unfold updateOp. rewrite <- (list_fmap_id ir) at 2.
  apply list_fmap_ext. intros i o Ho. simpl.
  case_decide; [|done]. apply Hf; [|done]. by eapply list_elem_of_lookup_2.
Qed.

Lemma updateOp_updateOp ir id f g :
  (∀ o, op_id (f o) = op_id o) →
  updateOp (updateOp ir id f) id g = updateOp ir id (g ∘ f).
Proof.
  intros Hf. unfold updateOp. rewrite <- list_fmap_compose.
  apply list_fmap_ext. intros _ o _. simpl.
  destruct (decide (op_id o = id)) as [Ho|Ho].
  - by rewrite decide_True by (by rewrite Hf).
  - by rewrite decide_False.
Qed.

Lemma elem_of_ir_unique ir op o :
  NoDup (op_id <$> ir) → lookupOp ir (op_id op) = Some op →
  o ∈ ir → op_id o = op_id op → o = op.
Proof.
  intros Hnd Hop Hin Hid.
  pose proof (lookupOp_elem_of ir o Hnd Hin) as Ho. congruence.
Qed.

(** The erasures of the first pattern, as one assignment to the group. *)
Lemma eraseODSOperands_eq g idxs o :
  g < length (op_operands o) →
  foldl (fun o idx => eraseODSOperand g idx o) o idxs
  = withOperands o
      (<[g := foldl (fun l idx => delete idx l) (getODSOperands o g) idxs]>
         (op_operands o)).
Proof.
  revert o. induction idxs as [|idx idxs IH]; intros o Hg; simpl.
  - rewrite list_insert_id; [by rewrite withOperands_id|].
    unfold getODSOperands.
    destruct (lookup_lt_is_Some_2 (op_operands o) g Hg) as [l ->]. done.
  - rewrite IH by (simpl; by rewrite length_insert).
    rewrite getODSOperands_eraseODSOperand by done.
    unfold eraseODSOperand. rewrite withOperands_withOperands. simpl.
    by rewrite list_insert_insert_eq.
Qed.


Lemma getODSOperands_lookup o g :
  g < length (op_operands o) → op_operands o !! g = Some (getODSOperands o g).
Proof.
  intros Hg. unfold getODSOperands.
  destruct (lookup_lt_is_Some_2 (op_operands o) g Hg) as [l ->]. done.
Qed.

Lemma ElideImmediateExecuteWaits_update g ir op :
  NoDup (op_id <$> ir) → lookupOp ir (op_id op) = Some op →
  g < length (op_operands op) →
  (ElideImmediateExecuteWaits g ir op).2
  = updateOp ir (op_id op) (keepWaits ir g).
Proof.
  intros Hnd Hop Hg. unfold ElideImmediateExecuteWaits.
  pose proof (erase_elidedTimepoints ir [] (getODSOperands op g)) as Herase.
  simpl in Herase.
  case_decide as Hel; simpl.
  - symmetry. apply updateOp_id. intros o Hin Hid.
    rewrite (elem_of_ir_unique ir op o) by done.
    unfold keepWaits. rewrite Hel in Herase. simpl in Herase.
    rewrite <- Herase.
    rewrite list_insert_id by (by apply getODSOperands_lookup).
    apply withOperands_id.
  - apply updateOp_ext. intros o Hin Hid.
    rewrite (elem_of_ir_unique ir op o) by done.
    rewrite eraseODSOperands_eq by done. unfold keepWaits.
    by rewrite Herase.
Qed.

Lemma ElideDuplicateExecuteWaits_update g ir op :
  NoDup (op_id <$> ir) → lookupOp ir (op_id op) = Some op →
  g < length (op_operands op) →
  (ElideDuplicateExecuteWaits g ir op).2
  = updateOp ir (op_id op) (uniqueWaits g).
Proof.
  intros Hnd Hop Hg. unfold ElideDuplicateExecuteWaits.
  rewrite setVectorInsert_unseen. simpl.
  case_decide as Hlen; simpl.
  - symmetry. apply updateOp_id. intros o Hin Hid.
    rewrite (elem_of_ir_unique ir op o) by done.
    unfold uniqueWaits.
    rewrite (proj2 (unseen_length [] (getODSOperands op g)) Hlen).
    rewrite list_insert_id by (by apply getODSOperands_lookup).
    apply withOperands_id.
  - unfold assignODSOperands. apply updateOp_ext. intros o Hin Hid.
    by rewrite (elem_of_ir_unique ir op o).
Qed.

Lemma filter_unseen_cons (P : Value → Prop) `{!∀ v, Decision (P v)}
    x seen l :
  ¬ P x → filter P (unseen (x :: seen) l) = filter P (unseen seen l).
Proof.
  intros Hx. revert seen. induction l as [|y l IH]; intros seen; simpl;
    [done|].
  destruct (decide (y = x)) as [->|Hne].
  - rewrite decide_True by left. destruct (decide (x ∈ seen)).
    + apply IH.
    + by rewrite filter_cons, decide_False by done.
  - destruct (decide (y ∈ seen)) as [Hy|Hy].
    + rewrite decide_True by (by right). apply IH.
    + rewrite decide_False by (rewrite not_elem_of_cons; done).
      rewrite !filter_cons.
      rewrite (unseen_ext (y :: x :: seen) (x :: y :: seen))
        by (intros z; rewrite !elem_of_cons; naive_solver).
      by rewrite IH.
Qed.

Lemma unseen_filter (P : Value → Prop) `{!∀ v, Decision (P v)} seen l :
  unseen seen (filter P l) = filter P (unseen seen l).
Proof.
  revert seen. induction l as [|x l IH]; intros seen; simpl; [done|].
  rewrite filter_cons. destruct (decide (P x)) as [Hx|Hx]; simpl.
  - case_decide; [apply IH|].
    rewrite filter_cons, decide_True by done. f_equal. apply IH.
  - rewrite IH. case_decide; [done|].
    rewrite filter_cons, decide_False by done.
    symmetry. by apply filter_unseen_cons.
Qed.

(** X5: the two await-list elisions commute.  Whichever of them runs first
    on an execute op, the IR after both is the same: dropping immediate
    timepoints and removing duplicates do not depend on one another's
    order, so the canonical await list does not depend on the order in
    which the driver tries the patterns. *)
Theorem execute_wait_elisions_commute g ir op :
  NoDup (op_id <$> ir) → lookupOp ir (op_id op) = Some op →
  g < length (op_operands op) →
  applyPattern (ElideDuplicateExecuteWaits g)
    (applyPattern (ElideImmediateExecuteWaits g) ir (op_id op)) (op_id op)
  = applyPattern (ElideImmediateExecuteWaits g)
      (applyPattern (ElideDuplicateExecuteWaits g) ir (op_id op)) (op_id op).
Proof.
  intros Hnd Hop Hg.
  rewrite !(applyPattern_lookupOp _ ir op) by done.
  rewrite ElideImmediateExecuteWaits_update by done.
  rewrite ElideDuplicateExecuteWaits_update by done.
  assert (∀ f, (∀ o, op_id (f o) = op_id o) →
            lookupOp (updateOp ir (op_id op) f) (op_id op) = Some (f op))
    as Hlook.
  { intros f Hf. rewrite lookupOp_updateOp, Hop by done. simpl.
    by rewrite decide_True. }
  pose proof (Hlook (keepWaits ir g) (fun _ => eq_refl)) as Hk.
  pose proof (Hlook (uniqueWaits g) (fun _ => eq_refl)) as Hu.
  unfold applyPattern. rewrite Hk, Hu.
  rewrite ElideDuplicateExecuteWaits_update;
    [|by rewrite fmap_op_id_updateOp|done|simpl; by rewrite length_insert].
  rewrite ElideImmediateExecuteWaits_update;
    [|by rewrite fmap_op_id_updateOp|done|simpl; by rewrite length_insert].
  simpl. rewrite !updateOp_updateOp by done.
  apply updateOp_ext. intros o Hin Hid.
  rewrite (elem_of_ir_unique ir op o) by done. simpl.
  unfold keepWaits, uniqueWaits. simpl.
  rewrite !withOperands_withOperands.
  assert (∀ L, getODSOperands
                 (withOperands op (<[g := L]> (op_operands op))) g = L)
    as Hgrp.
  { intros L. unfold getODSOperands. simpl.
    by rewrite list_lookup_insert_eq. }
  rewrite !Hgrp, !list_insert_insert_eq. f_equal. f_equal.
  rewrite unseen_filter. apply list_filter_iff. intros v.
  by rewrite definedBy_updateOp.
Qed.

Lemma execute_wait_elisions_commute_witness :
  applyPattern ElideDuplicateAsyncExecuteWaits
    (applyPattern ElideImmediateAsyncExecuteWaits awaitsIR 3) 3
  = applyPattern ElideImmediateAsyncExecuteWaits
      (applyPattern ElideDuplicateAsyncExecuteWaits awaitsIR 3) 3.
Proof.
  apply (execute_wait_elisions_commute
           AsyncExecuteOp.await_timepointsGroup awaitsIR awaitsOp).
  - by_compute.
  - reflexivity.
  - vm_compute. lia.
Defined.

(** ** Replacing an op by a new op with one result *)

Lemma lookupOp_eraseOp ir id id' :
  lookupOp (eraseOp ir id) id'
  = if decide (id' = id) then None else lookupOp ir id'.
Proof.
  unfold eraseOp. induction ir as [|o ir IH]; simpl.
  - by case_decide.
  - rewrite filter_cons. destruct (decide (op_id o ≠ id)) as [Ho|Ho]; simpl.
    + destruct (decide (op_id o = id')) as [<-|Hne]; [|done].
      by rewrite decide_False.
    + rewrite IH. destruct (decide (op_id o = id')) as [<-|Hne]; [|done].
      apply dec_stable in Ho. by rewrite !decide_True.
Qed.

Lemma getResults_single op :
  length (op_result_types op) = 1 → getResults op = [OpResult (op_id op) 0].
Proof.
  unfold getResults. destruct (op_result_types op) as [|t [|t' ts]]; done.
Qed.

(** The new op stands where the old one stood, the old one is gone, and
    every operand that was the old result is the new result. *)
Lemma replaceOpWithNewOp_single ir old new :
  op_id old ∈ op_id <$> ir → op_id new ∉ op_id <$> ir →
  length (op_result_types new) = 1 →
  let f := replaceValue (OpResult (op_id old) 0) (OpResult (op_id new) 0) in
  lookupOp (replaceOpWithNewOp ir old new) (op_id old) = None
  ∧ lookupOp (replaceOpWithNewOp ir old new) (op_id new)
    = Some (withOperands new (fmap (M:=list) f <$> op_operands new))
  ∧ ∀ id, id ≠ op_id old → id ≠ op_id new →
      lookupOp (replaceOpWithNewOp ir old new) id
      = (fun o => withOperands o (fmap (M:=list) f <$> op_operands o))
          <$> lookupOp ir id.
Proof.
  intros Hold Hnew Hres. simpl.
  assert (op_id new ≠ op_id old) as Hne by (intros Heq; by rewrite Heq in Hnew).
  unfold replaceOpWithNewOp, replaceOp. rewrite getResults_single by done.
  simpl. unfold replaceAllUsesWith.
  split; [apply lookupOp_eraseOp_eq|]. split.
  - rewrite lookupOp_eraseOp, decide_False by done.
    rewrite lookupOp_mapOperands, lookupOp_insertBefore by done.
    by rewrite decide_True.
  - intros id Hid1 Hid2.
    rewrite lookupOp_eraseOp, decide_False by done.
    rewrite lookupOp_mapOperands, lookupOp_insertBefore by done.
    by rewrite decide_False.
Qed.

(** ** stream.timepoint.join: ElideImmediateTimepointJoinOperands *)

Lemma push_back_filter (P : Value → bool) acc l :
  foldl (fun acc v => if P v then acc ++ [v] else acc) acc l
  = acc ++ filter (fun v => P v = true) l.
Proof.
  revert acc. induction l as [|x l IH]; intros acc; simpl.
  - by rewrite app_nil_r.
  - rewrite IH, filter_cons. destruct (P x); simpl; [|done].
    by rewrite <- app_assoc.
Qed.

Lemma filter_length_eq {A} (P : A → Prop) `{!∀ x, Decision (P x)}
    (l : list A) :
  length (filter P l) = length l ↔ ∀ x, x ∈ l → P x.
Proof.
  induction l as [|x l IH]; simpl.
  - split; [|done]. intros _ y Hy. by apply elem_of_nil in Hy.
  - rewrite filter_cons. destruct (decide (P x)) as [Hx|Hx]; simpl.
    + split.
      * intros Hlen y Hy. apply elem_of_cons in Hy as [->|Hy]; [done|].
        apply IH; [lia | done].
      * intros Hall. f_equal. apply IH. intros y Hy. apply Hall. by right.
    + split.
      * intros Hlen. pose proof (length_filter P l). lia.
      * intros Hall. exfalso. apply Hx, Hall. left.
Qed.

Lemma filter_all {A} (P : A → Prop) `{!∀ x, Decision (P x)} (l : list A) :
  (∀ x, x ∈ l → P x) → filter P l = l.
Proof.
  induction l as [|x l IH]; intros Hall; [done|].
  rewrite filter_cons, decide_True by (apply Hall; left).
  f_equal. apply IH. intros y Hy. apply Hall. by right.
Qed.

Lemma nonimmediate_length ir l :
  length (filter (fun v => definedBy ir stream_timepoint_immediate v = false)
            l) = length l
  ↔ ∀ v, v ∈ l → definedBy ir stream_timepoint_immediate v = false.
Proof. apply filter_length_eq. Qed.

Lemma lookupOp_assignODSOperands ir id n vs id' :
  lookupOp (assignODSOperands ir id n vs) id'
  = (fun o => if decide (op_id o = id)
              then withOperands o (<[n := vs]> (op_operands o)) else o)
      <$> lookupOp ir id'.
Proof. unfold assignODSOperands. by rewrite lookupOp_updateOp. Qed.

(** X6: the pattern fails, and leaves the IR alone, exactly when no
    timepoint of the join is defined by timepoint.immediate (so also on a
    join of nothing).  Otherwise it succeeds: if some timepoint is left the
    join keeps exactly the timepoints that are not immediate, in their
    order, and no other op changes; if none is left the join is erased, a
    timepoint.immediate op of its type takes its place, and every operand
    that was the join's result is the result of that op. *)
Theorem ElideImmediateTimepointJoinOperands_spec ir op :
  lookupOp ir (op_id op) = Some op →
  0 < length (op_operands op) →
  length (op_result_types op) = 1 →
  let keep := filter (fun v => definedBy ir stream_timepoint_immediate v
                               = false) (TimepointJoinOp.timepoints op) in
  let run := ElideImmediateTimepointJoinOperands ir op in
  let new := freshId ir in
  let f := replaceValue (OpResult (op_id op) 0) (OpResult new 0) in
  (run.1 = failure
   ↔ ∀ v, v ∈ TimepointJoinOp.timepoints op →
          definedBy ir stream_timepoint_immediate v = false)
  ∧ (run.1 = failure → run.2 = ir)
  ∧ (run.1 = success → keep ≠ [] →
     lookupOp run.2 (op_id op)
     = Some (withOperands op (<[0 := keep]> (op_operands op)))
     ∧ ∀ id, id ≠ op_id op → lookupOp run.2 id = lookupOp ir id)
  ∧ (run.1 = success → keep = [] →
     lookupOp run.2 (op_id op) = None
     ∧ lookupOp run.2 new
       = Some (TimepointImmediateOp.build new (op_block op)
                 (op_result_types op))
     ∧ ∀ id, id ≠ op_id op → id ≠ new →
         lookupOp run.2 id
         = (fun o => withOperands o (fmap (M:=list) f <$> op_operands o))
             <$> lookupOp ir id).
Proof.
  intros Hop Hg Hres. simpl.
  unfold ElideImmediateTimepointJoinOperands.
  rewrite (push_back_filter
             (fun v => negb (definedBy ir stream_timepoint_immediate v))).
  simpl.
  set (l := TimepointJoinOp.timepoints op).
  rewrite (list_filter_iff _
             (fun v => definedBy ir stream_timepoint_immediate v = false))
    by (intros v; by rewrite negb_true_iff).
  assert (take 1 (op_result_types op) = op_result_types op) as Htake.
  { destruct (op_result_types op) as [|t [|t' ts]]; done. }
  pose proof (nonimmediate_length ir l) as Hiff.
  destruct (decide (length (filter _ l) = length l)) as [Hlen|Hlen]; simpl.
  - split; [by rewrite <- Hiff|]. split; [done|]. split; intros [=].
  - destruct (decide (filter _ l = [])) as [Hnil|Hnil]; simpl.
    + split.
      { split; [done|]. intros Hall. exfalso. by apply Hlen, Hiff. }
      split; [done|].
      split; [done|]. intros _ _. rewrite Htake.
      destruct (replaceOpWithNewOp_single ir op
                  (TimepointImmediateOp.build (freshId ir) (op_block op)
                     (op_result_types op))) as (H1 & H2 & H3).
      * apply lookupOp_is_Some; eauto.
      * apply freshId_not_elem_of.
      * done.
      * split; [exact H1|]. split; [exact H2 | exact H3].
    + split.
      { split; [done|]. intros Hall. exfalso. by apply Hlen, Hiff. }
      split; [done|].
      split; [|done]. intros _ _. split.
      * rewrite lookupOp_assignODSOperands, Hop. simpl.
        by rewrite decide_True.
      * intros id Hid. rewrite lookupOp_assignODSOperands.
        destruct (lookupOp ir id) as [o|] eqn:Hl; simpl; [|done].
        apply lookupOp_Some in Hl as [_ Ho]. rewrite decide_False; [done|].
        congruence.
Qed.

Lemma ElideImmediateTimepointJoinOperands_spec_witness :
  lookupOp (ElideImmediateTimepointJoinOperands joinIR joinOp).2 3
  = Some (mkOp 3 other_op 0 [[OpResult 2 0; OpResult 2 0]]
               [TimepointType] [] None)
  ∧ lookupOp (ElideImmediateTimepointJoinOperands joinIR immediateJoinOp).2 5
    = None.
Proof.
  split.
  - apply (ElideImmediateTimepointJoinOperands_spec joinIR joinOp);
      [reflexivity | vm_compute; lia | reflexivity | reflexivity
      | vm_compute; discriminate].
  - apply (ElideImmediateTimepointJoinOperands_spec joinIR immediateJoinOp);
      [reflexivity | vm_compute; lia | reflexivity | reflexivity
      | reflexivity].
Defined.

(** ** stream.timepoint.join: FoldDuplicateTimepointJoinOperands *)

Lemma unseen_length_NoDup l :
  length (unseen [] l) = length l ↔ NoDup l.
Proof.
  split.
  - intros Hlen. rewrite <- (proj2 (unseen_length [] l) Hlen).
    apply NoDup_unseen.
  - intros Hnd. rewrite unseen_NoDup_id; [done..|].
    intros x _. apply not_elem_of_nil.
Qed.

(** X7: the pattern fails, and leaves the IR alone, exactly when the
    timepoints of the join are pairwise distinct.  In any case the join
    holds afterwards the same timepoints as before, each once, in the order
    of their first occurrences, no other op has changed, and a second run
    of the pattern fails. *)
Theorem FoldDuplicateTimepointJoinOperands_spec ir op :
  lookupOp ir (op_id op) = Some op →
  0 < length (op_operands op) →
  let run := FoldDuplicateTimepointJoinOperands ir op in
  (run.1 = failure ↔ NoDup (TimepointJoinOp.timepoints op))
  ∧ (run.1 = failure → run.2 = ir)
  ∧ (∀ id, id ≠ op_id op → lookupOp run.2 id = lookupOp ir id)
  ∧ ∃ op',
      lookupOp run.2 (op_id op) = Some op'
      ∧ NoDup (TimepointJoinOp.timepoints op')
      ∧ (∀ v, v ∈ TimepointJoinOp.timepoints op'
              ↔ v ∈ TimepointJoinOp.timepoints op)
      ∧ (∀ i j x y,
           TimepointJoinOp.timepoints op' !! i = Some x →
           TimepointJoinOp.timepoints op' !! j = Some y →
           i < j →
           firstIndex x (TimepointJoinOp.timepoints op)
           < firstIndex y (TimepointJoinOp.timepoints op))
      ∧ FoldDuplicateTimepointJoinOperands run.2 op' = (failure, run.2).
Proof.
  intros Hop Hg. simpl.
  set (l := TimepointJoinOp.timepoints op).
  assert (FoldDuplicateTimepointJoinOperands ir op
          = if decide (length (unseen [] l) = length l) then (failure, ir)
            else (success, assignODSOperands ir (op_id op) 0 (unseen [] l)))
    as ->.
  { unfold FoldDuplicateTimepointJoinOperands.
    by rewrite setVectorInsert_unseen. }
  assert (∀ op', TimepointJoinOp.timepoints op' = unseen [] l →
            ∀ ir', FoldDuplicateTimepointJoinOperands ir' op'
                   = (failure, ir')) as Hagain.
  { intros op' Hl' ir'. unfold FoldDuplicateTimepointJoinOperands.
    rewrite setVectorInsert_unseen. simpl. rewrite decide_True; [done|].
    rewrite Hl'. f_equal. apply unseen_NoDup_id; [apply NoDup_unseen|].
    intros x _. apply not_elem_of_nil. }
  assert (∀ v, v ∈ unseen [] l ↔ v ∈ l) as Hmem.
  { intros v. rewrite elem_of_unseen, elem_of_nil. naive_solver. }
  destruct (decide (length (unseen [] l) = length l)) as [Hlen|Hlen]; simpl.
  - pose proof (proj2 (unseen_length [] l) Hlen) as Heq.
    split; [split; [intros _; by apply unseen_length_NoDup | done]|].
    split; [done|]. split; [done|].
    exists op. split; [done|]. fold l.
    split; [by apply unseen_length_NoDup|]. split; [done|].
    split.
    { intros i j x y Hx Hy. apply (unseen_order [] l i j); by rewrite Heq. }
    apply Hagain. by rewrite Heq.
  - split.
    { split; [done|]. intros Hnd. exfalso.
      by apply Hlen, unseen_length_NoDup. }
    split; [done|]. split.
    { intros id Hid. rewrite lookupOp_assignODSOperands.
      destruct (lookupOp ir id) as [o|] eqn:Hl; simpl; [|done].
      apply lookupOp_Some in Hl as [_ Ho]. rewrite decide_False; [done|].
      congruence. }
    eexists. split.
    { rewrite lookupOp_assignODSOperands, Hop. simpl.
      by rewrite decide_True. }
    assert (TimepointJoinOp.timepoints
              (withOperands op (<[0 := unseen [] l]> (op_operands op)))
            = unseen [] l) as Hl'.
    { unfold TimepointJoinOp.timepoints, getODSOperands. simpl.
      by rewrite list_lookup_insert_eq. }
    rewrite Hl'. split; [apply NoDup_unseen|]. split; [done|].
    split; [intros i j x y; apply unseen_order|].
    by apply Hagain.
Qed.

Lemma FoldDuplicateTimepointJoinOperands_spec_witness :
  ∃ op',
    lookupOp (FoldDuplicateTimepointJoinOperands joinIR joinOp).2 3 = Some op'
    ∧ NoDup (TimepointJoinOp.timepoints op').
Proof.
  destruct (FoldDuplicateTimepointJoinOperands_spec joinIR joinOp)
    as (_ & _ & _ & op' & Hop' & Hnd & _);
    [reflexivity | vm_compute; lia |].
  exists op'. split; assumption.
Defined.

(** ** stream.resource.pack: ResourcePackOp::fold *)

(** X8: the fold of resource.pack succeeds exactly on a pack of at most one
    slice, and it then yields one fold result for every result of the op:
    for a pack without slices the zero total length; for a pack of one
    slice the size of that slice as total length and, as the offset of the
    slice, the base offset of the pack, or zero when it has none. *)
Theorem ResourcePackOp_fold_spec op :
  op_result_types op ≠ [] →
  (is_Some (ResourcePackOp.fold op)
   ↔ length (ResourcePackOp.packed_offsets op) ≤ 1)
  ∧ (∀ results, ResourcePackOp.fold op = Some results →
       length results = length (getResults op))
  ∧ (ResourcePackOp.packed_offsets op = [] →
     ResourcePackOp.fold op = Some [FoldAttr 0])
  ∧ (∀ size, length (ResourcePackOp.packed_offsets op) = 1 →
       ResourcePackOp.dynamic_slice_sizes op = [size] →
       ResourcePackOp.fold op
       = Some [FoldValue size;
               if decide (ResourcePackOp.offset op = NullValue)
               then FoldAttr 0
               else FoldValue (ResourcePackOp.offset op)]).
Proof.
  intros Hres. unfold ResourcePackOp.fold, ResourcePackOp.packed_offsets.
  assert (getResults op ≠ []) as Hne.
  { unfold getResults. destruct (op_result_types op); done. }
  destruct (getResults op) as [|r rs]; [done|]. simpl.
  destruct rs as [|r1 [|r2 rs]]; simpl.
  - split; [split; [lia | by eauto]|]. split; [by intros ? [= <-]|].
    split; [done|]. intros; lia.
  - split; [split; [lia | by eauto]|]. split; [by intros ? [= <-]|].
    split; [done|]. intros size _ ->. done.
  - split; [split; [by intros [] | lia]|]. split; [done|].
    split; [done|]. intros; lia.
Qed.

Lemma ResourcePackOp_fold_spec_witness :
  ResourcePackOp.fold
    (mkOp 1 other_op 0 [[BlockArgument 0 0]; [BlockArgument 0 1]]
          [IndexType; IndexType] [] None)
  = Some [FoldValue (BlockArgument 0 1); FoldValue (BlockArgument 0 0)].
Proof.
  apply (proj2 (proj2 (proj2 (ResourcePackOp_fold_spec
           (mkOp 1 other_op 0 [[BlockArgument 0 0]; [BlockArgument 0 1]]
                 [IndexType; IndexType] [] None) ltac:(discriminate))))
           (BlockArgument 0 1)); reflexivity.
Defined.

(** ** stream.async.clone: ElideUnneededAsyncClones *)

(** X9: the async.clone elision fires exactly when neither the result of
    the clone nor its source has a tied use.  The clone is then erased and
    every operand that was its result is its source; otherwise the IR is
    left as it is. *)
Theorem ElideUnneededAsyncClones_elides ir cloneOp :
  let run := ElideUnneededAsyncClones ir cloneOp in
  (run.1 = success
   ↔ hasAnyTiedUses ir (AsyncCloneOp.result cloneOp) = false
     ∧ hasAnyTiedUses ir (AsyncCloneOp.source cloneOp) = false)
  ∧ (run.1 = success →
     lookupOp run.2 (op_id cloneOp) = None
     ∧ ∀ id, id ≠ op_id cloneOp →
         lookupOp run.2 id
         = (fun o =>
              withOperands o
                (fmap (M:=list)
                   (replaceValue (AsyncCloneOp.result cloneOp)
                      (AsyncCloneOp.source cloneOp)) <$> op_operands o))
             <$> lookupOp ir id)
  ∧ (run.1 = failure → run.2 = ir).
Proof.
  simpl. unfold ElideUnneededAsyncClones.
  destruct (hasAnyTiedUses ir (AsyncCloneOp.result cloneOp)),
    (hasAnyTiedUses ir (AsyncCloneOp.source cloneOp)); simpl;
    try (split; [naive_solver|]; split; [done | done]).
  split; [done|]. split; [|done]. intros _.
  rewrite replaceOp_single. split; [apply lookupOp_eraseOp_eq|].
  intros id Hid. rewrite lookupOp_eraseOp, decide_False by done.
  by rewrite lookupOp_mapOperands.
Qed.

(** ** ChainAsyncExecuteWaits and ChainCmdExecuteWaits on any op *)

Lemma assignODSOperands0_group (rs : list (nat * Value)) o :
  0 < length (op_operands o) →
  getODSOperands
    (foldl (fun o (r : nat * Value) => assignODSOperand 0 r.1 r.2 o) o rs) 0
  = foldl (fun l (r : nat * Value) => <[r.1 := r.2]> l)
          (getODSOperands o 0) rs.
Proof.
  revert o. induction rs as [|r rs IH]; intros o Hg; simpl; [done|].
  rewrite IH by (simpl; by rewrite length_insert). f_equal.
  unfold getODSOperands at 1, assignODSOperand. simpl.
  by rewrite list_lookup_insert_eq.
Qed.

Lemma assign_awaitReplacements ir pre l :
  foldl (fun l (r : nat * Value) => <[r.1 := r.2]> l) (pre ++ l)
        (awaitReplacements ir (length pre) l)
  = pre ++ (chainedOperand ir <$> l).
Proof.
  revert pre. induction l as [|v rest IH]; intros pre; simpl; [done|].
  rewrite foldl_app.
  assert (foldl (fun l (r : nat * Value) => <[r.1 := r.2]> l)
            (pre ++ v :: rest)
            match dynCastDefiningOp ir stream_timepoint_await v with
            | Some awaitOp => [(length pre, getTiedResultOperand awaitOp v)]
            | None => []
            end
          = (pre ++ [chainedOperand ir v]) ++ rest) as ->.
  { unfold chainedOperand.
    destruct (dynCastDefiningOp ir stream_timepoint_await v); simpl.
    - rewrite insert_app_r_alt by lia. rewrite Nat.sub_diag. simpl.
      by rewrite <- app_assoc.
    - by rewrite <- app_assoc. }
  replace (S (length pre)) with (length (pre ++ [chainedOperand ir v]))
    by (rewrite length_app; simpl; lia).
  rewrite IH. by rewrite <- app_assoc.
Qed.

Lemma awaitReplacements_nil ir k l :
  awaitReplacements ir k l = []
  ↔ ∀ v, v ∈ l → dynCastDefiningOp ir stream_timepoint_await v = None.
Proof.
  revert k. induction l as [|x l IH]; intros k; simpl.
  - split; [|done]. intros _ v Hv. by apply elem_of_nil in Hv.
  - destruct (dynCastDefiningOp ir stream_timepoint_await x) eqn:Hx; simpl.
    + split; [done|]. intros Hall.
      specialize (Hall x ltac:(left)). congruence.
    + rewrite IH. split.
      * intros Hall v Hv. apply elem_of_cons in Hv as [->|Hv]; [done|].
        by apply Hall.
      * intros Hall v Hv. apply Hall. by right.
Qed.

Lemma awaitReplacements_not_nil ir k l :
  awaitReplacements ir k l ≠ [] →
  ∃ v, v ∈ l ∧ is_Some (dynCastDefiningOp ir stream_timepoint_await v).
Proof.
  revert k. induction l as [|x l IH]; intros k; simpl; [done|].
  destruct (dynCastDefiningOp ir stream_timepoint_await x) eqn:Hx; simpl.
  - intros _. exists x. split; [left|]. rewrite Hx. eauto.
  - intros Hne. destruct (IH _ Hne) as (v & Hv & Hs).
    exists v. split; [by right | done].
Qed.

(** X10: on any execute op of the IR the chain-awaits patterns succeed
    exactly when some captured operand is a result of a timepoint.await.
    Every such operand is then replaced by the resource that result is tied
    to; the other captured operands, every other operand group of the op
    (sizes and await list), and every other op are what they were; on
    failure the IR is unchanged. *)
Theorem ChainExecuteWaits_spec ir op :
  lookupOp ir (op_id op) = Some op →
  0 < length (op_operands op) →
  let run := ChainExecuteWaits ir op in
  (run.1 = success
   ↔ ∃ v, v ∈ getODSOperands op 0
          ∧ is_Some (dynCastDefiningOp ir stream_timepoint_await v))
  ∧ (run.1 = failure → run.2 = ir)
  ∧ (∀ id, id ≠ op_id op → lookupOp run.2 id = lookupOp ir id)
  ∧ ∃ op',
      lookupOp run.2 (op_id op) = Some op'
      ∧ getODSOperands op' 0 = chainedOperand ir <$> getODSOperands op 0
      ∧ ∀ g, g ≠ 0 → getODSOperands op' g = getODSOperands op g.
Proof.
  intros Hop Hg. simpl. unfold ChainExecuteWaits.
  pose proof (assign_awaitReplacements ir [] (getODSOperands op 0)) as Hassign.
  simpl in Hassign.
  pose proof (awaitReplacements_nil ir 0 (getODSOperands op 0)) as Hnil.
  destruct (decide (awaitReplacements ir 0 (getODSOperands op 0) = []))
    as [Hrs|Hrs]; simpl.
  - split.
    { split; [done|]. intros (v & Hv & [a Ha]).
      rewrite (proj1 Hnil Hrs v Hv) in Ha. done. }
    split; [done|]. split; [done|].
    exists op. split; [done|]. split; [|done].
    rewrite Hrs in Hassign. simpl in Hassign. done.
  - split.
    { split; [|done]. intros _. by eapply awaitReplacements_not_nil. }
    split; [done|]. split.
    { intros id Hid. rewrite lookupOp_updateOp.
      2: { intros o. by apply assignODSOperands0_frame. }
      destruct (lookupOp ir id) as [o|] eqn:Hl; simpl; [|done].
      apply lookupOp_Some in Hl as [_ Ho]. rewrite decide_False; [done|].
      congruence. }
    rewrite lookupOp_updateOp, Hop.
    2: { intros o. by apply assignODSOperands0_frame. }
    simpl. rewrite decide_True by done. eexists. split; [done|].
    split.
    + by rewrite assignODSOperands0_group, Hassign.
    + by apply assignODSOperands0_frame.
Qed.

Lemma ChainExecuteWaits_spec_witness :
  ∃ op',
    lookupOp (ChainAsyncExecuteWaits chainIR chainAsyncExecuteOp).2 4
    = Some op'
    ∧ AsyncExecuteOp.operands op' = [OpResult 2 0]
    ∧ AsyncExecuteOp.await_timepoints op' = [].
Proof.
  destruct (ChainExecuteWaits_spec chainIR chainAsyncExecuteOp)
    as (_ & _ & _ & op' & Hop' & Hops & Hother);
    [reflexivity | vm_compute; lia |].
  exists op'. split; [exact Hop'|]. split.
  - exact Hops.
  - apply (Hother AsyncExecuteOp.await_timepointsGroup). discriminate.
Defined.

(** ** Replacing the results of an op by values *)

Lemma resultPairs_fst id (vals : list Value) :
  (imap (fun k v => (OpResult id (0 + k), v)) vals).*1
  = (fun k => OpResult id k) <$> seq 0 (length vals).
Proof.
  rewrite fmap_imap, <- imap_seq_0. by apply imap_ext.
Qed.

Lemma NoDup_results id n :
  NoDup ((fun k => OpResult id k) <$> seq 0 n).
Proof.
  apply NoDup_fmap_2_strong; [|apply NoDup_seq]. by intros x y _ _ [= ->].
Qed.

Lemma not_elem_of_results id n v :
  getDefiningOp v ≠ Some id → v ∉ (fun k => OpResult id k) <$> seq 0 n.
Proof.
  intros Hv Hin. apply list_elem_of_fmap in Hin as (k & -> & _). done.
Qed.

Lemma getOperands_mapOperands_lookup f ir id o :
  lookupOp ir id = Some o →
  ∃ o', lookupOp (mapOperands f ir) id = Some o'
        ∧ o' = withOperands o (op_operands o')
        ∧ getOperands o' = f <$> getOperands o.
Proof.
  intros Hl. rewrite lookupOp_mapOperands, Hl. simpl.
  eexists. split; [done|]. split; [done|].
  unfold getOperands. simpl. apply concat_fmap_fmap.
Qed.

(** X11: the pattern fires exactly when the awaited timepoint is defined by
    timepoint.immediate.  The await is then erased, and in every other op
    an operand that was result [i] of the await is operand [i] of the
    await, the resource it passed through, while every other operand stays;
    when the timepoint is not immediate the IR is left as it is. *)
Theorem ElideImmediateAwaits_spec ir op :
  (∀ v, v ∈ TimepointAwaitOp.operands op →
        getDefiningOp v ≠ Some (op_id op)) →
  let run := ElideImmediateAwaits ir op in
  (run.1 = success
   ↔ definedBy ir stream_timepoint_immediate (TimepointAwaitOp.timepoint op)
     = true)
  ∧ (run.1 = failure → run.2 = ir)
  ∧ (run.1 = success →
     lookupOp run.2 (op_id op) = None
     ∧ ∀ id o, id ≠ op_id op → lookupOp ir id = Some o →
         ∃ o', lookupOp run.2 id = Some o'
               ∧ o' = withOperands o (op_operands o')
               ∧ (∀ k i x,
                    getOperands o !! k = Some (OpResult (op_id op) i) →
                    TimepointAwaitOp.operands op !! i = Some x →
                    getOperands o' !! k = Some x)
               ∧ (∀ k v,
                    getOperands o !! k = Some v →
                    getDefiningOp v ≠ Some (op_id op) →
                    getOperands o' !! k = Some v)).
Proof.
  intros Hacyclic. simpl. unfold ElideImmediateAwaits.
  destruct (definedBy ir stream_timepoint_immediate
              (TimepointAwaitOp.timepoint op)); simpl.
  2: { split; [done|]. split; [done|]. intros [=]. }
  split; [done|]. split; [intros [=]|]. intros _.
  unfold replaceOp. rewrite replaceResultsFrom_mapOperands.
  set (pairs := imap (fun k v => (OpResult (op_id op) (0 + k), v))
                     (TimepointAwaitOp.operands op)).
  assert (∀ v, applySubs pairs v = reroute pairs v) as Hsubs.
  { intros v. apply applySubs_reroute. intros p Hp.
    unfold pairs. rewrite resultPairs_fst.
    apply not_elem_of_results, Hacyclic.
    apply elem_of_lookup_imap_1 in Hp as (k & x & -> & Hk).
    by eapply list_elem_of_lookup_2. }
  rewrite (mapOperands_ext _ _ _ Hsubs).
  split; [apply lookupOp_eraseOp_eq|].
  intros id o Hid Hl. rewrite lookupOp_eraseOp, decide_False by done.
  destruct (getOperands_mapOperands_lookup (reroute pairs) ir id o Hl)
    as (o' & Hl' & Hfields & Hops).
  exists o'. split; [done|]. split; [done|]. rewrite Hops. split.
  - intros k i x Hk Hi. rewrite list_lookup_fmap, Hk. simpl. f_equal.
    apply reroute_elem_of.
    + unfold pairs. rewrite resultPairs_fst. apply NoDup_results.
    + apply (elem_of_lookup_imap_2
               (fun k v => (OpResult (op_id op) (0 + k), v)) _ x i Hi).
  - intros k v Hk Hv. rewrite list_lookup_fmap, Hk. simpl. f_equal.
    apply reroute_not_elem_of. unfold pairs. rewrite resultPairs_fst.
    by apply not_elem_of_results.
Qed.

Lemma ElideImmediateAwaits_spec_witness :
  lookupOp (ElideImmediateAwaits immediateAwaitIR immediateAwaitOp).2 3 = None
  ∧ ∃ o', lookupOp (ElideImmediateAwaits immediateAwaitIR immediateAwaitOp).2
            4 = Some o'
          ∧ getOperands o' !! 0 = Some (OpResult 2 0).
Proof.
  destruct (ElideImmediateAwaits_spec immediateAwaitIR immediateAwaitOp)
    as (_ & _ & Hrun).
  - intros v Hv. apply list_elem_of_singleton in Hv as ->. discriminate.
  - destruct (Hrun eq_refl) as [Hgone Hother]. split; [exact Hgone|].
    destruct (Hother 4 (mkOp 4 other_op 0 [[OpResult 3 0]] [] [] None))
      as (o' & Ho' & _ & Hres & _); [discriminate | reflexivity |].
    exists o'. split; [exact Ho'|].
    apply (Hres 0 0 (OpResult 2 0)); reflexivity.
Defined.

(** ** FoldDuplicateAwaitResources *)

Lemma firstIndex_app_l x l1 l2 :
  x ∈ l1 → firstIndex x (l1 ++ l2) = firstIndex x l1.
Proof.
  induction l1 as [|y l1 IH]; simpl; intros Hin.
  - by apply elem_of_nil in Hin.
  - case_decide; [done|]. f_equal. apply IH.
    apply elem_of_cons in Hin as [->|Hin]; done.
Qed.

Lemma firstIndex_app_r x l1 l2 :
  x ∉ l1 → firstIndex x (l1 ++ x :: l2) = length l1.
Proof.
  induction l1 as [|y l1 IH]; simpl; intros Hin.
  - by rewrite decide_True.
  - apply not_elem_of_cons in Hin as [Hne Hin].
    rewrite decide_False by done. f_equal. by apply IH.
Qed.

Lemma firstIndex_lookup x l : x ∈ l → l !! firstIndex x l = Some x.
Proof.
  induction l as [|y l IH]; simpl; intros Hin.
  - by apply elem_of_nil in Hin.
  - case_decide as Hy; [by subst|]. simpl. apply IH.
    apply elem_of_cons in Hin as [->|Hin]; done.
Qed.

Lemma denseMapFind_app m1 m2 key :
  denseMapFind (m1 ++ m2) key
  = match denseMapFind m1 key with
    | Some i => Some i
    | None => denseMapFind m2 key
    end.
Proof.
  induction m1 as [|[k i] m1 IH]; simpl; [done|]. by case_decide.
Qed.

Lemma dedupItems_ext {B} s1 s2 (items : list (Value * B)) :
  (∀ x, x ∈ s1 ↔ x ∈ s2) → dedupItems s1 items = dedupItems s2 items.
Proof.
  revert s1 s2. induction items as [|it items IH]; intros s1 s2 Hs; simpl;
    [done|].
  destruct (decide (it.1 ∈ s1)) as [H1|H1], (decide (it.1 ∈ s2)) as [H2|H2];
    try (exfalso; naive_solver).
  - by apply IH.
  - f_equal. apply IH. intros x. rewrite !elem_of_cons. naive_solver.
Qed.

Lemma dedupItems_fst {B} seen (items : list (Value * B)) :
  (dedupItems seen items).*1 = unseen seen items.*1.
Proof.
  revert seen. induction items as [|it items IH]; intros seen; csimpl;
    [done|].
  case_decide; csimpl; by rewrite IH.
Qed.

Lemma elem_of_dedupItems {B} seen (items : list (Value * B)) it :
  it ∈ dedupItems seen items → it ∈ items.
Proof.
  revert seen. induction items as [|x items IH]; intros seen; simpl.
  - done.
  - case_decide.
    + intros Hin. right. by eapply IH.
    + intros Hin. apply elem_of_cons in Hin as [->|Hin]; [left|].
      right. by eapply IH.
Qed.

Lemma dedupStep_seen st it :
  wfBaseMap st → it.1 ∈ newOperands st →
  dedupStep st it
  = mkDedupState (baseMap st)
      (replacements st ++ [(it.2.2.1, firstIndex it.1 (newOperands st))])
      (newOperands st) (newOperandSizes st) (newResultTypes st).
Proof.
  intros Hwf Hin. unfold dedupStep. rewrite (Hwf it.1).
  by rewrite decide_True.
Qed.

Lemma dedupStep_new st it :
  wfBaseMap st → it.1 ∉ newOperands st →
  dedupStep st it
  = mkDedupState
      (baseMap st ++ [(it.1, length (newOperands st))])
      (replacements st ++ [(it.2.2.1, length (newOperands st))])
      (newOperands st ++ [it.1])
      (newOperandSizes st ++ [it.2.1])
      (newResultTypes st ++ [it.2.2.2]).
Proof.
  intros Hwf Hin. unfold dedupStep. rewrite (Hwf it.1).
  by rewrite decide_False.
Qed.

(** The first loop in closed form. *)
Lemma dedup_loop items st :
  wfBaseMap st →
  newOperands (foldl dedupStep st items)
  = newOperands st ++ (dedupItems (newOperands st) items).*1
  ∧ newOperandSizes (foldl dedupStep st items)
    = newOperandSizes st
      ++ ((fun it => it.2.1) <$> dedupItems (newOperands st) items)
  ∧ newResultTypes (foldl dedupStep st items)
    = newResultTypes st
      ++ ((fun it => it.2.2.2) <$> dedupItems (newOperands st) items)
  ∧ replacements (foldl dedupStep st items)
    = replacements st
      ++ ((fun it => (it.2.2.1,
                      firstIndex it.1
                        (newOperands (foldl dedupStep st items))))
            <$> items).
Proof.
  revert st. induction items as [|it items IH]; intros st Hwf.
  - simpl. by rewrite !app_nil_r.
  - change (foldl dedupStep st (it :: items))
      with (foldl dedupStep (dedupStep st it) items).
    cbn [dedupItems]. csimpl.
    destruct (decide (it.1 ∈ newOperands st)) as [Hin|Hin].
    + rewrite (dedupStep_seen st it) by done.
      set (st1 := mkDedupState _ _ _ _ _).
      destruct (IH st1) as (Hops & Hsizes & Htypes & Hrepl); [done|].
      split; [done|]. split; [done|]. split; [done|].
      rewrite Hrepl. unfold st1 at 1. simpl. rewrite <- app_assoc. simpl.
      do 3 f_equal. rewrite Hops. unfold st1. simpl.
      by rewrite firstIndex_app_l.
    + rewrite (dedupStep_new st it) by done.
      set (st1 := mkDedupState _ _ _ _ _).
      assert (wfBaseMap st1) as Hwf1.
      { intros v. unfold st1. simpl. rewrite denseMapFind_app, (Hwf v).
        destruct (decide (v ∈ newOperands st)) as [Hv|Hv].
        - rewrite decide_True by (apply elem_of_app; by left).
          by rewrite firstIndex_app_l.
        - simpl. destruct (decide (it.1 = v)) as [<-|Hne].
          + rewrite decide_True
              by (apply elem_of_app; right; apply list_elem_of_singleton;
                  done).
            by rewrite firstIndex_app_r.
          + rewrite decide_False; [done|].
            intros [Hv'|Hv']%elem_of_app; [done|].
            apply list_elem_of_singleton in Hv'. congruence. }
      destruct (IH st1 Hwf1) as (Hops & Hsizes & Htypes & Hrepl).
      assert (dedupItems (newOperands st1) items
              = dedupItems (it.1 :: newOperands st) items) as Hext.
      { apply dedupItems_ext. intros x. unfold st1. simpl.
        rewrite elem_of_app, !elem_of_cons, elem_of_nil. naive_solver. }
      rewrite Hext in Hops, Hsizes, Htypes.
      split; [|split; [|split]].
      * rewrite Hops. unfold st1. simpl. by rewrite <- app_assoc.
      * rewrite Hsizes. unfold st1. simpl. by rewrite <- app_assoc.
      * rewrite Htypes. unfold st1. simpl. by rewrite <- app_assoc.
      * rewrite Hrepl. unfold st1 at 1. simpl. rewrite <- app_assoc. simpl.
        do 3 f_equal. rewrite Hops. unfold st1. simpl.
        rewrite <- app_assoc. simpl. by rewrite firstIndex_app_r.
Qed.

Lemma replaceAllUsesWith_foldl new (repl : list (Value * nat)) ir :
  foldl (fun ir (r : Value * nat) =>
           replaceAllUsesWith ir r.1 (OpResult new r.2)) ir repl
  = mapOperands
      (applySubs ((fun r : Value * nat => (r.1, OpResult new r.2)) <$> repl))
      ir.
Proof.
  revert ir. induction repl as [|r repl IH]; intros ir; simpl.
  - by rewrite mapOperands_id.
  - rewrite IH. unfold replaceAllUsesWith. rewrite mapOperands_compose.
    by apply mapOperands_ext.
Qed.

Lemma elem_of_getODSOperands op g v :
  v ∈ getODSOperands op g → v ∈ getOperands op.
Proof.
  unfold getODSOperands, getOperands. revert g.
  induction (op_operands op) as [|grp gs IH]; intros g; simpl.
  - intros Hv. by apply elem_of_nil in Hv.
  - destruct g as [|g]; simpl; intros Hv; apply elem_of_app.
    + by left.
    + right. by eapply IH.
Qed.

Lemma fmap_id_on {A} (f : A → A) (l : list A) :
  (∀ x, x ∈ l → f x = x) → f <$> l = l.
Proof.
  induction l as [|x l IH]; intros Hf; csimpl; [done|].
  rewrite Hf by left. f_equal. apply IH. intros y Hy. apply Hf. by right.
Qed.

Lemma getResults_seq op :
  getResults op
  = (fun k => OpResult (op_id op) k) <$> seq 0 (length (op_result_types op)).
Proof. unfold getResults. by rewrite <- imap_seq_0. Qed.

Lemma timepoint_not_own_result op :
  (∀ v, v ∈ getOperands op → getDefiningOp v ≠ Some (op_id op)) →
  getDefiningOp (TimepointAwaitOp.timepoint op) ≠ Some (op_id op).
Proof.
  intros Hacyclic. unfold TimepointAwaitOp.timepoint.
  destruct (getODSOperands op 2) as [|v vs] eqn:Hg; simpl; [done|].
  apply Hacyclic, (elem_of_getODSOperands op 2). rewrite Hg. left.
Qed.

(** The items of the first loop of FoldDuplicateAwaitResources. *)
Lemma dedup_items_lookup op i it :
  length (TimepointAwaitOp.operand_sizes op)
  = length (TimepointAwaitOp.operands op) →
  length (op_result_types op) = length (TimepointAwaitOp.operands op) →
  zip (TimepointAwaitOp.operands op)
      (zip (TimepointAwaitOp.operand_sizes op)
         (zip (getResults op) (op_result_types op))) !! i = Some it
  ↔ TimepointAwaitOp.operands op !! i = Some it.1
    ∧ TimepointAwaitOp.operand_sizes op !! i = Some it.2.1
    ∧ it.2.2.1 = OpResult (op_id op) i
    ∧ op_result_types op !! i = Some it.2.2.2.
Proof.
  intros Hsizes Htypes. destruct it as (x & s & r & t). simpl.
  rewrite !lookup_zip_Some. unfold getResults.
  rewrite list_lookup_imap. split.
  - intros (Hx & Hs & Hr & Ht). rewrite Ht in Hr. simpl in Hr.
    by injection Hr as <-.
  - intros (Hx & Hs & -> & Ht). by rewrite Ht.
Qed.

(** X12: the pattern fails, and leaves the IR alone, exactly when the
    resources the await passes through are pairwise distinct.  Otherwise it
    replaces the await by a new await on the same timepoint, with the same
    affinity, that passes every one of those resources through once, in the
    order of their first occurrences and with a size and a type they had in
    the old op; and in every other op an operand that was a result of
    the old await for the resource [x] is the result of the new await for
    [x], while every other operand stays. *)
Theorem FoldDuplicateAwaitResources_spec ir op :
  lookupOp ir (op_id op) = Some op →
  length (TimepointAwaitOp.operand_sizes op)
  = length (TimepointAwaitOp.operands op) →
  length (op_result_types op) = length (TimepointAwaitOp.operands op) →
  (∀ v, v ∈ getOperands op → getDefiningOp v ≠ Some (op_id op)) →
  let l := TimepointAwaitOp.operands op in
  let run := FoldDuplicateAwaitResources ir op in
  let new := freshId ir in
  (run.1 = failure ↔ NoDup l)
  ∧ (run.1 = failure → run.2 = ir)
  ∧ (run.1 = success →
     lookupOp run.2 (op_id op) = None
     ∧ (∃ newOp,
          lookupOp run.2 new = Some newOp
          ∧ op_name newOp = stream_timepoint_await
          ∧ op_block newOp = op_block op
          ∧ op_affinity newOp = op_affinity op
          ∧ TimepointAwaitOp.timepoint newOp = TimepointAwaitOp.timepoint op
          ∧ TimepointAwaitOp.operands newOp = unseen [] l
          ∧ op_tied_operands newOp = Some <$> seq 0 (length (unseen [] l))
          ∧ ∀ j x, unseen [] l !! j = Some x →
              ∃ i, l !! i = Some x
                   ∧ TimepointAwaitOp.operand_sizes newOp !! j
                     = TimepointAwaitOp.operand_sizes op !! i
                   ∧ op_result_types newOp !! j = op_result_types op !! i)
     ∧ ∀ id o, id ≠ op_id op → lookupOp ir id = Some o →
         ∃ o', lookupOp run.2 id = Some o'
               ∧ o' = withOperands o (op_operands o')
               ∧ (∀ k i x,
                    getOperands o !! k = Some (OpResult (op_id op) i) →
                    l !! i = Some x →
                    ∃ j, unseen [] l !! j = Some x
                         ∧ getOperands o' !! k = Some (OpResult new j))
               ∧ (∀ k v,
                    getOperands o !! k = Some v →
                    getDefiningOp v ≠ Some (op_id op) →
                    getOperands o' !! k = Some v)).
Proof.
  intros Hop Hsizes Htypes Hacyclic. simpl.
  set (l := TimepointAwaitOp.operands op) in *.
  set (items := zip l (zip (TimepointAwaitOp.operand_sizes op)
                         (zip (getResults op) (op_result_types op)))).
  set (st := foldl dedupStep (mkDedupState [] [] [] [] []) items).
  assert (length (getResults op) = length l) as Hres.
  { rewrite getResults_seq, length_fmap, length_seq. done. }
  assert (items.*1 = l) as Hfst.
  { apply fst_zip. rewrite !length_zip. lia. }
  destruct (dedup_loop items (mkDedupState [] [] [] [] []))
    as (Hops & Hszs & Htys & Hrepl).
  { intros v. done. }
  simpl in Hops, Hszs, Htys, Hrepl. fold st in Hops, Hszs, Htys, Hrepl.
  assert (newOperands st = unseen [] l) as HnewOps.
  { by rewrite Hops, dedupItems_fst, Hfst. }
  rewrite HnewOps in Hrepl.
  set (newOp := TimepointAwaitOp.build (freshId ir) (op_block op)
                  (newResultTypes st) (unseen [] l) (newOperandSizes st)
                  (TimepointAwaitOp.timepoint op) (op_affinity op)).
  set (pairs := (fun it : Value * (Value * (Value * Ty)) =>
                   (it.2.2.1,
                    OpResult (freshId ir) (firstIndex it.1 (unseen [] l))))
                  <$> items).
  assert (FoldDuplicateAwaitResources ir op
          = if decide (length (unseen [] l) = length l) then (failure, ir)
            else (success,
                  eraseOp (mapOperands (applySubs pairs)
                             (insertBefore ir (op_id op) newOp))
                          (op_id op))) as ->.
  { unfold FoldDuplicateAwaitResources. fold l items st. rewrite HnewOps.
    case_decide; [done|]. rewrite replaceAllUsesWith_foldl. simpl.
    rewrite Hrepl, <- list_fmap_compose. done. }
  destruct (decide (length (unseen [] l) = length l)) as [Hlen|Hlen]; simpl.
  { split; [split; [intros _; by apply unseen_length_NoDup | done]|].
    split; [done|]. intros [=]. }
  split.
  { split; [done|]. intros Hnd. exfalso. by apply Hlen, unseen_length_NoDup. }
  split; [done|]. intros _.
  assert (pairs.*1 = (fun k => OpResult (op_id op) k) <$> seq 0 (length l))
    as Hpairs1.
  { unfold pairs. rewrite <- list_fmap_compose.
    rewrite <- Htypes, <- getResults_seq.
    change (fst ∘ _) with ((fst ∘ snd ∘ snd)
      : Value * (Value * (Value * Ty)) → Value).
    rewrite !list_fmap_compose. unfold items.
    rewrite snd_zip by (rewrite !length_zip; lia).
    rewrite snd_zip by (rewrite !length_zip; lia).
    apply fst_zip. lia. }
  assert (op_id op ≠ freshId ir) as Hfresh.
  { intros Heq. pose proof (lookupOp_freshId ir) as Hf.
    rewrite <- Heq in Hf. congruence. }
  assert (∀ v, applySubs pairs v = reroute pairs v) as Hsubs.
  { intros v. apply applySubs_reroute. intros p Hp. rewrite Hpairs1.
    apply not_elem_of_results. unfold pairs in Hp.
    apply list_elem_of_fmap in Hp as (it & -> & _). simpl. congruence. }
  rewrite (mapOperands_ext _ _ _ Hsubs).
  assert (∀ v, getDefiningOp v ≠ Some (op_id op) → reroute pairs v = v)
    as Hother.
  { intros v Hv. apply reroute_not_elem_of. rewrite Hpairs1.
    by apply not_elem_of_results. }
  assert (∀ i x, l !! i = Some x →
            reroute pairs (OpResult (op_id op) i)
            = OpResult (freshId ir) (firstIndex x (unseen [] l))) as Hrouted.
  { intros i x Hi. apply reroute_elem_of.
    - rewrite Hpairs1. apply NoDup_results.
    - destruct (lookup_lt_is_Some_2 (TimepointAwaitOp.operand_sizes op) i)
        as [s Hs].
      { rewrite Hsizes. by eapply lookup_lt_Some. }
      destruct (lookup_lt_is_Some_2 (op_result_types op) i) as [t Ht].
      { rewrite Htypes. by eapply lookup_lt_Some. }
      unfold pairs. apply list_elem_of_fmap.
      exists (x, (s, (OpResult (op_id op) i, t))). split; [done|].
      apply (list_elem_of_lookup_2 _ i). unfold items.
      by apply dedup_items_lookup. }
  assert (op_id op ∈ op_id <$> ir) as Hin by (apply lookupOp_is_Some; eauto).
  split; [apply lookupOp_eraseOp_eq|]. split.
  - rewrite lookupOp_eraseOp, decide_False by done.
    rewrite lookupOp_mapOperands, lookupOp_insertBefore;
      [|done|apply freshId_not_elem_of].
    rewrite decide_True by done. cbn [fmap option_fmap option_map].
    assert (fmap (M:=list) (reroute pairs) <$> op_operands newOp
            = op_operands newOp) as ->.
    { unfold newOp, TimepointAwaitOp.build. simpl.
      rewrite !fmap_id_on.
      - by rewrite Hother by (by apply timepoint_not_own_result).
      - intros v Hv. apply Hother, Hacyclic. rewrite Hszs in Hv.
        apply list_elem_of_fmap in Hv as (it & -> & Hit).
        apply elem_of_dedupItems, list_elem_of_lookup_1 in Hit as [i Hi].
        apply dedup_items_lookup in Hi as (_ & Hs & _); [|done..].
        apply (elem_of_getODSOperands op 1).
        by eapply list_elem_of_lookup_2.
      - intros v Hv. apply Hother, Hacyclic.
        apply elem_of_unseen in Hv as [Hv _].
        by apply (elem_of_getODSOperands op 0). }
    rewrite withOperands_id. exists newOp. split; [done|].
    split; [done|]. split; [done|]. split; [done|]. split; [done|].
    split; [done|]. split; [done|].
    intros j x Hj. rewrite <- HnewOps, Hops in Hj.
    apply list_lookup_fmap_Some in Hj as (it & -> & Hit).
    pose proof (list_elem_of_lookup_2 _ _ _ Hit) as Hin_it.
    apply elem_of_dedupItems, list_elem_of_lookup_1 in Hin_it as [i Hi].
    apply dedup_items_lookup in Hi as (Hx & Hs & _ & Ht); [|done..].
    exists i. split; [done|]. split.
    + unfold newOp, TimepointAwaitOp.operand_sizes at 1, getODSOperands.
      simpl. rewrite Hszs, list_lookup_fmap, Hit. simpl. by rewrite Hs.
    + unfold newOp. simpl. rewrite Htys, list_lookup_fmap, Hit. simpl.
      by rewrite Ht.
  - intros id o Hid Hl.
    assert (id ≠ freshId ir) as Hidnew.
    { intros ->. by rewrite lookupOp_freshId in Hl. }
    rewrite lookupOp_eraseOp, decide_False by done.
    destruct (getOperands_mapOperands_lookup (reroute pairs)
                (insertBefore ir (op_id op) newOp) id o)
      as (o' & Hl' & Hfields & Hoperands).
    { rewrite lookupOp_insertBefore; [|done|apply freshId_not_elem_of].
      by rewrite decide_False. }
    exists o'. split; [done|]. split; [done|]. rewrite Hoperands. split.
    + intros k i x Hk Hi. exists (firstIndex x (unseen [] l)). split.
      * apply firstIndex_lookup, elem_of_unseen.
        split; [by eapply list_elem_of_lookup_2 | apply not_elem_of_nil].
      * rewrite list_lookup_fmap, Hk. simpl. f_equal. by apply Hrouted.
    + intros k v Hk Hv. rewrite list_lookup_fmap, Hk. simpl. f_equal.
      by apply Hother.
Qed.

Lemma FoldDuplicateAwaitResources_spec_witness :
  (FoldDuplicateAwaitResources duplicateAwaitIR duplicateAwaitOp).1 = success
  ∧ lookupOp (FoldDuplicateAwaitResources duplicateAwaitIR
                duplicateAwaitOp).2 3 = None.
Proof.
  destruct (FoldDuplicateAwaitResources_spec duplicateAwaitIR
              duplicateAwaitOp) as (_ & _ & Hrun).
  - reflexivity.
  - reflexivity.
  - reflexivity.
  - intros v Hv. vm_compute in Hv.
    repeat (apply elem_of_cons in Hv as [->|Hv]; [discriminate|]).
    by apply elem_of_nil in Hv.
  - split; [reflexivity|]. apply (Hrun eq_refl).
Defined.

Example FoldDuplicateAwaitResources_example :
  FoldDuplicateAwaitResources duplicateAwaitIR duplicateAwaitOp
  = (success,
     [mkOp 1 other_op 0 [] [ResourceType Transient] [] None;
      mkOp 2 other_op 0 [] [ResourceType External] [] None;
      TimepointAwaitOp.build 5 0 [ResourceType Transient; ResourceType External]
        [OpResult 1 0; OpResult 2 0] [BlockArgument 0 0; BlockArgument 0 1]
        (BlockArgument 0 2) None;
      mkOp 4 other_op 0 [[OpResult 5 0; OpResult 5 0; OpResult 5 1]] [] []
           None]).
Proof. vm_compute. reflexivity. Qed.

(** ** Splitting the IR at an operation *)

Lemma ir_split ir o :
  NoDup (op_id <$> ir) → o ∈ ir →
  ∃ l1 l2, ir = l1 ++ o :: l2
           ∧ op_id o ∉ op_id <$> l1 ∧ op_id o ∉ op_id <$> l2.
Proof.
  intros Hnd Hin. apply list_elem_of_split in Hin as (l1 & l2 & ->).
  exists l1, l2. split; [done|]. rewrite fmap_app in Hnd. csimpl in Hnd.
  apply NoDup_app in Hnd as (_ & Hdisj & Hnd2).
  apply NoDup_cons in Hnd2 as [Hnot2 _].
  split; [|done]. intros Hin1. apply (Hdisj _ Hin1). left.
Qed.

Lemma NoDup_eraseOp ir id :
  NoDup (op_id <$> ir) → NoDup (op_id <$> eraseOp ir id).
Proof.
  unfold eraseOp. induction ir as [|o ir IH]; csimpl; [done|].
  intros [Hx Hnd]%NoDup_cons. rewrite filter_cons.
  case_decide; csimpl; [|by apply IH].
  apply NoDup_cons. split; [|by apply IH].
  intros Hin. apply Hx. apply list_elem_of_fmap in Hin as (o' & -> & Ho).
  apply list_elem_of_filter in Ho as [_ Ho]. by apply list_elem_of_fmap_2.
Qed.

Lemma not_elem_of_ids_eraseOp ir id : id ∉ op_id <$> eraseOp ir id.
Proof.
  intros Hin. apply list_elem_of_fmap in Hin as (o & -> & Ho).
  by apply elem_of_eraseOp in Ho as [? _].
Qed.

Lemma insertBefore_split l1 t l2 new :
  op_id t ∉ op_id <$> l1 →
  insertBefore (l1 ++ t :: l2) (op_id t) new = l1 ++ new :: t :: l2.
Proof.
  induction l1 as [|x l1 IH]; csimpl; intros Hn.
  - by rewrite decide_True.
  - apply not_elem_of_cons in Hn as [Hne Hn].
    rewrite decide_False by done. f_equal. by apply IH.
Qed.

(** [moveBefore] in closed form: the op leaves its place and stands right
    in front of the target, in the target's block. *)
Lemma moveBefore_closed ir op targetOp :
  NoDup (op_id <$> ir) → targetOp ∈ ir → op_id op ≠ op_id targetOp →
  ∃ l1 l2,
    eraseOp ir (op_id op) = l1 ++ targetOp :: l2
    ∧ op_id targetOp ∉ op_id <$> l1 ∧ op_id targetOp ∉ op_id <$> l2
    ∧ op_id op ∉ op_id <$> l1 ∧ op_id op ∉ op_id <$> l2
    ∧ moveBefore ir op targetOp
      = l1 ++ withBlock op (op_block targetOp) :: targetOp :: l2.
Proof.
  intros Hnd Ht Hne.
  assert (targetOp ∈ eraseOp ir (op_id op)) as Ht'
    by (apply elem_of_eraseOp; split; [congruence | done]).
  destruct (ir_split _ _ (NoDup_eraseOp ir (op_id op) Hnd) Ht')
    as (l1 & l2 & Heq & H1 & H2).
  pose proof (not_elem_of_ids_eraseOp ir (op_id op)) as Hgone.
  rewrite Heq, fmap_app in Hgone. csimpl in Hgone.
  rewrite elem_of_app, elem_of_cons in Hgone.
  exists l1, l2. split; [done|]. split; [done|]. split; [done|].
  split; [naive_solver|]. split; [naive_solver|].
  unfold moveBefore. rewrite Heq. by apply insertBefore_split.
Qed.

Lemma sinkOp_Some ir op targetOp res out :
  sinkOp ir op targetOp = Some (res, out) →
  (res = failure ∧ out = ir)
  ∨ (res = success ∧ out = moveBefore ir op targetOp).
Proof.
  unfold sinkOp. destruct (findInsertionPointBefore ir op targetOp) as [ip|];
    simpl; [|done].
  case_decide; intros [= <- <-]; eauto.
Qed.

(** *** Positions *)

Lemma opIndex_None l id : opIndex l id = None ↔ id ∉ op_id <$> l.
Proof.
  induction l as [|o l IH]; csimpl.
  - split; [intros _; apply not_elem_of_nil | done].
  - case_decide as Ho.
    + split; [done|]. intros Hn. exfalso. apply Hn. rewrite Ho. left.
    + rewrite not_elem_of_cons. destruct (opIndex l id); simpl.
      * split; [done|]. intros [_ Hn]. by apply IH in Hn.
      * split; [|done]. intros _. split; [congruence | by apply IH].
Qed.

Lemma opIndex_lt l id i : opIndex l id = Some i → i < length l.
Proof.
  revert i. induction l as [|o l IH]; intros i; simpl; [done|].
  case_decide; [intros [= <-]; lia|].
  destruct (opIndex l id) as [j|]; simpl; [|done].
  intros [= <-]. specialize (IH j eq_refl). lia.
Qed.

Lemma opIndex_app l1 l2 id :
  opIndex (l1 ++ l2) id
  = match opIndex l1 id with
    | Some i => Some i
    | None => (fun j => length l1 + j) <$> opIndex l2 id
    end.
Proof.
  induction l1 as [|o l1 IH]; simpl.
  - by destruct (opIndex l2 id).
  - case_decide; [done|]. rewrite IH.
    destruct (opIndex l1 id); simpl; [done|].
    by destruct (opIndex l2 id).
Qed.

Lemma opIndex_middle l1 o l2 :
  op_id o ∉ op_id <$> l1 →
  opIndex (l1 ++ o :: l2) (op_id o) = Some (length l1).
Proof.
  intros Hn. rewrite opIndex_app, (proj2 (opIndex_None _ _) Hn). simpl.
  rewrite decide_True by done. simpl. f_equal. lia.
Qed.

Lemma isBefore_split ir a b :
  NoDup (op_id <$> ir) → a ∈ ir → b ∈ ir →
  isBeforeInBlock ir (op_id a) (op_id b) = true →
  ∃ l1 l2 l3, ir = l1 ++ a :: l2 ++ b :: l3.
Proof.
  intros Hnd Ha Hb Hbefore.
  destruct (ir_split ir a Hnd Ha) as (l1 & r & -> & Ha1 & Ha2).
  unfold isBeforeInBlock in Hbefore. rewrite opIndex_middle in Hbefore by done.
  apply elem_of_app in Hb as [Hb|Hb].
  - exfalso. rewrite opIndex_app in Hbefore.
    destruct (opIndex l1 (op_id b)) as [j|] eqn:Hj.
    + apply opIndex_lt in Hj. apply bool_decide_eq_true in Hbefore. lia.
    + apply opIndex_None in Hj. apply Hj. by apply list_elem_of_fmap_2.
  - apply elem_of_cons in Hb as [->|Hb].
    + exfalso. rewrite opIndex_middle in Hbefore by done.
      apply bool_decide_eq_true in Hbefore. lia.
    + apply list_elem_of_split in Hb as (l2 & l3 & ->). by exists l1, l2, l3.
Qed.

Lemma isBefore_of_split l1 a l2 b l3 :
  op_id a ∉ op_id <$> l1 → op_id b ∉ op_id <$> l1 → op_id b ≠ op_id a →
  op_id b ∉ op_id <$> l2 →
  isBeforeInBlock (l1 ++ a :: l2 ++ b :: l3) (op_id a) (op_id b) = true.
Proof.
  intros Ha1 Hb1 Hba Hb2. unfold isBeforeInBlock.
  rewrite opIndex_middle by done.
  rewrite opIndex_app, (proj2 (opIndex_None _ _) Hb1). simpl.
  rewrite decide_False by congruence.
  rewrite opIndex_middle by done. simpl.
  apply bool_decide_eq_true. lia.
Qed.

(** *** The range walked by findInsertionPointBefore *)

Lemma not_elem_of_ids_filter (P : Operation → Prop)
    `{!∀ o, Decision (P o)} (l : IR) (id : OpId) :
  id ∉ op_id <$> l → id ∉ op_id <$> filter P l.
Proof.
  intros Hn Hin. apply Hn. apply list_elem_of_fmap in Hin as (o & -> & Ho).
  apply list_elem_of_filter in Ho as [_ Ho]. by apply list_elem_of_fmap_2.
Qed.

Lemma opsFrom_split l1 o l2 :
  op_id o ∉ op_id <$> l1 → opsFrom (l1 ++ o :: l2) (op_id o) = Some (o :: l2).
Proof.
  induction l1 as [|x l1 IH]; csimpl; intros Hn.
  - by rewrite decide_True.
  - apply not_elem_of_cons in Hn as [Hne Hn].
    rewrite decide_False by done. by apply IH.
Qed.

Lemma opsUntil_split l1 o l2 :
  op_id o ∉ op_id <$> l1 → opsUntil (l1 ++ o :: l2) (op_id o) = Some l1.
Proof.
  induction l1 as [|x l1 IH]; csimpl; intros Hn.
  - by rewrite decide_True.
  - apply not_elem_of_cons in Hn as [Hne Hn].
    rewrite decide_False by done. by rewrite IH.
Qed.

Lemma opsBetween_split l1 op l2 targetOp l3 :
  op_id op ∉ op_id <$> l1 → op_id targetOp ≠ op_id op →
  op_id targetOp ∉ op_id <$> l2 →
  op_block op = op_block targetOp →
  opsBetween (l1 ++ op :: l2 ++ targetOp :: l3) op targetOp
  = Some (op :: blockOps l2 (op_block op)).
Proof.
  intros H1 Hne H2 Hblock. unfold opsBetween, blockOps.
  rewrite filter_app, filter_cons, decide_True by done.
  rewrite filter_app, filter_cons, decide_True by done.
  rewrite opsFrom_split by (by apply not_elem_of_ids_filter).
  simpl. rewrite decide_False by congruence.
  by rewrite opsUntil_split by (by apply not_elem_of_ids_filter).
Qed.

Lemma withBlock_same op : withBlock op (op_block op) = op.
Proof. by destruct op. Qed.

(** ** sinkOp *)

(** X13: within one block, or towards another block, [sinkOp] is defined
    whenever the op stands in front of the target or in another block.
    When it reports failure the IR is what it was.  When it reports success
    the op has left its place and stands immediately in front of the
    target, in the target's block, with all its other fields; every other
    operation is what it was, and the other operations are in the order
    they were in. *)
Theorem sinkOp_spec ir op targetOp :
  NoDup (op_id <$> ir) → op ∈ ir → targetOp ∈ ir →
  op_id op ≠ op_id targetOp →
  ((op_block op ≠ op_block targetOp
    ∨ isBeforeInBlock ir (op_id op) (op_id targetOp) = true) →
   is_Some (sinkOp ir op targetOp))
  ∧ ∀ res out, sinkOp ir op targetOp = Some (res, out) →
      (res = failure ∧ out = ir)
      ∨ (res = success
         ∧ ∃ l1 l2,
             eraseOp ir (op_id op) = l1 ++ targetOp :: l2
             ∧ out = l1 ++ withBlock op (op_block targetOp)
                        :: targetOp :: l2).
Proof.
  intros Hnd Hop Ht Hne. split.
  - intros [Hblock|Hbefore].
    + rewrite sinkOp_other_block by done. eauto.
    + destruct (decide (op_block op = op_block targetOp)) as [Hblock|Hblock].
      2: { rewrite sinkOp_other_block by done. eauto. }
      destruct (isBefore_split ir op targetOp Hnd Hop Ht Hbefore)
        as (l1 & l2 & l3 & ->).
      rewrite fmap_app in Hnd. csimpl in Hnd. rewrite fmap_app in Hnd.
      csimpl in Hnd.
      apply NoDup_app in Hnd as (_ & Hd1 & Hnd).
      apply NoDup_cons in Hnd as [Hop2 Hnd].
      apply NoDup_app in Hnd as (_ & Hd2 & _).
      erewrite sinkOp_same_block; [eauto|done| |done].
      apply opsBetween_split; [|congruence| |done].
      * intros Hin. apply (Hd1 _ Hin). left.
      * intros Hin. apply (Hd2 _ Hin). left.
  - intros res out Hsink.
    apply sinkOp_Some in Hsink as [[-> ->]|[-> ->]]; [by left|]. right.
    split; [done|].
    destruct (moveBefore_closed ir op targetOp Hnd Ht Hne)
      as (l1 & l2 & Heq & _ & _ & _ & _ & Hmove).
    by exists l1, l2.
Qed.

Lemma sinkOp_spec_witness :
  is_Some (sinkOp hoppingSplatIR sunkSplatOp hoppingTerminatorOp).
Proof.
  apply (sinkOp_spec hoppingSplatIR sunkSplatOp hoppingTerminatorOp).
  - by_compute.
  - by_compute.
  - by_compute.
  - discriminate.
  - right. reflexivity.
Defined.

(** X14: sinking does not oscillate.  Once [sinkOp] has moved an op in
    front of a target that consumes one of its results, a second call on
    the moved op and the same target finds the op in place: it reports
    failure and leaves the IR as it is. *)
Theorem sinkOp_no_oscillation ir op targetOp out :
  NoDup (op_id <$> ir) → targetOp ∈ ir →
  op_id op ≠ op_id targetOp →
  op_id op ∈ producerOps targetOp →
  sinkOp ir op targetOp = Some (success, out) →
  lookupOp out (op_id op) = Some (withBlock op (op_block targetOp))
  ∧ sinkOp out (withBlock op (op_block targetOp)) targetOp
    = Some (failure, out).
Proof.
  intros Hnd Ht Hne Hprod Hsink.
  apply sinkOp_Some in Hsink as [[[=] _]|[_ ->]].
  destruct (moveBefore_closed ir op targetOp Hnd Ht Hne)
    as (l1 & l2 & _ & Ht1 & _ & Hop1 & _ & ->).
  set (op' := withBlock op (op_block targetOp)).
  assert (lookupOp (l1 ++ op' :: targetOp :: l2) (op_id op) = Some op') as Hl.
  { clear -Hop1. induction l1 as [|x l1 IH]; csimpl in *.
    - by rewrite decide_True.
    - apply not_elem_of_cons in Hop1 as [Hne Hop1].
      rewrite decide_False by done. by apply IH. }
  split; [done|].
  rewrite (sinkOp_same_block _ _ _ [op']); [|done| |done].
  - simpl. by rewrite bool_decide_eq_true_2.
  - apply (opsBetween_split l1 op' [] targetOp l2); [done|done| |done].
    apply not_elem_of_nil.
Qed.

Lemma sinkOp_no_oscillation_witness :
  ∃ out,
    sinkOp groupIR (mkOp 2 other_op 0 [] [ResourceType External] [] None)
      groupRootOp = Some (success, out)
    ∧ sinkOp out (mkOp 2 other_op 0 [] [ResourceType External] [] None)
        groupRootOp = Some (failure, out).
Proof.
  eexists. split; [vm_compute; reflexivity|].
  apply (sinkOp_no_oscillation groupIR
           (mkOp 2 other_op 0 [] [ResourceType External] [] None)
           groupRootOp).
  - by_compute.
  - by_compute.
  - discriminate.
  - by_compute.
  - vm_compute. reflexivity.
Defined.

(** ** SinkSplatsToConsumers *)

Lemma elem_of_getUsers ir v u :
  u ∈ getUsers ir v ↔ u ∈ ir ∧ v ∈ getOperands u.
Proof.
  unfold getUsers, usersInProgramOrder.
  rewrite elem_of_reverse, list_elem_of_bind. split.
  - intros (o & Hu & Hin). apply list_elem_of_fmap in Hu as (use & -> & Huse).
    split; [done|]. apply elem_of_usesIn in Huse as (k & _ & Hk).
    by eapply list_elem_of_lookup_2.
  - intros [Hin Hv]. exists u. split; [|done].
    apply list_elem_of_lookup_1 in Hv as [k Hk].
    apply list_elem_of_fmap. exists (op_id u, 0 + k). split; [done|].
    apply elem_of_usesIn. by exists k.
Qed.

Lemma getOpUsers_single ir op :
  length (op_result_types op) = 1 →
  getOpUsers ir op = getUsers ir (OpResult (op_id op) 0).
Proof.
  intros Hres. unfold getOpUsers. rewrite getResults_single by done.
  csimpl. by rewrite app_nil_r.
Qed.

Lemma elem_of_producerOps targetOp id i :
  OpResult id i ∈ getOperands targetOp → id ∈ producerOps targetOp.
Proof.
  intros Hin. unfold producerOps. apply list_elem_of_omap.
  by exists (OpResult id i).
Qed.

Lemma opIndex_elem_of ir o : o ∈ ir → is_Some (opIndex ir (op_id o)).
Proof.
  intros Hin. destruct (opIndex ir (op_id o)) eqn:Hi; [by eauto|].
  apply opIndex_None in Hi. exfalso. apply Hi. by apply list_elem_of_fmap_2.
Qed.

(** The loop over the users keeps the earliest one. *)
Lemma earlierUser_foldl ir users t0 :
  (∀ u, u ∈ t0 :: users → u ∈ ir) →
  ∃ t, foldl (earlierUser ir) (Some t0) users = Some t
       ∧ t ∈ t0 :: users
       ∧ ∀ u, u ∈ t0 :: users →
              isBeforeInBlock ir (op_id u) (op_id t) = false.
Proof.
  revert t0. induction users as [|u users IH]; intros t0 Hin; simpl.
  - exists t0. split; [done|]. split; [left|].
    intros u Hu. apply list_elem_of_singleton in Hu as ->.
    unfold isBeforeInBlock. destruct (opIndex ir (op_id t0)); [|done].
    apply bool_decide_eq_false. lia.
  - destruct (opIndex_elem_of ir t0) as [i0 Hi0]; [apply Hin; left|].
    destruct (opIndex_elem_of ir u) as [iu Hiu]; [apply Hin; right; left|].
    destruct (isBeforeInBlock ir (op_id u) (op_id t0)) eqn:Hbefore.
    + destruct (IH u) as (t & Hfold & Ht & Hmin).
      { intros x Hx. apply Hin. right. done. }
      exists t. split; [done|]. split; [by right|].
      intros x Hx. apply elem_of_cons in Hx as [->|Hx]; [|by apply Hmin].
      specialize (Hmin u ltac:(left)).
      unfold isBeforeInBlock in *. rewrite Hiu, Hi0 in *.
      destruct (opIndex ir (op_id t)) as [it|]; [|done].
      apply bool_decide_eq_true in Hbefore.
      apply bool_decide_eq_false in Hmin. apply bool_decide_eq_false. lia.
    + destruct (IH t0) as (t & Hfold & Ht & Hmin).
      { intros x Hx. apply Hin.
        apply elem_of_cons in Hx as [->|Hx]; [left | by do 2 right]. }
      exists t. split; [done|]. split.
      { apply elem_of_cons in Ht as [->|Ht]; [left | by do 2 right]. }
      intros x Hx.
      apply elem_of_cons in Hx as [->|Hx]; [by apply Hmin; left|].
      apply elem_of_cons in Hx as [->|Hx]; [|by apply Hmin; right].
      specialize (Hmin t0 ltac:(left)).
      unfold isBeforeInBlock in *. rewrite Hiu, Hi0 in *.
      destruct (opIndex ir (op_id t)) as [it|]; [|done].
      apply bool_decide_eq_false in Hbefore.
      apply bool_decide_eq_false in Hmin. apply bool_decide_eq_false. lia.
Qed.

Lemma split_unique (l1 l1' l2 l2' : IR) x :
  l1 ++ x :: l2 = l1' ++ x :: l2' →
  op_id x ∉ op_id <$> l1 → op_id x ∉ op_id <$> l1' →
  l1 = l1' ∧ l2 = l2'.
Proof.
  revert l1'. induction l1 as [|y l1 IH]; intros [|y' l1']; csimpl;
    intros Heq H1 H1'.
  - by injection Heq as ->.
  - injection Heq as -> _. exfalso. apply H1'. left.
  - injection Heq as -> _. exfalso. apply H1. left.
  - injection Heq as -> Heq.
    apply not_elem_of_cons in H1 as [_ H1].
    apply not_elem_of_cons in H1' as [_ H1'].
    destruct (IH l1' Heq H1 H1') as [-> ->]. done.
Qed.

Lemma eraseOp_app l1 l2 id : eraseOp (l1 ++ l2) id = eraseOp l1 id ++ eraseOp l2 id.
Proof. unfold eraseOp. apply filter_app. Qed.

Lemma eraseOp_cons_ne o l id :
  op_id o ≠ id → eraseOp (o :: l) id = o :: eraseOp l id.
Proof. intros Hne. unfold eraseOp. by rewrite filter_cons, decide_True. Qed.

(** After the move the op stands in front of every op that stood behind
    the target, and in front of the target. *)
Lemma moveBefore_precedes ir op targetOp u :
  NoDup (op_id <$> ir) → targetOp ∈ ir → u ∈ ir →
  op_id op ≠ op_id targetOp → op_id op ≠ op_id u →
  isBeforeInBlock ir (op_id u) (op_id targetOp) = false →
  isBeforeInBlock (moveBefore ir op targetOp) (op_id op) (op_id u) = true.
Proof.
  intros Hnd Ht Hu Hne Hneu Hnot.
  destruct (moveBefore_closed ir op targetOp Hnd Ht Hne)
    as (l1 & l2 & Heq & Ht1 & Ht2 & Hop1 & Hop2 & ->).
  destruct (opIndex_elem_of ir u Hu) as [iu Hiu].
  destruct (opIndex_elem_of ir targetOp Ht) as [it Hit].
  apply (isBeforeInBlock_false ir _ _ iu it Hiu Hit) in Hnot
    as [Hbefore|Hsame].
  - destruct (isBefore_split ir targetOp u Hnd Ht Hu Hbefore)
      as (a & b & c & ->).
    rewrite fmap_app in Hnd. csimpl in Hnd. rewrite fmap_app in Hnd.
    csimpl in Hnd.
    apply NoDup_app in Hnd as (_ & Hda & Hnd).
    apply NoDup_cons in Hnd as [Htb Hnd].
    apply NoDup_app in Hnd as (_ & Hdb & Hnd).
    apply NoDup_cons in Hnd as [Hub _].
    rewrite elem_of_app, elem_of_cons in Htb.
    rewrite eraseOp_app, eraseOp_cons_ne, eraseOp_app, eraseOp_cons_ne in Heq
      by congruence.
    apply split_unique in Heq as [<- <-]; [| |done].
    2: { apply not_elem_of_ids_filter. intros Hin. apply (Hda _ Hin). left. }
    apply (isBefore_of_split (eraseOp a (op_id op))
             (withBlock op (op_block targetOp))
             (targetOp :: eraseOp b (op_id op)) u).
    + done.
    + apply not_elem_of_ids_filter. intros Hin. apply (Hda _ Hin).
      right. apply elem_of_app. right. left.
    + simpl. congruence.
    + csimpl. apply not_elem_of_cons. split; [naive_solver|].
      apply not_elem_of_ids_filter. intros Hin. apply (Hdb _ Hin). left.
  - assert (u = targetOp) as ->.
    { pose proof (lookupOp_elem_of ir u Hnd Hu) as H1.
      pose proof (lookupOp_elem_of ir targetOp Hnd Ht) as H2.
      rewrite Hsame in H2. congruence. }
    apply (isBefore_of_split l1 (withBlock op (op_block targetOp)) []
             targetOp);
      [done|done|simpl; congruence|apply not_elem_of_nil].
Qed.

Lemma existsb_false {A} (f : A → bool) (l : list A) :
  (∀ x, x ∈ l → f x = false) → existsb f l = false.
Proof.
  induction l as [|x l IH]; intros Hall; simpl; [done|].
  rewrite Hall by left. simpl. apply IH. intros y Hy. apply Hall. by right.
Qed.

Lemma isBefore_irrefl ir a : isBeforeInBlock ir a a = false.
Proof.
  unfold isBeforeInBlock. destruct (opIndex ir a); [|done].
  apply bool_decide_eq_false. lia.
Qed.

(** Sinking an op to the earliest of its users, all of them behind it in
    its block. *)
Lemma sinkOp_to_first_user ir op first (users : list Operation) :
  NoDup (op_id <$> ir) → op ∈ ir →
  (∀ u, u ∈ users →
        u ∈ ir ∧ op_block u = op_block op
        ∧ isBeforeInBlock ir (op_id op) (op_id u) = true) →
  first ∈ users →
  op_id op ∈ producerOps first →
  (∀ u, u ∈ users → isBeforeInBlock ir (op_id u) (op_id first) = false) →
  ∃ res out,
    sinkOp ir op first = Some (res, out)
    ∧ (res = failure ↔ strictlyBetweenAllProduce ir op first = true)
    ∧ (res = failure → out = ir)
    ∧ (res = success →
       ∃ l1 l2, eraseOp ir (op_id op) = l1 ++ first :: l2
                ∧ out = l1 ++ op :: first :: l2)
    ∧ ∀ u, u ∈ users → isBeforeInBlock out (op_id op) (op_id u) = true.
Proof.
  intros Hnd Hop Husers Hfirst Hprod Hmin.
  destruct (Husers first Hfirst) as (Hfin & Hblock & Hbefore).
  assert (∀ u, u ∈ users → op_id op ≠ op_id u) as Hids.
  { intros u Hu Heq. destruct (Husers u Hu) as (_ & _ & Hb).
    rewrite Heq, isBefore_irrefl in Hb. done. }
  destruct (isBefore_split ir op first Hnd Hop Hfin Hbefore)
    as (a & b & c & Hir).
  assert (opsBetween ir op first = Some (op :: blockOps b (op_block op)))
    as Hrange.
  { rewrite Hir in Hnd |- *.
    rewrite fmap_app in Hnd. csimpl in Hnd. rewrite fmap_app in Hnd.
    csimpl in Hnd.
    apply NoDup_app in Hnd as (_ & Hd1 & Hnd).
    apply NoDup_cons in Hnd as [Hop2 Hnd].
    apply NoDup_app in Hnd as (_ & Hd2 & _).
    apply opsBetween_split; [| | |done].
    - intros Hin. apply (Hd1 _ Hin). left.
    - intros Heq. by apply (Hids first).
    - intros Hin. apply (Hd2 _ Hin). left. }
  rewrite (sinkOp_to_consumer ir op first _ (eq_sym Hblock) Hrange)
    by (by apply Hids || done).
  destruct (strictlyBetweenAllProduce ir op first) eqn:Hstrict.
  - exists failure, ir. split; [done|]. split; [done|]. split; [done|].
    split; [intros [=]|]. intros u Hu. by apply Husers.
  - exists success, (moveBefore ir op first). split; [done|].
    split; [done|]. split; [intros [=]|].
    split.
    + intros _.
      destruct (moveBefore_closed ir op first Hnd Hfin (Hids _ Hfirst))
        as (l1 & l2 & Heq & _ & _ & _ & _ & Hmove).
      exists l1, l2. split; [done|]. rewrite Hmove, Hblock.
      by rewrite withBlock_same.
    + intros u Hu. destruct (Husers u Hu) as (Huin & _ & _).
      apply moveBefore_precedes; try done.
      * by apply Hids.
      * by apply Hids.
      * by apply Hmin.
Qed.

(** X15: a splat without users is left alone.  When all its users stand
    behind it in its own block, the pattern sinks it to the earliest user:
    it fails, leaving the IR as it is, exactly when every op strictly
    between the splat and that user produces an operand of the user;
    otherwise the splat moves immediately in front of that user and the
    other ops keep their order.  Either way the splat still stands in
    front of every one of its users afterwards. *)
Theorem SinkSplatsToConsumers_same_block
    (findNearestCommonDominator : BlockId → BlockId → BlockId)
    ir splatOp :
  NoDup (op_id <$> ir) → splatOp ∈ ir →
  length (op_result_types splatOp) = 1 →
  (∀ u, u ∈ getOpUsers ir splatOp →
        op_block u = op_block splatOp
        ∧ isBeforeInBlock ir (op_id splatOp) (op_id u) = true) →
  (getOpUsers ir splatOp = [] →
   SinkSplatsToConsumers findNearestCommonDominator ir splatOp
   = Some (failure, ir))
  ∧ (getOpUsers ir splatOp ≠ [] →
     ∃ first res out,
       first ∈ getOpUsers ir splatOp
       ∧ (∀ u, u ∈ getOpUsers ir splatOp →
               isBeforeInBlock ir (op_id u) (op_id first) = false)
       ∧ SinkSplatsToConsumers findNearestCommonDominator ir splatOp
         = Some (res, out)
       ∧ (res = failure ↔ strictlyBetweenAllProduce ir splatOp first = true)
       ∧ (res = failure → out = ir)
       ∧ (res = success →
          ∃ l1 l2, eraseOp ir (op_id splatOp) = l1 ++ first :: l2
                   ∧ out = l1 ++ splatOp :: first :: l2)
       ∧ ∀ u, u ∈ getOpUsers ir splatOp →
              isBeforeInBlock out (op_id splatOp) (op_id u) = true).
Proof.
  intros Hnd Hop Hres Husers. split.
  { intros Hnil. unfold SinkSplatsToConsumers. by rewrite Hnil. }
  intros Hne.
  assert (∀ u, u ∈ getOpUsers ir splatOp →
            u ∈ ir ∧ op_id splatOp ∈ producerOps u) as Huse.
  { intros u Hu. rewrite getOpUsers_single in Hu by done.
    apply elem_of_getUsers in Hu as [Hin Hv]. split; [done|].
    by eapply elem_of_producerOps. }
  assert (∀ u, u ∈ getOpUsers ir splatOp →
            u ∈ ir ∧ op_block u = op_block splatOp
            ∧ isBeforeInBlock ir (op_id splatOp) (op_id u) = true) as Hall.
  { intros u Hu. destruct (Husers u Hu), (Huse u Hu). done. }
  assert (∃ first,
            first ∈ getOpUsers ir splatOp
            ∧ (∀ u, u ∈ getOpUsers ir splatOp →
                    isBeforeInBlock ir (op_id u) (op_id first) = false)
            ∧ SinkSplatsToConsumers findNearestCommonDominator ir splatOp
              = sinkOp ir splatOp first) as (first & Hfirst & Hmin & Hrun).
  { unfold SinkSplatsToConsumers.
    destruct (getOpUsers ir splatOp) as [|u0 [|u1 rest]] eqn:Hu; [done| |].
    - exists u0. split; [left|]. split; [|done].
      intros u Hin. apply list_elem_of_singleton in Hin as ->.
      apply isBefore_irrefl.
    - assert (isUsedOutsideOfBlock ir (AsyncSplatOp.result splatOp)
                (op_block splatOp) = false) as ->.
      { unfold isUsedOutsideOfBlock, AsyncSplatOp.result.
        rewrite <- getOpUsers_single, Hu by done.
        apply existsb_false. intros u Hin.
        apply bool_decide_eq_false. intros Hb. apply Hb.
        by apply Husers. }
      simpl.
      destruct (earlierUser_foldl ir (u1 :: rest) u0) as (t & Hfold & Ht & Hm).
      { intros u Hin. by apply Huse. }
      simpl in Hfold. rewrite Hfold. simpl. by exists t. }
  destruct (sinkOp_to_first_user ir splatOp first (getOpUsers ir splatOp))
    as (res & out & Hsink & Hfail & Hsame & Hmoved & Hdom); try done.
  { by apply Huse. }
  exists first, res, out. rewrite Hrun. done.
Qed.

Lemma SinkSplatsToConsumers_same_block_witness :
  ∃ first res out,
    first ∈ getOpUsers groupIR
              (mkOp 2 other_op 0 [] [ResourceType External] [] None)
    ∧ SinkSplatsToConsumers (fun b _ => b) groupIR
        (mkOp 2 other_op 0 [] [ResourceType External] [] None)
      = Some (res, out)
    ∧ ∀ u, u ∈ getOpUsers groupIR
                 (mkOp 2 other_op 0 [] [ResourceType External] [] None) →
           isBeforeInBlock out 2 (op_id u) = true.
Proof.
  destruct (SinkSplatsToConsumers_same_block (fun b _ => b) groupIR
              (mkOp 2 other_op 0 [] [ResourceType External] [] None))
    as [_ Hrun].
  - by_compute.
  - by_compute.
  - reflexivity.
  - intros u Hu. vm_compute in Hu.
    apply list_elem_of_singleton in Hu as ->. split; reflexivity.
  - destruct Hrun as (first & res & out & Hfirst & _ & Hrun & _ & _ & _ & Hdom).
    + vm_compute. discriminate.
    + exists first, res, out. split; [exact Hfirst|].
      split; [exact Hrun | exact Hdom].
Defined.

(** ** Propagation through clones, slices and fills *)

Lemma eraseOp_mapOperands f ir id :
  eraseOp (mapOperands f ir) id = mapOperands f (eraseOp ir id).
Proof.
  unfold eraseOp, mapOperands.
  induction ir as [|o ir IH]; csimpl; [done|].
  rewrite !filter_cons. simpl. rewrite IH.
  destruct (decide (op_id o ≠ id)); done.
Qed.

Lemma eraseOp_not_elem_of (l : IR) (id : OpId) :
  id ∉ op_id <$> l → eraseOp l id = l.
Proof.
  unfold eraseOp. induction l as [|o l IH]; csimpl; intros Hn; [done|].
  apply not_elem_of_cons in Hn as [Hne Hn].
  rewrite filter_cons, decide_True by done. f_equal. by apply IH.
Qed.

(** Replacing an op by a new op with one result, in closed form: the new
    op stands in the place of the old one and every operand that was the
    old result is the new result. *)
Lemma replaceOpWithNewOp_closed l1 old l2 new :
  op_id old ∉ op_id <$> l1 → op_id old ∉ op_id <$> l2 →
  op_id new ≠ op_id old → length (op_result_types new) = 1 →
  replaceOpWithNewOp (l1 ++ old :: l2) old new
  = mapOperands
      (replaceValue (OpResult (op_id old) 0) (OpResult (op_id new) 0))
      (l1 ++ new :: l2).
Proof.
  intros H1 H2 Hne Hres. unfold replaceOpWithNewOp, replaceOp.
  rewrite getResults_single by done. simpl. unfold replaceAllUsesWith.
  rewrite eraseOp_mapOperands. f_equal.
  rewrite insertBefore_split by done.
  rewrite eraseOp_app, eraseOp_not_elem_of by done. f_equal.
  rewrite eraseOp_cons_ne by done. f_equal.
  unfold eraseOp. rewrite filter_cons, decide_False by (intros H; by apply H).
  by apply eraseOp_not_elem_of.
Qed.

Lemma getResults_other d v :
  getDefiningOp v ≠ Some (op_id d) → v ∉ getResults d.
Proof. rewrite getResults_seq. apply not_elem_of_results. Qed.

Lemma getOperand_elem_of op k :
  getOperand op k = NullValue ∨ getOperand op k ∈ getOperands op.
Proof.
  unfold getOperand. destruct (getOperands op !! k) as [v|] eqn:Hk; simpl.
  - right. by eapply list_elem_of_lookup_2.
  - by left.
Qed.

Lemma NullValue_not_result d : NullValue ∉ getResults d.
Proof. by apply getResults_other. Qed.

(** After the replacement, another op [d] of the IR is without uses
    exactly when the replaced op was the only one that used its results,
    provided the new op takes over no result of [d] but from other ops. *)
Lemma replaceOpWithNewOp_bypass ir root new d d' :
  NoDup (op_id <$> ir) → root ∈ ir → d ∈ ir → op_id d ≠ op_id root →
  op_id new = freshId ir → length (op_result_types new) = 1 →
  (∀ v, v ∈ getOperands new → v ∈ getResults d →
        ∃ o, o ∈ ir ∧ op_id o ≠ op_id root ∧ v ∈ getOperands o) →
  lookupOp (replaceOpWithNewOp ir root new) (op_id d) = Some d' →
  (ElideUnusedOp (replaceOpWithNewOp ir root new) d').1 = success
  ↔ ∀ o v, o ∈ ir → v ∈ getOperands o → v ∈ getResults d → o = root.
Proof.
  intros Hnd Hroot Hd Hdr Hnew Hres Hops Hd'.
  assert (op_id new ∉ op_id <$> ir) as Hfresh
    by (rewrite Hnew; apply freshId_not_elem_of).
  assert (op_id d ≠ op_id new) as Hdn.
  { intros Heq. apply Hfresh. rewrite <- Heq. by apply list_elem_of_fmap_2. }
  assert (op_id new ≠ op_id root) as Hnr.
  { intros Heq. apply Hfresh. rewrite Heq. by apply list_elem_of_fmap_2. }
  assert (getResults d' = getResults d) as Hresults.
  { destruct (replaceOpWithNewOp_single ir root new) as (_ & _ & Hother);
      [by apply list_elem_of_fmap_2|done|done|].
    simpl in Hother. rewrite Hother in Hd' by done.
    destruct (lookupOp ir (op_id d)) as [d0|] eqn:Hl; [|done].
    simpl in Hd'. injection Hd' as <-.
    pose proof (lookupOp_elem_of ir d Hnd Hd) as Hl'.
    rewrite Hl in Hl'. by injection Hl' as ->. }
  destruct (ir_split ir root Hnd Hroot) as (l1 & l2 & -> & H1 & H2).
  rewrite replaceOpWithNewOp_closed by done.
  set (f := replaceValue _ _).
  assert (∀ v, f v ∈ getResults d ↔ v ∈ getResults d) as Hf.
  { intros v. unfold f, replaceValue. case_decide as Hv; [|done]. subst v.
    split; intros Hin; exfalso; revert Hin; apply getResults_other; simpl;
      congruence. }
  assert ((ElideUnusedOp (mapOperands f (l1 ++ new :: l2)) d').1 = success
          ↔ ∀ o v, o ∈ l1 ++ new :: l2 → v ∈ getOperands o →
                   v ∉ getResults d) as ->.
  { unfold ElideUnusedOp.
    destruct (use_empty (mapOperands f (l1 ++ new :: l2)) d') eqn:Hempty;
      simpl.
    - split; [intros _|done].
      pose proof (proj1 (use_empty_true _ _) Hempty) as Hno.
      intros o v Ho Hv Hin.
      apply (Hno (withOperands o (fmap (M:=list) f <$> op_operands o)) (f v)).
      + apply elem_of_mapOperands. eauto.
      + unfold getOperands. simpl. rewrite concat_fmap_fmap.
        by apply list_elem_of_fmap_2.
      + rewrite Hresults. by apply Hf.
    - split; [done|]. intros Hno. exfalso.
      assert (use_empty (mapOperands f (l1 ++ new :: l2)) d' = true);
        [|congruence].
      apply use_empty_true. intros o' v' Ho' Hv' Hin.
      apply elem_of_mapOperands in Ho' as (o & Ho & ->).
      unfold getOperands in Hv'. simpl in Hv'.
      rewrite concat_fmap_fmap in Hv'.
      apply list_elem_of_fmap in Hv' as (v & -> & Hv).
      apply (Hno o v Ho Hv). apply Hf. by rewrite <- Hresults. }
  split.
  - intros Hno o v Ho Hv Hin.
    apply elem_of_app in Ho as [Ho|Ho].
    + exfalso. apply (Hno o v); [|done|done]. apply elem_of_app. by left.
    + apply elem_of_cons in Ho as [->|Ho]; [done|].
      exfalso. apply (Hno o v); [|done|done].
      apply elem_of_app. right. by right.
  - intros Honly o v Ho Hv Hin.
    assert (∀ o0, o0 ∈ l1 ++ root :: l2 → op_id o0 ≠ op_id root →
                  v ∉ getOperands o0) as Hnot.
    { intros o0 Ho0 Hne Hv0. apply Hne. by rewrite (Honly o0 v Ho0 Hv0 Hin). }
    apply elem_of_app in Ho as [Ho|Ho].
    + apply (Hnot o); [apply elem_of_app; by left| |done].
      intros Heq. apply H1. rewrite <- Heq. by apply list_elem_of_fmap_2.
    + apply elem_of_cons in Ho as [->|Ho].
      * destruct (Hops v Hv Hin) as (o0 & Ho0 & Hne & Hv0).
        by apply (Hnot o0).
      * apply (Hnot o); [apply elem_of_app; right; by right| |done].
        intros Heq. apply H2. rewrite <- Heq. by apply list_elem_of_fmap_2.
Qed.

(** The closed form at an op of an IR without duplicate identities. *)
Lemma replaceOpWithNewOp_at ir root new :
  NoDup (op_id <$> ir) → root ∈ ir →
  op_id new = freshId ir → length (op_result_types new) = 1 →
  ∃ l1 l2,
    ir = l1 ++ root :: l2
    ∧ replaceOpWithNewOp ir root new
      = mapOperands
          (replaceValue (OpResult (op_id root) 0) (OpResult (freshId ir) 0))
          (l1 ++ new :: l2).
Proof.
  intros Hnd Hroot Hnew Hres.
  destruct (ir_split ir root Hnd Hroot) as (l1 & l2 & Heq & H1 & H2).
  exists l1, l2. split; [done|]. rewrite <- Hnew. rewrite Heq at 1.
  apply replaceOpWithNewOp_closed; try done.
  intros Hid. apply (freshId_not_elem_of ir). rewrite <- Hnew, Hid.
  by apply list_elem_of_fmap_2.
Qed.

Lemma take_1_length {A} (l : list A) : length l = 1 → take 1 l = l.
Proof. by destruct l as [|x [|y l]]. Qed.

(** An operand of a producer other than the root is an operand of another
    op than the root. *)
Lemma producer_operand (ir : IR) root producer k v d :
  producer ∈ ir → op_id producer ≠ op_id root →
  v = getOperand producer k → v ∈ getResults d →
  ∃ o, o ∈ ir ∧ op_id o ≠ op_id root ∧ v ∈ getOperands o.
Proof.
  intros Hin Hne -> Hres.
  destruct (getOperand_elem_of producer k) as [Hnull|Hop].
  - rewrite Hnull in Hres. by apply NullValue_not_result in Hres.
  - by exists producer.
Qed.

(** X16: slice(clone(x)) becomes slice(x).  The pattern fails, leaving the
    IR as it is, when the source of the slice is not the result of an
    async.clone.  Otherwise a new slice stands in the place of the old
    one; it reads the source and source size of the clone and keeps the
    offset, end, result size, type and affinity of the old slice, and
    every operand that was the old slice's result is the new slice's
    result.  The clone stays, and it is dead afterwards (ElideUnusedOp
    erases it) exactly when the old slice was its only user. *)
Theorem PropagateSliceClones_spec ir sliceOp :
  NoDup (op_id <$> ir) → sliceOp ∈ ir →
  op_name sliceOp = stream_async_slice →
  length (op_result_types sliceOp) = 1 →
  (dynCastDefiningOp ir stream_async_clone (AsyncSliceOp.source sliceOp)
   = None → PropagateSliceClones ir sliceOp = (failure, ir))
  ∧ ∀ cloneOp,
      dynCastDefiningOp ir stream_async_clone (AsyncSliceOp.source sliceOp)
      = Some cloneOp →
      ∃ l1 l2 out,
        ir = l1 ++ sliceOp :: l2
        ∧ out
          = mapOperands
              (replaceValue (OpResult (op_id sliceOp) 0)
                 (OpResult (freshId ir) 0))
              (l1
               ++ AsyncSliceOp_build (freshId ir) (op_block sliceOp)
                    (op_result_types sliceOp)
                    (AsyncCloneOp.source cloneOp)
                    (AsyncCloneOp_source_size cloneOp)
                    (AsyncSliceOp.source_offset sliceOp)
                    (AsyncSliceOp.source_end sliceOp)
                    (AsyncSliceOp.result_size sliceOp) (op_affinity sliceOp)
               :: l2)
        ∧ PropagateSliceClones ir sliceOp = (success, out)
        ∧ (AsyncSliceOp.source_offset sliceOp ∉ getResults cloneOp →
           AsyncSliceOp.source_end sliceOp ∉ getResults cloneOp →
           AsyncSliceOp.result_size sliceOp ∉ getResults cloneOp →
           ∀ cloneOp',
             lookupOp out (op_id cloneOp) = Some cloneOp' →
             (ElideUnusedOp out cloneOp').1 = success
             ↔ ∀ o v, o ∈ ir → v ∈ getOperands o →
                      v ∈ getResults cloneOp → o = sliceOp).
Proof.
  intros Hnd Hin Hname Hres. unfold PropagateSliceClones. split.
  { by intros ->. }
  intros cloneOp Hclone. rewrite Hclone.
  apply dynCastDefiningOp_Some in Hclone as [Hdef Hcname].
  apply definingOp_Some in Hdef as [Hcin _].
  assert (op_id cloneOp ≠ op_id sliceOp) as Hne.
  { intros Heq.
    assert (cloneOp = sliceOp) as ->; [|congruence].
    pose proof (lookupOp_elem_of ir cloneOp Hnd Hcin) as H1.
    pose proof (lookupOp_elem_of ir sliceOp Hnd Hin) as H2.
    rewrite Heq in H1. congruence. }
  rewrite (take_1_length (op_result_types sliceOp)) by done.
  set (new := AsyncSliceOp_build _ _ _ _ _ _ _ _ _).
  destruct (replaceOpWithNewOp_at ir sliceOp new Hnd Hin eq_refl Hres)
    as (l1 & l2 & Hir & Hclosed).
  exists l1, l2, (replaceOpWithNewOp ir sliceOp new).
  split; [done|]. split; [done|]. split; [done|].
  intros Hoff Hend Hsize cloneOp' Hlook.
  apply (replaceOpWithNewOp_bypass ir sliceOp new cloneOp cloneOp');
    try done.
  intros v Hv Hr. unfold new, AsyncSliceOp_build, getOperands in Hv.
  simpl in Hv.
  repeat (apply elem_of_cons in Hv as [->|Hv]);
    [by eapply (producer_operand ir sliceOp cloneOp 0)
    |by eapply (producer_operand ir sliceOp cloneOp 1)
    |done|done|done|by apply elem_of_nil in Hv].
Qed.

Lemma PropagateSliceClones_spec_witness :
  ∃ out,
    PropagateSliceClones sliceOfCloneIR sliceOfCloneOp = (success, out)
    ∧ ∀ cloneOp',
        lookupOp out 1 = Some cloneOp' →
        (ElideUnusedOp out cloneOp').1 = success
        ↔ ∀ o v, o ∈ sliceOfCloneIR → v ∈ getOperands o →
                 v ∈ getResults slicedCloneOp → o = sliceOfCloneOp.
Proof.
  destruct (PropagateSliceClones_spec sliceOfCloneIR sliceOfCloneOp)
    as [_ Hrun].
  - by_compute.
  - by_compute.
  - reflexivity.
  - reflexivity.
  - destruct (Hrun slicedCloneOp) as (l1 & l2 & out & _ & _ & Hout & Hdead).
    + reflexivity.
    + exists out. split; [exact Hout|]. apply Hdead; by_compute.
Defined.

(** X17: clone(slice(x)) becomes slice(x).  The pattern fails, leaving the
    IR as it is, when the source of the clone is not the result of an
    async.slice.  Otherwise a slice of the same source range stands in the
    place of the clone, with the type and affinity of the clone, and every
    operand that was the clone's result is the new slice's result.  The
    old slice stays, and it is dead afterwards exactly when the clone was
    its only user. *)
Theorem PropagateClonedSlices_spec ir cloneOp :
  NoDup (op_id <$> ir) → cloneOp ∈ ir →
  op_name cloneOp = stream_async_clone →
  length (op_result_types cloneOp) = 1 →
  (dynCastDefiningOp ir stream_async_slice (AsyncCloneOp.source cloneOp)
   = None → PropagateClonedSlices ir cloneOp = (failure, ir))
  ∧ ∀ sliceOp,
      dynCastDefiningOp ir stream_async_slice (AsyncCloneOp.source cloneOp)
      = Some sliceOp →
      ∃ l1 l2 out,
        ir = l1 ++ cloneOp :: l2
        ∧ out
          = mapOperands
              (replaceValue (OpResult (op_id cloneOp) 0)
                 (OpResult (freshId ir) 0))
              (l1
               ++ AsyncSliceOp_build (freshId ir) (op_block cloneOp)
                    (op_result_types cloneOp)
                    (AsyncSliceOp.source sliceOp)
                    (AsyncSliceOp.source_size sliceOp)
                    (AsyncSliceOp.source_offset sliceOp)
                    (AsyncSliceOp.source_end sliceOp)
                    (AsyncSliceOp.result_size sliceOp) (op_affinity cloneOp)
               :: l2)
        ∧ PropagateClonedSlices ir cloneOp = (success, out)
        ∧ ∀ sliceOp',
            lookupOp out (op_id sliceOp) = Some sliceOp' →
            (ElideUnusedOp out sliceOp').1 = success
            ↔ ∀ o v, o ∈ ir → v ∈ getOperands o →
                     v ∈ getResults sliceOp → o = cloneOp.
Proof.
  intros Hnd Hin Hname Hres. unfold PropagateClonedSlices. split.
  { by intros ->. }
  intros sliceOp Hslice. rewrite Hslice.
  apply dynCastDefiningOp_Some in Hslice as [Hdef Hsname].
  apply definingOp_Some in Hdef as [Hsin _].
  assert (op_id sliceOp ≠ op_id cloneOp) as Hne.
  { intros Heq.
    assert (sliceOp = cloneOp) as ->; [|congruence].
    pose proof (lookupOp_elem_of ir sliceOp Hnd Hsin) as H1.
    pose proof (lookupOp_elem_of ir cloneOp Hnd Hin) as H2.
    rewrite Heq in H1. congruence. }
  rewrite (take_1_length (op_result_types cloneOp)) by done.
  set (new := AsyncSliceOp_build _ _ _ _ _ _ _ _ _).
  destruct (replaceOpWithNewOp_at ir cloneOp new Hnd Hin eq_refl Hres)
    as (l1 & l2 & Hir & Hclosed).
  exists l1, l2, (replaceOpWithNewOp ir cloneOp new).
  split; [done|]. split; [done|]. split; [done|].
  intros sliceOp' Hlook.
  apply (replaceOpWithNewOp_bypass ir cloneOp new sliceOp sliceOp');
    try done.
  intros v Hv Hr. unfold new, AsyncSliceOp_build, getOperands in Hv.
  simpl in Hv.
  repeat (apply elem_of_cons in Hv as [->|Hv]);
    [by eapply (producer_operand ir cloneOp sliceOp 0)
    |by eapply (producer_operand ir cloneOp sliceOp 1)
    |by eapply (producer_operand ir cloneOp sliceOp 2)
    |by eapply (producer_operand ir cloneOp sliceOp 3)
    |by eapply (producer_operand ir cloneOp sliceOp 4)
    |by apply elem_of_nil in Hv].
Qed.

Lemma PropagateClonedSlices_spec_witness :
  ∃ out,
    PropagateClonedSlices cloneOfSliceIR cloneOfSliceOp = (success, out)
    ∧ ∀ sliceOp',
        lookupOp out 1 = Some sliceOp' →
        (ElideUnusedOp out sliceOp').1 = success
        ↔ ∀ o v, o ∈ cloneOfSliceIR → v ∈ getOperands o →
                 v ∈ getResults clonedSliceOp → o = cloneOfSliceOp.
Proof.
  destruct (PropagateClonedSlices_spec cloneOfSliceIR cloneOfSliceOp)
    as [_ Hrun].
  - by_compute.
  - by_compute.
  - reflexivity.
  - reflexivity.
  - destruct (Hrun clonedSliceOp) as (l1 & l2 & out & _ & _ & Hout & Hdead).
    + reflexivity.
    + exists out. split; [exact Hout | exact Hdead].
Defined.

(** X18: slice(splat(v)) becomes a smaller splat.  The pattern fails,
    leaving the IR as it is, when the source of the slice is not the
    result of an async.splat.  Otherwise a splat of the same value with
    the result size, type and affinity of the slice stands in the place
    of the slice, and every operand that was the slice's result is the new
    splat's result.  The old splat stays, and it is dead afterwards
    exactly when the slice was its only user. *)
Theorem PropagateSplatsThroughSlices_spec ir sliceOp :
  NoDup (op_id <$> ir) → sliceOp ∈ ir →
  op_name sliceOp = stream_async_slice →
  length (op_result_types sliceOp) = 1 →
  (dynCastDefiningOp ir stream_async_splat (AsyncSliceOp.source sliceOp)
   = None → PropagateSplatsThroughSlices ir sliceOp = (failure, ir))
  ∧ ∀ splatOp,
      dynCastDefiningOp ir stream_async_splat (AsyncSliceOp.source sliceOp)
      = Some splatOp →
      ∃ l1 l2 out,
        ir = l1 ++ sliceOp :: l2
        ∧ out
          = mapOperands
              (replaceValue (OpResult (op_id sliceOp) 0)
                 (OpResult (freshId ir) 0))
              (l1
               ++ AsyncSplatOp.build (freshId ir) (op_block sliceOp)
                    (op_result_types sliceOp) (AsyncSplatOp.value splatOp)
                    (AsyncSliceOp.result_size sliceOp) (op_affinity sliceOp)
               :: l2)
        ∧ PropagateSplatsThroughSlices ir sliceOp = (success, out)
        ∧ (AsyncSliceOp.result_size sliceOp ∉ getResults splatOp →
           ∀ splatOp',
             lookupOp out (op_id splatOp) = Some splatOp' →
             (ElideUnusedOp out splatOp').1 = success
             ↔ ∀ o v, o ∈ ir → v ∈ getOperands o →
                      v ∈ getResults splatOp → o = sliceOp).
Proof.
  intros Hnd Hin Hname Hres. unfold PropagateSplatsThroughSlices. split.
  { by intros ->. }
  intros splatOp Hsplat. rewrite Hsplat.
  apply dynCastDefiningOp_Some in Hsplat as [Hdef Hsname].
  apply definingOp_Some in Hdef as [Hsin _].
  assert (op_id splatOp ≠ op_id sliceOp) as Hne.
  { intros Heq.
    assert (splatOp = sliceOp) as ->; [|congruence].
    pose proof (lookupOp_elem_of ir splatOp Hnd Hsin) as H1.
    pose proof (lookupOp_elem_of ir sliceOp Hnd Hin) as H2.
    rewrite Heq in H1. congruence. }
  rewrite (take_1_length (op_result_types sliceOp)) by done.
  set (new := AsyncSplatOp.build _ _ _ _ _ _).
  destruct (replaceOpWithNewOp_at ir sliceOp new Hnd Hin eq_refl Hres)
    as (l1 & l2 & Hir & Hclosed).
  exists l1, l2, (replaceOpWithNewOp ir sliceOp new).
  split; [done|]. split; [done|]. split; [done|].
  intros Hsize splatOp' Hlook.
  apply (replaceOpWithNewOp_bypass ir sliceOp new splatOp splatOp');
    try done.
  intros v Hv Hr. unfold new, AsyncSplatOp.build, getOperands in Hv.
  simpl in Hv.
  repeat (apply elem_of_cons in Hv as [->|Hv]);
    [by eapply (producer_operand ir sliceOp splatOp 0)
    |done|by apply elem_of_nil in Hv].
Qed.

Lemma PropagateSplatsThroughSlices_spec_witness :
  ∃ out,
    PropagateSplatsThroughSlices sliceOfSplatIR sliceOfSplatOp
    = (success, out)
    ∧ ∀ splatOp',
        lookupOp out 1 = Some splatOp' →
        (ElideUnusedOp out splatOp').1 = success
        ↔ ∀ o v, o ∈ sliceOfSplatIR → v ∈ getOperands o →
                 v ∈ getResults slicedSplatOp → o = sliceOfSplatOp.
Proof.
  destruct (PropagateSplatsThroughSlices_spec sliceOfSplatIR sliceOfSplatOp)
    as [_ Hrun].
  - by_compute.
  - by_compute.
  - reflexivity.
  - reflexivity.
  - destruct (Hrun slicedSplatOp) as (l1 & l2 & out & _ & _ & Hout & Hdead).
    + reflexivity.
    + exists out. split; [exact Hout|]. apply Hdead. by_compute.
Defined.

(** X19: a fill of a whole resource becomes a splat.  The pattern fires
    exactly when the target length and the target size are the same
    value, whatever the offset and the end are.  A splat of the fill
    value with the target size, the type and the affinity of the fill then
    stands in the place of the fill and takes over its uses; it does not
    read the target, so an op of the IR whose results only the fill used
    is dead afterwards, and an op with another user is not. *)
Theorem FlattenFullFillToSplat_spec ir fillOp :
  NoDup (op_id <$> ir) → fillOp ∈ ir →
  length (op_result_types fillOp) = 1 →
  (AsyncFillOp.target_length fillOp ≠ AsyncFillOp.target_size fillOp →
   FlattenFullFillToSplat ir fillOp = (failure, ir))
  ∧ (AsyncFillOp.target_length fillOp = AsyncFillOp.target_size fillOp →
     ∃ l1 l2 out,
       ir = l1 ++ fillOp :: l2
       ∧ out
         = mapOperands
             (replaceValue (OpResult (op_id fillOp) 0)
                (OpResult (freshId ir) 0))
             (l1
              ++ AsyncSplatOp.build (freshId ir) (op_block fillOp)
                   (op_result_types fillOp) (AsyncFillOp.value fillOp)
                   (AsyncFillOp.target_size fillOp) (op_affinity fillOp)
              :: l2)
       ∧ FlattenFullFillToSplat ir fillOp = (success, out)
       ∧ ∀ d d',
           d ∈ ir → op_id d ≠ op_id fillOp →
           AsyncFillOp.value fillOp ∉ getResults d →
           AsyncFillOp.target_size fillOp ∉ getResults d →
           lookupOp out (op_id d) = Some d' →
           (ElideUnusedOp out d').1 = success
           ↔ ∀ o v, o ∈ ir → v ∈ getOperands o →
                    v ∈ getResults d → o = fillOp).
Proof.
  intros Hnd Hin Hres. unfold FlattenFullFillToSplat. split.
  { intros Hne. by rewrite decide_False. }
  intros Heq. rewrite decide_True by done.
  rewrite (take_1_length (op_result_types fillOp)) by done.
  set (new := AsyncSplatOp.build _ _ _ _ _ _).
  destruct (replaceOpWithNewOp_at ir fillOp new Hnd Hin eq_refl Hres)
    as (l1 & l2 & Hir & Hclosed).
  exists l1, l2, (replaceOpWithNewOp ir fillOp new).
  split; [done|]. split; [done|]. split; [done|].
  intros d d' Hd Hne Hvalue Hsize Hlook.
  apply (replaceOpWithNewOp_bypass ir fillOp new d d'); try done.
  intros v Hv Hr. unfold new, AsyncSplatOp.build, getOperands in Hv.
  simpl in Hv.
  repeat (apply elem_of_cons in Hv as [->|Hv]);
    [done|done|by apply elem_of_nil in Hv].
Qed.

Lemma FlattenFullFillToSplat_spec_witness :
  ∃ out,
    FlattenFullFillToSplat fullFillIR fullFillOp = (success, out)
    ∧ ∀ d',
        lookupOp out 1 = Some d' →
        (ElideUnusedOp out d').1 = success
        ↔ ∀ o v, o ∈ fullFillIR → v ∈ getOperands o →
                 v ∈ getResults filledProducerOp → o = fullFillOp.
Proof.
  destruct (FlattenFullFillToSplat_spec fullFillIR fullFillOp) as [_ Hrun].
  - by_compute.
  - by_compute.
  - reflexivity.
  - destruct Hrun as (l1 & l2 & out & _ & _ & Hout & Hdead).
    + reflexivity.
    + exists out. split; [exact Hout|]. intros d'.
      apply (Hdead filledProducerOp d'); by_compute.
Defined.

(** ** SinkAwaitToFirstConsumer *)

Lemma elem_of_getOpUsers ir op u :
  u ∈ getOpUsers ir op
  ↔ u ∈ ir ∧ ∃ r, r ∈ getResults op ∧ r ∈ getOperands u.
Proof.
  unfold getOpUsers. rewrite list_elem_of_bind. split.
  - intros (r & Hu & Hr). apply elem_of_getUsers in Hu as [Hin Hv]. eauto.
  - intros (Hin & r & Hr & Hv). exists r. split; [|done].
    by apply elem_of_getUsers.
Qed.

Lemma getOpUsers_producer ir op u :
  u ∈ getOpUsers ir op → u ∈ ir ∧ op_id op ∈ producerOps u.
Proof.
  intros Hu. apply elem_of_getOpUsers in Hu as (Hin & r & Hr & Hv).
  split; [done|]. rewrite getResults_seq in Hr.
  apply list_elem_of_fmap in Hr as (k & -> & _).
  by eapply elem_of_producerOps.
Qed.

(** The loop gathering the users, when all of them are in block [b]. *)
Lemma gatherUser_foldl fncd b users :
  fncd b b = b → (∀ u, u ∈ users → op_block u = b) →
  ∀ acc cd,
    (acc = [] ∧ cd = None) ∨ (acc ≠ [] ∧ cd = Some b) →
    ((acc = [] ∧ users = []
      ∧ foldl (gatherUser fncd) (acc, cd) users = ([], None))
     ∨ ((foldl (gatherUser fncd) (acc, cd) users).1 ≠ []
        ∧ (foldl (gatherUser fncd) (acc, cd) users).2 = Some b))
    ∧ (∀ u, u ∈ (foldl (gatherUser fncd) (acc, cd) users).1 →
            u ∈ acc ∨ u ∈ users)
    ∧ (∀ u, u ∈ acc ∨ u ∈ users →
            op_id u ∈ op_id <$> (foldl (gatherUser fncd) (acc, cd) users).1).
Proof.
  intros Hidem. induction users as [|x users IH]; intros Hblock acc cd Hinv.
  - simpl. split; [|split].
    + destruct Hinv as [[-> ->]|[Hne ->]]; [by left | by right].
    + intros u Hu. by left.
    + intros u [Hu|Hu]; [by apply list_elem_of_fmap_2|].
      by apply elem_of_nil in Hu.
  - simpl.
    destruct (decide (op_id x ∈ op_id <$> acc)) as [Hseen|Hnew].
    + assert (gatherUser fncd (acc, cd) x = (acc, cd)) as ->
        by (unfold gatherUser; simpl; by rewrite decide_True).
      destruct (IH ltac:(intros u Hu; apply Hblock; by right) acc cd Hinv)
        as (Hst & Hsub & Hsup).
      split; [|split].
      * right. destruct Hst as [(-> & _ & _)|Hst]; [|done].
        by apply elem_of_nil in Hseen.
      * intros u Hu. destruct (Hsub u Hu) as [?|?]; [by left|].
        right. by right.
      * intros u [Hu|Hu]; [apply Hsup; by left|].
        apply elem_of_cons in Hu as [->|Hu]; [|apply Hsup; by right].
        apply list_elem_of_fmap in Hseen as (y & Hid & Hy).
        rewrite Hid. apply Hsup. by left.
    + assert (gatherUser fncd (acc, cd) x = (acc ++ [x], Some b)) as ->.
      { unfold gatherUser. simpl. rewrite decide_False by done.
        rewrite (Hblock x) by left.
        destruct Hinv as [[_ ->]|[_ ->]]; [done|]. by rewrite Hidem. }
      destruct (IH ltac:(intros u Hu; apply Hblock; by right)
                  (acc ++ [x]) (Some b)) as (Hst & Hsub & Hsup).
      { right. split; [|done]. by destruct acc. }
      split; [|split].
      * right. destruct Hst as [(Hnil & _ & _)|Hst]; [|done].
        by destruct acc.
      * intros u Hu. destruct (Hsub u Hu) as [Hu'|?]; [|right; by right].
        apply elem_of_app in Hu' as [?|Hu']; [by left|].
        apply list_elem_of_singleton in Hu' as ->. right. left.
      * intros u [Hu|Hu].
        -- apply Hsup. left. apply elem_of_app. by left.
        -- apply elem_of_cons in Hu as [->|Hu]; [|apply Hsup; by right].
           apply Hsup. left. apply elem_of_app. right. left.
Qed.

(** The loop over the users keeps the earliest op of the block among the
    terminator and the users. *)
Lemma earlierUserInBlock_foldl ir b users t0 :
  (∀ u, u ∈ t0 :: users → u ∈ ir ∧ op_block u = b) →
  ∃ t, foldl (earlierUserInBlock ir b) t0 users = t
       ∧ t ∈ t0 :: users
       ∧ ∀ u, u ∈ t0 :: users →
              isBeforeInBlock ir (op_id u) (op_id t) = false.
Proof.
  revert t0. induction users as [|u users IH]; intros t0 Hin; simpl.
  - exists t0. split; [done|]. split; [left|].
    intros u Hu. apply list_elem_of_singleton in Hu as ->.
    apply isBefore_irrefl.
  - destruct (Hin t0 ltac:(left)) as [Ht0 _].
    destruct (Hin u ltac:(right; left)) as [Hu Hub].
    destruct (opIndex_elem_of ir t0 Ht0) as [i0 Hi0].
    destruct (opIndex_elem_of ir u Hu) as [iu Hiu].
    unfold earlierUserInBlock at 2. rewrite decide_True by done.
    destruct (isBeforeInBlock ir (op_id u) (op_id t0)) eqn:Hbefore.
    + destruct (IH u) as (t & Hfold & Ht & Hmin).
      { intros x Hx. apply Hin. by right. }
      exists t. split; [done|]. split; [by right|].
      intros x Hx. apply elem_of_cons in Hx as [->|Hx]; [|by apply Hmin].
      specialize (Hmin u ltac:(left)).
      unfold isBeforeInBlock in *. rewrite Hiu, Hi0 in *.
      destruct (opIndex ir (op_id t)) as [it|]; [|done].
      apply bool_decide_eq_true in Hbefore.
      apply bool_decide_eq_false in Hmin. apply bool_decide_eq_false. lia.
    + destruct (IH t0) as (t & Hfold & Ht & Hmin).
      { intros x Hx. apply Hin.
        apply elem_of_cons in Hx as [->|Hx]; [left | by do 2 right]. }
      exists t. split; [done|]. split.
      { apply elem_of_cons in Ht as [->|Ht]; [left | by do 2 right]. }
      intros x Hx.
      apply elem_of_cons in Hx as [->|Hx]; [by apply Hmin; left|].
      apply elem_of_cons in Hx as [->|Hx]; [|by apply Hmin; right].
      specialize (Hmin t0 ltac:(left)).
      unfold isBeforeInBlock in *. rewrite Hiu, Hi0 in *.
      destruct (opIndex ir (op_id t)) as [it|]; [|done].
      apply bool_decide_eq_false in Hbefore.
      apply bool_decide_eq_false in Hmin. apply bool_decide_eq_false. lia.
Qed.

(** The terminator is the last op of its block. *)
Lemma getTerminator_split ir b t :
  getTerminator ir b = Some t →
  ∃ l1 l2, ir = l1 ++ t :: l2 ∧ op_block t = b
           ∧ ∀ o, o ∈ l2 → op_block o ≠ b.
Proof.
  unfold getTerminator, blockOps. induction ir as [|x ir IH]; [done|].
  rewrite filter_cons. destruct (decide (op_block x = b)) as [Hx|Hx].
  - rewrite last_cons.
    destruct (last (filter (λ o, op_block o = b) ir)) as [y|] eqn:Hlast.
    + intros [= ->]. destruct (IH eq_refl) as (l1 & l2 & -> & Hb & Hl2).
      by exists (x :: l1), l2.
    + intros [= ->]. exists [], ir. split; [done|]. split; [done|].
      intros o Ho Hob. apply last_None in Hlast.
      assert (o ∈ filter (λ o, op_block o = b) ir) as Hin
        by (by apply list_elem_of_filter).
      rewrite Hlast in Hin. by apply elem_of_nil in Hin.
  - intros Hlast. destruct (IH Hlast) as (l1 & l2 & -> & Hb & Hl2).
    by exists (x :: l1), l2.
Qed.

Lemma getTerminator_last ir b t u :
  NoDup (op_id <$> ir) → getTerminator ir b = Some t →
  u ∈ ir → op_block u = b →
  isBeforeInBlock ir (op_id t) (op_id u) = false.
Proof.
  intros Hnd Ht Hu Hub.
  destruct (getTerminator_split ir b t Ht) as (l1 & l2 & -> & Hb & Hl2).
  rewrite fmap_app in Hnd. csimpl in Hnd.
  apply NoDup_app in Hnd as (_ & Hdisj & Hnd).
  apply NoDup_cons in Hnd as [Ht2 _].
  assert (op_id t ∉ op_id <$> l1) as Ht1.
  { intros Hin. apply (Hdisj _ Hin). left. }
  unfold isBeforeInBlock. rewrite opIndex_middle by done.
  apply elem_of_app in Hu as [Hu|Hu].
  - rewrite opIndex_app.
    destruct (opIndex l1 (op_id u)) as [j|] eqn:Hj.
    + apply opIndex_lt in Hj. apply bool_decide_eq_false. lia.
    + apply opIndex_None in Hj. exfalso. apply Hj.
      by apply list_elem_of_fmap_2.
  - apply elem_of_cons in Hu as [->|Hu].
    + rewrite opIndex_middle by done. apply bool_decide_eq_false. lia.
    + by apply Hl2 in Hu.
Qed.

Lemma findInsertionPointBefore_cases ir earliestOp targetOp ip :
  findInsertionPointBefore ir earliestOp targetOp = Some ip →
  ip = op_id earliestOp ∨ ip = op_id targetOp.
Proof.
  unfold findInsertionPointBefore. case_decide; [|intros [= <-]; by right].
  destruct (opsBetween ir earliestOp targetOp) as [range|]; simpl; [|done].
  destruct (forallb _ range); intros [= <-]; eauto.
Qed.

(** The tail of the pattern is [sinkOp] on the first user. *)
Lemma SinkAwait_tail ir op first :
  NoDup (op_id <$> ir) → first ∈ ir →
  (ip ← findInsertionPointBefore ir op first;
   if decide (ip = op_id op) then Some (failure, ir)
   else ipOp ← lookupOp ir ip; Some (success, moveBefore ir op ipOp))
  = sinkOp ir op first.
Proof.
  intros Hnd Hin. unfold sinkOp.
  destruct (findInsertionPointBefore ir op first) as [ip|] eqn:Hip;
    simpl; [|done].
  case_decide as Hne; [done|].
  apply findInsertionPointBefore_cases in Hip as [->| ->]; [done|].
  by rewrite (lookupOp_elem_of ir first Hnd Hin).
Qed.

(** X20: an await without users is left alone.  When all users of the
    awaited resources stand behind the await in its own block, the await
    sinks to the earliest of them: the pattern fails, leaving the IR as it
    is, exactly when every op strictly between the await and that user
    produces an operand of the user; otherwise the await moves immediately
    in front of that user and the other ops keep their order.  Either way
    the await still stands in front of every one of its users. *)
Theorem SinkAwaitToFirstConsumer_same_block
    (findNearestCommonDominator : BlockId → BlockId → BlockId) ir op :
  NoDup (op_id <$> ir) → op ∈ ir →
  findNearestCommonDominator (op_block op) (op_block op) = op_block op →
  (∀ u, u ∈ getOpUsers ir op →
        op_block u = op_block op
        ∧ isBeforeInBlock ir (op_id op) (op_id u) = true) →
  (getOpUsers ir op = [] →
   SinkAwaitToFirstConsumer findNearestCommonDominator ir op
   = Some (failure, ir))
  ∧ (getOpUsers ir op ≠ [] →
     ∃ first res out,
       first ∈ getOpUsers ir op
       ∧ (∀ u, u ∈ getOpUsers ir op →
               isBeforeInBlock ir (op_id u) (op_id first) = false)
       ∧ SinkAwaitToFirstConsumer findNearestCommonDominator ir op
         = Some (res, out)
       ∧ (res = failure ↔ strictlyBetweenAllProduce ir op first = true)
       ∧ (res = failure → out = ir)
       ∧ (res = success →
          ∃ l1 l2, eraseOp ir (op_id op) = l1 ++ first :: l2
                   ∧ out = l1 ++ op :: first :: l2)
       ∧ ∀ u, u ∈ getOpUsers ir op →
              isBeforeInBlock out (op_id op) (op_id u) = true).
Proof.
  intros Hnd Hop Hidem Husers. split.
  { intros Hnil. unfold SinkAwaitToFirstConsumer. by rewrite Hnil. }
  intros Hne.
  assert (∀ u, u ∈ getOpUsers ir op →
            u ∈ ir ∧ op_block u = op_block op
            ∧ isBeforeInBlock ir (op_id op) (op_id u) = true) as Hall.
  { intros u Hu. destruct (Husers u Hu), (getOpUsers_producer ir op u Hu).
    done. }
  destruct (gatherUser_foldl findNearestCommonDominator (op_block op)
              (getOpUsers ir op) Hidem
              ltac:(intros u Hu; by apply Husers) [] None)
    as (Hst & Hsub & Hsup); [by left|].
  destruct Hst as [(_ & Hnil & _)|[Hst1 Hst2]]; [done|].
  set (st := foldl (gatherUser findNearestCommonDominator) ([], None)
               (getOpUsers ir op)) in *.
  assert (∀ u, u ∈ st.1 → u ∈ getOpUsers ir op) as Hsub'.
  { intros u Hu. destruct (Hsub u Hu) as [Hu'|Hu']; [|done].
    by apply elem_of_nil in Hu'. }
  assert (∀ u, u ∈ getOpUsers ir op → u ∈ st.1) as Hsup'.
  { intros u Hu. specialize (Hsup u (or_intror Hu)).
    apply list_elem_of_fmap in Hsup as (u' & Hid & Hu').
    assert (u = u') as ->; [|done].
    assert (u' ∈ ir) by (by apply Hall, Hsub').
    assert (u ∈ ir) by (by apply Hall).
    pose proof (lookupOp_elem_of ir u Hnd ltac:(done)) as H1.
    pose proof (lookupOp_elem_of ir u' Hnd ltac:(done)) as H2.
    rewrite Hid in H1. congruence. }
  destruct (getTerminator ir (op_block op)) as [terminator|] eqn:Hterm.
  2: { exfalso. unfold getTerminator in Hterm. apply last_None in Hterm.
       assert (op ∈ blockOps ir (op_block op)) as Hin
         by (by apply list_elem_of_filter).
       rewrite Hterm in Hin. by apply elem_of_nil in Hin. }
  destruct (getTerminator_split ir _ _ Hterm) as (t1 & t2 & Hir & Htb & _).
  assert (terminator ∈ ir) as Htin.
  { rewrite Hir. apply elem_of_app. right. left. }
  destruct (earlierUserInBlock_foldl ir (op_block op) st.1 terminator)
    as (first & Hfold & Hfirst & Hmin).
  { intros u Hu. apply elem_of_cons in Hu as [->|Hu]; [done|].
    destruct (Hall u (Hsub' u Hu)) as (? & ? & _). done. }
  assert (first ∈ getOpUsers ir op) as Hfirst'.
  { apply elem_of_cons in Hfirst as [->|Hfirst]; [|by apply Hsub'].
    destruct st.1 as [|u rest] eqn:Hst; [done|].
    assert (u ∈ getOpUsers ir op) as Hu by (apply Hsub'; left).
    destruct (Hall u Hu) as (Huin & Hub & _).
    specialize (Hmin u ltac:(right; left)).
    destruct (opIndex_elem_of ir u Huin) as [iu Hiu].
    destruct (opIndex_elem_of ir terminator Htin) as [it Hit].
    apply (isBeforeInBlock_false ir _ _ iu it Hiu Hit) in Hmin
      as [Hbefore|Heq].
    - by rewrite (getTerminator_last ir (op_block op) terminator u)
        in Hbefore.
    - assert (terminator = u) as ->; [|done].
      pose proof (lookupOp_elem_of ir u Hnd Huin) as H1.
      pose proof (lookupOp_elem_of ir terminator Hnd Htin) as H2.
      rewrite Heq in H2. congruence. }
  assert (SinkAwaitToFirstConsumer findNearestCommonDominator ir op
          = sinkOp ir op first) as Hrun.
  { unfold SinkAwaitToFirstConsumer. fold st. rewrite Hst2, Hterm. simpl.
    rewrite Hfold. apply SinkAwait_tail; [done|]. by apply Hall. }
  destruct (sinkOp_to_first_user ir op first (getOpUsers ir op))
    as (res & out & Hsink & Hfail & Hsame & Hmoved & Hdom); try done.
  { by destruct (getOpUsers_producer ir op first Hfirst'). }
  { intros u Hu. apply Hmin. right. by apply Hsup'. }
  exists first, res, out. rewrite Hrun.
  repeat split; try done; try apply Hfail.
  intros u Hu. apply Hmin. right. by apply Hsup'.
Qed.

Lemma SinkAwaitToFirstConsumer_same_block_witness :
  ∃ first res out,
    first ∈ getOpUsers sinkingAwaitIR sinkingAwaitOp
    ∧ SinkAwaitToFirstConsumer (fun b _ => b) sinkingAwaitIR sinkingAwaitOp
      = Some (res, out)
    ∧ ∀ u, u ∈ getOpUsers sinkingAwaitIR sinkingAwaitOp →
           isBeforeInBlock out 2 (op_id u) = true.
Proof.
  destruct (SinkAwaitToFirstConsumer_same_block (fun b _ => b)
              sinkingAwaitIR sinkingAwaitOp) as [_ Hrun].
  - by_compute.
  - by_compute.
  - reflexivity.
  - intros u Hu. vm_compute in Hu.
    apply list_elem_of_singleton in Hu as ->. split; reflexivity.
  - destruct Hrun
      as (first & res & out & Hfirst & _ & Hrun & _ & _ & _ & Hdom).
    + vm_compute. discriminate.
    + exists first, res, out. split; [exact Hfirst|].
      split; [exact Hrun | exact Hdom].
Defined.

(** On the example the await moves from in front of op 3 to in front of
    its consumer, op 4. *)
Example SinkAwaitToFirstConsumer_example :
  SinkAwaitToFirstConsumer (fun b _ => b) sinkingAwaitIR sinkingAwaitOp
  = Some (success,
          [mkOp 1 other_op 0 [] [ResourceType External] [] None;
           mkOp 3 other_op 0 [] [OtherType] [] None;
           sinkingAwaitOp;
           mkOp 4 other_op 0 [[OpResult 2 0]] [] [] None;
           mkOp 5 std_branch 0 [] [] [] None]).
Proof. reflexivity. Qed.

(** ** MaterializeCOW: a second application *)

Section MaterializeCOW_again.

Variable queryValueSize : Value → Value.
Variable op : Operation.

Hypothesis Hsize : ∀ v j lifetime,
  op_result_types op !! j = Some (ResourceType lifetime) →
  queryValueSize v ≠ OpResult (op_id op) j.

(** An op that the loop over the tied uses adds is a clone, which ties
    nothing. *)
Lemma loop_new aff T :
  ∀ ir id o,
    lookupOp (foldl (cloneTiedUse queryValueSize aff) ir T) id = Some o →
    lookupOp ir id = None → op_tied_operands o = [].
Proof.
  induction T as [|t T IH]; intros ir id o Hl Hnone; simpl in Hl.
  - congruence.
  - destruct (lookupOp (cloneTiedUse queryValueSize aff ir t) id) as [o'|]
      eqn:Hstep; [|by apply (IH _ id o Hl)].
    pose proof Hstep as Hstep'.
    destruct (lookupOp ir (user t)) as [userOp|] eqn:Hu.
    + rewrite (cloneTiedUse_lookupOp _ _ _ _ userOp) in Hstep by done.
      case_decide as Hfresh.
      * injection Hstep as <-.
        destruct (loop_old queryValueSize aff T _ id _ Hstep')
          as (g & Hg & _).
        rewrite Hl in Hg. by injection Hg as ->.
      * case_decide as Huser; [subst id|]; congruence.
    + rewrite cloneTiedUse_None in Hstep by done. congruence.
Qed.

(** After the loop over its tied uses, a result has no tied use outside
    of the awaits. *)
Lemma loop_no_tied_use cur j :
  NoDup (op_id <$> cur) → is_Some (lookupOp cur (op_id op)) →
  cowTiedUses
    (foldl (cloneTiedUse queryValueSize (op_affinity op)) cur
       (tiedUseOf (OpResult (op_id op) j)
          <$> cowTiedUses cur (OpResult (op_id op) j)))
    (OpResult (op_id op) j) = [].
Proof.
  intros Hnd Hop.
  set (r := OpResult (op_id op) j).
  set (T := tiedUseOf r <$> cowTiedUses cur r).
  set (cur1 := foldl _ cur T).
  assert (NoDup (op_id <$> cur1)) as Hnd1 by (by apply loop_NoDup).
  apply elem_of_nil_inv. intros use Huse.
  apply elem_of_cowTiedUses in Huse as (Huse & owner & Howner & Hname & Htied).
  apply getUses_operandAt in Huse; [|done].
  unfold operandAt in Huse. rewrite Howner in Huse. simpl in Huse.
  destruct (lookupOp cur use.1) as [o|] eqn:Hold.
  - destruct (loop_old queryValueSize (op_affinity op) T cur use.1 o Hold)
      as (g & Hg & _ & _ & Hk).
    fold cur1 in Hg. rewrite Howner in Hg. injection Hg as ->.
    destruct (decide (use ∈ cowTiedUses cur r)) as [Hin|Hnin].
    + destruct (loop_rewritten queryValueSize (op_affinity op) T cur)
        with (t := tiedUseOf r use)
        as (userOp & n & _ & Hn & Hat & _).
      * unfold T. rewrite slot_tiedUseOf.
        apply NoDup_filter. by apply NoDup_getUses.
      * intros t Ht. apply list_elem_of_fmap in Ht as (use' & -> & Huse').
        destruct (cowTiedUses_slots op cur j use' Hnd Huse') as (o' & Ho' & Hat).
        exists o'. split; [done|]. by eapply lookup_lt_Some.
      * by apply list_elem_of_fmap_2.
      * fold cur1 in Hat. unfold operandAt, slot in Hat. simpl in Hat.
        rewrite Howner in Hat. simpl in Hat.
        assert (n = op_id op) as -> by (unfold r in *; congruence).
        destruct Hop as [x Hx]. congruence.
    + apply Hnin. apply elem_of_cowTiedUses. split.
      * apply getUses_operandAt; [done|]. unfold operandAt.
        rewrite Hold. simpl. rewrite <- Huse. symmetry. apply Hk.
        unfold T. rewrite slot_tiedUseOf. by destruct use.
      * exists o. done.
  - unfold isOperandTied in Htied.
    rewrite (loop_new _ _ _ _ _ Howner Hold) in Htied.
    apply bool_decide_eq_true in Htied.
    by apply elem_of_nil in Htied.
Qed.

(** A round of the loop over the results leaves the classification of the
    uses of the other resource results as it is. *)
Lemma materializeResult_other cur b j' ty' j lifetime :
  NoDup (op_id <$> cur) → op_id op ∈ op_id <$> cur →
  op_result_types op !! j = Some (ResourceType lifetime) → j ≠ j' →
  cowTiedUses (materializeResult queryValueSize op (b, cur) (j', ty')).2
    (OpResult (op_id op) j)
  = cowTiedUses cur (OpResult (op_id op) j)
  ∧ cowUntiedUses (materializeResult queryValueSize op (b, cur) (j', ty')).2
      (OpResult (op_id op) j)
    = cowUntiedUses cur (OpResult (op_id op) j).
Proof.
  intros Hnd Hop Hty Hne.
  destruct (materializeResult_frame queryValueSize op cur b j' ty' Hnd)
    as (_ & Hold & Huses & _).
  unfold cowTiedUses, cowUntiedUses. rewrite Huses.
  2: { intros [= Heq]. done. }
  2: { by eapply Hsize. }
  2: { by intros n k [= <- _]. }
  assert (∀ use, use ∈ getUses cur (OpResult (op_id op) j) →
            ownedByAwait
              (materializeResult queryValueSize op (b, cur) (j', ty')).2 use
            = ownedByAwait cur use
            ∧ tiedUse
                (materializeResult queryValueSize op (b, cur) (j', ty')).2 use
              = tiedUse cur use) as Hsame.
  { intros use Huse. apply getUses_lookupOp in Huse as [o Ho].
    destruct (Hold _ _ Ho) as (g & Hg & _).
    unfold ownedByAwait, tiedUse. by rewrite Ho, Hg. }
  split; apply filter_ext_elem_of; intros use Huse;
    destruct (Hsame use Huse) as [-> ->]; done.
Qed.

(** After the loop over the results every resource result is one that the
    loop leaves alone. *)
Lemma rounds_stable rs :
  ∀ cur b (D : nat → Lifetime → Prop),
    NoDup (op_id <$> cur) →
    (∃ g, lookupOp cur (op_id op) = Some (withOperands op g)) →
    NoDup (fst <$> rs) →
    (∀ j ty, (j, ty) ∈ rs → op_result_types op !! j = Some ty) →
    (∀ j lt, D j lt →
       op_result_types op !! j = Some (ResourceType lt)
       ∧ j ∉ fst <$> rs
       ∧ keepsResult lt (cowTiedUses cur (OpResult (op_id op) j))
           (cowUntiedUses cur (OpResult (op_id op) j)) = true) →
    (∃ g, lookupOp (foldl (materializeResult queryValueSize op) (b, cur) rs).2
            (op_id op) = Some (withOperands op g))
    ∧ ∀ j lt,
        D j lt ∨ (j, ResourceType lt) ∈ rs →
        keepsResult lt
          (cowTiedUses
             (foldl (materializeResult queryValueSize op) (b, cur) rs).2
             (OpResult (op_id op) j))
          (cowUntiedUses
             (foldl (materializeResult queryValueSize op) (b, cur) rs).2
             (OpResult (op_id op) j)) = true.
Proof.
  induction rs as [|[j' ty'] rs IH]; intros cur b D Hnd Hop Hrs Htys HD; simpl.
  - split; [done|]. intros j lt [Hd|Hin]; [by apply HD|].
    by apply elem_of_nil in Hin.
  - csimpl in Hrs. apply NoDup_cons in Hrs as [Hj' Hrs].
    destruct (materializeResult_frame queryValueSize op cur b j' ty' Hnd)
      as (Hnd1 & Hold & _ & _).
    assert (op_id op ∈ op_id <$> cur) as Hin.
    { apply lookupOp_is_Some. destruct Hop as [g Hg]. eauto. }
    destruct (materializeResult queryValueSize op (b, cur) (j', ty'))
      as [b1 cur1] eqn:Hstage.
    simpl in Hnd1, Hold.
    destruct (IH cur1 b1
                (fun j lt => D j lt ∨ (j = j' ∧ ty' = ResourceType lt)))
      as [Hop1 Hstable]; try done.
    + destruct Hop as [g Hg]. destruct (Hold _ _ Hg) as (g1 & Hg1 & _).
      by exists g1.
    + intros j ty Hjt. apply Htys. by right.
    + intros j lt [Hd|[-> ->]].
      * destruct (HD j lt Hd) as (Hty & Hnot & Hkeep).
        apply not_elem_of_cons in Hnot as [Hne Hnot].
        split; [done|]. split; [done|].
        destruct (materializeResult_other cur b j' ty' j lt)
          as [Ht Hu]; try done.
        rewrite Hstage in Ht, Hu. simpl in Ht, Hu. by rewrite Ht, Hu.
      * split; [apply Htys; left|]. split; [done|].
        rewrite materializeResult_unfold in Hstage. simpl in Hstage.
        destruct (keepsResult lt _ _) eqn:Hkeep.
        -- by injection Hstage as <- <-.
        -- injection Hstage as <- <-.
           rewrite loop_no_tied_use; [done|done|].
           destruct Hop as [g Hg]. eauto.
    + split; [done|]. intros j lt [Hd|Hjt].
      * apply Hstable. left. by left.
      * apply elem_of_cons in Hjt as [[= -> <-]|Hjt].
        -- apply Hstable. left. by right.
        -- apply Hstable. by right.
Qed.

End MaterializeCOW_again.

(** X21: MaterializeCOW reaches a fixed point in one application.  Run
    again on the op it has just treated, it finds no result with a tied
    use to clone for, fails and leaves the IR as it is. *)
Theorem MaterializeCOW_fixed_point queryValueSize ir op :
  NoDup (op_id <$> ir) →
  lookupOp ir (op_id op) = Some op →
  (∀ v j lt, op_result_types op !! j = Some (ResourceType lt) →
             queryValueSize v ≠ OpResult (op_id op) j) →
  ∃ op',
    lookupOp (MaterializeCOW queryValueSize ir op).2 (op_id op) = Some op'
    ∧ MaterializeCOW queryValueSize
        (MaterializeCOW queryValueSize ir op).2 op'
      = (failure, (MaterializeCOW queryValueSize ir op).2).
Proof.
  intros Hnd Hop Hsize.
  destruct (rounds_stable queryValueSize op Hsize
              (imap pair (op_result_types op)) ir false (fun _ _ => False))
    as [[g Hg] Hstable]; try done.
  - exists (op_operands op). by rewrite withOperands_id.
  - rewrite (fst_imap_pair _ 0). apply NoDup_seq.
  - intros j ty. by apply elem_of_imap_pair.
  - exists (withOperands op g). split; [exact Hg|].
    unfold MaterializeCOW at 1. simpl.
    rewrite rounds_unchanged; [done|].
    intros j lt Hjt. apply Hstable. by right.
Qed.

Lemma MaterializeCOW_fixed_point_witness :
  ∃ op',
    lookupOp (MaterializeCOW cowSizes cowConstantIR cowConstantOp).2 1
    = Some op'
    ∧ MaterializeCOW cowSizes
        (MaterializeCOW cowSizes cowConstantIR cowConstantOp).2 op'
      = (failure, (MaterializeCOW cowSizes cowConstantIR cowConstantOp).2).
Proof.
  apply (MaterializeCOW_fixed_point cowSizes cowConstantIR cowConstantOp).
  - by_compute.
  - reflexivity.
  - intros v j lt _. discriminate.
Defined.

(** ** CombineSliceUpdateFromToCopy followed by AsyncCopyFullSourceToUpdate *)

Lemma fmap_op_id_mapOperands f ir : op_id <$> mapOperands f ir = op_id <$> ir.
Proof.
  unfold mapOperands. rewrite <- list_fmap_compose. by apply list_fmap_ext.
Qed.

Lemma max_list_le l m : (∀ x, x ∈ l → x ≤ m) → max_list l ≤ m.
Proof.
  induction l as [|y l IH]; intros Hall; simpl; [lia|].
  pose proof (Hall y ltac:(left)).
  assert (max_list l ≤ m) by (apply IH; intros x Hx; apply Hall; by right).
  lia.
Qed.

Lemma max_list_append l1 l2 :
  max_list (l1 ++ l2) = max_list l1 `max` max_list l2.
Proof. induction l1 as [|x l1 IH]; simpl; [done|]. rewrite IH. lia. Qed.

(** The identity the builder gives out after an op was replaced by the op
    it had given out before. *)
Lemma freshId_replaced (l1 l2 : IR) old new :
  op_id new = freshId (l1 ++ old :: l2) →
  freshId (l1 ++ new :: l2) = S (freshId (l1 ++ old :: l2)).
Proof.
  intros Hnew. unfold freshId at 1. f_equal.
  rewrite fmap_app. csimpl. rewrite max_list_append. simpl. rewrite Hnew.
  assert (∀ l : IR, (∀ o, o ∈ l → o ∈ l1 ++ old :: l2) →
                    max_list (op_id <$> l) ≤ freshId (l1 ++ old :: l2))
    as Hbound.
  { intros l Hsub. apply max_list_le. intros x Hx.
    apply list_elem_of_fmap in Hx as (o & -> & Ho).
    apply Hsub, freshId_fresh in Ho. lia. }
  pose proof (Hbound l1 ltac:(intros o Ho; apply elem_of_app; by left)).
  pose proof (Hbound l2
                ltac:(intros o Ho; apply elem_of_app; right; by right)).
  lia.
Qed.

(** X22: the two rewrites of an update from a slice, one after the other.
    CombineSliceUpdateFromToCopy puts a copy in the place of the update;
    AsyncCopyFullSourceToUpdate fires on that copy exactly when the end
    and the size operand of the slice's source range are the same value,
    whatever the offset of the slice is.  The copy then gives way to an
    update of the same target range whose update operand is the source of
    the slice, under the size of that source instead of the size of the
    slice; the consumers of the first update read the last one, and no
    other op changes. *)
Theorem CombineSliceUpdate_then_CopyToUpdate ir updateOp sliceOp :
  NoDup (op_id <$> ir) → updateOp ∈ ir →
  length (op_result_types updateOp) = 1 →
  dynCastDefiningOp ir stream_async_slice (AsyncUpdateOp.update updateOp)
  = Some sliceOp →
  (CombineSliceUpdateFromToCopy ir updateOp).1 = success →
  AsyncSliceOp.source_end sliceOp ≠ OpResult (op_id updateOp) 0 →
  AsyncSliceOp.source_size sliceOp ≠ OpResult (op_id updateOp) 0 →
  ∃ copyOp,
    lookupOp (CombineSliceUpdateFromToCopy ir updateOp).2 (freshId ir)
    = Some copyOp
    ∧ op_name copyOp = stream_async_copy
    ∧ ((AsyncCopyFullSourceToUpdate
          (CombineSliceUpdateFromToCopy ir updateOp).2 copyOp).1 = success
       ↔ AsyncSliceOp.source_end sliceOp = AsyncSliceOp.source_size sliceOp)
    ∧ (AsyncSliceOp.source_end sliceOp = AsyncSliceOp.source_size sliceOp →
       ∃ l1 l2,
         ir = l1 ++ updateOp :: l2
         ∧ (AsyncCopyFullSourceToUpdate
              (CombineSliceUpdateFromToCopy ir updateOp).2 copyOp).2
           = mapOperands
               (replaceValue (OpResult (freshId ir) 0)
                  (OpResult (S (freshId ir)) 0)
                ∘ replaceValue (OpResult (op_id updateOp) 0)
                    (OpResult (freshId ir) 0))
               (l1
                ++ AsyncUpdateOp.build (S (freshId ir)) (op_block updateOp)
                     (op_result_types updateOp)
                     (AsyncUpdateOp.target updateOp)
                     (AsyncUpdateOp.target_size updateOp)
                     (AsyncUpdateOp.target_offset updateOp)
                     (AsyncUpdateOp.target_end updateOp)
                     (AsyncSliceOp.source sliceOp)
                     (AsyncSliceOp.source_size sliceOp)
                     (op_tied_operands updateOp) (op_affinity updateOp)
                :: l2)).
Proof.
  intros Hnd Hin Hres Hslice Hsucc Hend Hsize.
  set (copy := sliceUpdateCopy ir updateOp sliceOp).
  assert (CombineSliceUpdateFromToCopy ir updateOp
          = (success, replaceOpWithNewOp ir updateOp copy)) as Hrun.
  { revert Hsucc. unfold CombineSliceUpdateFromToCopy. rewrite Hslice.
    case_decide; [done|].
    destruct (definingOp ir (AsyncUpdateOp.target updateOp)); [|done].
    destruct (_ || _); done. }
  rewrite Hrun. simpl. clear Hrun Hsucc.
  destruct (replaceOpWithNewOp_at ir updateOp copy Hnd Hin eq_refl Hres)
    as (l1 & l2 & Hir & Hclosed).
  rewrite Hclosed.
  set (f1 := replaceValue (OpResult (op_id updateOp) 0)
               (OpResult (freshId ir) 0)).
  set (copy' := withOperands copy (fmap (M:=list) f1 <$> op_operands copy)).
  assert (mapOperands f1 (l1 ++ copy :: l2)
          = mapOperands f1 l1 ++ copy' :: mapOperands f1 l2) as Hir1.
  { unfold mapOperands. by rewrite fmap_app. }
  assert (freshId ir ∉ op_id <$> l1 ∧ freshId ir ∉ op_id <$> l2)
    as [Hf1 Hf2].
  { pose proof (freshId_not_elem_of ir) as Hfresh. rewrite Hir in Hfresh.
    rewrite fmap_app in Hfresh. csimpl in Hfresh.
    rewrite elem_of_app, elem_of_cons in Hfresh. naive_solver. }
  assert (f1 (AsyncSliceOp.source_end sliceOp)
          = AsyncSliceOp.source_end sliceOp) as Hfe
    by (unfold f1, replaceValue; by rewrite decide_False).
  assert (f1 (AsyncSliceOp.source_size sliceOp)
          = AsyncSliceOp.source_size sliceOp) as Hfs
    by (unfold f1, replaceValue; by rewrite decide_False).
  exists copy'. split.
  { rewrite Hir1. change (freshId ir) with (op_id copy').
    apply lookupOp_elem_of.
    - rewrite <- Hir1, fmap_op_id_mapOperands, fmap_app. csimpl.
      rewrite Hir, fmap_app in Hnd. csimpl in Hnd.
      apply NoDup_app in Hnd as (Hn1 & Hdisj & Hn2).
      apply NoDup_cons in Hn2 as [_ Hn2].
      apply NoDup_app. split; [done|]. split.
      + intros x Hx Hx'. apply elem_of_cons in Hx' as [->|Hx']; [done|].
        apply (Hdisj x Hx). by right.
      + apply NoDup_cons. done.
    - apply elem_of_app. right. left. }
  split; [done|].
  assert (AsyncCopyOp.source_end copy' = f1 (AsyncSliceOp.source_end sliceOp))
    as Hce by done.
  assert (AsyncCopyOp.source_size copy'
          = f1 (AsyncSliceOp.source_size sliceOp)) as Hcs by done.
  unfold AsyncCopyFullSourceToUpdate. rewrite Hce, Hcs, Hfe, Hfs.
  split.
  { case_decide; simpl; [done|]. split; [done|]. intros Heq. done. }
  intros Heq. rewrite decide_True by done. simpl.
  exists l1, l2. split; [done|].
  rewrite Hir1.
  set (new := copyAsUpdate _ copy').
  assert (op_id new = S (freshId ir)) as Hnew.
  { unfold new, copyAsUpdate, AsyncUpdateOp.build. simpl.
    rewrite <- Hir1. unfold freshId at 1.
    rewrite fmap_op_id_mapOperands.
    change (S (max_list (op_id <$> l1 ++ copy :: l2)))
      with (freshId (l1 ++ copy :: l2)).
    rewrite (freshId_replaced l1 l2 updateOp copy) by (by rewrite <- Hir).
    by rewrite <- Hir. }
  rewrite replaceOpWithNewOp_closed.
  - rewrite Hnew. rewrite <- mapOperands_compose.
    f_equal. unfold mapOperands at 3. rewrite fmap_app. csimpl.
    f_equal. f_equal. unfold new, copyAsUpdate, AsyncUpdateOp.build.
    f_equal. rewrite <- Hir1. unfold freshId at 1.
    rewrite fmap_op_id_mapOperands.
    change (S (max_list (op_id <$> l1 ++ copy :: l2)))
      with (freshId (l1 ++ copy :: l2)).
    rewrite (freshId_replaced l1 l2 updateOp copy) by (by rewrite <- Hir).
    by rewrite <- Hir.
  - by rewrite fmap_op_id_mapOperands.
  - by rewrite fmap_op_id_mapOperands.
  - rewrite Hnew. simpl. lia.
  - done.
Qed.

Lemma CombineSliceUpdate_then_CopyToUpdate_witness :
  ∃ copyOp,
    lookupOp (CombineSliceUpdateFromToCopy tailUpdateIR tailUpdateOp).2 5
    = Some copyOp
    ∧ (AsyncCopyFullSourceToUpdate
         (CombineSliceUpdateFromToCopy tailUpdateIR tailUpdateOp).2 copyOp).1
      = success.
Proof.
  destruct (CombineSliceUpdate_then_CopyToUpdate tailUpdateIR tailUpdateOp
              tailSliceOp) as (copyOp & Hlook & _ & Hiff & _).
  - by_compute.
  - by_compute.
  - reflexivity.
  - reflexivity.
  - reflexivity.
  - discriminate.
  - discriminate.
  - exists copyOp. split; [exact Hlook|]. by apply Hiff.
Defined.

(** On the example the update from the slice that starts at the offset
    [%arg2] ends as an update from the whole source [%arg0] under the size
    [%arg1] of the source. *)
Example CombineSliceUpdate_then_CopyToUpdate_example :
  (AsyncCopyFullSourceToUpdate
     (CombineSliceUpdateFromToCopy tailUpdateIR tailUpdateOp).2
     (AsyncCopyOp.build 5 0 [ResourceType Transient]
        (OpResult 1 0) (BlockArgument 0 4) (BlockArgument 0 5)
        (BlockArgument 0 6) (BlockArgument 0 0) (BlockArgument 0 1)
        (BlockArgument 0 2) (BlockArgument 0 1) (BlockArgument 0 3)
        [Some 0] None)).2
  = [mkOp 1 other_op 0 [] [ResourceType Transient] [] None;
     tailSliceOp;
     AsyncUpdateOp.build 6 0 [ResourceType Transient]
       (OpResult 1 0) (BlockArgument 0 4) (BlockArgument 0 5)
       (BlockArgument 0 6) (BlockArgument 0 0) (BlockArgument 0 1)
       [Some 0] None;
     mkOp 4 other_op 0 [[OpResult 6 0]] [] [] None].
Proof. reflexivity. Qed.

(** ** PropagateClonableOps *)

Lemma usesIn_ge v owner j l (use : OpId * nat) :
  use ∈ usesIn v owner j l → use.1 = owner ∧ j ≤ use.2.
Proof.
  intros Hin. apply elem_of_usesIn in Hin as (k & -> & _). simpl.
  split; [done|lia].
Qed.

(** Overwriting a slot removes the use it held. *)
Lemma usesIn_insert_filter v owner l new :
  new ≠ v →
  ∀ j k,
    usesIn v owner j (<[k := new]> l)
    = filter (fun use => use ≠ (owner, j + k)) (usesIn v owner j l).
Proof.
  intros Hnew. induction l as [|x l IH]; intros j k; [done|].
  destruct k as [|k]; simpl.
  - rewrite decide_False by done. simpl. rewrite filter_app.
    replace (j + 0) with j by lia.
    rewrite (filter_all _ (usesIn v owner (S j) l)).
    2: { intros use Huse. apply usesIn_ge in Huse as [_ Hge]. intros ->.
         simpl in Hge. lia. }
    case_decide; [|done].
    rewrite filter_cons, decide_False; [done|]. intros Hne. by apply Hne.
  - rewrite IH, filter_app. replace (S j + k) with (j + S k) by lia.
    f_equal. case_decide; [|done].
    rewrite filter_cons, decide_True; [done|]. intros [=]. lia.
Qed.

Lemma getUses_setOperand_filter ir u k new v :
  new ≠ v →
  getUses (setOperand ir u k new) v
  = filter (fun use => use ≠ (u, k)) (getUses ir v).
Proof.
  intros Hnew. unfold getUses. rewrite filter_reverse. f_equal.
  unfold usesInProgramOrder, setOperand, updateOp.
  induction ir as [|o ir IH]; csimpl; [done|].
  rewrite filter_app, IH. f_equal.
  case_decide as Hid.
  - unfold getOperands at 1. simpl. rewrite getOperands_setOperandIn.
    rewrite usesIn_insert_filter by done. by subst u.
  - symmetry. apply filter_all. intros use Huse.
    apply usesIn_ge in Huse as [Hown _]. intros ->. simpl in Hown. done.
Qed.

Lemma length_insertBefore ir target new :
  target ∈ op_id <$> ir → length (insertBefore ir target new) = S (length ir).
Proof.
  induction ir as [|o ir IH]; csimpl; intros Hin.
  - by apply elem_of_nil in Hin.
  - case_decide as Hid; [done|]. simpl. f_equal. apply IH.
    apply elem_of_cons in Hin as [Heq|Hin]; [congruence|done].
Qed.

Lemma length_eraseOp ir id :
  NoDup (op_id <$> ir) → id ∈ op_id <$> ir →
  S (length (eraseOp ir id)) = length ir.
Proof.
  intros Hnd Hin. apply list_elem_of_fmap in Hin as (o & -> & Ho).
  destruct (ir_split ir o Hnd Ho) as (l1 & l2 & -> & H1 & H2).
  rewrite eraseOp_app, eraseOp_not_elem_of by done.
  unfold eraseOp at 1. rewrite filter_cons, decide_False
    by (intros Hne; by apply Hne).
  fold (eraseOp l2 (op_id o)). rewrite eraseOp_not_elem_of by done.
  rewrite !length_app. simpl. lia.
Qed.

Lemma use_empty_single ir op :
  length (op_result_types op) = 1 →
  use_empty ir op = bool_decide (getUses ir (OpResult (op_id op) 0) = []).
Proof.
  intros Hres. unfold use_empty. rewrite getResults_single by done.
  simpl. by rewrite andb_true_r.
Qed.

Lemma cloneForUse_lookupOp source ir use owner sourceOp id :
  lookupOp ir use.1 = Some owner → lookupOp ir source = Some sourceOp →
  lookupOp (cloneForUse source ir use) id
  = if decide (id = freshId ir) then
      Some (cloneOperation (freshId ir) (op_block owner) sourceOp)
    else if decide (id = use.1) then
      Some (withOperands owner
              (setOperandIn (op_operands owner) use.2
                 (OpResult (freshId ir) 0)))
    else lookupOp ir id.
Proof.
  intros Ho Hs. unfold cloneForUse. rewrite Ho, Hs. simpl.
  rewrite lookupOp_setOperand, lookupOp_insertBefore;
    [|apply lookupOp_is_Some; eauto|apply freshId_not_elem_of].
  simpl. case_decide as Hfresh.
  - subst id. simpl. rewrite decide_False; [done|]. intros Heq.
    pose proof (lookupOp_freshId ir) as Hnone. rewrite Heq in Hnone.
    congruence.
  - case_decide as Hu.
    + subst id. rewrite Ho. simpl. rewrite decide_True; [done|].
      by apply lookupOp_Some in Ho as [_ ?].
    + destruct (lookupOp ir id) as [o|] eqn:Hl; [|done]. simpl.
      rewrite decide_False; [done|].
      apply lookupOp_Some in Hl as [_ Hid]. congruence.
Qed.

Lemma cloneForUse_NoDup source ir use :
  NoDup (op_id <$> ir) → NoDup (op_id <$> cloneForUse source ir use).
Proof.
  intros Hnd. unfold cloneForUse.
  destruct (lookupOp ir use.1) as [owner|] eqn:Ho; [|done].
  destruct (lookupOp ir source) as [s|]; [|done]. simpl.
  unfold setOperand. rewrite fmap_op_id_updateOp by done.
  rewrite fmap_op_id_insertBefore.
  apply NoDup_insertIdBefore; [done| |apply freshId_not_elem_of].
  apply lookupOp_is_Some. eauto.
Qed.

Lemma cloneForUse_length source ir use owner sourceOp :
  lookupOp ir use.1 = Some owner → lookupOp ir source = Some sourceOp →
  length (cloneForUse source ir use) = S (length ir).
Proof.
  intros Ho Hs. unfold cloneForUse. rewrite Ho, Hs. simpl.
  unfold setOperand, updateOp. rewrite length_fmap.
  apply length_insertBefore. apply lookupOp_is_Some. eauto.
Qed.

Section PropagateClonableOps_loop.

Variable source : OpId.
Variable sourceOp : Operation.
Variable c : OpId.

Hypothesis Hsource : OpResult c 0 ∉ getOperands sourceOp.

(** The loop over the uses of [OpResult c 0], started on an IR in which
    these are the uses [todo]. *)
Lemma cloneForUse_loop todo :
  ∀ cur,
    NoDup (op_id <$> cur) → c ∈ op_id <$> cur →
    lookupOp cur source = Some sourceOp →
    getUses cur (OpResult c 0) = todo →
    NoDup (op_id <$> foldl (cloneForUse source) cur todo)
    ∧ getUses (foldl (cloneForUse source) cur todo) (OpResult c 0) = []
    ∧ length (foldl (cloneForUse source) cur todo)
      = length cur + length todo
    ∧ (∀ id o,
         lookupOp cur id = Some o →
         ∃ g, lookupOp (foldl (cloneForUse source) cur todo) id
              = Some (withOperands o g)
              ∧ (∀ k, getOperands o !! k ≠ Some (OpResult c 0) →
                      concat g !! k = getOperands o !! k)
              ∧ ((∀ k, getOperands o !! k ≠ Some (OpResult c 0)) →
                 g = op_operands o))
    ∧ (∀ use,
         use ∈ todo →
         ∃ n userOp,
           lookupOp cur use.1 = Some userOp
           ∧ lookupOp cur n = None
           ∧ operandAt (foldl (cloneForUse source) cur todo) use
             = Some (OpResult n 0)
           ∧ lookupOp (foldl (cloneForUse source) cur todo) n
             = Some (cloneOperation n (op_block userOp) sourceOp)).
Proof.
  induction todo as [|u rest IH]; intros cur Hnd Hc Hs Huses; simpl.
  { split; [done|]. split; [done|]. split; [lia|]. split.
    - intros id o Ho. exists (op_operands o).
      by rewrite withOperands_id.
    - intros use Huse. by apply elem_of_nil in Huse. }
  assert (u ∈ getUses cur (OpResult c 0)) as Hu by (rewrite Huses; left).
  destruct (getUses_lookupOp _ _ _ Hu) as [owner Ho].
  pose proof (proj1 (getUses_operandAt cur _ u Hnd) Hu) as Hat.
  unfold operandAt in Hat. rewrite Ho in Hat. simpl in Hat.
  pose proof (fun id =>
                cloneForUse_lookupOp source cur u owner sourceOp id Ho Hs)
    as Hlook.
  assert (c ≠ freshId cur) as Hcfresh.
  { intros ->. by apply (freshId_not_elem_of cur). }
  assert (∀ id o, lookupOp cur id = Some o → id ≠ freshId cur) as Hold.
  { intros id o Hl ->. rewrite lookupOp_freshId in Hl. done. }
  assert (source ≠ u.1) as Hsu.
  { intros ->. rewrite Ho in Hs. injection Hs as ->.
    apply Hsource. by eapply list_elem_of_lookup_2. }
  set (cur1 := cloneForUse source cur u) in *.
  destruct (IH cur1) as (Hnd' & Huses' & Hlen' & Hframe' & Hdone').
  { by apply cloneForUse_NoDup. }
  { apply lookupOp_is_Some. apply lookupOp_is_Some in Hc as [oc Hoc].
    rewrite Hlook. rewrite decide_False by done. case_decide; eauto. }
  { rewrite Hlook, decide_False, decide_False; [done|done|].
    by eapply Hold. }
  { unfold cur1, cloneForUse. rewrite Ho, Hs. simpl.
    rewrite getUses_setOperand_filter by (intros [=]; done).
    rewrite getUses_insertBefore by done.
    rewrite Huses. pose proof (NoDup_getUses cur (OpResult c 0) Hnd) as Hndu.
    rewrite Huses in Hndu. apply NoDup_cons in Hndu as [Hnotin _].
    destruct u as [u1 u2]. simpl.
    rewrite filter_cons, decide_False by (intros Hne; by apply Hne).
    apply filter_all. intros x Hx ->. done. }
  split; [done|]. split; [done|]. split.
  { rewrite Hlen'. unfold cur1.
    rewrite (cloneForUse_length source cur u owner sourceOp) by done.
    simpl. lia. }
  split.
  - intros id o Hl. pose proof (Hold _ _ Hl) as Hne.
    specialize (Hlook id). rewrite decide_False in Hlook by done.
    destruct (decide (id = u.1)) as [->|Hnu].
    + rewrite Ho in Hl. injection Hl as <-.
      destruct (Hframe' _ _ Hlook) as (g & Hg & Hk & _).
      exists g. split; [done|]. split.
      * intros k Hkne. rewrite Hk.
        -- unfold getOperands at 1. simpl. rewrite getOperands_setOperandIn.
           apply list_lookup_insert_ne. intros <-. done.
        -- unfold getOperands at 1. simpl. rewrite getOperands_setOperandIn.
           rewrite list_lookup_insert_ne by (intros <-; done). done.
      * intros Hall. by specialize (Hall u.2).
    + rewrite Hl in Hlook. by apply Hframe'.
  - intros use Huse. apply elem_of_cons in Huse as [->|Huse].
    + exists (freshId cur), owner. split; [done|].
      split; [apply lookupOp_freshId|]. split.
      * pose proof (Hlook u.1) as Hl1.
        rewrite decide_False, decide_True in Hl1 by (done || by eapply Hold).
        destruct (Hframe' _ _ Hl1) as (g & Hg & Hk & _).
        unfold operandAt. rewrite Hg. simpl.
        change (getOperands (withOperands _ g)) with (concat g).
        rewrite Hk.
        -- unfold getOperands. simpl. rewrite getOperands_setOperandIn.
           apply list_lookup_insert_eq. by eapply lookup_lt_Some.
        -- unfold getOperands. simpl. rewrite getOperands_setOperandIn.
           rewrite list_lookup_insert_eq by (by eapply lookup_lt_Some).
           intros [=]. done.
      * pose proof (Hlook (freshId cur)) as Hl1.
        rewrite decide_True in Hl1 by done.
        destruct (Hframe' _ _ Hl1) as (g & Hg & _ & Hsame).
        rewrite Hg, Hsame; [by rewrite withOperands_id|].
        intros k Hk. apply Hsource.
        change (getOperands (cloneOperation _ _ sourceOp))
          with (getOperands sourceOp) in Hk.
        by eapply list_elem_of_lookup_2.
    + destruct (Hdone' use Huse) as (n & userOp1 & Hu1 & Hn1 & Hat1 & Hcl1).
      assert (use ∈ getUses cur (OpResult c 0)) as Huse'
        by (rewrite Huses; by right).
      destruct (getUses_lookupOp _ _ _ Huse') as [userOp Huser].
      exists n, userOp. split; [done|].
      assert (op_block userOp1 = op_block userOp) as Hblock.
      { pose proof (Hlook use.1) as Hl1.
        rewrite decide_False in Hl1 by (by eapply Hold).
        rewrite Hu1 in Hl1. case_decide as Heq.
        - rewrite Heq, Ho in Huser. injection Huser as <-.
          by injection Hl1 as ->.
        - congruence. }
      split.
      * pose proof (Hlook n) as Hl1. rewrite Hn1 in Hl1.
        do 2 (case_decide; [done|]). done.
      * split; [done|]. by rewrite <- Hblock.
Qed.

End PropagateClonableOps_loop.

(** X23: PropagateClonableOps fires exactly when the clone has a use and
    the op that defines its source prefers to be cloned; otherwise the IR
    is left as it is.  When it fires, every operand slot that held the
    clone's result reads result 0 of a copy of the source op of its own,
    new to the IR and placed in the block of the consumer; the async.clone
    is always erased and no operand refers to it any more; the IR has one
    op more for every use but the first; and every other operand of every
    other op is as it was. *)
Theorem PropagateClonableOps_spec
    (preferCloneToConsumers : Operation → bool) ir cloneOp sourceOp :
  NoDup (op_id <$> ir) →
  lookupOp ir (op_id cloneOp) = Some cloneOp →
  length (op_result_types cloneOp) = 1 →
  definingOp ir (AsyncCloneOp.source cloneOp) = Some sourceOp →
  AsyncCloneOp.result cloneOp ∉ getOperands sourceOp →
  AsyncCloneOp.result cloneOp ∉ getOperands cloneOp →
  ((PropagateClonableOps preferCloneToConsumers ir cloneOp).1 = success
   ↔ getUses ir (AsyncCloneOp.result cloneOp) ≠ []
     ∧ preferCloneToConsumers sourceOp = true)
  ∧ ((PropagateClonableOps preferCloneToConsumers ir cloneOp).1 = failure →
     (PropagateClonableOps preferCloneToConsumers ir cloneOp).2 = ir)
  ∧ ((PropagateClonableOps preferCloneToConsumers ir cloneOp).1 = success →
     lookupOp (PropagateClonableOps preferCloneToConsumers ir cloneOp).2
       (op_id cloneOp) = None
     ∧ (∀ o, o ∈ (PropagateClonableOps preferCloneToConsumers ir cloneOp).2 →
             AsyncCloneOp.result cloneOp ∉ getOperands o)
     ∧ length (PropagateClonableOps preferCloneToConsumers ir cloneOp).2 + 1
       = length ir + length (getUses ir (AsyncCloneOp.result cloneOp))
     ∧ (∀ use,
          use ∈ getUses ir (AsyncCloneOp.result cloneOp) →
          ∃ n userOp,
            lookupOp ir use.1 = Some userOp
            ∧ lookupOp ir n = None
            ∧ operandAt
                (PropagateClonableOps preferCloneToConsumers ir cloneOp).2
                use = Some (OpResult n 0)
            ∧ lookupOp
                (PropagateClonableOps preferCloneToConsumers ir cloneOp).2 n
              = Some (mkOp n (op_name sourceOp) (op_block userOp)
                        (op_operands sourceOp) (op_result_types sourceOp)
                        (op_tied_operands sourceOp) (op_affinity sourceOp)))
     ∧ (∀ id o,
          lookupOp ir id = Some o → id ≠ op_id cloneOp →
          ∃ g,
            lookupOp
              (PropagateClonableOps preferCloneToConsumers ir cloneOp).2 id
            = Some (withOperands o g)
            ∧ ∀ k, getOperands o !! k ≠ Some (AsyncCloneOp.result cloneOp) →
                   concat g !! k = getOperands o !! k)).
Proof.
  intros Hnd Hclone Hres Hdef Hsrc Hself.
  unfold PropagateClonableOps. rewrite Hdef.
  rewrite (use_empty_single ir cloneOp Hres).
  change (OpResult (op_id cloneOp) 0) with (AsyncCloneOp.result cloneOp).
  destruct (decide (getUses ir (AsyncCloneOp.result cloneOp) = []))
    as [Hnil|Hne].
  { rewrite bool_decide_eq_true_2 by done. simpl.
    split; [|done]. split; [done|]. by intros [? _]. }
  rewrite bool_decide_eq_false_2 by done. simpl.
  destruct (preferCloneToConsumers sourceOp) eqn:Hprefer; simpl.
  2: { split; [|done]. split; [done|]. by intros [_ ?]. }
  split; [done|]. split; [done|]. intros _.
  assert (lookupOp ir (op_id sourceOp) = Some sourceOp) as Hs.
  { unfold definingOp in Hdef.
    destruct (getDefiningOp (AsyncCloneOp.source cloneOp)) as [id|];
      simpl in Hdef; [|done].
    by destruct (lookupOp_Some _ _ _ Hdef) as [_ <-]. }
  destruct (cloneForUse_loop (op_id sourceOp) sourceOp (op_id cloneOp) Hsrc
              (getUses ir (AsyncCloneOp.result cloneOp)) ir)
    as (Hnd1 & Huses1 & Hlen1 & Hframe1 & Hdone1); try done.
  { apply lookupOp_is_Some. eauto. }
  set (ir1 := foldl _ ir _) in *.
  rewrite (use_empty_single ir1 cloneOp Hres).
  change (OpResult (op_id cloneOp) 0) with (AsyncCloneOp.result cloneOp).
  rewrite bool_decide_eq_true_2 by done.
  assert (∀ use, use ∈ getUses ir (AsyncCloneOp.result cloneOp) →
                 use.1 ≠ op_id cloneOp) as Hnotself.
  { intros use Huse Heq.
    apply getUses_operandAt in Huse; [|done]. unfold operandAt in Huse.
    rewrite Heq, Hclone in Huse. simpl in Huse.
    apply Hself. by eapply list_elem_of_lookup_2. }
  split; [apply lookupOp_eraseOp_eq|]. split.
  { intros o Ho. apply elem_of_eraseOp in Ho as [_ Ho].
    by apply (proj1 (getUses_nil ir1 _) Huses1). }
  split.
  { rewrite <- Hlen1. rewrite Nat.add_1_r. apply length_eraseOp; [done|].
    destruct (Hframe1 _ _ Hclone) as (g & Hg & _).
    apply lookupOp_is_Some. eauto. }
  split.
  - intros use Huse.
    destruct (Hdone1 use Huse) as (n & userOp & Hu & Hn & Hat & Hcl).
    exists n, userOp. split; [done|]. split; [done|]. split.
    + unfold operandAt in *. rewrite lookupOp_eraseOp.
      rewrite decide_False by (by apply Hnotself). done.
    + rewrite lookupOp_eraseOp, decide_False; [done|].
      intros ->. congruence.
  - intros id o Hl Hid. destruct (Hframe1 _ _ Hl) as (g & Hg & Hk & _).
    exists g. split; [|done].
    by rewrite lookupOp_eraseOp, decide_False.
Qed.

Lemma PropagateClonableOps_spec_witness :
  (PropagateClonableOps prefersClone clonableIR clonableCloneOp).1 = success
  ∧ lookupOp (PropagateClonableOps prefersClone clonableIR clonableCloneOp).2
      2 = None
  ∧ length (PropagateClonableOps prefersClone clonableIR clonableCloneOp).2
    = 6.
Proof.
  destruct (PropagateClonableOps_spec prefersClone clonableIR clonableCloneOp
              clonableSplatOp) as (Hiff & _ & Hrun).
  - by_compute.
  - reflexivity.
  - reflexivity.
  - reflexivity.
  - by_compute.
  - by_compute.
  - assert ((PropagateClonableOps prefersClone clonableIR clonableCloneOp).1
            = success) as Hs.
    { apply Hiff. split; [|reflexivity]. vm_compute. discriminate. }
    destruct (Hrun Hs) as (Hgone & _ & Hlen & _).
    split; [exact Hs|]. split; [exact Hgone|].
    change (length clonableIR
            + length (getUses clonableIR
                        (AsyncCloneOp.result clonableCloneOp))) with 7
      in Hlen.
    lia.
Defined.

(** On the example the consumer that reads the clone twice gets two
    splats of its own, in its block, and the consumer in block 1 gets one
    in block 1.  The newest use is served first: op 4 gets the first copy
    (op 5), then the second slot of op 3 and then its first slot. *)
Example PropagateClonableOps_example :
  PropagateClonableOps prefersClone clonableIR clonableCloneOp
  = (success,
     [clonableSplatOp;
      mkOp 6 stream_async_splat 0 [[BlockArgument 0 0]; [BlockArgument 0 1]]
           [ResourceType Transient] [] None;
      mkOp 7 stream_async_splat 0 [[BlockArgument 0 0]; [BlockArgument 0 1]]
           [ResourceType Transient] [] None;
      mkOp 3 other_op 0 [[OpResult 7 0; OpResult 6 0]] [] [] None;
      mkOp 5 stream_async_splat 1 [[BlockArgument 0 0]; [BlockArgument 0 1]]
           [ResourceType Transient] [] None;
      mkOp 4 other_op 1 [[OpResult 5 0]] [] [] None]).
Proof. reflexivity. Qed.

(** ** GroupAwaitsByTimepoint: the awaits that are merged *)

Lemma omap_reverse {A B} (f : A → option B) (l : list A) :
  omap f (reverse l) = reverse (omap f l).
Proof.
  induction l as [|x l IH]; [done|].
  rewrite reverse_cons, omap_app, IH. csimpl.
  destruct (f x); csimpl; [by rewrite reverse_cons | by rewrite app_nil_r].
Qed.

Lemma usesIn_app v owner j l1 l2 :
  usesIn v owner j (l1 ++ l2)
  = usesIn v owner j l1 ++ usesIn v owner (j + length l1) l2.
Proof.
  revert j. induction l1 as [|x l1 IH]; intros j; simpl.
  - by rewrite Nat.add_0_r.
  - rewrite IH, <- app_assoc. do 3 f_equal. lia.
Qed.

Lemma usesIn_not_elem_of v owner j l : v ∉ l → usesIn v owner j l = [].
Proof.
  intros Hv. apply elem_of_nil_inv. intros use Huse.
  apply elem_of_usesIn in Huse as (k & _ & Hk).
  apply list_elem_of_lookup_2 in Hk. by apply Hv.
Qed.

Lemma NoDup_ids_filter (P : Operation → Prop) `{!∀ o, Decision (P o)}
    (l : IR) :
  NoDup (op_id <$> l) → NoDup (op_id <$> filter P l).
Proof.
  induction l as [|o l IH]; csimpl; intros Hnd; [constructor|].
  apply NoDup_cons in Hnd as [Ho Hnd].
  rewrite filter_cons. case_decide; csimpl; [|by apply IH].
  apply NoDup_cons. split; [|by apply IH]. by apply not_elem_of_ids_filter.
Qed.

Section GroupAwaitsByTimepoint_merged.

Variable ir : IR.
Variable op : Operation.
Hypothesis Hnd : NoDup (op_id <$> ir).
Hypothesis Hop : lookupOp ir (op_id op) = Some op.
Hypothesis Htyped : awaitsWellTyped ir (TimepointAwaitOp.timepoint op).

(** The test of the loop, on the owner of a use of the timepoint, says
    what the specification says. *)
Lemma coversAwait_mergesInto c :
  c ∈ ir →
  coversAwait ir op c = true ∧ TimepointAwaitOp.timepoint op ∈ getOperands c
  ↔ mergesInto ir op c.
Proof.
  intros Hc.
  destruct (opIndex_elem_of ir c Hc) as [j Hj].
  destruct (opIndex_lookupOp _ _ _ Hop) as [i Hi].
  split.
  - intros [Hcov Htp]. unfold coversAwait in Hcov.
    case_decide as Hid; [done|].
    destruct (bool_decide (op_block c ≠ op_block op)) eqn:Hblock; [done|].
    destruct (isBeforeInBlock ir (op_id c) (op_id op)) eqn:Hbefore; [done|].
    destruct (bool_decide (op_name c = stream_timepoint_await)) eqn:Hname;
      [|done].
    destruct (areCompatible (op_affinity op) (op_affinity c)) eqn:Hcompat;
      [|done].
    apply bool_decide_eq_true in Hname.
    apply bool_decide_eq_false, dec_stable in Hblock.
    destruct (Htyped c Hc Hname) as (os & ss & t & Hops & Hos & Hss).
    split; [done|]. split.
    { unfold getOperands in Htp. rewrite Hops in Htp. simpl in Htp.
      rewrite ?app_nil_r in Htp.
      apply elem_of_app in Htp as [Htp|Htp]; [done|].
      apply elem_of_app in Htp as [Htp|Htp]; [done|].
      apply list_elem_of_singleton in Htp.
      unfold TimepointAwaitOp.timepoint at 1, getODSOperands.
      by rewrite Hops. }
    split; [done|]. split; [done|].
    apply (isBeforeInBlock_false _ _ _ _ _ Hj Hi) in Hbefore
      as [Hbefore|Hsame]; [done|]. by destruct Hid.
  - intros (Hname & Htp & Hblock & Hcompat & Hbefore).
    destruct (Htyped c Hc Hname) as (os & ss & t & Hops & Hos & Hss).
    split.
    + unfold coversAwait. rewrite decide_False.
      2: { intros Heq. rewrite Heq, isBefore_irrefl in Hbefore. done. }
      rewrite (bool_decide_eq_false_2 (op_block c ≠ op_block op))
        by naive_solver.
      assert (isBeforeInBlock ir (op_id c) (op_id op) = false) as ->.
      { apply (isBeforeInBlock_false _ _ _ _ _ Hj Hi). by left. }
      simpl. rewrite (bool_decide_eq_true_2 (op_name c = _)) by done.
      by rewrite Hcompat.
    + rewrite <- Htp. unfold TimepointAwaitOp.timepoint, getODSOperands,
        getOperands. rewrite Hops. simpl.
      rewrite !elem_of_app, list_elem_of_singleton. by right; right.
Qed.

(** The loop over the use list keeps, of every operation of the IR, one
    entry when the operation is merged and none otherwise. *)
Lemma coveredOps_of_owner c :
  c ∈ ir →
  omap (fun use : OpId * nat =>
          match lookupOp ir use.1 with
          | Some owner => if coversAwait ir op owner then Some owner else None
          | None => None
          end)
       (usesIn (TimepointAwaitOp.timepoint op) (op_id c) 0 (getOperands c))
  = if decide (mergesInto ir op c) then [c] else [].
Proof.
  intros Hc. case_decide as Hm.
  - destruct (proj2 (coversAwait_mergesInto c Hc) Hm) as [Hcov _].
    destruct Hm as (Hname & Htp & _).
    destruct (Htyped c Hc Hname) as (os & ss & t & Hops & Hos & Hss).
    assert (t = TimepointAwaitOp.timepoint op) as Ht.
    { rewrite <- Htp. unfold TimepointAwaitOp.timepoint, getODSOperands.
      by rewrite Hops. }
    unfold getOperands. rewrite Hops. simpl. rewrite ?app_nil_r.
    rewrite !usesIn_app, (usesIn_not_elem_of _ _ _ os) by done.
    rewrite (usesIn_not_elem_of _ _ _ ss) by done. simpl.
    rewrite decide_True by done. simpl.
    by rewrite (lookupOp_elem_of ir c Hnd Hc), Hcov.
  - apply elem_of_nil_inv. intros x Hx.
    apply list_elem_of_omap in Hx as (use & Huse & Hx).
    apply elem_of_usesIn in Huse as (k & -> & Hk). simpl in Hx.
    rewrite (lookupOp_elem_of ir c Hnd Hc) in Hx.
    destruct (coversAwait ir op c) eqn:Hcov; [|done].
    apply Hm, coversAwait_mergesInto; [done|]. split; [done|].
    by eapply list_elem_of_lookup_2.
Qed.

Lemma coveredOps_of_owners (l : IR) :
  (∀ c, c ∈ l → c ∈ ir) →
  omap (fun use : OpId * nat =>
          match lookupOp ir use.1 with
          | Some owner => if coversAwait ir op owner then Some owner else None
          | None => None
          end)
       (usesInProgramOrder l (TimepointAwaitOp.timepoint op))
  = filter (mergesInto ir op) l.
Proof.
  unfold usesInProgramOrder.
  induction l as [|c l IH]; intros Hsub; csimpl; [done|].
  rewrite omap_app, IH by (intros; apply Hsub; by right).
  rewrite coveredOps_of_owner by (apply Hsub; left).
  rewrite filter_cons. by case_decide.
Qed.

(** The covered ops of the pattern are the awaits the specification
    merges, from the last one of the block to the first. *)
Lemma coveredOps_mergedAwaits : coveredOps ir op = mergedAwaits ir op.
Proof.
  unfold coveredOps, mergedAwaits, getUses.
  by rewrite omap_reverse, coveredOps_of_owners.
Qed.

Lemma elem_of_mergedAwaits c :
  c ∈ mergedAwaits ir op ↔ c ∈ ir ∧ mergesInto ir op c.
Proof.
  unfold mergedAwaits. rewrite elem_of_reverse, list_elem_of_filter.
  naive_solver.
Qed.

Lemma NoDup_mergedAwaits : NoDup (op_id <$> mergedAwaits ir op).
Proof.
  unfold mergedAwaits. rewrite fmap_reverse, reverse_Permutation.
  by apply NoDup_ids_filter.
Qed.

End GroupAwaitsByTimepoint_merged.



(** On the example the newest use of the timepoint is that of op 7, so the
    merged await (op 9) takes [%4] before [%3]. *)
Example GroupAwaitsByTimepoint_three :
  GroupAwaitsByTimepoint groupThreeIR groupFirstOp
  = (success,
     [mkOp 1 other_op 0 [] [TimepointType] [] None;
      mkOp 2 other_op 0 [] [ResourceType External] [] None;
      mkOp 3 other_op 0 [] [ResourceType External] [] None;
      mkOp 4 other_op 0 [] [ResourceType Transient] [] None;
      TimepointAwaitOp.build 9 0
        [ResourceType External; ResourceType Transient;
         ResourceType External]
        [OpResult 2 0; OpResult 4 0; OpResult 3 0]
        [BlockArgument 0 0; BlockArgument 0 2; BlockArgument 0 1]
        (OpResult 1 0) None;
      mkOp 8 other_op 0 [[OpResult 9 0; OpResult 9 2; OpResult 9 1]]
        [] [] None]).
Proof. vm_compute. reflexivity. Qed.

(** ** GroupAwaitsByTimepoint: the place of the merged await *)

Lemma eraseOps_app l1 l2 ids :
  eraseOps (l1 ++ l2) ids = eraseOps l1 ids ++ eraseOps l2 ids.
Proof. unfold eraseOps. apply filter_app. Qed.

Lemma eraseOps_cons_keep o l ids :
  op_id o ∉ ids → eraseOps (o :: l) ids = o :: eraseOps l ids.
Proof. intros Hn. unfold eraseOps. by rewrite filter_cons, decide_True. Qed.

Lemma mapOperands_app f l1 l2 :
  mapOperands f (l1 ++ l2) = mapOperands f l1 ++ mapOperands f l2.
Proof. unfold mapOperands. apply fmap_app. Qed.

Lemma mapOperands_cons f o l :
  mapOperands f (o :: l)
  = withOperands o (fmap (M:=list) f <$> op_operands o) :: mapOperands f l.
Proof. done. Qed.

Lemma not_elem_of_ids_rerouted f (l : IR) ids id :
  id ∉ op_id <$> l → id ∉ op_id <$> eraseOps (mapOperands f l) ids.
Proof.
  intros Hn. unfold eraseOps. apply not_elem_of_ids_filter.
  by rewrite fmap_op_id_mapOperands.
Qed.

(** X24: the merged await stands in the place of the root await, and the
    pattern does not look at where the operands of the covered awaits are
    produced.  So an operand of a covered await whose producer stands
    behind the root is, after the rewrite, an operand of the merged await,
    which stands in front of that producer. *)
Theorem GroupAwaitsByTimepoint_operand_order ir op c p k :
  NoDup (op_id <$> ir) → lookupOp ir (op_id op) = Some op →
  c ∈ coveredOps ir op →
  OpResult (op_id p) k ∈ TimepointAwaitOp.operands c →
  p ∈ ir → isBeforeInBlock ir (op_id op) (op_id p) = true →
  (∀ m, m ∈ coveredOps ir op → op_id m ≠ op_id p) →
  ∃ newOp,
    lookupOp (GroupAwaitsByTimepoint ir op).2 (freshId ir) = Some newOp
    ∧ op_name newOp = stream_timepoint_await
    ∧ OpResult (op_id p) k ∈ TimepointAwaitOp.operands newOp
    ∧ is_Some (lookupOp (GroupAwaitsByTimepoint ir op).2 (op_id p))
    ∧ isBeforeInBlock (GroupAwaitsByTimepoint ir op).2 (freshId ir) (op_id p)
      = true.
Proof.
  intros Hnd Hop Hc Hv Hp Hbefore Hnotcov.
  assert (coveredOps ir op ≠ []) as Hne.
  { intros Hnil. rewrite Hnil in Hc. by apply elem_of_nil in Hc. }
  rewrite (GroupAwaitsByTimepoint_closed ir op Hne). simpl.
  set (covered := coveredOps ir op) in *.
  set (pairs := resultMap (freshId ir) 0 (op :: covered)).
  set (newOp := TimepointAwaitOp.build _ _ _ _ _ _ _).
  set (E := (op_id <$> covered) ++ [op_id op]).
  destruct (lookupOp_Some _ _ _ Hop) as [Hopin _].
  assert (op_id p ∉ E) as HpE.
  { unfold E. rewrite elem_of_app, list_elem_of_singleton. intros [Hin|Heq].
    - apply list_elem_of_fmap in Hin as (m & Hid & Hm).
      by apply (Hnotcov m Hm).
    - rewrite Heq, isBefore_irrefl in Hbefore. done. }
  assert (freshId ir ∉ E) as HfE.
  { unfold E. rewrite elem_of_app, list_elem_of_singleton. intros [Hin|Heq].
    - apply list_elem_of_fmap in Hin as (m & Hid & Hm).
      apply coveredOps_ids in Hm as [Hm _].
      apply (freshId_not_elem_of ir). rewrite Hid.
      by apply list_elem_of_fmap_2.
    - apply (freshId_not_elem_of ir). rewrite Heq.
      by apply list_elem_of_fmap_2. }
  assert (applySubs pairs (OpResult (op_id p) k) = OpResult (op_id p) k)
    as Hsame.
  { apply applySubs_not_elem_of. intros Hin.
    apply list_elem_of_fmap in Hin as (pr & Hfst & Hpr).
    apply elem_of_resultMap in Hpr as (m & j & j' & Hm & _ & ->).
    simpl in Hfst. injection Hfst as Hid.
    apply elem_of_cons in Hm as [->|Hm].
    - rewrite Hid, isBefore_irrefl in Hbefore. done.
    - by apply (Hnotcov m Hm). }
  exists (withOperands newOp
            (fmap (M:=list) (applySubs pairs) <$> op_operands newOp)).
  split.
  { rewrite lookupOp_eraseOps, decide_False by done.
    rewrite lookupOp_mapOperands, lookupOp_insertBefore.
    - by rewrite decide_True.
    - by apply list_elem_of_fmap_2.
    - apply freshId_not_elem_of. }
  split; [done|]. split.
  { unfold TimepointAwaitOp.operands, getODSOperands. simpl.
    rewrite <- Hsame. apply list_elem_of_fmap_2.
    apply elem_of_app. right. apply list_elem_of_bind. by exists c. }
  split.
  { rewrite lookupOp_eraseOps, decide_False by done.
    rewrite lookupOp_mapOperands, lookupOp_insertBefore.
    - rewrite decide_False.
      + rewrite (lookupOp_elem_of ir p Hnd Hp). simpl. eauto.
      + intros Heq. apply (freshId_not_elem_of ir).
        change (op_id newOp) with (freshId ir) in Heq. rewrite <- Heq.
        by apply list_elem_of_fmap_2.
    - by apply list_elem_of_fmap_2.
    - apply freshId_not_elem_of. }
  destruct (isBefore_split ir op p Hnd Hopin Hp Hbefore)
    as (a & b & d & Hir).
  pose proof Hnd as Hnd'. rewrite Hir in Hnd'.
  rewrite fmap_app in Hnd'. csimpl in Hnd'. rewrite fmap_app in Hnd'.
  csimpl in Hnd'.
  apply NoDup_app in Hnd' as (_ & Hda & Hnd').
  apply NoDup_cons in Hnd' as [Hopb Hnd'].
  apply NoDup_app in Hnd' as (_ & Hdb & Hnd').
  apply NoDup_cons in Hnd' as [Hpd _].
  assert (op_id op ∉ op_id <$> a) as Hopa.
  { intros Hin. apply (Hda _ Hin). left. }
  assert (op_id p ∉ op_id <$> a) as Hpa.
  { intros Hin. apply (Hda _ Hin). right. apply elem_of_app. right. left. }
  assert (op_id p ∉ op_id <$> b) as Hpb.
  { intros Hin. apply (Hdb _ Hin). left. }
  assert (freshId ir ∉ op_id <$> a) as Hfa.
  { assert (∀ x, x ∈ op_id <$> a → x ∈ op_id <$> ir) as Hsub.
    { intros x Hx. rewrite Hir, fmap_app. apply elem_of_app. by left. }
    intros Hin. by apply (freshId_not_elem_of ir), Hsub. }
  assert (op_id p ∉ op_id <$> op :: b) as Hpob.
  { csimpl. apply not_elem_of_cons. split; [|done]. intros Heq.
    rewrite Heq, isBefore_irrefl in Hbefore. done. }
  assert (insertBefore ir (op_id op) newOp
          = a ++ newOp :: op :: b ++ p :: d) as ->.
  { rewrite Hir. by apply insertBefore_split. }
  set (ob := op :: b) in *.
  change (a ++ newOp :: op :: b ++ p :: d)
    with (a ++ newOp :: ob ++ p :: d).
  set (σ := applySubs pairs) in *.
  rewrite mapOperands_app, mapOperands_cons, mapOperands_app,
    mapOperands_cons.
  rewrite eraseOps_app, eraseOps_cons_keep by exact HfE.
  rewrite eraseOps_app, eraseOps_cons_keep by exact HpE.
  apply (isBefore_of_split _ (withOperands newOp _) _ (withOperands p _) _).
  - apply not_elem_of_ids_rerouted. exact Hfa.
  - apply not_elem_of_ids_rerouted. exact Hpa.
  - intros Heq. apply (freshId_not_elem_of ir).
    change (op_id p = freshId ir) in Heq. rewrite <- Heq.
    by apply list_elem_of_fmap_2.
  - apply not_elem_of_ids_rerouted. exact Hpob.
Qed.

Lemma GroupAwaitsByTimepoint_operand_order_witness :
  ∃ newOp,
    lookupOp (GroupAwaitsByTimepoint lateOperandIR groupRootOp).2 8
    = Some newOp
    ∧ OpResult 3 0 ∈ TimepointAwaitOp.operands newOp
    ∧ isBeforeInBlock (GroupAwaitsByTimepoint lateOperandIR groupRootOp).2
        8 3 = true.
Proof.
  destruct (GroupAwaitsByTimepoint_operand_order lateOperandIR groupRootOp
              groupOtherOp
              (mkOp 3 other_op 0 [] [ResourceType External] [] None) 0)
    as (newOp & Hlook & _ & Hin & _ & Hbefore).
  - by_compute.
  - reflexivity.
  - by_compute.
  - by_compute.
  - by_compute.
  - reflexivity.
  - intros m Hm. vm_compute in Hm.
    apply list_elem_of_singleton in Hm as ->. discriminate.
  - exists newOp. split; [exact Hlook|]. split; [exact Hin | exact Hbefore].
Defined.

(** On the example the merged await (op 8) takes the place of op 4 and
    reads [%3], which op 3 produces behind it. *)
Example GroupAwaitsByTimepoint_late_operand :
  GroupAwaitsByTimepoint lateOperandIR groupRootOp
  = (success,
     [mkOp 1 other_op 0 [] [TimepointType] [] None;
      mkOp 2 other_op 0 [] [ResourceType External] [] None;
      TimepointAwaitOp.build 8 0
        [ResourceType External; ResourceType External]
        [OpResult 2 0; OpResult 3 0] [BlockArgument 0 0; BlockArgument 0 1]
        (OpResult 1 0) None;
      mkOp 3 other_op 0 [] [ResourceType External] [] None;
      mkOp 7 other_op 0 [[OpResult 8 1]] [] [] None]).
Proof. vm_compute. reflexivity. Qed.

(** ** MaterializeCOW and ElideUnneededAsyncClones *)

Lemma rounds_NoDup queryValueSize op rs :
  ∀ cur b,
    NoDup (op_id <$> cur) →
    NoDup (op_id <$> (foldl (materializeResult queryValueSize op) (b, cur)
                        rs).2).
Proof.
  induction rs as [|[j ty] rs IH]; intros cur b Hnd; simpl; [done|].
  destruct (materializeResult_frame queryValueSize op cur b j ty Hnd)
    as (Hnd1 & _).
  destruct (materializeResult queryValueSize op (b, cur) (j, ty))
    as [b1 cur1]. by apply IH.
Qed.

(** X25: the clones that MaterializeCOW inserts stay.  The clone made for
    a tied use of a result is read by that use, which is tied, so
    ElideUnneededAsyncClones fails on it and leaves the IR as it is: the
    two patterns do not undo each other. *)
Theorem MaterializeCOW_clones_stay queryValueSize ir op i lifetime use :
  NoDup (op_id <$> ir) →
  lookupOp ir (op_id op) = Some op →
  (∀ v j lt, op_result_types op !! j = Some (ResourceType lt) →
             queryValueSize v ≠ OpResult (op_id op) j) →
  op_result_types op !! i = Some (ResourceType lifetime) →
  keepsResult lifetime (cowTiedUses ir (OpResult (op_id op) i))
    (cowUntiedUses ir (OpResult (op_id op) i)) = false →
  use ∈ cowTiedUses ir (OpResult (op_id op) i) →
  ∃ cloneOp,
    lookupOp ir (op_id cloneOp) = None
    ∧ lookupOp (MaterializeCOW queryValueSize ir op).2 (op_id cloneOp)
      = Some cloneOp
    ∧ op_name cloneOp = stream_async_clone
    ∧ AsyncCloneOp.source cloneOp = OpResult (op_id op) i
    ∧ operandAt (MaterializeCOW queryValueSize ir op).2 use
      = Some (AsyncCloneOp.result cloneOp)
    ∧ ElideUnneededAsyncClones (MaterializeCOW queryValueSize ir op).2 cloneOp
      = (failure, (MaterializeCOW queryValueSize ir op).2).
Proof.
  intros Hnd Hop Hsize Hi Hkeep Huse.
  assert (cowInvariant op ir ir (imap pair (op_result_types op))) as Hinv.
  { split; [done|]. split; [|done]. intros id o Ho.
    exists (op_operands o). by rewrite withOperands_id. }
  assert (NoDup (fst <$> imap pair (op_result_types op))) as Hrs.
  { rewrite (fst_imap_pair _ 0). apply NoDup_seq. }
  assert (∀ j ty, (j, ty) ∈ imap pair (op_result_types op) →
                  op_result_types op !! j = Some ty) as Htys.
  { intros j ty. by apply elem_of_imap_pair. }
  pose proof (rounds_main queryValueSize op ir (ltac:(eauto)) Hsize
                (imap pair (op_result_types op)) ir false i lifetime
                Hinv Hrs Htys) as Hmain.
  unfold cowOutcome in Hmain. rewrite Hkeep in Hmain.
  destruct Hmain as (_ & Htied & _); [by apply elem_of_imap_pair|].
  destruct (Htied use Huse) as (userOp & n & Hu & Hn & Hat & Hcl & _).
  destruct (rounds_frame queryValueSize op ir (ltac:(eauto)) Hsize
              (imap pair (op_result_types op)) ir false Hinv Hrs Htys)
    as [Hframe _].
  destruct (Hframe _ _ Hu) as (g & Hg & _).
  pose proof (rounds_NoDup queryValueSize op
                (imap pair (op_result_types op)) ir false Hnd) as Hnd1.
  change (foldl (materializeResult queryValueSize op) (false, ir)
            (imap pair (op_result_types op))).2
    with (MaterializeCOW queryValueSize ir op).2 in *.
  set (out := (MaterializeCOW queryValueSize ir op).2) in *.
  exists (cowClone queryValueSize n (op_block userOp) (OpResult (op_id op) i)
            (cloneAffinity (op_affinity userOp) (op_affinity op))).
  split; [exact Hn|]. split; [exact Hcl|].
  split; [done|]. split; [done|]. split; [exact Hat|].
  unfold ElideUnneededAsyncClones.
  assert (hasAnyTiedUses out
            (AsyncCloneOp.result
               (cowClone queryValueSize n (op_block userOp)
                  (OpResult (op_id op) i)
                  (cloneAffinity (op_affinity userOp) (op_affinity op))))
          = true) as ->; [|done].
  unfold hasAnyTiedUses. apply existsb_exists. exists use. split.
  - apply list_elem_of_In. by apply getUses_operandAt.
  - rewrite Hg.
    apply elem_of_cowTiedUses in Huse as (_ & owner & Howner & _ & Htiedk).
    rewrite Hu in Howner. by injection Howner as <-.
Qed.

Lemma MaterializeCOW_clones_stay_witness :
  ∃ cloneOp,
    lookupOp (MaterializeCOW cowSizes cowConstantIR cowConstantOp).2
      (op_id cloneOp) = Some cloneOp
    ∧ operandAt (MaterializeCOW cowSizes cowConstantIR cowConstantOp).2 (3, 0)
      = Some (AsyncCloneOp.result cloneOp)
    ∧ ElideUnneededAsyncClones
        (MaterializeCOW cowSizes cowConstantIR cowConstantOp).2 cloneOp
      = (failure, (MaterializeCOW cowSizes cowConstantIR cowConstantOp).2).
Proof.
  destruct (MaterializeCOW_clones_stay cowSizes cowConstantIR cowConstantOp 0
              Constant (3, 0))
    as (cloneOp & _ & Hlook & _ & _ & Hat & Hstay).
  - by_compute.
  - reflexivity.
  - intros v j lt _. discriminate.
  - reflexivity.
  - reflexivity.
  - by_compute.
  - exists cloneOp. split; [exact Hlook|]. split; [exact Hat | exact Hstay].
Defined.
